(** * The bucketed GPU memory controller of zellij, and its compactor

    A shallow embedding of [internal/render/render.go] (the memory
    controller: bucket pools, batches, slots, growth) and of
    [internal/memory/compactor.go] (the scan for sparse batches),
    followed by theorems about them.

    Conventions of the embedding.
    - Go's [int] is a 64-bit two's complement integer.  Vertex counts,
      capacities, offsets and counters are [Z], and every [+], [-], [*]
      on them goes through [wrap].  Slice lengths, slice positions and
      batch ids are [nat]: they count elements that exist in memory.
    - A [*Batch] is represented by the id of the batch it points to
      ([createBatch] draws the id from [nextBatchID] and never hands it
      out twice); the batch objects live in the [heap] of the
      controller.  Dereferencing a pointer that is not in the heap, or
      indexing a slice out of range, is a panic: [None].
    - Go's [error] results are a [status] next to the state reached.
    - The OpenGL objects (vbo, vao, buffer contents) and the timing
      statistics are outside the model.
    - The [float64] utilisation of a batch, a quotient of two slice
      lengths, is the exact rational [Q]; the thresholds 0.75 and 0.25 it
      is compared against are dyadic. *)

From Stdlib Require Import ZArith QArith Lia Sorting.Sorted Permutation.
From stdpp Require Import base option list gmap sets.

Local Open Scope Z_scope.

(** ** Machine integers *)

Definition int_min : Z := - 2 ^ 63.
Definition int_max : Z := 2 ^ 63 - 1.

Definition wrap (z : Z) : Z := (z + 2 ^ 63) mod 2 ^ 64 - 2 ^ 63.

Definition int_add (a b : Z) : Z := wrap (a + b).
Definition int_sub (a b : Z) : Z := wrap (a - b).
Definition int_mul (a b : Z) : Z := wrap (a * b).

Definition in_int (z : Z) : Prop := int_min <= z <= int_max.

(** ** Configuration constants *)

Definition DefragEnableCompaction : bool := true.
Definition DefragThreshold : Q := 1 # 4.
Definition DefragMaxPerFrame : nat := 1.

Definition GrowthEnableDynamic : bool := true.
Definition GrowthUtilThreshold : Q := 3 # 4.
Definition GrowthMaxCycles : Z := 2.
Definition GrowthMaxBatchBytes : Z := 256 * 1024 * 1024.

Definition FreeListEnableSorted : bool := true.

Definition vertexCapacityS : Z := 1024.
Definition vertexCapacityM : Z := 4096.
Definition vertexCapacityL : Z := 16384.
Definition vertexCapacityXL : Z := 65536.
Definition slotsPerBatchS : nat := 256.
Definition slotsPerBatchM : nat := 128.
Definition slotsPerBatchL : nat := 64.
Definition slotsPerBatchXL : nat := 16.
Definition slotsPerBatchXXL : nat := 1.

(** ** Data model *)

Inductive BucketSize : Set :=
| BucketS | BucketM | BucketL | BucketXL | BucketXXL.

#[global] Instance BucketSize_eq_dec : EqDecision BucketSize.
Proof. solve_decision. Defined.

Definition bucketSizes : list BucketSize :=
  [BucketS; BucketM; BucketL; BucketXL; BucketXXL].

Abbreviation ClusterID := Z.

(** A [float32] is carried as its bit pattern; the controller only ever
    takes the length of a payload. *)
Abbreviation float32 := Z.

Record Slot : Set := mkSlot {
  active : bool;
  clusterID : ClusterID;
  vertexCount : Z;
  vertexOffset : Z
}.

Record Batch : Set := mkBatch {
  batch_id : nat;
  totalVertexCapacity : Z;
  slots : list Slot;
  activeSlots : list nat;
  bucketSize : BucketSize;
  growthCycles : Z;
  initialCapacity : Z
}.

Record SlotRef : Set := mkSlotRef {
  ref_batch : nat;
  ref_slotIndex : nat
}.

#[global] Instance SlotRef_eq_dec : EqDecision SlotRef.
Proof. solve_decision. Defined.

Record SlotAllocation : Set := mkSlotAllocation {
  alloc_batch : nat;
  alloc_slotIndex : nat;
  alloc_vertexCount : Z
}.

Record BucketPool : Set := mkBucketPool {
  pool_size : BucketSize;
  vertexCapacityPerSlot : Z;
  slotsPerBatch : nat;
  batches : list nat;
  freeSlots : list SlotRef
}.

Record Stats : Set := mkStats {
  CompactionEvents : Z;
  BatchDeletions : Z;
  SlotsRelocated : Z;
  GrowthEvents : Z
}.

Record MemoryController : Type := mkMemoryController {
  heap : gmap nat Batch;
  buckets : BucketSize -> BucketPool;
  clusterSlots : gmap Z SlotAllocation;
  stats : Stats;
  clustersNeedingReupload : gset Z;
  nextBatchID : nat
}.

Inductive error : Set :=
| ErrEmptyVertexData
| ErrNotMultipleOf6
| ErrRemoveForReallocation
| ErrCreateBatch
| ErrAllocateSlot
| ErrUpload
| ErrClusterNotFound
| ErrNoAvailableSlots
| ErrBatchCannotGrow
| ErrBatchNotEmpty.

Inductive status : Set :=
| ok
| failed (e : error).

(** The two errors the specification calls [InvalidPayload]. *)
Definition InvalidPayload (s : status) : Prop :=
  s = failed ErrEmptyVertexData \/ s = failed ErrNotMultipleOf6.

(** Field updates. *)

Definition set_freeSlots (bp : BucketPool) (fs : list SlotRef) : BucketPool :=
  mkBucketPool (pool_size bp) (vertexCapacityPerSlot bp) (slotsPerBatch bp)
    (batches bp) fs.

Definition set_batches (bp : BucketPool) (bs : list nat) : BucketPool :=
  mkBucketPool (pool_size bp) (vertexCapacityPerSlot bp) (slotsPerBatch bp)
    bs (freeSlots bp).

Definition set_slots (b : Batch) (ss : list Slot) : Batch :=
  mkBatch (batch_id b) (totalVertexCapacity b) ss (activeSlots b)
    (bucketSize b) (growthCycles b) (initialCapacity b).

Definition set_activeSlots (b : Batch) (a : list nat) : Batch :=
  mkBatch (batch_id b) (totalVertexCapacity b) (slots b) a
    (bucketSize b) (growthCycles b) (initialCapacity b).

Definition set_heap (mc : MemoryController) (h : gmap nat Batch) : MemoryController :=
  mkMemoryController h (buckets mc) (clusterSlots mc) (stats mc)
    (clustersNeedingReupload mc) (nextBatchID mc).

Definition set_buckets (mc : MemoryController) (f : BucketSize -> BucketPool)
  : MemoryController :=
  mkMemoryController (heap mc) f (clusterSlots mc) (stats mc)
    (clustersNeedingReupload mc) (nextBatchID mc).

Definition set_clusterSlots (mc : MemoryController) (m : gmap Z SlotAllocation)
  : MemoryController :=
  mkMemoryController (heap mc) (buckets mc) m (stats mc)
    (clustersNeedingReupload mc) (nextBatchID mc).

Definition set_stats (mc : MemoryController) (s : Stats) : MemoryController :=
  mkMemoryController (heap mc) (buckets mc) (clusterSlots mc) s
    (clustersNeedingReupload mc) (nextBatchID mc).

Definition set_clustersNeedingReupload (mc : MemoryController) (s : gset Z)
  : MemoryController :=
  mkMemoryController (heap mc) (buckets mc) (clusterSlots mc) (stats mc)
    s (nextBatchID mc).

(** [mc.buckets[k] = bp] and [*ptr = b]. *)
Definition put_bucket (mc : MemoryController) (k : BucketSize) (bp : BucketPool)
  : MemoryController :=
  set_buckets mc (fun k' => if decide (k' = k) then bp else buckets mc k').

Definition put_batch (mc : MemoryController) (k : nat) (b : Batch)
  : MemoryController :=
  set_heap mc (<[k := b]> (heap mc)).

(** ** Bucket classifier *)

Definition selectBucket (vertexCount : Z) : BucketSize :=
  if vertexCount <=? vertexCapacityS then BucketS
  else if vertexCount <=? vertexCapacityM then BucketM
  else if vertexCount <=? vertexCapacityL then BucketL
  else if vertexCount <=? vertexCapacityXL then BucketXL
  else BucketXXL.

Definition vertexCapacityForBucket (bucket : BucketSize) : Z :=
  match bucket with
  | BucketS => vertexCapacityS
  | BucketM => vertexCapacityM
  | BucketL => vertexCapacityL
  | BucketXL => vertexCapacityXL
  | BucketXXL => 0
  end.

Definition slotsPerBatchForBucket (bucket : BucketSize) : nat :=
  match bucket with
  | BucketS => slotsPerBatchS
  | BucketM => slotsPerBatchM
  | BucketL => slotsPerBatchL
  | BucketXL => slotsPerBatchXL
  | BucketXXL => slotsPerBatchXXL
  end.

(** ** Bucket pool *)

Definition newBucketPool (size : BucketSize) : BucketPool :=
  mkBucketPool size (vertexCapacityForBucket size)
    (slotsPerBatchForBucket size) [] [].

Definition findFreeSlot (bp : BucketPool) : option SlotRef * BucketPool :=
  match freeSlots bp with
  | [] => (None, bp)
  | ref :: rest =>
      if FreeListEnableSorted then (Some ref, set_freeSlots bp rest)
      else (last (freeSlots bp),
            set_freeSlots bp (take (length (freeSlots bp) - 1) (freeSlots bp)))
  end.

(** The loop of [addFreeSlot]: [i] is the position of the head of [l] in
    the free list and [insertIdx] the value of the variable so far. *)
Fixpoint addFreeSlot_scan (ref : SlotRef) (i insertIdx : nat) (l : list SlotRef)
  : nat :=
  match l with
  | [] => insertIdx
  | existing :: l' =>
      if (ref_batch ref <? ref_batch existing)%nat then i
      else if (ref_batch existing <? ref_batch ref)%nat
           then addFreeSlot_scan ref (S i) insertIdx l'
      else if (ref_slotIndex ref <? ref_slotIndex existing)%nat then i
      else addFreeSlot_scan ref (S i) (S i) l'
  end.

Definition addFreeSlot (bp : BucketPool) (ref : SlotRef) : BucketPool :=
  if negb FreeListEnableSorted then set_freeSlots bp (freeSlots bp ++ [ref])
  else
    let insertIdx := addFreeSlot_scan ref 0 0 (freeSlots bp) in
    if (length (freeSlots bp) <=? insertIdx)%nat
    then set_freeSlots bp (freeSlots bp ++ [ref])
    else set_freeSlots bp
           (take insertIdx (freeSlots bp) ++ ref :: drop insertIdx (freeSlots bp)).

Definition removeFromFreeList (bp : BucketPool) (batch : nat) (slotIndex : nat)
  : BucketPool :=
  set_freeSlots bp
    (filter (fun ref => ~ (ref_batch ref = batch /\ ref_slotIndex ref = slotIndex))
       (freeSlots bp)).

Fixpoint findBatchWithCapacity_loop (h : gmap nat Batch) (bs : list nat)
  : option (option nat) :=
  match bs with
  | [] => Some None
  | k :: bs' =>
      batch ← h !! k;
      if (length (activeSlots batch) <? length (slots batch))%nat
      then Some (Some k)
      else findBatchWithCapacity_loop h bs'
  end.

Definition findBatchWithCapacity (h : gmap nat Batch) (bp : BucketPool)
  : option (option nat) :=
  findBatchWithCapacity_loop h (batches bp).

(** ** Batch *)

Definition createBatch (mc : MemoryController) (bucket : BucketSize)
  (vertexCount : Z) : nat * MemoryController :=
  let pool := buckets mc bucket in
  let totalVertexCapacity :=
    if decide (bucket = BucketXXL) then vertexCount
    else int_mul (vertexCapacityPerSlot pool) (Z.of_nat (slotsPerBatch pool)) in
  let numSlots :=
    if decide (bucket = BucketXXL) then 1%nat else slotsPerBatch pool in
  let slots :=
    if decide (bucket = BucketXXL) then [mkSlot false 0 0 0]
    else (fun i => mkSlot false 0 0
                     (int_mul (Z.of_nat i) (vertexCapacityPerSlot pool)))
           <$> seq 0 numSlots in
  let batch :=
    mkBatch (nextBatchID mc) totalVertexCapacity slots [] bucket 0
      totalVertexCapacity in
  (nextBatchID mc,
   mkMemoryController (<[nextBatchID mc := batch]> (heap mc))
     (fun k' => if decide (k' = bucket)
                then set_batches pool (batches pool ++ [nextBatchID mc])
                else buckets mc k')
     (clusterSlots mc) (stats mc) (clustersNeedingReupload mc)
     (S (nextBatchID mc))).

(** [b.allocateSlotInBatch(pool, clusterID, vertexCount)], with [b] the
    batch behind pointer [k] and [pool] the pool of class [pk]. *)
Definition allocateSlotInBatch (mc : MemoryController) (k : nat)
  (pk : BucketSize) (cid : ClusterID) (vc : Z)
  : option (option nat * MemoryController) :=
  b ← heap mc !! k;
  match list_find (fun s => active s = false) (slots b) with
  | Some (i, s) =>
      let b' :=
        mkBatch (batch_id b) (totalVertexCapacity b)
          (<[i := mkSlot true cid vc (vertexOffset s)]> (slots b))
          (activeSlots b ++ [i]) (bucketSize b) (growthCycles b)
          (initialCapacity b) in
      let mc1 := put_batch mc k b' in
      Some (Some i,
            put_bucket mc1 pk (removeFromFreeList (buckets mc1 pk) k i))
  | None => Some (None, mc)
  end.

(** Swap with the last element and pop, at the first position holding
    [slotIndex]. *)
Definition swapRemove (l : list nat) (slotIndex : nat) : list nat :=
  match list_find (fun idx => idx = slotIndex) l with
  | Some (i, _) =>
      match last l with
      | Some x => take (length l - 1) (<[i := x]> l)
      | None => l
      end
  | None => l
  end.

Definition freeSlot (b : Batch) (slotIndex : nat) : Batch :=
  match slots b !! slotIndex with
  | None => b
  | Some slot =>
      mkBatch (batch_id b) (totalVertexCapacity b)
        (<[slotIndex := mkSlot false 0 0 (vertexOffset slot)]> (slots b))
        (swapRemove (activeSlots b) slotIndex)
        (bucketSize b) (growthCycles b) (initialCapacity b)
  end.

Definition Qltb (x y : Q) : bool :=
  match (x ?= y)%Q with Lt => true | _ => false end.

(** [float64(len(b.activeSlots)) / float64(len(b.slots))]; only used
    where [len(b.slots)] is not zero. *)
Definition utilization (b : Batch) : Q :=
  Z.of_nat (length (activeSlots b)) # Pos.of_nat (length (slots b)).

Definition canGrow (b : Batch) : bool :=
  if negb GrowthEnableDynamic then false
  else if GrowthMaxCycles <=? growthCycles b then false
  else if (length (slots b) =? 0)%nat then false
  else
    let util := utilization b in
    if Qltb util GrowthUtilThreshold then false
    else
      let newCapacity := int_mul (totalVertexCapacity b) 2 in
      let newSizeBytes := int_mul (int_mul newCapacity 6) 4 in
      newSizeBytes <=? GrowthMaxBatchBytes.

(** The loop creating the slots [i .. i+n-1] of a grown batch. *)
Fixpoint growBatch_loop (k : nat) (perSlot : Z) (n i : nat) (vertexOffset : Z)
  (ss : list Slot) (pool : BucketPool) : list Slot * BucketPool :=
  match n with
  | O => (ss, pool)
  | S n' =>
      growBatch_loop k perSlot n' (S i) (int_add vertexOffset perSlot)
        (<[i := mkSlot false 0 0 vertexOffset]> ss)
        (addFreeSlot pool (mkSlotRef k i))
  end.

Definition growBatch (mc : MemoryController) (k : nat)
  : option (list ClusterID * status * MemoryController) :=
  batch ← heap mc !! k;
  if negb (canGrow batch) then Some ([], failed ErrBatchCannotGrow, mc)
  else
    affectedClusters ←
      mapM (fun slotIdx => clusterID <$> slots batch !! slotIdx)
        (activeSlots batch);
    let newCapacity := int_mul (totalVertexCapacity batch) 2 in
    let newSlotCount := (length (slots batch) * 2)%nat in
    let oldSlots := slots batch in
    let pool := buckets mc (bucketSize batch) in
    let '(newSlots, pool') :=
      growBatch_loop k (vertexCapacityPerSlot pool)
        (newSlotCount - length oldSlots) (length oldSlots)
        (int_mul (vertexCapacityPerSlot pool) (Z.of_nat (length oldSlots)))
        (oldSlots ++ replicate (newSlotCount - length oldSlots)
                       (mkSlot false 0 0 0))
        pool in
    let batch' :=
      mkBatch (batch_id batch) newCapacity newSlots (activeSlots batch)
        (bucketSize batch) (int_add (growthCycles batch) 1)
        (initialCapacity batch) in
    let mc1 := put_bucket (put_batch mc k batch') (bucketSize batch) pool' in
    let st := stats mc1 in
    Some (affectedClusters, ok,
          set_stats mc1
            (mkStats (CompactionEvents st) (BatchDeletions st)
               (SlotsRelocated st) (int_add (GrowthEvents st) 1))).

(** ** Memory controller *)

Definition NewMemoryController : MemoryController :=
  mkMemoryController ∅ newBucketPool ∅ (mkStats 0 0 0 0) ∅ 0.

Definition markClustersForReupload (mc : MemoryController)
  (clusterIDs : list ClusterID) : MemoryController :=
  set_clustersNeedingReupload mc
    (foldl (fun s id => {[id]} ∪ s) (clustersNeedingReupload mc) clusterIDs).

Definition GetAndClearClustersNeedingReupload (mc : MemoryController)
  : list ClusterID * MemoryController :=
  if decide (size (clustersNeedingReupload mc) = 0%nat) then ([], mc)
  else (elements (clustersNeedingReupload mc),
        set_clustersNeedingReupload mc ∅).

Definition updateSlotInPlace (mc : MemoryController) (alloc : SlotAllocation)
  (vc : Z) : option (status * MemoryController) :=
  b ← heap mc !! alloc_batch alloc;
  slot ← slots b !! alloc_slotIndex alloc;
  Some (ok,
        put_batch mc (alloc_batch alloc)
          (set_slots b
             (<[alloc_slotIndex alloc :=
                  mkSlot (active slot) (clusterID slot) vc (vertexOffset slot)]>
                (slots b)))).

Definition RemoveCluster (mc : MemoryController) (cid : ClusterID)
  : option (status * MemoryController) :=
  match clusterSlots mc !! cid with
  | None => Some (failed ErrClusterNotFound, mc)
  | Some alloc =>
      batch ← heap mc !! alloc_batch alloc;
      let mc1 :=
        put_batch mc (alloc_batch alloc) (freeSlot batch (alloc_slotIndex alloc)) in
      let bucket := bucketSize batch in
      let mc2 :=
        put_bucket mc1 bucket
          (addFreeSlot (buckets mc1 bucket)
             (mkSlotRef (alloc_batch alloc) (alloc_slotIndex alloc))) in
      Some (ok, set_clusterSlots mc2 (delete cid (clusterSlots mc2)))
  end.

(** The loop over the free list in [EnsureSlot].  Every turn pops one
    entry, so [length (freeSlots pool)] turns are enough; with no turn
    left the list is empty and [findFreeSlot] would answer [nil]. *)
Fixpoint EnsureSlot_freeLoop (fuel : nat) (h : gmap nat Batch)
  (pool : BucketPool) (bucket : BucketSize) (vc : Z)
  : option (option SlotRef * BucketPool) :=
  match fuel with
  | O => Some (None, pool)
  | S fuel' =>
      match findFreeSlot pool with
      | (None, pool') => Some (None, pool')
      | (Some free, pool') =>
          if decide (bucket = BucketXXL) then
            batch ← h !! ref_batch free;
            slot ← slots batch !! ref_slotIndex free;
            let slotCapacity :=
              int_sub (totalVertexCapacity batch) (vertexOffset slot) in
            if slotCapacity <? vc
            then EnsureSlot_freeLoop fuel' h pool' bucket vc
            else Some (Some free, pool')
          else Some (Some free, pool')
      end
  end.

(** The loop looking for a batch that can grow. *)
Fixpoint EnsureSlot_growLoop (mc : MemoryController) (bs : list nat)
  : option (option nat * MemoryController) :=
  match bs with
  | [] => Some (None, mc)
  | b :: bs' =>
      batch ← heap mc !! b;
      if canGrow batch then
        r ← growBatch mc b;
        match r with
        | (affectedClusters, ok, mc') =>
            Some (Some b, markClustersForReupload mc' affectedClusters)
        | (_, failed _, mc') => EnsureSlot_growLoop mc' bs'
        end
      else EnsureSlot_growLoop mc bs'
  end.

(** [slot_selected:] upload and record the location. *)
Definition EnsureSlot_record (mc : MemoryController) (cid : ClusterID)
  (batch slotIndex : nat) (vc : Z) : option (status * MemoryController) :=
  b ← heap mc !! batch;
  _ ← slots b !! slotIndex;
  Some (ok,
        set_clusterSlots mc
          (<[cid := mkSlotAllocation batch slotIndex vc]> (clusterSlots mc))).

(** The slot a popped free-list entry names is marked as taken. *)
Definition EnsureSlot_takeFree (mc : MemoryController) (free : SlotRef)
  (cid : ClusterID) (vc : Z) : option MemoryController :=
  b ← heap mc !! ref_batch free;
  s ← slots b !! ref_slotIndex free;
  Some (put_batch mc (ref_batch free)
          (mkBatch (batch_id b) (totalVertexCapacity b)
             (<[ref_slotIndex free := mkSlot true cid vc (vertexOffset s)]>
                (slots b))
             (activeSlots b ++ [ref_slotIndex free]) (bucketSize b)
             (growthCycles b) (initialCapacity b))).

(** With no free-list entry left: a batch with a free slot, else a batch
    that was grown, else a new batch. *)
Definition EnsureSlot_pickBatch (mc : MemoryController) (bucket : BucketSize)
  (vc : Z) : option (nat * MemoryController) :=
  found ← findBatchWithCapacity (heap mc) (buckets mc bucket);
  match found with
  | Some batch => Some (batch, mc)
  | None =>
      grown ←
        (if GrowthEnableDynamic && bool_decide (bucket ≠ BucketXXL)
         then EnsureSlot_growLoop mc (batches (buckets mc bucket))
         else Some (None, mc));
      match grown with
      | (Some batch, mc') => Some (batch, mc')
      | (None, mc') => Some (createBatch mc' bucket vc)
      end
  end.

(** In the unbounded class a batch too small for the payload is left
    aside for a new one. *)
Definition EnsureSlot_fitXXL (mc : MemoryController) (bucket : BucketSize)
  (vc : Z) (batch : nat) : option (nat * MemoryController) :=
  if decide (bucket = BucketXXL) then
    b ← heap mc !! batch;
    if totalVertexCapacity b <? vc
    then Some (createBatch mc bucket vc)
    else Some (batch, mc)
  else Some (batch, mc).

(** [EnsureSlot] from [pool := mc.buckets[bucketSize]] on. *)
Definition EnsureSlot_allocate (mc : MemoryController) (cid : ClusterID)
  (vc : Z) (bucket : BucketSize) : option (status * MemoryController) :=
  let pool := buckets mc bucket in
  r ← EnsureSlot_freeLoop (length (freeSlots pool)) (heap mc) pool bucket vc;
  match r with
  | (Some free, pool') =>
      mc1 ← EnsureSlot_takeFree (put_bucket mc bucket pool') free cid vc;
      EnsureSlot_record mc1 cid (ref_batch free) (ref_slotIndex free) vc
  | (None, pool') =>
      r2 ← EnsureSlot_pickBatch (put_bucket mc bucket pool') bucket vc;
      r3 ← EnsureSlot_fitXXL r2.2 bucket vc r2.1;
      r4 ← allocateSlotInBatch r3.2 r3.1 bucket cid vc;
      match r4 with
      | (None, mc') => Some (failed ErrAllocateSlot, mc')
      | (Some slotIndex, mc') => EnsureSlot_record mc' cid r3.1 slotIndex vc
      end
  end.

Definition EnsureSlot (mc : MemoryController) (cid : ClusterID)
  (vertices : list float32) : option (status * MemoryController) :=
  let len := Z.of_nat (length vertices) in
  if len =? 0 then Some (failed ErrEmptyVertexData, mc)
  else if negb (Z.rem len 6 =? 0) then Some (failed ErrNotMultipleOf6, mc)
  else
    let vc := Z.quot len 6 in
    let bucket := selectBucket vc in
    match clusterSlots mc !! cid with
    | Some existing =>
        eb ← heap mc !! alloc_batch existing;
        let existingBucketSize := bucketSize eb in
        if decide (existingBucketSize = BucketXXL) then
          slot ← slots eb !! alloc_slotIndex existing;
          let slotCapacity :=
            int_sub (totalVertexCapacity eb) (vertexOffset slot) in
          if vc <=? slotCapacity then updateSlotInPlace mc existing vc
          else
            r ← RemoveCluster mc cid;
            match r with
            | (failed _, mc') => Some (failed ErrRemoveForReallocation, mc')
            | (ok, mc') => EnsureSlot_allocate mc' cid vc bucket
            end
        else
          let pool := buckets mc existingBucketSize in
          if vc <=? vertexCapacityPerSlot pool
          then updateSlotInPlace mc existing vc
          else
            r ← RemoveCluster mc cid;
            match r with
            | (failed _, mc') => Some (failed ErrRemoveForReallocation, mc')
            | (ok, mc') => EnsureSlot_allocate mc' cid vc bucket
            end
    | None => EnsureSlot_allocate mc cid vc bucket
    end.

(** ** Compactor and batch deletion *)

Definition deleteAt {A : Type} (i : nat) (l : list A) : list A :=
  take i l ++ drop (S i) l.

Definition deleteBatch (mc : MemoryController) (batch : nat)
  : option (status * MemoryController) :=
  b ← heap mc !! batch;
  if (0 <? length (activeSlots b))%nat then
    _ ← mapM (fun slotIdx => slots b !! slotIdx) (activeSlots b);
    Some (failed ErrBatchNotEmpty, mc)
  else
    let pool := buckets mc (bucketSize b) in
    let newBatches :=
      match list_find (fun k => k = batch) (batches pool) with
      | Some (i, _) => deleteAt i (batches pool)
      | None => batches pool
      end in
    let newFreeSlots :=
      filter (fun ref => ref_batch ref ≠ batch) (freeSlots pool) in
    Some (ok,
          put_bucket mc (bucketSize b)
            (mkBucketPool (pool_size pool) (vertexCapacityPerSlot pool)
               (slotsPerBatch pool) newBatches newFreeSlots)).

(** The search of [copySlotData] for the position, in the active list,
    of the slot owned by [cid]; [i] is the position of the head of [l]. *)
Fixpoint copySlotData_find (ss : list Slot) (cid : ClusterID) (i : nat)
  (l : list nat) : option (option nat) :=
  match l with
  | [] => Some None
  | idx :: l' =>
      s ← ss !! idx;
      if decide (clusterID s = cid) then Some (Some i)
      else copySlotData_find ss cid (S i) l'
  end.

(** [copySlotData]: [sourceSlot] is the slot at position [slotIdx] of the
    source batch. *)
Definition copySlotData (mc : MemoryController) (source slotIdx target : nat)
  : option (status * MemoryController) :=
  tb ← heap mc !! target;
  sb ← heap mc !! source;
  sourceSlot ← slots sb !! slotIdx;
  r ← allocateSlotInBatch mc target (bucketSize tb) (clusterID sourceSlot)
         (vertexCount sourceSlot);
  match r with
  | (None, mc1) => Some (failed ErrNoAvailableSlots, mc1)
  | (Some targetSlotIdx, mc1) =>
      sb1 ← heap mc1 !! source;
      sourceSlot1 ← slots sb1 !! slotIdx;
      match clusterSlots mc1 !! clusterID sourceSlot1 with
      | None => Some (failed ErrClusterNotFound, mc1)
      | Some _ =>
          oldSlotIndex ←
            copySlotData_find (slots sb1) (clusterID sourceSlot1) 0
              (activeSlots sb1);
          let mc2 :=
            set_clusterSlots mc1
              (<[clusterID sourceSlot1 :=
                   mkSlotAllocation target targetSlotIdx (vertexCount sourceSlot1)]>
                 (clusterSlots mc1)) in
          let sb2 :=
            mkBatch (batch_id sb1) (totalVertexCapacity sb1)
              (<[slotIdx := mkSlot false 0 0 (vertexOffset sourceSlot1)]>
                 (slots sb1))
              (match oldSlotIndex with
               | Some i => deleteAt i (activeSlots sb1)
               | None => activeSlots sb1
               end)
              (bucketSize sb1) (growthCycles sb1) (initialCapacity sb1) in
          let mc3 := put_batch mc2 source sb2 in
          Some (ok,
                put_bucket mc3 (bucketSize sb2)
                  (addFreeSlot (buckets mc3 (bucketSize sb2))
                     (mkSlotRef source slotIdx)))
      end
  end.

(** The batches of [bs], other than [source], that have a free slot. *)
Fixpoint CompactBatch_targets (h : gmap nat Batch) (source : nat)
  (bs : list nat) : option (list nat) :=
  match bs with
  | [] => Some []
  | k :: bs' =>
      batch ← h !! k;
      rest ← CompactBatch_targets h source bs';
      if decide (k = source) then Some rest
      else if (length (activeSlots batch) <? length (slots batch))%nat
           then Some (k :: rest)
           else Some rest
  end.

Fixpoint CompactBatch_loop (mc : MemoryController) (source : nat)
  (targets slotsToMove : list nat) (movedCount : nat)
  : option (nat * status * MemoryController) :=
  match slotsToMove with
  | [] => Some (movedCount, ok, mc)
  | slotIdx :: rest =>
      sb ← heap mc !! source;
      _ ← slots sb !! slotIdx;
      targetBatch ← findBatchWithCapacity_loop (heap mc) targets;
      match targetBatch with
      | None => Some (movedCount, ok, mc)
      | Some t =>
          r ← copySlotData mc source slotIdx t;
          match r with
          | (failed e, mc') => Some (0%nat, failed e, mc')
          | (ok, mc') =>
              CompactBatch_loop mc' source targets rest (S movedCount)
          end
      end
  end.

Definition CompactBatch (mc : MemoryController) (source : nat)
  : option (bool * nat * status * MemoryController) :=
  if negb DefragEnableCompaction then Some (false, 0%nat, ok, mc)
  else
    sb ← heap mc !! source;
    let pool := buckets mc (bucketSize sb) in
    targets ← CompactBatch_targets (heap mc) source (batches pool);
    match targets with
    | [] => Some (false, 0%nat, ok, mc)
    | _ =>
        r ← CompactBatch_loop mc source targets (activeSlots sb) 0;
        match r with
        | (_, failed e, mc') => Some (false, 0%nat, failed e, mc')
        | (movedCount, ok, mc') =>
            sb' ← heap mc' !! source;
            Some (bool_decide (length (activeSlots sb') = 0%nat),
                  movedCount, ok, mc')
        end
    end.

Definition isCandidate (b : Batch) : bool :=
  negb (length (slots b) =? 0)%nat && Qltb (utilization b) DefragThreshold.

Fixpoint ScanForCompaction_pool (h : gmap nat Batch) (bs : list nat)
  (candidates : list nat) : option (list nat) :=
  match bs with
  | [] => Some candidates
  | k :: bs' =>
      batch ← h !! k;
      if (length (slots batch) =? 0)%nat
      then ScanForCompaction_pool h bs' candidates
      else if Qltb (utilization batch) DefragThreshold
           then ScanForCompaction_pool h bs' (candidates ++ [k])
           else ScanForCompaction_pool h bs' candidates
  end.

Fixpoint ScanForCompaction_buckets (h : gmap nat Batch)
  (bks : BucketSize -> option BucketPool) (sizes : list BucketSize)
  (candidates : list nat) : option (list nat) :=
  match sizes with
  | [] => Some candidates
  | size :: sizes' =>
      match bks size with
      | None => ScanForCompaction_buckets h bks sizes' candidates
      | Some pool =>
          c ← ScanForCompaction_pool h (batches pool) candidates;
          ScanForCompaction_buckets h bks sizes' c
      end
  end.

(** The comparison handed to [sort.Slice]. *)
Definition lessUtilization (h : gmap nat Batch) (i j : nat) : bool :=
  match h !! i, h !! j with
  | Some bi, Some bj => Qltb (utilization bi) (utilization bj)
  | _, _ => false
  end.

Definition incCompactionEvents (mc : MemoryController) : MemoryController :=
  let st := stats mc in
  set_stats mc
    (mkStats (int_add (CompactionEvents st) 1) (BatchDeletions st)
       (SlotsRelocated st) (GrowthEvents st)).

Definition incBatchDeletions (mc : MemoryController) : MemoryController :=
  let st := stats mc in
  set_stats mc
    (mkStats (CompactionEvents st) (int_add (BatchDeletions st) 1)
       (SlotsRelocated st) (GrowthEvents st)).

Definition addSlotsRelocated (mc : MemoryController) (n : nat)
  : MemoryController :=
  let st := stats mc in
  set_stats mc
    (mkStats (CompactionEvents st) (BatchDeletions st)
       (int_add (SlotsRelocated st) (Z.of_nat n)) (GrowthEvents st)).

Section Compaction.

(** [sort.Slice] of Go's library: it takes the comparison and the
    slice, and returns the slice rearranged. *)
Variable sortSlice : (nat -> nat -> bool) -> list nat -> list nat.

Definition ScanForCompaction (h : gmap nat Batch)
  (bks : BucketSize -> option BucketPool) : option (list nat) :=
  if negb DefragEnableCompaction then Some []
  else
    candidates ← ScanForCompaction_buckets h bks bucketSizes [];
    Some (sortSlice (lessUtilization h) candidates).

Fixpoint TryCompaction_loop (mc : MemoryController) (candidates : list nat)
  (compactedBatches : nat) : option MemoryController :=
  match candidates with
  | [] => Some mc
  | batch :: rest =>
      if (DefragMaxPerFrame <=? compactedBatches)%nat then Some mc
      else
        b ← heap mc !! batch;
        if (length (activeSlots b) =? 0)%nat then
          r ← deleteBatch mc batch;
          match r with
          | (failed _, mc') => TryCompaction_loop mc' rest compactedBatches
          | (ok, mc') =>
              TryCompaction_loop
                (incBatchDeletions (incCompactionEvents mc')) rest
                (S compactedBatches)
          end
        else
          r ← CompactBatch mc batch;
          match r with
          | (_, _, failed _, mc') =>
              TryCompaction_loop mc' rest compactedBatches
          | (deletable, slotsRelocated, ok, mc') =>
              let mc1 :=
                if (0 <? slotsRelocated)%nat
                then addSlotsRelocated (incCompactionEvents mc')
                       slotsRelocated
                else mc' in
              let compacted :=
                if (0 <? slotsRelocated)%nat then S compactedBatches
                else compactedBatches in
              if (deletable : bool) then
                r2 ← deleteBatch mc1 batch;
                match r2 with
                | (failed _, mc2) => TryCompaction_loop mc2 rest compacted
                | (ok, mc2) =>
                    TryCompaction_loop (incBatchDeletions mc2) rest
                      compacted
                end
              else TryCompaction_loop mc1 rest compacted
          end
  end.

Definition TryCompaction (mc : MemoryController)
  : option (status * MemoryController) :=
  if negb DefragEnableCompaction then Some (ok, mc)
  else
    candidates ← ScanForCompaction (heap mc) (fun k => Some (buckets mc k));
    match candidates with
    | [] => Some (ok, mc)
    | _ =>
        mc' ← TryCompaction_loop mc candidates 0;
        Some (ok, mc')
    end.

End Compaction.

(** ** Notions the statements are written in *)

(** The order of the sorted free list: by batch id, then by slot index. *)
Definition ref_le (r1 r2 : SlotRef) : Prop :=
  (ref_batch r1 < ref_batch r2)%nat \/
  (ref_batch r1 = ref_batch r2 /\ (ref_slotIndex r1 <= ref_slotIndex r2)%nat).

Definition freeListSorted (l : list SlotRef) : Prop := StronglySorted ref_le l.

(** A payload that fits a Go slice. *)
Definition validSlice (vertices : list float32) : Prop :=
  Z.of_nat (length vertices) <= int_max.

(** [EnsureSlot] for the clusters of [cids] in turn, all with the same
    payload; [None] as soon as a call panics or returns an error. *)
Fixpoint ensureAll (mc : MemoryController) (cids : list ClusterID)
  (payload : list float32) : option MemoryController :=
  match cids with
  | [] => Some mc
  | cid :: cids' =>
      match EnsureSlot mc cid payload with
      | Some (ok, mc') => ensureAll mc' cids' payload
      | _ => None
      end
  end.

(** 900 vertices of 6 floats. *)
Definition payload900 : list float32 := replicate (900 * 6) 0.

(** Clusters 0 .. 299. *)
Definition scenario300 : option MemoryController :=
  ensureAll NewMemoryController (Z.of_nat <$> seq 0 300) payload900.

(** What the scenario is said to end in: two batches in the S pool, 256
    and 44 active slots, no growth, 212 free-list entries for the second
    batch. *)
Definition twoBatchOutcome (mc : MemoryController) : Prop :=
  exists k1 k2 b1 b2,
    batches (buckets mc BucketS) = [k1; k2] /\
    heap mc !! k1 = Some b1 /\ heap mc !! k2 = Some b2 /\
    length (activeSlots b1) = 256%nat /\
    length (activeSlots b2) = 44%nat /\
    GrowthEvents (stats mc) = 0 /\
    length (filter (fun r => ref_batch r = k2) (freeSlots (buckets mc BucketS)))
      = 212%nat.

(** What it ends in: one batch, grown once to 512 slots, 300 of them
    active, and 212 free-list entries, all for that batch. *)
Definition grownBatchOutcome (mc : MemoryController) : Prop :=
  exists k b,
    batches (buckets mc BucketS) = [k] /\
    heap mc !! k = Some b /\
    length (slots b) = 512%nat /\
    length (activeSlots b) = 300%nat /\
    growthCycles b = 1 /\
    totalVertexCapacity b = 2 * (1024 * 256) /\
    GrowthEvents (stats mc) = 1 /\
    length (freeSlots (buckets mc BucketS)) = 212%nat /\
    Forall (fun r => ref_batch r = k) (freeSlots (buckets mc BucketS)).

(** 70000 vertices of 6 floats, beyond the largest fixed class. *)
Definition payload70000 : list float32 := replicate (70 * 1000 * 6) 0.

(** Calls of the two allocation entry points, and a run of them. *)
Inductive call : Type :=
| CallEnsureSlot (cid : ClusterID) (vertices : list float32)
| CallRemoveCluster (cid : ClusterID).

Definition validCall (c : call) : Prop :=
  match c with
  | CallEnsureSlot _ vertices => validSlice vertices
  | CallRemoveCluster _ => True
  end.

Definition doCall (mc : MemoryController) (c : call)
  : option (status * MemoryController) :=
  match c with
  | CallEnsureSlot cid vertices => EnsureSlot mc cid vertices
  | CallRemoveCluster cid => RemoveCluster mc cid
  end.

Fixpoint run (mc : MemoryController) (calls : list call)
  : option MemoryController :=
  match calls with
  | [] => Some mc
  | c :: calls' =>
      match doCall mc c with
      | Some (_, mc') => run mc' calls'
      | None => None
      end
  end.

(** Two oversized clusters, and the removal of the first. *)
Definition twoOversized : list call :=
  [CallEnsureSlot 1 payload70000; CallEnsureSlot 2 payload70000;
   CallRemoveCluster 1].

(** Active slots in the batches of a pool, and location records pointing
    into the pool. *)
Definition activeCount (h : gmap nat Batch) (k : nat) : nat :=
  match h !! k with
  | Some b => length (activeSlots b)
  | None => 0
  end.

Definition activeTotal (mc : MemoryController) (p : BucketSize) : nat :=
  sum_list (activeCount (heap mc) <$> batches (buckets mc p)).

Definition pointsInto (mc : MemoryController) (p : BucketSize)
  (a : SlotAllocation) : Prop :=
  alloc_batch a ∈ batches (buckets mc p).

#[global] Instance pointsInto_dec mc p a : Decision (pointsInto mc p a).
Proof. unfold pointsInto. apply _. Defined.

Definition liveEntries (mc : MemoryController) (p : BucketSize) : nat :=
  size (filter (fun kv : Z * SlotAllocation => pointsInto mc p kv.2)
          (clusterSlots mc)).

(** The active slots of the batches [bs], as (batch, position) pairs. *)
Definition activePairs (h : gmap nat Batch) (bs : list nat) : list (nat * nat) :=
  bs ≫= fun k => match h !! k with
                 | Some b => (fun i => (k, i)) <$> activeSlots b
                 | None => []
                 end.


Definition slotFree (mc : MemoryController) (p : BucketSize) (k i : nat)
  : Prop :=
  mkSlotRef k i ∈ freeSlots (buckets mc p).


(** The states a controller can be in: whatever the four mutating entry
    points produce from a new controller. *)
Inductive reachable (sortSlice : (nat -> nat -> bool) -> list nat -> list nat)
  : MemoryController -> Prop :=
| reachable_new : reachable sortSlice NewMemoryController
| reachable_EnsureSlot mc cid vertices st mc' :
    reachable sortSlice mc -> validSlice vertices ->
    EnsureSlot mc cid vertices = Some (st, mc') ->
    reachable sortSlice mc'
| reachable_RemoveCluster mc cid st mc' :
    reachable sortSlice mc ->
    RemoveCluster mc cid = Some (st, mc') ->
    reachable sortSlice mc'
| reachable_GetAndClear mc :
    reachable sortSlice mc ->
    reachable sortSlice (GetAndClearClustersNeedingReupload mc).2
| reachable_TryCompaction mc st mc' :
    reachable sortSlice mc ->
    TryCompaction sortSlice mc = Some (st, mc') ->
    reachable sortSlice mc'.

(** Calls that follow one another without a drain of the re-upload set. *)
Inductive undrained (sortSlice : (nat -> nat -> bool) -> list nat -> list nat)
  : MemoryController -> MemoryController -> Prop :=
| undrained_refl mc : undrained sortSlice mc mc
| undrained_EnsureSlot mc mc1 cid vertices st mc2 :
    undrained sortSlice mc mc1 -> validSlice vertices ->
    EnsureSlot mc1 cid vertices = Some (st, mc2) ->
    undrained sortSlice mc mc2
| undrained_RemoveCluster mc mc1 cid st mc2 :
    undrained sortSlice mc mc1 ->
    RemoveCluster mc1 cid = Some (st, mc2) ->
    undrained sortSlice mc mc2
| undrained_TryCompaction mc mc1 st mc2 :
    undrained sortSlice mc mc1 ->
    TryCompaction sortSlice mc1 = Some (st, mc2) ->
    undrained sortSlice mc mc2.



(** One vertex of 6 floats. *)
Definition payload1 : list float32 := replicate 6 0.

(** A first cluster in a new controller. *)
Definition oneCluster : list call := [CallEnsureSlot 1 payload1].



(** 256 clusters of one vertex fill the first batch of the S pool. *)
Definition filledBatch : list call :=
  (fun n => CallEnsureSlot (Z.of_nat n) payload1) <$> seq 0 256.

(** The pools a scan visits, in the order it visits their batches. *)
Definition scannedBatches (bks : BucketSize -> option BucketPool) : list nat :=
  mjoin ((fun size => match bks size with
                      | Some pool => batches pool
                      | None => []
                      end) <$> bucketSizes).

(** A batch the scan keeps: it has slots, and its utilisation is below
    the floor. *)
Definition sparseAt (h : gmap nat Batch) (k : nat) : bool :=
  match h !! k with
  | Some b => isCandidate b
  | None => false
  end.

Definition utilizationOf (h : gmap nat Batch) (k : nat) : Q :=
  match h !! k with
  | Some b => utilization b
  | None => 0
  end.

(** An insertion sort, one function that meets the contract of
    [sort.Slice]. *)
Fixpoint insertSorted (less : nat -> nat -> bool) (x : nat) (l : list nat)
  : list nat :=
  match l with
  | [] => [x]
  | y :: l' => if less x y then x :: y :: l' else y :: insertSorted less x l'
  end.

Definition insertionSort (less : nat -> nat -> bool) (l : list nat) : list nat :=
  foldr (insertSorted less) [] l.

(** What [sort.Slice] promises for a comparison that is a strict weak
    order on the elements of the slice: the same elements, none of them
    before one it is smaller than. *)
Definition sortContract
  (sortSlice : (nat -> nat -> bool) -> list nat -> list nat) : Prop :=
  forall (less : nat -> nat -> bool) (l : list nat),
    Permutation (sortSlice less l) l /\
    ((forall x y, x ∈ l -> y ∈ l -> less x y = true -> less y x = false) ->
     (forall x y z, x ∈ l -> y ∈ l -> z ∈ l ->
        less x y = false -> less y z = false -> less x z = false) ->
     StronglySorted (fun x y => less y x = false) (sortSlice less l)).

(** A heap and pools to run the scan on: the S pool holds an empty batch
    of four slots, a full one, and one with one slot of eight in use; the
    other pools are absent. *)
Definition scanHeap : gmap nat Batch :=
  <[2%nat := mkBatch 2 8192
       (mkSlot true 5 10 0 :: replicate 7 (mkSlot false 0 0 0)) [0%nat]
       BucketS 0 8192]>
  (<[1%nat := mkBatch 1 2048 (replicate 2 (mkSlot true 3 10 0)) [0%nat; 1%nat]
        BucketS 0 2048]>
   (<[0%nat := mkBatch 0 4096 (replicate 4 (mkSlot false 0 0 0)) []
         BucketS 0 4096]> ∅)).

Definition scanPools (size : BucketSize) : option BucketPool :=
  match size with
  | BucketS => Some (mkBucketPool BucketS 1024 256 [2%nat; 1%nat; 0%nat] [])
  | _ => None
  end.

(** ** The invariant of the controller *)

(** A batch is in order when its capacity is an [int], its active list
    names each active slot once and nothing else, and, in the unbounded
    class, its slots start at offset 0. *)
Definition batchOk (b : Batch) : Prop :=
  in_int (totalVertexCapacity b) /\
  NoDup (activeSlots b) /\
  (forall i, i ∈ activeSlots b <->
             exists s, slots b !! i = Some s /\ active s = true) /\
  (bucketSize b = BucketXXL ->
   forall i s, slots b !! i = Some s -> vertexOffset s = 0).

(** Two pools that differ in their free lists at most. *)
Definition sameButFree (bp bp' : BucketPool) : Prop :=
  pool_size bp' = pool_size bp /\
  vertexCapacityPerSlot bp' = vertexCapacityPerSlot bp /\
  slotsPerBatch bp' = slotsPerBatch bp /\
  batches bp' = batches bp.

Record Inv (h : gmap nat Batch) (bk : BucketSize -> BucketPool)
  (cs : gmap Z SlotAllocation) (n : nat) : Prop := mkInv {
  Inv_heap : forall k b, h !! k = Some b ->
    (k < n)%nat /\ batch_id b = k /\ batchOk b;
  Inv_static : forall p,
    pool_size (bk p) = p /\
    vertexCapacityPerSlot (bk p) = vertexCapacityForBucket p /\
    slotsPerBatch (bk p) = slotsPerBatchForBucket p;
  Inv_batches_NoDup : forall p, NoDup (batches (bk p));
  Inv_batches : forall p k, k ∈ batches (bk p) ->
    exists b, h !! k = Some b /\ bucketSize b = p;
  Inv_free_NoDup : forall p, NoDup (freeSlots (bk p));
  Inv_free : forall p r, r ∈ freeSlots (bk p) ->
    ref_batch r ∈ batches (bk p) /\
    exists b s, h !! ref_batch r = Some b /\
                slots b !! ref_slotIndex r = Some s /\ active s = false;
  Inv_rec : forall cid a, cs !! cid = Some a ->
    exists b s, h !! alloc_batch a = Some b /\
                slots b !! alloc_slotIndex a = Some s /\
                active s = true /\ clusterID s = cid;
  Inv_owner : forall k b i s,
    h !! k = Some b -> slots b !! i = Some s -> active s = true ->
    k ∈ batches (bk (bucketSize b)) /\
    exists a, cs !! clusterID s = Some a /\
              alloc_batch a = k /\ alloc_slotIndex a = i
}.

Definition inv (mc : MemoryController) : Prop :=
  Inv (heap mc) (buckets mc) (clusterSlots mc) (nextBatchID mc).

(** From one heap to a later one no batch is lost and none has grown. *)
Definition noGrowth (h h' : gmap nat Batch) : Prop :=
  forall k b, h !! k = Some b ->
    exists b', h' !! k = Some b' /\ growthCycles b' = growthCycles b.

(** From [mc] to [mc'] no batch is lost, and a batch whose growth-cycle
    count changed is of class [bucket], a fixed class, and the owners of
    the slots that were active in it are marked for re-upload. *)
Definition growthMarked (mc mc' : MemoryController) (bucket : BucketSize)
  : Prop :=
  (forall k b, heap mc !! k = Some b -> is_Some (heap mc' !! k)) /\
  forall k b b',
    heap mc !! k = Some b -> heap mc' !! k = Some b' ->
    growthCycles b' <> growthCycles b ->
    bucketSize b = bucket /\ bucket <> BucketXXL /\
    forall i s, slots b !! i = Some s -> active s = true ->
                clusterID s ∈ clustersNeedingReupload mc'.

(** The cluster has a record, the slot it names holds [vc] vertices, and
    a payload of [vc] vertices passes the capacity check of [EnsureSlot]
    for that slot. *)
Definition fits (mc : MemoryController) (cid vc : Z) : Prop :=
  exists a b s,
    clusterSlots mc !! cid = Some a /\
    heap mc !! alloc_batch a = Some b /\
    slots b !! alloc_slotIndex a = Some s /\
    vertexCount s = vc /\
    (bucketSize b = BucketXXL ->
     vc <= int_sub (totalVertexCapacity b) (vertexOffset s)) /\
    (bucketSize b <> BucketXXL ->
     vc <= vertexCapacityPerSlot (buckets mc (bucketSize b))).

(** What [growBatch] makes of a batch. *)
Definition grownFrom (b b' : Batch) : Prop :=
  (forall i s, slots b !! i = Some s -> slots b' !! i = Some s) /\
  length (slots b') = (2 * length (slots b))%nat /\
  activeSlots b' = activeSlots b /\
  bucketSize b' = bucketSize b /\
  growthCycles b' = int_add (growthCycles b) 1 /\
  totalVertexCapacity b' = int_mul (totalVertexCapacity b) 2.

(** The batch a claimed slot ends up in. *)
Definition claimed (b : Batch) (i : nat) (s : Slot) (cid vc : Z) : Batch :=
  mkBatch (batch_id b) (totalVertexCapacity b)
    (<[i := mkSlot true cid vc (vertexOffset s)]> (slots b))
    (activeSlots b ++ [i]) (bucketSize b) (growthCycles b) (initialCapacity b).

(** What stays put while batches are compacted and deleted: the batches
    in the heap with their class, and the re-upload set. *)
Definition settled (mc mc' : MemoryController) : Prop :=
  (forall k b, heap mc !! k = Some b ->
     exists b', heap mc' !! k = Some b' /\ bucketSize b' = bucketSize b) /\
  clustersNeedingReupload mc' = clustersNeedingReupload mc.

(** The targets of a compaction are batches of one pool, other than the
    source. *)
Definition goodTargets (mc : MemoryController) (source : nat)
  (targets : list nat) : Prop :=
  forall t, t ∈ targets ->
    t <> source /\
    exists tb, heap mc !! t = Some tb /\
               t ∈ batches (buckets mc (bucketSize tb)).

(** ** Further notions: order of the free list, classes *)

(** The strict order of the sorted free list. *)
Definition ref_lt (r1 r2 : SlotRef) : Prop :=
  (ref_batch r1 < ref_batch r2)%nat \/
  (ref_batch r1 = ref_batch r2 /\ (ref_slotIndex r1 < ref_slotIndex r2)%nat).

(** The value of a [BucketSize] constant: [BucketS] is [iota] 0. *)
Definition BucketSize_int (b : BucketSize) : Z :=
  match b with
  | BucketS => 0
  | BucketM => 1
  | BucketL => 2
  | BucketXL => 3
  | BucketXXL => 4
  end.

(** ** The integrity check *)

(** The messages [ValidateClusterIntegrity] collects, by the values they
    are formatted from. *)
Inductive integrityError : Set :=
| ReferencesDeletedBatch (cid : ClusterID) (batchID : nat)
| InvalidSlotIndex (cid : ClusterID) (slotIndex numSlots : nat)
| ReferencesInactiveSlot (cid : ClusterID) (slotIndex batchID : nat)
| SlotMismatch (cid owner : ClusterID).

(** The search of the pool's batches for the id of the recorded batch. *)
Fixpoint ValidateClusterIntegrity_batchExists (h : gmap nat Batch) (id : nat)
  (bs : list nat) : option bool :=
  match bs with
  | [] => Some false
  | k :: bs' =>
      b ← h !! k;
      if decide (batch_id b = id) then Some true
      else ValidateClusterIntegrity_batchExists h id bs'
  end.

(** One turn of the loop over [mc.clusterSlots]: the messages it adds. *)
Definition ValidateClusterIntegrity_cluster (mc : MemoryController)
  (cid : ClusterID) (alloc : SlotAllocation) : option (list integrityError) :=
  ab ← heap mc !! alloc_batch alloc;
  let pool := buckets mc (bucketSize ab) in
  batchExists ←
    ValidateClusterIntegrity_batchExists (heap mc) (batch_id ab) (batches pool);
  if negb batchExists then Some [ReferencesDeletedBatch cid (batch_id ab)]
  else if (length (slots ab) <=? alloc_slotIndex alloc)%nat
  then Some [InvalidSlotIndex cid (alloc_slotIndex alloc) (length (slots ab))]
  else
    slot ← slots ab !! alloc_slotIndex alloc;
    Some ((if negb (active slot)
           then [ReferencesInactiveSlot cid (alloc_slotIndex alloc) (batch_id ab)]
           else [])
          ++ (if decide (clusterID slot = cid) then []
              else [SlotMismatch cid (clusterID slot)])).

(** The messages of a whole pass; the records are visited in the order
    of [map_to_list]. *)
Definition ValidateClusterIntegrity_errors (mc : MemoryController)
  : option (list integrityError) :=
  mjoin <$> mapM (fun kv : Z * SlotAllocation =>
                    ValidateClusterIntegrity_cluster mc kv.1 kv.2)
              (map_to_list (clusterSlots mc)).

(** [ValidateClusterIntegrity]: [Some None] is the [nil] error,
    [Some (Some n)] the error that reports [n] messages. *)
Definition ValidateClusterIntegrity (mc : MemoryController)
  : option (option nat) :=
  errors ← ValidateClusterIntegrity_errors mc;
  if (0 <? length errors)%nat then Some (Some (length errors)) else Some None.

(** ** Statistics *)

Module PerBucket.

Record BucketSizeStats : Set := mkBucketSizeStats {
  ClusterCount : Z;
  BatchCount : Z;
  TotalSlots : Z;
  ActiveSlots : Z;
  ActiveBatches : Z;
  FreeSlots : Z;
  GPUBytes : Z;
  Vertices : Z
}.

End PerBucket.

(** The fields of [Stats] that [updateStats] recomputes. *)
Record StatsTotals : Set := mkStatsTotals {
  TotalClusters : Z;
  TotalVertices : Z;
  TotalGPUBytes : Z;
  TotalBatches : Z;
  TotalSlots : Z;
  TotalActiveSlots : Z;
  TotalActiveBatches : Z;
  BucketSizeStats : BucketSize -> PerBucket.BucketSizeStats;
  FreeSlots : Z
}.

(** The inner loop of [calculateStats], over the active slots of a
    batch: the vertices and the cluster count so far. *)
Fixpoint calculateStats_slots (ss : list Slot) (idxs : list nat)
  (vertices clusterCount : Z) : option (Z * Z) :=
  match idxs with
  | [] => Some (vertices, clusterCount)
  | slotIdx :: idxs' =>
      slot ← ss !! slotIdx;
      calculateStats_slots ss idxs' (int_add vertices (vertexCount slot))
        (int_add clusterCount 1)
  end.

(** The loop of [calculateStats] over the batches of the pool. *)
Fixpoint calculateStats_batches (h : gmap nat Batch) (bs : list nat)
  (st : PerBucket.BucketSizeStats) : option PerBucket.BucketSizeStats :=
  match bs with
  | [] => Some st
  | k :: bs' =>
      batch ← h !! k;
      let batchBytes := int_mul (int_mul (totalVertexCapacity batch) 6) 4 in
      r ← calculateStats_slots (slots batch) (activeSlots batch)
             (PerBucket.Vertices st) (PerBucket.ClusterCount st);
      calculateStats_batches h bs'
        (PerBucket.mkBucketSizeStats r.2 (PerBucket.BatchCount st)
           (int_add (PerBucket.TotalSlots st) (Z.of_nat (length (slots batch))))
           (int_add (PerBucket.ActiveSlots st)
              (Z.of_nat (length (activeSlots batch))))
           (if (0 <? length (activeSlots batch))%nat
            then int_add (PerBucket.ActiveBatches st) 1
            else PerBucket.ActiveBatches st)
           (PerBucket.FreeSlots st)
           (int_add (PerBucket.GPUBytes st) batchBytes)
           r.1)
  end.

Definition calculateStats (h : gmap nat Batch) (bp : BucketPool)
  : option PerBucket.BucketSizeStats :=
  calculateStats_batches h (batches bp)
    (PerBucket.mkBucketSizeStats 0 (Z.of_nat (length (batches bp))) 0 0 0
       (Z.of_nat (length (freeSlots bp))) 0 0).

(** The first loop of [updateStats].  Go visits the pools in the order
    its map iterator gives; the sums do not depend on it, and the pools
    are taken in the order of [bucketSizes] here. *)
Fixpoint updateStats_pools (mc : MemoryController) (sizes : list BucketSize)
  (st : StatsTotals) : option StatsTotals :=
  match sizes with
  | [] => Some st
  | bucketSize :: sizes' =>
      bucketStats ← calculateStats (heap mc) (buckets mc bucketSize);
      updateStats_pools mc sizes'
        (mkStatsTotals (TotalClusters st)
           (int_add (TotalVertices st) (PerBucket.Vertices bucketStats))
           (int_add (TotalGPUBytes st) (PerBucket.GPUBytes bucketStats))
           (int_add (TotalBatches st) (PerBucket.BatchCount bucketStats))
           (int_add (TotalSlots st) (PerBucket.TotalSlots bucketStats))
           (int_add (TotalActiveSlots st) (PerBucket.ActiveSlots bucketStats))
           (int_add (TotalActiveBatches st)
              (PerBucket.ActiveBatches bucketStats))
           (fun k => if decide (k = bucketSize) then bucketStats
                     else BucketSizeStats st k)
           (FreeSlots st))
  end.

(** [updateStats], as the value of the recomputed fields; [old] is what
    [mc.stats.BucketSizeStats] held before. *)
Definition updateStats (mc : MemoryController)
  (old : BucketSize -> PerBucket.BucketSizeStats) : option StatsTotals :=
  st ← updateStats_pools mc bucketSizes
         (mkStatsTotals (Z.of_nat (size (clusterSlots mc))) 0 0 0 0 0 0 old 0);
  let freeSlots :=
    foldl (fun acc k => int_add acc (Z.of_nat (length (freeSlots (buckets mc k)))))
      0 bucketSizes in
  Some (mkStatsTotals (TotalClusters st) (TotalVertices st) (TotalGPUBytes st)
          (TotalBatches st) (TotalSlots st) (TotalActiveSlots st)
          (TotalActiveBatches st) (BucketSizeStats st) freeSlots).

(** The slots of the batches the pools list. *)
Definition slotCount (h : gmap nat Batch) (k : nat) : nat :=
  match h !! k with
  | Some b => length (slots b)
  | None => 0
  end.

Definition slotTotal (mc : MemoryController) : nat :=
  sum_list ((fun p => sum_list (slotCount (heap mc) <$> batches (buckets mc p)))
              <$> bucketSizes).

(** ** The layout of a batch *)

(** How the slots of a batch lie in its buffer.  An inactive slot is
    cleared and an active one holds at least one vertex.  A batch of a
    fixed class has the slots of its class, doubled once per growth
    cycle, each starting at its position times the slot capacity of the
    class and holding no more than that capacity; a batch of the
    unbounded class has one slot, never grows, and holds no more than
    its own capacity. *)
Definition geoBatch (b : Batch) : Prop :=
  (forall i s, slots b !! i = Some s ->
     if active s then 1 <= vertexCount s
     else vertexCount s = 0 /\ clusterID s = 0) /\
  if decide (bucketSize b = BucketXXL) then
    length (slots b) = 1%nat /\ growthCycles b = 0 /\
    initialCapacity b = totalVertexCapacity b /\
    (forall i s, slots b !! i = Some s -> active s = true ->
                 vertexCount s <= totalVertexCapacity b)
  else
    let cap := vertexCapacityForBucket (bucketSize b) in
    0 <= growthCycles b <= GrowthMaxCycles /\
    length (slots b)
    = (slotsPerBatchForBucket (bucketSize b) * 2 ^ Z.to_nat (growthCycles b))%nat /\
    totalVertexCapacity b = Z.of_nat (length (slots b)) * cap /\
    initialCapacity b = Z.of_nat (slotsPerBatchForBucket (bucketSize b)) * cap /\
    (forall i s, slots b !! i = Some s ->
       vertexOffset s = Z.of_nat i * cap /\
       (active s = true -> vertexCount s <= cap)).

Definition geo (mc : MemoryController) : Prop :=
  forall k b, heap mc !! k = Some b -> geoBatch b.

(** From [mc] to [mc'] the clusters other than [cid] keep their records
    and the slots they own, in batches of the class they had. *)
Definition keepsOthers (cid : ClusterID) (mc mc' : MemoryController) : Prop :=
  (forall c, c <> cid -> clusterSlots mc' !! c = clusterSlots mc !! c) /\
  (forall k b i s,
     heap mc !! k = Some b -> slots b !! i = Some s ->
     active s = true -> clusterID s <> cid ->
     exists b', heap mc' !! k = Some b' /\ bucketSize b' = bucketSize b /\
                slots b' !! i = Some s).

(** A step keeps the layout of the batches, if it was in order, and
    leaves the clusters other than [cid] alone. *)
Definition framed (cid : ClusterID) (mc mc' : MemoryController) : Prop :=
  (geo mc -> geo mc') /\ keepsOthers cid mc mc'.

(** The class a cluster is stored in and the vertex count of its slot. *)
Definition clusterData (mc : MemoryController) (c : ClusterID)
  : option (BucketSize * Z) :=
  a ← clusterSlots mc !! c;
  b ← heap mc !! alloc_batch a;
  s ← slots b !! alloc_slotIndex a;
  Some (bucketSize b, vertexCount s).

(** The batches the pools list, all classes together. *)
Definition batchTotal (mc : MemoryController) : nat :=
  sum_list ((fun p => length (batches (buckets mc p))) <$> bucketSizes).

(** What moving slots between the batches of a pool keeps: the batches
    with their classes, the re-upload set, the lists of the pools, the
    class and the vertex count of every cluster, and the counters. *)
Definition relocated (mc mc' : MemoryController) : Prop :=
  settled mc mc' /\
  (forall q, batches (buckets mc' q) = batches (buckets mc q)) /\
  (forall c, clusterData mc' c = clusterData mc c) /\
  stats mc' = stats mc /\
  nextBatchID mc' = nextBatchID mc.

(** What one call of [TryCompaction] makes of a controller.  The batches
    stay in the heap with their classes, the re-upload set is as it was,
    every cluster keeps its class and its vertex count, and either the
    pools list the batches they listed, or one batch, left without active
    slots, is gone from the list of its pool and counted as deleted. *)
Definition compactedOnce (mc mc' : MemoryController) : Prop :=
  settled mc mc' /\
  (forall c, clusterData mc' c = clusterData mc c) /\
  nextBatchID mc' = nextBatchID mc /\
  GrowthEvents (stats mc') = GrowthEvents (stats mc) /\
  (((forall q, batches (buckets mc' q) = batches (buckets mc q)) /\
    BatchDeletions (stats mc') = BatchDeletions (stats mc))
   \/
   exists p k,
     k ∈ batches (buckets mc p) /\
     (forall j, j ∈ batches (buckets mc' p) <->
                j ∈ batches (buckets mc p) /\ j <> k) /\
     S (length (batches (buckets mc' p))) = length (batches (buckets mc p)) /\
     (forall q, q <> p -> batches (buckets mc' q) = batches (buckets mc q)) /\
     activeCount (heap mc') k = 0%nat /\
     BatchDeletions (stats mc') = int_add (BatchDeletions (stats mc)) 1).

(** A cluster of one vertex comes and goes: its batch stays behind with
    no active slot. *)
Definition comeAndGo : list call :=
  [CallEnsureSlot 1 payload1; CallRemoveCluster 1].

(** Two clusters of one vertex, in two slots of one batch. *)
Definition twoSmall : list call :=
  [CallEnsureSlot 1 payload1; CallEnsureSlot 2 payload1].

(** ** Draw *)

(** Go's conversion of an [int] to an [int32]. *)
Definition int32 (z : Z) : Z := (z + 2 ^ 31) mod 2 ^ 32 - 2 ^ 31.

(** One call of [gl.MultiDrawArrays]: the batch whose vertex array is
    bound, the first vertices and the vertex counts of the ranges, and
    the number of ranges passed. *)
Record DrawCall : Set := mkDrawCall {
  draw_batch : nat;
  draw_firsts : list Z;
  draw_counts : list Z;
  draw_n : Z
}.

(** The loop over the active slots of a batch; a slot index out of range
    panics. *)
Fixpoint Draw_slots (ss : list Slot) (idxs : list nat)
  : option (list Z * list Z) :=
  match idxs with
  | [] => Some ([], [])
  | slotIdx :: rest =>
      slot ← ss !! slotIdx;
      '(firsts, counts) ← Draw_slots ss rest;
      Some (int32 (vertexOffset slot) :: firsts,
            int32 (vertexCount slot) :: counts)
  end.

(** The loop over the batches of a pool: a batch without active slots is
    passed over, every other batch is drawn with one call. *)
Fixpoint Draw_batches (h : gmap nat Batch) (bs : list nat) (drawCalls : Z)
  : option (list DrawCall * Z) :=
  match bs with
  | [] => Some ([], drawCalls)
  | k :: rest =>
      b ← h !! k;
      if (length (activeSlots b) =? 0)%nat then Draw_batches h rest drawCalls
      else
        '(firsts, counts) ← Draw_slots (slots b) (activeSlots b);
        '(calls, n) ← Draw_batches h rest (int_add drawCalls 1);
        Some (mkDrawCall k firsts counts (int32 (Z.of_nat (length firsts)))
                :: calls, n)
  end.

Fixpoint Draw_pools (mc : MemoryController) (sizes : list BucketSize)
  (drawCalls : Z) : option (list DrawCall * Z) :=
  match sizes with
  | [] => Some ([], drawCalls)
  | size :: rest =>
      '(calls, n) ← Draw_batches (heap mc) (batches (buckets mc size)) drawCalls;
      '(calls', n') ← Draw_pools mc rest n;
      Some (calls ++ calls', n')
  end.

(** [Draw]: the error returned, the calls of [gl.MultiDrawArrays] in the
    order they are made, and the count stored in
    [stats.DrawCallsPerFrame]. *)
Definition Draw (mc : MemoryController) : option (status * list DrawCall * Z) :=
  '(calls, n) ← Draw_pools mc [BucketS; BucketM; BucketL; BucketXL; BucketXXL] 0;
  Some (ok, calls, n).

(** The range [first], [count] of the buffer of batch [k] is passed to
    one of the calls. *)
Definition drawn (calls : list DrawCall) (k : nat) (first count : Z) : Prop :=
  exists call j,
    call ∈ calls /\ draw_batch call = k /\
    draw_firsts call !! j = Some first /\
    draw_counts call !! j = Some count.

(** A cluster of the XL class: 16385 vertices. *)
Definition payloadXL : list float32 := replicate ((16 * 1024 + 1) * 6) 0.

(** 65 clusters of the XL class fill a batch that has grown twice and
    start a second batch; the removal of the first cluster then leaves
    the first batch with a free slot, and the second batch sparse. *)
Definition sparseSecondBatch : list call :=
  ((fun n => CallEnsureSlot (Z.of_nat n) payloadXL) <$> seq 0 65)
  ++ [CallRemoveCluster 0].

(** * Theorems *)

(** ** Machine integers *)

Lemma wrap_in_int z : in_int z -> wrap z = z.
Proof.
  unfold in_int, int_min, int_max, wrap. intros H.
  rewrite Z.mod_small; lia.
Qed.

Lemma wrap_range z : in_int (wrap z).
Proof.
  unfold in_int, int_min, int_max, wrap.
  pose proof (Z.mod_pos_bound (z + 2 ^ 63) (2 ^ 64)). lia.
Qed.

Lemma Qltb_false x y : Qltb x y = false <-> (y <= x)%Q.
Proof.
  unfold Qltb. rewrite Qle_alt, <- (Qcompare_antisym x y).
  destruct (x ?= y)%Q; simpl; split; intros H; try discriminate; try easy.
Qed.

Lemma Qltb_true x y : Qltb x y = true <-> (x < y)%Q.
Proof.
  unfold Qltb. rewrite Qlt_alt.
  destruct (x ?= y)%Q; split; intros H; try discriminate; easy.
Qed.

(** ** Taking the code apart *)

(** One step into a computation that returned: the first bind, or the
    first case distinction, of the left-hand side. *)
Ltac step_in H :=
  lazymatch type of H with
  | (_ ≫= _) = Some _ =>
      let x := fresh "x" in
      let Hx := fresh "Hx" in
      apply bind_Some in H as (x & Hx & H)
  | (match ?x with _ => _ end) = Some _ =>
      let E := fresh "E" in destruct x eqn:E
  | Some _ = Some _ => fail
  | None = Some _ => discriminate H
  end; simpl in H; try discriminate H.

Ltac steps_in H := repeat step_in H.

Lemma EnsureSlot_record_Some mc cid k i vc st mc' :
  EnsureSlot_record mc cid k i vc = Some (st, mc') ->
  st = ok /\
  mc' = set_clusterSlots mc (<[cid := mkSlotAllocation k i vc]> (clusterSlots mc)) /\
  exists b s, heap mc !! k = Some b /\ slots b !! i = Some s.
Proof.
  unfold EnsureSlot_record. intros H. steps_in H.
  inversion H; subst. eauto 10.
Qed.

Lemma updateSlotInPlace_Some mc a vc st mc' :
  updateSlotInPlace mc a vc = Some (st, mc') ->
  st = ok /\
  exists b s, heap mc !! alloc_batch a = Some b /\
    slots b !! alloc_slotIndex a = Some s /\
    mc' = put_batch mc (alloc_batch a)
            (set_slots b (<[alloc_slotIndex a :=
               mkSlot (active s) (clusterID s) vc (vertexOffset s)]> (slots b))).
Proof.
  unfold updateSlotInPlace. intros H. steps_in H.
  inversion H; subst. eauto 10.
Qed.

Lemma EnsureSlot_allocate_status mc cid vc bucket st mc' :
  EnsureSlot_allocate mc cid vc bucket = Some (st, mc') ->
  st = ok \/ st = failed ErrAllocateSlot.
Proof.
  unfold EnsureSlot_allocate. intros H. steps_in H;
    try (apply EnsureSlot_record_Some in H as [-> _]; by left);
    try (inversion H; subst; by right).
Qed.

Lemma RemoveCluster_status mc cid st mc' :
  RemoveCluster mc cid = Some (st, mc') ->
  (st = failed ErrClusterNotFound /\ mc' = mc /\ clusterSlots mc !! cid = None) \/
  (st = ok /\ is_Some (clusterSlots mc !! cid)).
Proof.
  unfold RemoveCluster. intros H. steps_in H; inversion H; subst; eauto.
Qed.

Lemma EnsureSlot_status mc cid vertices st mc' :
  EnsureSlot mc cid vertices = Some (st, mc') ->
  (st = failed ErrEmptyVertexData /\ mc' = mc /\ length vertices = 0%nat) \/
  (st = failed ErrNotMultipleOf6 /\ mc' = mc /\
     Z.rem (Z.of_nat (length vertices)) 6 <> 0) \/
  ((st = ok \/ st = failed ErrAllocateSlot \/ st = failed ErrRemoveForReallocation) /\
     length vertices <> 0%nat /\ Z.rem (Z.of_nat (length vertices)) 6 = 0).
Proof.
  unfold EnsureSlot. intros H.
  destruct (Z.of_nat (length vertices) =? 0) eqn:E0.
  { inversion H; subst. left. split; [done|]. split; [done|lia]. }
  destruct (Z.rem (Z.of_nat (length vertices)) 6 =? 0) eqn:E6; simpl in H.
  2:{ inversion H; subst. right. left. split; [done|]. split; [done|lia]. }
  right. right. split; [|split; lia].
  steps_in H;
    try (apply updateSlotInPlace_Some in H as [-> _]; by left);
    try (apply EnsureSlot_allocate_status in H as [-> | ->]; by eauto);
    try (inversion H; subst; by eauto).
Qed.

(** ** The payload check of [EnsureSlot] *)

Lemma EnsureSlot_empty mc cid vertices :
  length vertices = 0%nat ->
  EnsureSlot mc cid vertices = Some (failed ErrEmptyVertexData, mc).
Proof.
  intros H. unfold EnsureSlot. by rewrite H.
Qed.

Lemma EnsureSlot_bad_stride mc cid vertices :
  length vertices <> 0%nat ->
  Z.rem (Z.of_nat (length vertices)) 6 <> 0 ->
  EnsureSlot mc cid vertices = Some (failed ErrNotMultipleOf6, mc).
Proof.
  intros H0 H6. unfold EnsureSlot.
  destruct (Z.of_nat (length vertices) =? 0) eqn:E0; [lia|].
  destruct (Z.rem (Z.of_nat (length vertices)) 6 =? 0) eqn:E6; [lia|done].
Qed.

(** C6. [EnsureSlot] answers with one of the two invalid-payload errors
    exactly when the payload is empty or its length is not a multiple of
    6, and it then hands back the controller it was given. *)
Theorem C6_invalid_payload (mc : MemoryController) (cid : ClusterID)
  (vertices : list float32) :
  let bad :=
    length vertices = 0%nat \/ Z.rem (Z.of_nat (length vertices)) 6 <> 0 in
  (bad -> exists st, EnsureSlot mc cid vertices = Some (st, mc) /\
                     InvalidPayload st) /\
  (forall st mc', EnsureSlot mc cid vertices = Some (st, mc') ->
                  InvalidPayload st -> bad /\ mc' = mc).
Proof.
  intros bad. unfold bad. clear bad. split.
  - intros Hbad.
    destruct (decide (length vertices = 0%nat)) as [H0|H0].
    + eexists. split; [by apply EnsureSlot_empty | by left].
    + destruct Hbad as [?|H6]; [done|].
      eexists. split; [by apply EnsureSlot_bad_stride | by right].
  - intros st mc' Hrun Hst.
    apply EnsureSlot_status in Hrun
      as [(-> & -> & ?) | [(-> & -> & ?) | ([-> | [-> | ->]] & _)]];
      try (destruct Hst; discriminate); auto.
Qed.

(** ** Growth eligibility *)



(** ** The free list *)

Lemma addFreeSlot_scan_le ref l : forall i insertIdx,
  (insertIdx <= i)%nat ->
  (addFreeSlot_scan ref i insertIdx l <= i + length l)%nat.
Proof.
  induction l as [|e l IH]; intros i insertIdx Hle; simpl; [lia|].
  destruct (ref_batch ref <? ref_batch e)%nat; [lia|].
  destruct (ref_batch e <? ref_batch ref)%nat.
  { specialize (IH (S i) insertIdx). lia. }
  destruct (ref_slotIndex ref <? ref_slotIndex e)%nat; [lia|].
  specialize (IH (S i) (S i)). lia.
Qed.

(** Whatever position the scan settles on, the entry is added once and
    nothing else moves out. *)
Lemma addFreeSlot_Permutation bp ref :
  Permutation (freeSlots (addFreeSlot bp ref)) (ref :: freeSlots bp).
Proof.
  unfold addFreeSlot. destruct FreeListEnableSorted; simpl.
  - destruct (length (freeSlots bp) <=? _)%nat; simpl.
    + rewrite Permutation_app_comm. reflexivity.
    + rewrite <- Permutation_middle. rewrite take_drop. reflexivity.
  - rewrite Permutation_app_comm. reflexivity.
Qed.

Lemma addFreeSlot_fields bp ref :
  pool_size (addFreeSlot bp ref) = pool_size bp /\
  vertexCapacityPerSlot (addFreeSlot bp ref) = vertexCapacityPerSlot bp /\
  slotsPerBatch (addFreeSlot bp ref) = slotsPerBatch bp /\
  batches (addFreeSlot bp ref) = batches bp.
Proof.
  unfold addFreeSlot. destruct (negb FreeListEnableSorted); [done|].
  destruct (length (freeSlots bp) <=? _)%nat; done.
Qed.

(** On a sorted list [findFreeSlot] hands out the least entry. *)
Lemma findFreeSlot_sorted_least bp :
  freeListSorted (freeSlots bp) -> freeSlots bp <> [] ->
  exists ref rest,
    freeSlots bp = ref :: rest /\
    findFreeSlot bp = (Some ref, set_freeSlots bp rest) /\
    Forall (ref_le ref) rest.
Proof.
  intros Hsorted Hne. unfold findFreeSlot.
  destruct (freeSlots bp) as [|ref rest] eqn:E; [done|].
  exists ref, rest. split; [done|]. split; [done|].
  by apply StronglySorted_inv in Hsorted as [_ H].
Qed.

(** C3. The sorted insertion of [addFreeSlot] puts an entry whose batch
    id is above every batch id of the list in front of the list: the
    pool below is reached by two oversized clusters and the removal of
    the first, its free list is sorted, and freeing the slot of the
    second cluster leaves it unsorted. *)
Theorem C3_addFreeSlot_breaks_order :
  exists mc,
    run NewMemoryController twoOversized = Some mc /\
    freeSlots (buckets mc BucketXXL) = [mkSlotRef 0 0] /\
    freeListSorted (freeSlots (buckets mc BucketXXL)) /\
    freeSlots (addFreeSlot (buckets mc BucketXXL) (mkSlotRef 1 0))
      = [mkSlotRef 1 0; mkSlotRef 0 0] /\
    ~ freeListSorted
        (freeSlots (addFreeSlot (buckets mc BucketXXL) (mkSlotRef 1 0))).
Proof.
  assert (H : (fun m => freeSlots (buckets m BucketXXL))
                <$> run NewMemoryController twoOversized
              = Some [mkSlotRef 0 0]) by (vm_compute; reflexivity).
  destruct (run NewMemoryController twoOversized) as [mc|]; [|discriminate H].
  simpl in H. injection H as Hfree.
  assert (Hadd : freeSlots (addFreeSlot (buckets mc BucketXXL) (mkSlotRef 1 0))
                 = [mkSlotRef 1 0; mkSlotRef 0 0]).
  { unfold addFreeSlot. rewrite Hfree. reflexivity. }
  exists mc. split; [done|]. split; [done|]. rewrite Hadd, Hfree.
  split; [|split; [done|]].
  - repeat constructor.
  - intros Hs. apply StronglySorted_inv in Hs as [_ Hall].
    apply Forall_cons in Hall as [[Hlt | [Heq _]] _]; simpl in *; lia.
Qed.

(** ** The scenario of 300 entries of 900 vertices *)

(** What the run of the scenario leaves in the S pool, by evaluation. *)
Lemma scenario300_computed :
  (fun mc =>
     (batches (buckets mc BucketS),
      (fun b => (length (slots b), length (activeSlots b), growthCycles b,
                 totalVertexCapacity b)) <$> heap mc !! 0%nat,
      GrowthEvents (stats mc),
      length (freeSlots (buckets mc BucketS)),
      forallb (fun r => ref_batch r =? 0)%nat (freeSlots (buckets mc BucketS))))
    <$> scenario300
  = Some ([0%nat], Some (512%nat, 300%nat, 1, 524288), 1, 212%nat, true).
Proof. vm_compute. reflexivity. Qed.

Lemma C1_counterexample :
  exists mc, scenario300 = Some mc /\ ~ twoBatchOutcome mc.
Proof.
  pose proof scenario300_computed as H.
  destruct scenario300 as [mc|]; [|discriminate H].
  exists mc. split; [done|]. simpl in H. injection H as Hb _ _ _ _.
  intros (k1 & k2 & b1 & b2 & Hbs & _). congruence.
Qed.

(** C1 (amended). The 300 calls end with one batch in the S pool: the
    257th call finds it full and grows it to 512 slots, so that 300
    slots are active, one growth event is counted, and the 212 entries of
    the free list all belong to that batch. *)
Theorem C1_scenario_grows_one_batch :
  exists mc, scenario300 = Some mc /\ grownBatchOutcome mc.
Proof.
  pose proof scenario300_computed as H.
  destruct scenario300 as [mc|]; [|discriminate H].
  exists mc. split; [done|]. simpl in H.
  injection H as Hbs Hb Hg Hf Hall.
  destruct (heap mc !! 0%nat) as [b|] eqn:Hk; [|discriminate Hb].
  simpl in Hb. injection Hb as Hs Ha Hc Hcap.
  exists 0%nat, b. repeat split; try done.
  apply Forall_forall. intros r Hr.
  rewrite forallb_forall in Hall. apply Nat.eqb_eq, Hall.
  by apply list_elem_of_In.
Qed.

(** ** Growing a batch *)

Lemma growBatch_loop_spec k perSlot n : forall i vo ss pool ss' pool',
  growBatch_loop k perSlot n i vo ss pool = (ss', pool') ->
  length ss' = length ss /\
  (forall j, (j < i)%nat -> ss' !! j = ss !! j) /\
  (forall j s, (i <= j < i + n)%nat -> ss' !! j = Some s ->
               active s = false /\ clusterID s = 0 /\ vertexCount s = 0) /\
  (forall j, (i + n <= j)%nat -> ss' !! j = ss !! j) /\
  Permutation (freeSlots pool') (freeSlots pool ++ (mkSlotRef k <$> seq i n)) /\
  pool_size pool' = pool_size pool /\
  vertexCapacityPerSlot pool' = vertexCapacityPerSlot pool /\
  slotsPerBatch pool' = slotsPerBatch pool /\
  batches pool' = batches pool.
Proof.
  induction n as [|n IH]; intros i vo ss pool ss' pool' H; simpl in H.
  - inversion H; subst. simpl. rewrite app_nil_r.
    repeat split; try done; intros; lia.
  - apply IH in H as (Hlen & Hlow & Hnew & Hhigh & Hperm & Hf1 & Hf2 & Hf3 & Hf4).
    rewrite length_insert in Hlen.
    destruct (addFreeSlot_fields pool (mkSlotRef k i)) as (G1 & G2 & G3 & G4).
    split; [done|]. split; [|split; [|split; [|split]]].
    + intros j Hj. rewrite Hlow by lia. apply list_lookup_insert_ne. lia.
    + intros j s Hj Hs. destruct (decide (j = i)) as [->|Hne].
      * rewrite Hlow in Hs by lia.
        destruct (decide (i < length ss)%nat) as [Hlt|Hge].
        -- rewrite list_lookup_insert_eq in Hs by done. by inversion Hs.
        -- rewrite lookup_ge_None_2 in Hs; [done|]. rewrite length_insert. lia.
      * apply (Hnew j s); [lia|done].
    + intros j Hj. rewrite Hhigh by lia. apply list_lookup_insert_ne. lia.
    + rewrite Hperm, addFreeSlot_Permutation. simpl.
      rewrite <- Permutation_middle. reflexivity.
    + repeat split; congruence.
Qed.

Lemma canGrow_true_inv b :
  canGrow b = true ->
  growthCycles b < GrowthMaxCycles /\ length (slots b) <> 0%nat /\
  (GrowthUtilThreshold <= utilization b)%Q.
Proof.
  unfold canGrow. simpl. intros H.
  destruct (GrowthMaxCycles <=? growthCycles b) eqn:Hcyc; [discriminate|].
  destruct (length (slots b) =? 0)%nat eqn:Hlen; [discriminate|].
  destruct (Qltb (utilization b) GrowthUtilThreshold) eqn:Hutil; [discriminate|].
  apply Z.leb_gt in Hcyc. apply Nat.eqb_neq in Hlen. apply Qltb_false in Hutil.
  done.
Qed.

(** What a successful [growBatch] leaves behind, field by field. *)
Lemma growBatch_ok mc k affected mc' :
  growBatch mc k = Some (affected, ok, mc') ->
  exists b newSlots pool',
    heap mc !! k = Some b /\ canGrow b = true /\
    mapM (fun slotIdx => clusterID <$> slots b !! slotIdx) (activeSlots b)
      = Some affected /\
    growBatch_loop k (vertexCapacityPerSlot (buckets mc (bucketSize b)))
      (length (slots b) * 2 - length (slots b)) (length (slots b))
      (int_mul (vertexCapacityPerSlot (buckets mc (bucketSize b)))
         (Z.of_nat (length (slots b))))
      (slots b ++ replicate (length (slots b) * 2 - length (slots b))
                    (mkSlot false 0 0 0))
      (buckets mc (bucketSize b)) = (newSlots, pool') /\
    heap mc' = <[k := mkBatch (batch_id b) (int_mul (totalVertexCapacity b) 2)
                        newSlots (activeSlots b) (bucketSize b)
                        (int_add (growthCycles b) 1) (initialCapacity b)]>
                 (heap mc) /\
    buckets mc' (bucketSize b) = pool' /\
    (forall q, q <> bucketSize b -> buckets mc' q = buckets mc q) /\
    clusterSlots mc' = clusterSlots mc /\
    clustersNeedingReupload mc' = clustersNeedingReupload mc /\
    nextBatchID mc' = nextBatchID mc /\
    GrowthEvents (stats mc') = int_add (GrowthEvents (stats mc)) 1.
Proof.
  unfold growBatch. intros H.
  apply bind_Some in H as (b & Hb & H).
  destruct (canGrow b) eqn:Hcg; simpl in H; [|discriminate].
  apply bind_Some in H as (aff & Haff & H).
  destruct (growBatch_loop _ _ _ _ _ _ _) as [newSlots pool'] eqn:Hloop.
  inversion H; subst; clear H.
  exists b, newSlots, pool'. simpl.
  repeat split; try done.
  - by rewrite decide_True.
  - intros q Hq. by rewrite decide_False.
Qed.

Lemma growBatch_failed mc k affected e mc' :
  growBatch mc k = Some (affected, failed e, mc') ->
  mc' = mc /\ exists b, heap mc !! k = Some b /\ canGrow b = false.
Proof.
  unfold growBatch. intros H.
  apply bind_Some in H as (b & Hb & H).
  destruct (canGrow b) eqn:Hcg; simpl in H.
  - apply bind_Some in H as (aff & Haff & H).
    destruct (growBatch_loop _ _ _ _ _ _ _). inversion H.
  - inversion H; subst. eauto.
Qed.

(** C10. A successful [growBatch] keeps every slot the batch had, with
    all its fields, doubles the number of slots and the vertex capacity,
    counts one more growth cycle, and adds to the free list of the pool
    exactly the positions of the new slots.  The doubled capacity and the
    cycle counter are taken to be representable as [int]s. *)
Theorem C10_growBatch_frame (mc : MemoryController) (k : nat) (b : Batch)
  (affected : list ClusterID) (mc' : MemoryController) :
  heap mc !! k = Some b ->
  in_int (totalVertexCapacity b * 2) ->
  in_int (growthCycles b) ->
  growBatch mc k = Some (affected, ok, mc') ->
  exists b',
    heap mc' !! k = Some b' /\
    (forall i s, slots b !! i = Some s -> slots b' !! i = Some s) /\
    length (slots b') = (2 * length (slots b))%nat /\
    totalVertexCapacity b' = 2 * totalVertexCapacity b /\
    growthCycles b' = growthCycles b + 1 /\
    activeSlots b' = activeSlots b /\
    Permutation (freeSlots (buckets mc' (bucketSize b)))
      (freeSlots (buckets mc (bucketSize b))
         ++ (mkSlotRef k <$> seq (length (slots b)) (length (slots b)))).
Proof.
  intros Hb Hcap Hcyc Hgrow.
  apply growBatch_ok in Hgrow
    as (b0 & newSlots & pool' & Hb0 & Hcg & _ & Hloop & Hheap & Hpool & _).
  rewrite Hb in Hb0. injection Hb0 as <-.
  apply growBatch_loop_spec in Hloop
    as (Hlen & Hlow & _ & _ & Hperm & _).
  apply canGrow_true_inv in Hcg as (Hlt & _ & _).
  eexists. rewrite Hheap, lookup_insert_eq. split; [reflexivity|]. simpl.
  split; [|split; [|split; [|split; [|split]]]].
  - intros i s Hs. rewrite Hlow by (by eapply lookup_lt_Some).
    by apply lookup_app_l_Some.
  - rewrite Hlen, length_app, length_replicate. lia.
  - unfold int_mul. rewrite wrap_in_int by done. lia.
  - unfold int_add. apply wrap_in_int.
    unfold GrowthMaxCycles, in_int, int_min, int_max in *. lia.
  - done.
  - rewrite Hpool, Hperm.
    replace (length (slots b) * 2 - length (slots b))%nat
      with (length (slots b)) by lia.
    reflexivity.
Qed.

Lemma C10_growBatch_frame_witness :
  let b := mkBatch 0 4 [mkSlot true 7 2 0] [0%nat] BucketS 0 4 in
  let mc := put_batch NewMemoryController 0 b in
  exists mc' b',
    growBatch mc 0 = Some ([7], ok, mc') /\
    heap mc' !! 0%nat = Some b' /\
    (forall i s, slots b !! i = Some s -> slots b' !! i = Some s) /\
    length (slots b') = (2 * length (slots b))%nat /\
    totalVertexCapacity b' = 2 * totalVertexCapacity b /\
    growthCycles b' = growthCycles b + 1 /\
    activeSlots b' = activeSlots b /\
    Permutation (freeSlots (buckets mc' (bucketSize b)))
      (freeSlots (buckets mc (bucketSize b))
         ++ (mkSlotRef 0 <$> seq (length (slots b)) (length (slots b)))).
Proof.
  intros b mc.
  destruct (growBatch mc 0) as [[[aff st] mc']|] eqn:Hgrow;
    [|vm_compute in Hgrow; discriminate Hgrow].
  assert (Haff : aff = [7] /\ st = ok).
  { assert (H : (fun r => (r.1.1, r.1.2)) <$> growBatch mc 0 = Some ([7], ok))
      by (vm_compute; reflexivity).
    rewrite Hgrow in H. simpl in H. by inversion H. }
  destruct Haff as [-> ->].
  destruct (C10_growBatch_frame mc 0 b [7] mc') as (b' & Hb');
    [reflexivity | unfold in_int, int_min, int_max; simpl; lia
    | unfold in_int, int_min, int_max; simpl; lia | exact Hgrow |].
  exists mc', b'. split; [reflexivity | exact Hb'].
Defined.

(** ** The scan of the compactor *)

Lemma ScanForCompaction_pool_spec h bs : forall candidates,
  (forall k, k ∈ bs -> is_Some (h !! k)) ->
  ScanForCompaction_pool h bs candidates
  = Some (candidates ++ filter (fun k => sparseAt h k = true) bs).
Proof.
  induction bs as [|k bs IH]; intros candidates Hin; simpl.
  - by rewrite app_nil_r.
  - destruct (Hin k) as [b Hb]; [by left|].
    rewrite Hb. simpl. rewrite filter_cons.
    assert (Hsp : sparseAt h k = isCandidate b) by (unfold sparseAt; by rewrite Hb).
    assert (Hrest : forall k', k' ∈ bs -> is_Some (h !! k'))
      by (intros k' Hk'; apply Hin; by right).
    unfold isCandidate in Hsp.
    destruct (length (slots b) =? 0)%nat; simpl in Hsp.
    + rewrite decide_False by (rewrite Hsp; done). by apply IH.
    + destruct (Qltb (utilization b) DefragThreshold).
      * rewrite decide_True by done. rewrite IH by done.
        by rewrite <- app_assoc.
      * rewrite decide_False by (rewrite Hsp; done). by apply IH.
Qed.

Lemma ScanForCompaction_buckets_spec h bks sizes : forall candidates,
  (forall k, k ∈ mjoin ((fun size => match bks size with
                                      | Some pool => batches pool
                                      | None => []
                                      end) <$> sizes) -> is_Some (h !! k)) ->
  ScanForCompaction_buckets h bks sizes candidates
  = Some (candidates ++
          filter (fun k => sparseAt h k = true)
            (mjoin ((fun size => match bks size with
                                 | Some pool => batches pool
                                 | None => []
                                 end) <$> sizes))).
Proof.
  induction sizes as [|size sizes IH]; intros candidates Hin; simpl.
  - by rewrite app_nil_r.
  - simpl in Hin. destruct (bks size) as [pool|] eqn:Hp.
    + rewrite ScanForCompaction_pool_spec
        by (intros k Hk; apply Hin, elem_of_app; by left).
      simpl. rewrite IH by (intros k Hk; apply Hin, elem_of_app; by right).
      by rewrite filter_app, app_assoc.
    + simpl in *. by apply IH.
Qed.

Lemma sparseAt_true h k :
  sparseAt h k = true <->
  exists b, h !! k = Some b /\ length (slots b) <> 0%nat /\
            (utilization b < DefragThreshold)%Q.
Proof.
  unfold sparseAt, isCandidate. split.
  - destruct (h !! k) as [b|]; [|done]. intros H.
    apply andb_true_iff in H as [H1 H2].
    apply negb_true_iff, Nat.eqb_neq in H1. apply Qltb_true in H2. eauto.
  - intros (b & -> & H1 & H2). apply andb_true_iff. split.
    + by apply negb_true_iff, Nat.eqb_neq.
    + by apply Qltb_true.
Qed.

Lemma StronglySorted_weaken {A} (R R' : A -> A -> Prop) l :
  (forall x y, x ∈ l -> y ∈ l -> R x y -> R' x y) ->
  StronglySorted R l -> StronglySorted R' l.
Proof.
  intros Himp Hs. induction Hs as [|x l Hs IH Hall]; constructor.
  - apply IH. intros y z Hy Hz. apply Himp; by right.
  - apply Forall_forall. intros y Hy. apply Himp; [by left | by right |].
    rewrite Forall_forall in Hall. by apply Hall.
Qed.

(** The utilisation the scan computes is the quotient of the two slot
    counts of the batch. *)
Lemma utilization_quotient b :
  length (slots b) <> 0%nat ->
  (utilization b
   == inject_Z (Z.of_nat (length (activeSlots b)))
      / inject_Z (Z.of_nat (length (slots b))))%Q.
Proof.
  intros Hlen. unfold utilization. rewrite Qmake_Qdiv.
  replace (Z.pos (Pos.of_nat (length (slots b))))
    with (Z.of_nat (length (slots b))); [reflexivity|].
  destruct (length (slots b)) as [|n]; [done|].
  by rewrite <- Pos.of_nat_succ, Zpos_P_of_succ_nat, Nat2Z.inj_succ.
Qed.

Lemma list_filter_elem_iff {A} (P Q : A -> Prop)
  `{!forall x, Decision (P x)} `{!forall x, Decision (Q x)} (l : list A) :
  (forall x, x ∈ l -> P x <-> Q x) -> filter P l = filter Q l.
Proof.
  induction l as [|x l IH]; intros Hiff; [done|].
  rewrite !filter_cons.
  rewrite IH by (intros y Hy; apply Hiff; by right).
  destruct (decide (P x)) as [HP|HP], (decide (Q x)) as [HQ|HQ]; try done.
  - destruct HQ. apply Hiff; [by left|done].
  - destruct HP. apply Hiff; [by left|done].
Qed.

(** C9. Over pools whose batch pointers are valid, and with a sort that
    keeps the promise of [sort.Slice], the scan returns the batches that
    have slots and whose active slots divided by their slots are below
    the floor, each as often as the pools list it, no batch without
    slots among them, in ascending order of that quotient. *)
Theorem C9_scan_candidates
  (sortSlice : (nat -> nat -> bool) -> list nat -> list nat)
  (h : gmap nat Batch) (bks : BucketSize -> option BucketPool) :
  sortContract sortSlice ->
  (forall k, k ∈ scannedBatches bks -> is_Some (h !! k)) ->
  exists out,
    ScanForCompaction sortSlice h bks = Some out /\
    Permutation out (filter (fun k => k ∈ out) (scannedBatches bks)) /\
    (forall k, k ∈ out <->
       k ∈ scannedBatches bks /\
       exists b, h !! k = Some b /\ length (slots b) <> 0%nat /\
                 (inject_Z (Z.of_nat (length (activeSlots b)))
                  / inject_Z (Z.of_nat (length (slots b)))
                  < DefragThreshold)%Q) /\
    StronglySorted
      (fun k1 k2 =>
         exists b1 b2,
           h !! k1 = Some b1 /\ h !! k2 = Some b2 /\
           (inject_Z (Z.of_nat (length (activeSlots b1)))
            / inject_Z (Z.of_nat (length (slots b1)))
            <= inject_Z (Z.of_nat (length (activeSlots b2)))
               / inject_Z (Z.of_nat (length (slots b2))))%Q) out.
Proof.
  intros Hsort Hvalid. unfold ScanForCompaction.
  change (negb DefragEnableCompaction) with false. cbv iota.
  rewrite ScanForCompaction_buckets_spec by exact Hvalid.
  fold (scannedBatches bks). rewrite app_nil_l. simpl.
  set (cands := filter (fun k => sparseAt h k = true) (scannedBatches bks)).
  destruct (Hsort (lessUtilization h) cands) as [Hperm Hsorted].
  assert (Hc : forall k, k ∈ cands ->
             exists b, h !! k = Some b /\ length (slots b) <> 0%nat /\
                       (utilization b < DefragThreshold)%Q).
  { intros k Hk. apply list_elem_of_filter in Hk as [Hk _].
    by apply sparseAt_true. }
  eexists. split; [reflexivity|]. split; [|split].
  - assert (Heq : filter (fun k => k ∈ sortSlice (lessUtilization h) cands)
                    (scannedBatches bks) = cands).
    { apply list_filter_elem_iff. intros k Hk. rewrite Hperm. unfold cands.
      rewrite list_elem_of_filter. tauto. }
    rewrite Heq. exact Hperm.
  - intros k. rewrite Hperm. unfold cands. rewrite list_elem_of_filter.
    rewrite sparseAt_true. split.
    + intros [(b & Hb & Hlen & Hlt) Hk]. split; [done|].
      exists b. split; [done|]. split; [done|].
      by rewrite <- utilization_quotient.
    + intros [Hk (b & Hb & Hlen & Hlt)]. split; [|done].
      exists b. split; [done|]. split; [done|].
      by rewrite utilization_quotient.
  - eapply StronglySorted_weaken; [|apply Hsorted].
    + intros x y Hx Hy Hless. rewrite Hperm in Hx, Hy.
      destruct (Hc x Hx) as (bx & Hbx & Hlx & _),
        (Hc y Hy) as (by' & Hby & Hly & _).
      unfold lessUtilization in Hless. rewrite Hbx, Hby in Hless.
      apply Qltb_false in Hless.
      exists bx, by'. split; [done|]. split; [done|].
      by rewrite <- !utilization_quotient.
    + intros x y Hx Hy. unfold lessUtilization.
      destruct (Hc x Hx) as (bx & -> & _), (Hc y Hy) as (by' & -> & _).
      rewrite Qltb_true, Qltb_false. apply Qlt_le_weak.
    + intros x y z Hx Hy Hz. unfold lessUtilization.
      destruct (Hc x Hx) as (bx & -> & _), (Hc y Hy) as (by' & -> & _),
        (Hc z Hz) as (bz & -> & _).
      rewrite !Qltb_false. intros H1 H2. by eapply Qle_trans.
Qed.

(** The insertion sort keeps the promise of [sort.Slice]. *)

Lemma insertSorted_Permutation less x l :
  Permutation (insertSorted less x l) (x :: l).
Proof.
  induction l as [|y l IH]; simpl; [done|].
  destruct (less x y); [done|]. rewrite IH. apply perm_swap.
Qed.

Lemma insertionSort_Permutation less l : Permutation (insertionSort less l) l.
Proof.
  induction l as [|x l IH]; simpl; [done|].
  rewrite insertSorted_Permutation. by constructor.
Qed.

Lemma insertSorted_sorted (less : nat -> nat -> bool) (S : list nat) x l :
  (forall a b, a ∈ S -> b ∈ S -> less a b = true -> less b a = false) ->
  (forall a b c, a ∈ S -> b ∈ S -> c ∈ S ->
     less a b = false -> less b c = false -> less a c = false) ->
  x ∈ S -> (forall y, y ∈ l -> y ∈ S) ->
  StronglySorted (fun a b => less b a = false) l ->
  StronglySorted (fun a b => less b a = false) (insertSorted less x l).
Proof.
  intros Hasym Htrans Hx Hl Hs.
  induction Hs as [|y l Hs IH Hall]; simpl.
  - repeat constructor.
  - assert (Hy : y ∈ S) by (apply Hl; by left).
    assert (Hl' : forall z, z ∈ l -> z ∈ S) by (intros z Hz; apply Hl; by right).
    destruct (less x y) eqn:Hxy.
    + constructor; [by constructor|].
      constructor; [by apply Hasym|].
      apply Forall_forall. intros z Hz. rewrite Forall_forall in Hall.
      apply (Htrans z y x); auto.
    + constructor; [by apply IH|].
      apply Forall_forall. intros z Hz.
      rewrite insertSorted_Permutation in Hz.
      apply elem_of_cons in Hz as [->|Hz]; [done|].
      rewrite Forall_forall in Hall. by apply Hall.
Qed.

Lemma insertionSort_sorted (less : nat -> nat -> bool) (S : list nat) l :
  (forall a b, a ∈ S -> b ∈ S -> less a b = true -> less b a = false) ->
  (forall a b c, a ∈ S -> b ∈ S -> c ∈ S ->
     less a b = false -> less b c = false -> less a c = false) ->
  (forall y, y ∈ l -> y ∈ S) ->
  StronglySorted (fun a b => less b a = false) (insertionSort less l).
Proof.
  intros Hasym Htrans. induction l as [|x l IH]; intros Hl; simpl.
  - constructor.
  - apply (insertSorted_sorted less S); auto.
    + apply Hl. by left.
    + intros y Hy. rewrite insertionSort_Permutation in Hy. apply Hl. by right.
    + apply IH. intros y Hy. apply Hl. by right.
Qed.

Lemma insertionSort_sortContract : sortContract insertionSort.
Proof.
  intros less l. split; [apply insertionSort_Permutation|].
  intros Hasym Htrans. by apply (insertionSort_sorted less l).
Qed.

Lemma C9_scan_candidates_witness :
  let out := [0%nat; 2%nat] in
  ScanForCompaction insertionSort scanHeap scanPools = Some out /\
  Permutation out (filter (fun k => k ∈ out) (scannedBatches scanPools)) /\
  (forall k, k ∈ out <->
     k ∈ scannedBatches scanPools /\
     exists b, scanHeap !! k = Some b /\ length (slots b) <> 0%nat /\
               (inject_Z (Z.of_nat (length (activeSlots b)))
                / inject_Z (Z.of_nat (length (slots b)))
                < DefragThreshold)%Q) /\
  StronglySorted
    (fun k1 k2 =>
       exists b1 b2,
         scanHeap !! k1 = Some b1 /\ scanHeap !! k2 = Some b2 /\
         (inject_Z (Z.of_nat (length (activeSlots b1)))
          / inject_Z (Z.of_nat (length (slots b1)))
          <= inject_Z (Z.of_nat (length (activeSlots b2)))
             / inject_Z (Z.of_nat (length (slots b2))))%Q) out.
Proof.
  intros out0.
  destruct (C9_scan_candidates insertionSort scanHeap scanPools) as (out & Hrun & H).
  - exact insertionSort_sortContract.
  - intros k Hk. vm_compute in Hk.
    repeat (apply elem_of_cons in Hk as [->|Hk]; [by eexists|]).
    by apply elem_of_nil in Hk.
  - assert (Hout : Some out0 = Some out) by (rewrite <- Hrun; reflexivity).
    injection Hout as <-. split; [exact Hrun|exact H].
Defined.

Example scan_example :
  ScanForCompaction insertionSort scanHeap scanPools = Some [0%nat; 2%nat].
Proof. reflexivity. Qed.

(** ** The invariant: how each change of state keeps it *)

Lemma inv_NewMemoryController : inv NewMemoryController.
Proof.
  constructor; simpl.
  - intros k b H. by rewrite lookup_empty in H.
  - intros p. by destruct p.
  - intros p. destruct p; constructor.
  - intros p k H. destruct p; by apply elem_of_nil in H.
  - intros p. destruct p; constructor.
  - intros p r H. destruct p; by apply elem_of_nil in H.
  - intros cid a H. by rewrite lookup_empty in H.
  - intros k b i s H. by rewrite lookup_empty in H.
Qed.

Section InvSteps.

Context (h : gmap nat Batch) (bk : BucketSize -> BucketPool)
  (cs : gmap Z SlotAllocation) (n : nat).
Hypothesis I : Inv h bk cs n.

(** A batch is listed by one pool only, the one of its class. *)
Lemma Inv_batch_pool p k b :
  k ∈ batches (bk p) -> h !! k = Some b -> bucketSize b = p.
Proof.
  intros Hk Hb. destruct (Inv_batches _ _ _ _ I p k Hk) as (b' & Hb' & Hp).
  congruence.
Qed.

Lemma Inv_active_lt k b i :
  h !! k = Some b -> i ∈ activeSlots b -> (i < length (slots b))%nat.
Proof.
  intros Hb Hi. destruct (Inv_heap _ _ _ _ I k b Hb) as (_ & _ & _ & _ & Hiff & _).
  apply Hiff in Hi as (s & Hs & _). by eapply lookup_lt_Some.
Qed.

(** Free lists may lose entries. *)
Lemma Inv_free_shrink (bk' : BucketSize -> BucketPool) :
  (forall q, sameButFree (bk q) (bk' q)) ->
  (forall q, NoDup (freeSlots (bk' q))) ->
  (forall q r, r ∈ freeSlots (bk' q) -> r ∈ freeSlots (bk q)) ->
  Inv h bk' cs n.
Proof.
  intros Hsame Hnd Hsub. destruct I. constructor.
  - done.
  - intros p. destruct (Hsame p) as (-> & -> & -> & _). auto.
  - intros p. destruct (Hsame p) as (_ & _ & _ & ->). auto.
  - intros p k. destruct (Hsame p) as (_ & _ & _ & ->). auto.
  - done.
  - intros p r Hr. destruct (Hsame p) as (_ & _ & _ & ->). auto.
  - done.
  - intros k b i s Hb Hs Ha.
    destruct (Hsame (bucketSize b)) as (_ & _ & _ & ->). eauto.
Qed.

(** Claiming an inactive slot for a cluster that has no record. *)
Lemma Inv_claim (bk' : BucketSize -> BucketPool) k b i s cid vc vc' :
  h !! k = Some b ->
  k ∈ batches (bk (bucketSize b)) ->
  slots b !! i = Some s -> active s = false ->
  cs !! cid = None ->
  (forall q, sameButFree (bk q) (bk' q)) ->
  (forall q, NoDup (freeSlots (bk' q))) ->
  (forall q r, r ∈ freeSlots (bk' q) -> r ∈ freeSlots (bk q)) ->
  mkSlotRef k i ∉ freeSlots (bk' (bucketSize b)) ->
  Inv (<[k := mkBatch (batch_id b) (totalVertexCapacity b)
                 (<[i := mkSlot true cid vc (vertexOffset s)]> (slots b))
                 (activeSlots b ++ [i]) (bucketSize b) (growthCycles b)
                 (initialCapacity b)]> h)
      bk' (<[cid := mkSlotAllocation k i vc']> cs) n.
Proof.
  intros Hb Hin Hs Hinactive Hfresh Hsame Hnd Hsub Hnotfree.
  assert (Hi : (i < length (slots b))%nat) by (by eapply lookup_lt_Some).
  destruct (Inv_heap _ _ _ _ I k b Hb) as (Hlt & Hid & Hcap & Hand & Hiff & Hxxl).
  assert (Hni : i ∉ activeSlots b).
  { intros Hc. apply Hiff in Hc as (s' & Hs' & Ha'). congruence. }
  constructor.
  - intros k0 b0 H0. destruct (decide (k0 = k)) as [->|Hne].
    + rewrite lookup_insert_eq in H0. injection H0 as <-.
      split; [done|]. split; [done|]. split; [done|]. simpl. split; [|split].
      * apply NoDup_app. split; [done|]. split; [|apply NoDup_singleton].
        intros x Hx Hx'. apply list_elem_of_singleton in Hx'. by subst.
      * intros j. rewrite elem_of_app, list_elem_of_singleton.
        destruct (decide (j = i)) as [->|Hji].
        -- rewrite list_lookup_insert_eq by done. split; [eauto|by right].
        -- rewrite list_lookup_insert_ne by done. rewrite Hiff. tauto.
      * intros Hx j s' Hs'. destruct (decide (j = i)) as [->|Hji].
        -- rewrite list_lookup_insert_eq in Hs' by done. injection Hs' as <-.
           simpl. by eapply Hxxl.
        -- rewrite list_lookup_insert_ne in Hs' by done. by eapply Hxxl.
    + rewrite lookup_insert_ne in H0 by done. by eapply Inv_heap.
  - intros p. destruct (Hsame p) as (-> & -> & -> & _). by eapply Inv_static.
  - intros p. destruct (Hsame p) as (_ & _ & _ & ->). by eapply Inv_batches_NoDup.
  - intros p k0 Hk0. destruct (Hsame p) as (_ & _ & _ & Hbs). rewrite Hbs in Hk0.
    destruct (Inv_batches _ _ _ _ I p k0 Hk0) as (b0 & Hb0 & Hp).
    destruct (decide (k0 = k)) as [->|Hne].
    + rewrite lookup_insert_eq. eexists. split; [done|]. simpl. congruence.
    + rewrite lookup_insert_ne by done. eauto.
  - done.
  - intros p r Hr. destruct (Hsame p) as (_ & _ & _ & Hbs). rewrite Hbs.
    destruct (Inv_free _ _ _ _ I p r (Hsub p r Hr)) as (Hrb & b0 & s0 & Hb0 & Hs0 & Ha0).
    split; [done|].
    destruct (decide (ref_batch r = k)) as [Hk|Hne].
    + rewrite Hk in *. rewrite lookup_insert_eq.
      assert (b0 = b) by congruence. subst b0.
      assert (Hp : bucketSize b = p) by (by eapply Inv_batch_pool).
      destruct (decide (ref_slotIndex r = i)) as [Hidx|Hidx].
      * exfalso. apply Hnotfree. rewrite Hp.
        destruct r as [rb ri]. simpl in *. by subst.
      * eexists _, s0. split; [done|]. simpl.
        by rewrite list_lookup_insert_ne.
    + rewrite lookup_insert_ne by done. eauto 10.
  - intros cid0 a0 H0. destruct (decide (cid0 = cid)) as [->|Hne].
    + rewrite lookup_insert_eq in H0. injection H0 as <-. simpl.
      rewrite lookup_insert_eq. eexists _, _. split; [done|]. simpl.
      rewrite list_lookup_insert_eq by done. done.
    + rewrite lookup_insert_ne in H0 by done.
      destruct (Inv_rec _ _ _ _ I cid0 a0 H0) as (b0 & s0 & Hb0 & Hs0 & Ha0 & Hc0).
      destruct (decide (alloc_batch a0 = k)) as [Hk|Hk].
      * rewrite Hk in *. rewrite lookup_insert_eq.
        assert (b0 = b) by congruence. subst b0.
        eexists _, s0. split; [done|]. simpl.
        rewrite list_lookup_insert_ne; [done|].
        intros Heq. rewrite <- Heq in Hs0. congruence.
      * rewrite lookup_insert_ne by done. eauto 10.
  - intros k0 b0 j s0 H0 Hs0 Ha0. destruct (decide (k0 = k)) as [->|Hne].
    + rewrite lookup_insert_eq in H0. injection H0 as <-. simpl in *.
      destruct (Hsame (bucketSize b)) as (_ & _ & _ & ->). split; [done|].
      destruct (decide (j = i)) as [->|Hji].
      * rewrite list_lookup_insert_eq in Hs0 by done. injection Hs0 as <-.
        simpl. rewrite lookup_insert_eq. eauto.
      * rewrite list_lookup_insert_ne in Hs0 by done.
        destruct (Inv_owner _ _ _ _ I k b j s0 Hb Hs0 Ha0) as (_ & a0 & Hc0 & Hk0 & Hi0).
        exists a0. rewrite lookup_insert_ne; [done|].
        intros Heq. rewrite <- Heq in Hc0. congruence.
    + rewrite lookup_insert_ne in H0 by done.
      destruct (Inv_owner _ _ _ _ I k0 b0 j s0 H0 Hs0 Ha0) as (Hin0 & a0 & Hc0 & Hk0 & Hi0).
      destruct (Hsame (bucketSize b0)) as (_ & _ & _ & ->). split; [done|].
      exists a0. rewrite lookup_insert_ne; [done|].
      intros Heq. rewrite <- Heq in Hc0. congruence.
Qed.

(** Releasing the slot of a cluster: the record goes, the slot is
    inactive again and may enter the free list of its pool. *)
Lemma Inv_release (bk' : BucketSize -> BucketPool) cid a b s b' :
  cs !! cid = Some a ->
  h !! alloc_batch a = Some b ->
  slots b !! alloc_slotIndex a = Some s ->
  batch_id b' = batch_id b ->
  totalVertexCapacity b' = totalVertexCapacity b ->
  bucketSize b' = bucketSize b ->
  slots b' = <[alloc_slotIndex a := mkSlot false 0 0 (vertexOffset s)]> (slots b) ->
  NoDup (activeSlots b') ->
  (forall j, j ∈ activeSlots b' <-> j ∈ activeSlots b /\ j <> alloc_slotIndex a) ->
  (forall q, sameButFree (bk q) (bk' q)) ->
  (forall q, NoDup (freeSlots (bk' q))) ->
  (forall q r, r ∈ freeSlots (bk' q) ->
     r ∈ freeSlots (bk q) \/
     (q = bucketSize b /\ r = mkSlotRef (alloc_batch a) (alloc_slotIndex a))) ->
  Inv (<[alloc_batch a := b']> h) bk' (delete cid cs) n.
Proof.
  intros Hcid Hb Hs Hid' Hcap' Hbs' Hslots' Hnd' Hact' Hsame Hnd Hsub.
  set (k := alloc_batch a) in *. set (i := alloc_slotIndex a) in *.
  assert (Hi : (i < length (slots b))%nat) by (by eapply lookup_lt_Some).
  destruct (Inv_heap _ _ _ _ I k b Hb) as (Hlt & Hid & Hcap & Hand & Hiff & Hxxl).
  destruct (Inv_rec _ _ _ _ I cid a Hcid) as (b0 & s0 & Hb0 & Hs0 & Hactive & Howner).
  fold k in Hb0. fold i in Hs0.
  assert (b0 = b) by congruence. subst b0.
  assert (s0 = s) by congruence. subst s0.
  destruct (Inv_owner _ _ _ _ I k b i s Hb Hs Hactive) as (Hkin & _).
  constructor.
  - intros k0 b1 H0. destruct (decide (k0 = k)) as [->|Hne].
    + rewrite lookup_insert_eq in H0. injection H0 as <-.
      split; [done|]. split; [congruence|]. split; [by rewrite Hcap'|].
      split; [done|]. split.
      * intros j. rewrite Hact', Hiff, Hslots'.
        destruct (decide (j = i)) as [->|Hji].
        -- rewrite list_lookup_insert_eq by done. split.
           ++ intros [_ ?]. done.
           ++ intros (s' & Hs' & Ha'). injection Hs' as <-. done.
        -- rewrite list_lookup_insert_ne by done. tauto.
      * rewrite Hbs', Hslots'. intros Hx j s' Hs'.
        destruct (decide (j = i)) as [->|Hji].
        -- rewrite list_lookup_insert_eq in Hs' by done. injection Hs' as <-.
           simpl. by eapply Hxxl.
        -- rewrite list_lookup_insert_ne in Hs' by done. by eapply Hxxl.
    + rewrite lookup_insert_ne in H0 by done. by eapply Inv_heap.
  - intros p. destruct (Hsame p) as (-> & -> & -> & _). by eapply Inv_static.
  - intros p. destruct (Hsame p) as (_ & _ & _ & ->). by eapply Inv_batches_NoDup.
  - intros p k0 Hk0. destruct (Hsame p) as (_ & _ & _ & Hbs). rewrite Hbs in Hk0.
    destruct (Inv_batches _ _ _ _ I p k0 Hk0) as (b1 & Hb1 & Hp).
    destruct (decide (k0 = k)) as [->|Hne].
    + rewrite lookup_insert_eq. eexists. split; [done|]. congruence.
    + rewrite lookup_insert_ne by done. eauto.
  - done.
  - intros p r Hr. destruct (Hsame p) as (_ & _ & _ & Hbs). rewrite Hbs.
    destruct (Hsub p r Hr) as [Hold | [-> ->]].
    + destruct (Inv_free _ _ _ _ I p r Hold) as (Hrb & b1 & s1 & Hb1 & Hs1 & Ha1).
      split; [done|].
      destruct (decide (ref_batch r = k)) as [Hk|Hne].
      * rewrite Hk in *. rewrite lookup_insert_eq.
        assert (b1 = b) by congruence. subst b1.
        destruct (decide (ref_slotIndex r = i)) as [Hidx|Hidx]; [congruence|].
        eexists _, s1. split; [done|]. rewrite Hslots'.
        by rewrite list_lookup_insert_ne.
      * rewrite lookup_insert_ne by done. eauto 10.
    + simpl. split; [done|]. rewrite lookup_insert_eq.
      eexists _, _. split; [done|]. rewrite Hslots'.
      rewrite list_lookup_insert_eq by done. done.
  - intros cid0 a0 H0. apply lookup_delete_Some in H0 as [Hne0 H0].
    destruct (Inv_rec _ _ _ _ I cid0 a0 H0) as (b1 & s1 & Hb1 & Hs1 & Ha1 & Hc1).
    destruct (decide (alloc_batch a0 = k)) as [Hk|Hk].
    + rewrite Hk in *. rewrite lookup_insert_eq.
      assert (b1 = b) by congruence. subst b1.
      eexists _, s1. split; [done|]. rewrite Hslots'.
      rewrite list_lookup_insert_ne; [done|].
      intros Heq. rewrite <- Heq in Hs1. congruence.
    + rewrite lookup_insert_ne by done. eauto 10.
  - intros k0 b1 j s1 H0 Hs1 Ha1. destruct (decide (k0 = k)) as [->|Hne].
    + rewrite lookup_insert_eq in H0. injection H0 as <-.
      rewrite Hbs'. destruct (Hsame (bucketSize b)) as (_ & _ & _ & ->).
      split; [done|]. rewrite Hslots' in Hs1.
      destruct (decide (j = i)) as [->|Hji].
      * rewrite list_lookup_insert_eq in Hs1 by done. injection Hs1 as <-. done.
      * rewrite list_lookup_insert_ne in Hs1 by done.
        destruct (Inv_owner _ _ _ _ I k b j s1 Hb Hs1 Ha1) as (_ & a0 & Hc0 & Hk0 & Hi0).
        exists a0. rewrite lookup_delete_ne; [done|].
        intros Heq. rewrite <- Heq in Hc0. unfold i in Hji. congruence.
    + rewrite lookup_insert_ne in H0 by done.
      destruct (Inv_owner _ _ _ _ I k0 b1 j s1 H0 Hs1 Ha1) as (Hin0 & a0 & Hc0 & Hk0 & Hi0).
      destruct (Hsame (bucketSize b1)) as (_ & _ & _ & ->). split; [done|].
      exists a0. rewrite lookup_delete_ne; [done|].
      intros Heq. rewrite <- Heq in Hc0. unfold k in Hne. congruence.
Qed.

(** Rewriting the vertex count of a slot. *)
Lemma Inv_inplace k b i s vc :
  h !! k = Some b -> slots b !! i = Some s ->
  Inv (<[k := set_slots b
                (<[i := mkSlot (active s) (clusterID s) vc (vertexOffset s)]>
                   (slots b))]> h) bk cs n.
Proof.
  intros Hb Hs.
  assert (Hi : (i < length (slots b))%nat) by (by eapply lookup_lt_Some).
  assert (Hlook : forall j s',
    <[i := mkSlot (active s) (clusterID s) vc (vertexOffset s)]> (slots b) !! j
      = Some s' ->
    exists s0, slots b !! j = Some s0 /\ active s0 = active s' /\
               clusterID s0 = clusterID s' /\ vertexOffset s0 = vertexOffset s').
  { intros j s' Hs'. destruct (decide (j = i)) as [->|Hji].
    - rewrite list_lookup_insert_eq in Hs' by done. injection Hs' as <-. eauto.
    - rewrite list_lookup_insert_ne in Hs' by done. eauto. }
  assert (Hlook' : forall j s0, slots b !! j = Some s0 ->
    exists s', <[i := mkSlot (active s) (clusterID s) vc (vertexOffset s)]>
                 (slots b) !! j = Some s' /\ active s0 = active s' /\
               clusterID s0 = clusterID s' /\ vertexOffset s0 = vertexOffset s').
  { intros j s0 Hs0. destruct (decide (j = i)) as [->|Hji].
    - rewrite list_lookup_insert_eq by done. eexists. split; [done|].
      assert (s0 = s) by congruence. by subst.
    - rewrite list_lookup_insert_ne by done. eauto. }
  destruct (Inv_heap _ _ _ _ I k b Hb) as (Hlt & Hid & Hcap & Hand & Hiff & Hxxl).
  constructor.
  - intros k0 b1 H0. destruct (decide (k0 = k)) as [->|Hne].
    + rewrite lookup_insert_eq in H0. injection H0 as <-.
      split; [done|]. split; [done|]. split; [done|]. split; [done|].
      simpl. split.
      * intros j. rewrite Hiff. split.
        -- intros (s0 & Hs0 & Ha0).
           destruct (Hlook' j s0 Hs0) as (s' & Hs' & Ha' & _).
           exists s'. split; [done|]. congruence.
        -- intros (s' & Hs' & Ha').
           destruct (Hlook j s' Hs') as (s0 & Hs0 & Ha0 & _).
           exists s0. split; [done|]. congruence.
      * intros Hx j s' Hs'.
        destruct (Hlook j s' Hs') as (s0 & Hs0 & _ & _ & <-). by eapply Hxxl.
    + rewrite lookup_insert_ne in H0 by done. by eapply Inv_heap.
  - by eapply Inv_static.
  - by eapply Inv_batches_NoDup.
  - intros p k0 Hk0.
    destruct (Inv_batches _ _ _ _ I p k0 Hk0) as (b1 & Hb1 & Hp).
    destruct (decide (k0 = k)) as [->|Hne].
    + rewrite lookup_insert_eq. eexists. split; [done|]. simpl. congruence.
    + rewrite lookup_insert_ne by done. eauto.
  - by eapply Inv_free_NoDup.
  - intros p r Hr.
    destruct (Inv_free _ _ _ _ I p r Hr) as (Hrb & b1 & s1 & Hb1 & Hs1 & Ha1).
    split; [done|].
    destruct (decide (ref_batch r = k)) as [Hk|Hne].
    + rewrite Hk in *. rewrite lookup_insert_eq.
      assert (b1 = b) by congruence. subst b1.
      destruct (Hlook' _ _ Hs1) as (s' & Hs' & Ha' & _).
      eexists _, s'. split; [done|]. simpl. split; [done|]. congruence.
    + rewrite lookup_insert_ne by done. eauto 10.
  - intros cid0 a0 H0.
    destruct (Inv_rec _ _ _ _ I cid0 a0 H0) as (b1 & s1 & Hb1 & Hs1 & Ha1 & Hc1).
    destruct (decide (alloc_batch a0 = k)) as [Hk|Hk].
    + rewrite Hk in *. rewrite lookup_insert_eq.
      assert (b1 = b) by congruence. subst b1.
      destruct (Hlook' _ _ Hs1) as (s' & Hs' & Ha' & Hc' & _).
      eexists _, s'. split; [done|]. simpl. split; [done|]. split; congruence.
    + rewrite lookup_insert_ne by done. eauto 10.
  - intros k0 b1 j s1 H0 Hs1 Ha1. destruct (decide (k0 = k)) as [->|Hne].
    + rewrite lookup_insert_eq in H0. injection H0 as <-. simpl in *.
      destruct (Hlook j s1 Hs1) as (s0 & Hs0 & Ha0 & Hc0 & _).
      rewrite <- Hc0. eapply Inv_owner; eauto; congruence.
    + rewrite lookup_insert_ne in H0 by done. by eapply Inv_owner.
Qed.

(** Growing a batch of a fixed class: the old slots stay as they are,
    inactive ones follow, and their positions may enter the free list. *)
Lemma Inv_grow (bk' : BucketSize -> BucketPool) k b b' :
  h !! k = Some b ->
  k ∈ batches (bk (bucketSize b)) ->
  bucketSize b <> BucketXXL ->
  batch_id b' = batch_id b ->
  in_int (totalVertexCapacity b') ->
  bucketSize b' = bucketSize b ->
  activeSlots b' = activeSlots b ->
  (forall j, (j < length (slots b))%nat -> slots b' !! j = slots b !! j) ->
  (forall j s, (length (slots b) <= j)%nat -> slots b' !! j = Some s ->
               active s = false) ->
  (forall q, sameButFree (bk q) (bk' q)) ->
  (forall q, NoDup (freeSlots (bk' q))) ->
  (forall q r, r ∈ freeSlots (bk' q) ->
     r ∈ freeSlots (bk q) \/
     (q = bucketSize b /\ ref_batch r = k /\
      (length (slots b) <= ref_slotIndex r < length (slots b'))%nat)) ->
  Inv (<[k := b']> h) bk' cs n.
Proof.
  intros Hb Hkin Hnx Hid' Hcap' Hbs' Hact' Hlow Hhigh Hsame Hnd Hsub.
  destruct (Inv_heap _ _ _ _ I k b Hb) as (Hlt & Hid & Hcap & Hand & Hiff & Hxxl).
  assert (Hold : forall j s, slots b !! j = Some s -> slots b' !! j = Some s).
  { intros j s Hs. rewrite Hlow; [done|]. by eapply lookup_lt_Some. }
  assert (Hact : forall j s, slots b' !! j = Some s -> active s = true ->
                             slots b !! j = Some s).
  { intros j s Hs Ha. destruct (decide (j < length (slots b))%nat) as [Hj|Hj].
    - by rewrite <- Hlow.
    - rewrite (Hhigh j s) in Ha by (done || lia). done. }
  constructor.
  - intros k0 b1 H0. destruct (decide (k0 = k)) as [->|Hne].
    + rewrite lookup_insert_eq in H0. injection H0 as <-.
      split; [done|]. split; [congruence|]. split; [done|].
      rewrite Hact'. split; [done|]. split.
      * intros j. rewrite Hiff. split.
        -- intros (s & Hs & Ha). eauto.
        -- intros (s & Hs & Ha). eauto.
      * rewrite Hbs'. done.
    + rewrite lookup_insert_ne in H0 by done. by eapply Inv_heap.
  - intros p. destruct (Hsame p) as (-> & -> & -> & _). by eapply Inv_static.
  - intros p. destruct (Hsame p) as (_ & _ & _ & ->). by eapply Inv_batches_NoDup.
  - intros p k0 Hk0. destruct (Hsame p) as (_ & _ & _ & Hbs). rewrite Hbs in Hk0.
    destruct (Inv_batches _ _ _ _ I p k0 Hk0) as (b1 & Hb1 & Hp).
    destruct (decide (k0 = k)) as [->|Hne].
    + rewrite lookup_insert_eq. eexists. split; [done|]. congruence.
    + rewrite lookup_insert_ne by done. eauto.
  - done.
  - intros p r Hr. destruct (Hsame p) as (_ & _ & _ & Hbs). rewrite Hbs.
    destruct (Hsub p r Hr) as [Hold' | (-> & Hrk & Hri)].
    + destruct (Inv_free _ _ _ _ I p r Hold') as (Hrb & b1 & s1 & Hb1 & Hs1 & Ha1).
      split; [done|].
      destruct (decide (ref_batch r = k)) as [Hk|Hne].
      * rewrite Hk in *. rewrite lookup_insert_eq.
        assert (b1 = b) by congruence. subst b1. eauto 10.
      * rewrite lookup_insert_ne by done. eauto 10.
    + rewrite Hrk. split; [done|]. rewrite lookup_insert_eq.
      destruct (lookup_lt_is_Some_2 (slots b') (ref_slotIndex r)) as [s Hs]; [lia|].
      exists b', s. split; [done|]. split; [done|]. eapply Hhigh; [|done]. lia.
  - intros cid0 a0 H0.
    destruct (Inv_rec _ _ _ _ I cid0 a0 H0) as (b1 & s1 & Hb1 & Hs1 & Ha1 & Hc1).
    destruct (decide (alloc_batch a0 = k)) as [Hk|Hk].
    + rewrite Hk in *. rewrite lookup_insert_eq.
      assert (b1 = b) by congruence. subst b1. eauto 10.
    + rewrite lookup_insert_ne by done. eauto 10.
  - intros k0 b1 j s1 H0 Hs1 Ha1. destruct (decide (k0 = k)) as [->|Hne].
    + rewrite lookup_insert_eq in H0. injection H0 as <-.
      rewrite Hbs'. destruct (Hsame (bucketSize b)) as (_ & _ & _ & ->).
      split; [done|]. by eapply (Inv_owner _ _ _ _ I k b); eauto.
    + rewrite lookup_insert_ne in H0 by done.
      destruct (Hsame (bucketSize b1)) as (_ & _ & _ & ->).
      by eapply Inv_owner.
Qed.

(** A new batch, all of its slots inactive, at the end of a pool. *)
Lemma Inv_create (bk' : BucketSize -> BucketPool) p newb :
  batch_id newb = n ->
  in_int (totalVertexCapacity newb) ->
  bucketSize newb = p ->
  activeSlots newb = [] ->
  (forall j s, slots newb !! j = Some s -> active s = false) ->
  (p = BucketXXL -> forall j s, slots newb !! j = Some s -> vertexOffset s = 0) ->
  bk' p = set_batches (bk p) (batches (bk p) ++ [n]) ->
  (forall q, q <> p -> bk' q = bk q) ->
  Inv (<[n := newb]> h) bk' cs (S n).
Proof.
  intros Hid Hcap Hbs Hact Hinactive Hoff Hp Hq.
  assert (Hfreshk : h !! n = None).
  { destruct (h !! n) as [b0|] eqn:E; [|done].
    destruct (Inv_heap _ _ _ _ I n b0 E) as (Hlt & _). lia. }
  assert (Hbatches : forall q k, k ∈ batches (bk q) -> k ∈ batches (bk' q)).
  { intros q k Hk. destruct (decide (q = p)) as [->|Hne].
    - rewrite Hp. simpl. apply elem_of_app. by left.
    - by rewrite Hq. }
  assert (Hfree : forall q, freeSlots (bk' q) = freeSlots (bk q)).
  { intros q. destruct (decide (q = p)) as [->|Hne]; [by rewrite Hp | by rewrite Hq]. }
  constructor.
  - intros k0 b1 H0. destruct (decide (k0 = n)) as [->|Hne].
    + rewrite lookup_insert_eq in H0. injection H0 as <-.
      split; [lia|]. split; [done|]. split; [done|].
      rewrite Hact. split; [constructor|]. split.
      * intros j. split; [by intros ?%elem_of_nil|].
        intros (s & Hs & Ha). rewrite (Hinactive j s Hs) in Ha. done.
      * rewrite Hbs. done.
    + rewrite lookup_insert_ne in H0 by done.
      destruct (Inv_heap _ _ _ _ I k0 b1 H0) as (Hlt & Hrest). split; [lia|done].
  - intros q. destruct (decide (q = p)) as [->|Hne].
    + rewrite Hp. simpl. by eapply Inv_static.
    + rewrite Hq by done. by eapply Inv_static.
  - intros q. destruct (decide (q = p)) as [->|Hne].
    + rewrite Hp. simpl. apply NoDup_app.
      split; [by eapply Inv_batches_NoDup|]. split; [|apply NoDup_singleton].
      intros k Hk ->%list_elem_of_singleton.
      destruct (Inv_batches _ _ _ _ I p n Hk) as (b0 & Hb0 & _). congruence.
    + rewrite Hq by done. by eapply Inv_batches_NoDup.
  - intros q k Hk.
    assert (Hcase : k ∈ batches (bk q) \/ (q = p /\ k = n)).
    { destruct (decide (q = p)) as [->|Hne].
      - rewrite Hp in Hk. simpl in Hk. apply elem_of_app in Hk as [Hk|Hk]; [by left|].
        apply list_elem_of_singleton in Hk. by right.
      - rewrite Hq in Hk by done. by left. }
    destruct Hcase as [Hold | [-> ->]].
    + destruct (Inv_batches _ _ _ _ I q k Hold) as (b0 & Hb0 & Hb0p).
      rewrite lookup_insert_ne by congruence. eauto.
    + rewrite lookup_insert_eq. eauto.
  - intros q. rewrite Hfree. by eapply Inv_free_NoDup.
  - intros q r Hr. rewrite Hfree in Hr.
    destruct (Inv_free _ _ _ _ I q r Hr) as (Hrb & b1 & s1 & Hb1 & Hs1 & Ha1).
    split; [by apply Hbatches|].
    rewrite lookup_insert_ne by congruence. eauto 10.
  - intros cid0 a0 H0.
    destruct (Inv_rec _ _ _ _ I cid0 a0 H0) as (b1 & s1 & Hb1 & Hs1 & Ha1 & Hc1).
    rewrite lookup_insert_ne by congruence. eauto 10.
  - intros k0 b1 j s1 H0 Hs1 Ha1. destruct (decide (k0 = n)) as [->|Hne].
    + rewrite lookup_insert_eq in H0. injection H0 as <-.
      rewrite (Hinactive j s1 Hs1) in Ha1. done.
    + rewrite lookup_insert_ne in H0 by done.
      destruct (Inv_owner _ _ _ _ I k0 b1 j s1 H0 Hs1 Ha1) as (Hin0 & Hrest).
      split; [by apply Hbatches|done].
Qed.

(** Dropping a batch without active slots from its pool, with the
    free-list entries that point to it. *)
Lemma Inv_delete (bk' : BucketSize -> BucketPool) k b :
  h !! k = Some b ->
  activeSlots b = [] ->
  (forall q, pool_size (bk' q) = pool_size (bk q) /\
             vertexCapacityPerSlot (bk' q) = vertexCapacityPerSlot (bk q) /\
             slotsPerBatch (bk' q) = slotsPerBatch (bk q)) ->
  (forall q, NoDup (batches (bk' q))) ->
  (forall q k0, k0 ∈ batches (bk' q) ->
     k0 ∈ batches (bk q) /\ (q = bucketSize b -> k0 <> k)) ->
  (forall q k0, k0 ∈ batches (bk q) -> k0 <> k -> k0 ∈ batches (bk' q)) ->
  (forall q, NoDup (freeSlots (bk' q))) ->
  (forall q r, r ∈ freeSlots (bk' q) ->
     r ∈ freeSlots (bk q) /\ (q = bucketSize b -> ref_batch r <> k)) ->
  Inv h bk' cs n.
Proof.
  intros Hb Hact Hstatic Hnd Hsub Hkeep Hfnd Hfsub.
  destruct (Inv_heap _ _ _ _ I k b Hb) as (Hlt & Hid & Hcap & Hand & Hiff & Hxxl).
  constructor.
  - by eapply Inv_heap.
  - intros q. destruct (Hstatic q) as (-> & -> & ->). by eapply Inv_static.
  - done.
  - intros q k0 Hk0. destruct (Hsub q k0 Hk0) as [Hold _]. by eapply Inv_batches.
  - done.
  - intros q r Hr. destruct (Hfsub q r Hr) as [Hold Hne].
    destruct (Inv_free _ _ _ _ I q r Hold) as (Hrb & Hrest). split; [|done].
    apply Hkeep; [done|]. intros Heq.
    apply Hne; [|done]. symmetry. eapply Inv_batch_pool; [|done]. by rewrite <- Heq.
  - by eapply Inv_rec.
  - intros k0 b1 j s1 H0 Hs1 Ha1.
    destruct (Inv_owner _ _ _ _ I k0 b1 j s1 H0 Hs1 Ha1) as (Hin0 & Hrest).
    split; [|done]. apply Hkeep; [done|]. intros ->.
    assert (b1 = b) by congruence. subst b1.
    assert (Hj : j ∈ activeSlots b) by (apply Hiff; eauto).
    rewrite Hact in Hj. by apply elem_of_nil in Hj.
Qed.

End InvSteps.

(** ** What the pieces of [EnsureSlot] do to a controller in order *)

Lemma selectBucket_fits vc :
  selectBucket vc <> BucketXXL -> vc <= vertexCapacityForBucket (selectBucket vc).
Proof.
  unfold selectBucket.
  destruct (vc <=? vertexCapacityS) eqn:E1; [intros _; simpl; lia|].
  destruct (vc <=? vertexCapacityM) eqn:E2; [intros _; simpl; lia|].
  destruct (vc <=? vertexCapacityL) eqn:E3; [intros _; simpl; lia|].
  destruct (vc <=? vertexCapacityXL) eqn:E4; [intros _; simpl; lia|].
  done.
Qed.

Lemma sameButFree_refl bp : sameButFree bp bp.
Proof. done. Qed.

Lemma sameButFree_trans bp1 bp2 bp3 :
  sameButFree bp1 bp2 -> sameButFree bp2 bp3 -> sameButFree bp1 bp3.
Proof. unfold sameButFree. intros (? & ? & ? & ?) (? & ? & ? & ?). repeat split; congruence. Qed.

Lemma sameButFree_set_freeSlots bp fs : sameButFree bp (set_freeSlots bp fs).
Proof. done. Qed.

(** The free-list loop: it pops a prefix of the list, and what it
    returns, if anything, stood right behind that prefix. *)
Lemma EnsureSlot_freeLoop_spec h bucket vc : forall (l : list SlotRef) pool,
  freeSlots pool = l ->
  (forall r, r ∈ l -> exists b s, h !! ref_batch r = Some b /\
                                  slots b !! ref_slotIndex r = Some s) ->
  exists res pool',
    EnsureSlot_freeLoop (length l) h pool bucket vc = Some (res, pool') /\
    sameButFree pool pool' /\
    (exists dropped, l = dropped ++ option_list res ++ freeSlots pool') /\
    (forall r, res = Some r -> bucket = BucketXXL ->
       exists b s, h !! ref_batch r = Some b /\
                   slots b !! ref_slotIndex r = Some s /\
                   vc <= int_sub (totalVertexCapacity b) (vertexOffset s)) /\
    (res = None -> freeSlots pool' = []).
Proof.
  induction l as [|r l IH]; intros pool Hl Hvalid; simpl.
  - exists None, pool. split; [done|]. split; [done|]. split.
    + exists []. by rewrite Hl.
    + split; [done|]. done.
  - unfold findFreeSlot. rewrite Hl.
    change FreeListEnableSorted with true. cbv iota.
    destruct (decide (bucket = BucketXXL)) as [Hx|Hx].
    + destruct (Hvalid r) as (b & s & Hb & Hs); [by left|].
      rewrite Hb. simpl. rewrite Hs. simpl.
      destruct (int_sub (totalVertexCapacity b) (vertexOffset s) <? vc) eqn:Hcmp.
      * destruct (IH (set_freeSlots pool l)) as (res & pool' & Hrun & Hsame & [d Hd] & Hfit & Hnone);
          [done | by intros r' Hr'; apply Hvalid; right |].
        exists res, pool'. split; [done|]. split; [done|]. split; [|done].
        exists (r :: d). simpl. by rewrite <- Hd.
      * exists (Some r), (set_freeSlots pool l).
        split; [done|]. split; [done|]. split; [by exists []|]. split; [|done].
        intros r' [= <-] _. exists b, s. apply Z.ltb_ge in Hcmp. done.
    + exists (Some r), (set_freeSlots pool l).
      split; [done|]. split; [done|]. split; [by exists []|]. split; [|done].
      intros r' _ Hx'. done.
Qed.

Lemma findBatchWithCapacity_loop_spec h : forall bs,
  (forall k, k ∈ bs -> is_Some (h !! k)) ->
  exists res,
    findBatchWithCapacity_loop h bs = Some res /\
    (forall k, res = Some k ->
       k ∈ bs /\ exists b, h !! k = Some b /\
                 (length (activeSlots b) < length (slots b))%nat) /\
    (res = None ->
       forall k b, k ∈ bs -> h !! k = Some b ->
                   (length (slots b) <= length (activeSlots b))%nat).
Proof.
  induction bs as [|k bs IH]; intros Hvalid; simpl.
  - exists None. split; [done|]. split; [done|].
    intros _ k b Hk. by apply elem_of_nil in Hk.
  - destruct (Hvalid k) as [b Hb]; [by left|]. rewrite Hb. simpl.
    destruct (length (activeSlots b) <? length (slots b))%nat eqn:Hcmp.
    + exists (Some k). split; [done|]. split; [|done].
      intros k' [= <-]. split; [by left|]. exists b. split; [done|].
      by apply Nat.ltb_lt.
    + destruct IH as (res & Hrun & Hsome & Hnone);
        [by intros k' Hk'; apply Hvalid; right|].
      exists res. split; [done|]. split.
      * intros k' Hk'. destruct (Hsome k' Hk') as [Hin Hrest]. split; [by right|done].
      * intros Hres k' b' Hk' Hb'. apply elem_of_cons in Hk' as [->|Hk'].
        -- assert (b' = b) by congruence. subst. by apply Nat.ltb_ge.
        -- by eapply Hnone.
Qed.

(** A batch in order with fewer active slots than slots has an inactive
    slot, and the search of [allocateSlotInBatch] finds the first. *)
Lemma batchOk_first_inactive b :
  batchOk b -> (length (activeSlots b) < length (slots b))%nat ->
  exists i s, list_find (fun s => active s = false) (slots b) = Some (i, s) /\
              slots b !! i = Some s /\ active s = false.
Proof.
  intros (_ & Hnd & Hiff & _) Hlt.
  destruct (list_find (fun s => active s = false) (slots b)) as [[i s]|] eqn:E.
  - apply list_find_Some in E as (Hs & Ha & _). eauto.
  - exfalso. apply list_find_None in E.
    assert (Hsub : seq 0 (length (slots b)) ⊆+ activeSlots b).
    { apply NoDup_submseteq; [apply NoDup_seq|].
      intros i Hi. apply elem_of_seq in Hi as [_ Hi]. simpl in Hi.
      destruct (lookup_lt_is_Some_2 (slots b) i Hi) as [s Hs].
      apply Hiff. exists s. split; [done|].
      rewrite Forall_forall in E. specialize (E s).
      destruct (active s); [done|]. exfalso. apply E; [|done].
      by eapply list_elem_of_lookup_2. }
    apply submseteq_length in Hsub. rewrite length_seq in Hsub. lia.
Qed.

Lemma int_mul_in_int a b : in_int (int_mul a b).
Proof. apply wrap_range. Qed.

Section Pieces.

Context (mc : MemoryController).
Hypothesis I : inv mc.

Lemma createBatch_spec bucket vc :
  in_int vc ->
  exists newb,
    let mc' := (createBatch mc bucket vc).2 in
    (createBatch mc bucket vc).1 = nextBatchID mc /\
    inv mc' /\
    heap mc !! nextBatchID mc = None /\
    heap mc' = <[nextBatchID mc := newb]> (heap mc) /\
    bucketSize newb = bucket /\
    activeSlots newb = [] /\
    (bucket = BucketXXL -> totalVertexCapacity newb = vc /\ length (slots newb) = 1%nat) /\
    (bucket <> BucketXXL -> length (slots newb) = slotsPerBatchForBucket bucket) /\
    growthCycles newb = 0 /\
    nextBatchID mc ∈ batches (buckets mc' bucket) /\
    (forall q, freeSlots (buckets mc' q) = freeSlots (buckets mc q)) /\
    (forall q k, k ∈ batches (buckets mc q) -> k ∈ batches (buckets mc' q)) /\
    clusterSlots mc' = clusterSlots mc /\
    clustersNeedingReupload mc' = clustersNeedingReupload mc /\
    stats mc' = stats mc.
Proof.
  intros Hvc. unfold createBatch.
  set (pool := buckets mc bucket).
  set (newb := mkBatch _ _ _ _ _ _ _).
  exists newb. cbn [fst snd].
  assert (Hinactive : forall j s, slots newb !! j = Some s ->
            active s = false /\ (bucket = BucketXXL -> vertexOffset s = 0)).
  { intros j s Hs. unfold newb in Hs. simpl in Hs.
    destruct (decide (bucket = BucketXXL)).
    - apply list_elem_of_lookup_2, list_elem_of_singleton in Hs. by subst.
    - apply list_elem_of_lookup_2, list_elem_of_fmap in Hs as (i & -> & _). done. }
  assert (Hnone : heap mc !! nextBatchID mc = None).
  { destruct (heap mc !! nextBatchID mc) as [b0|] eqn:E; [|done].
    destruct (Inv_heap _ _ _ _ I _ _ E) as (Hlt & _). lia. }
  split; [done|]. split; [|split; [done|]; split; [done|]].
  - unfold inv. simpl.
    apply (Inv_create _ _ _ _ I _ bucket newb); try done.
    + unfold newb. simpl. destruct (decide (bucket = BucketXXL)); [done|].
      apply int_mul_in_int.
    + intros j s Hs. by apply Hinactive in Hs as [? _].
    + intros Hx j s Hs. apply Hinactive in Hs as [_ Hs]. by apply Hs.
    + by rewrite decide_True.
    + intros q Hq. by rewrite decide_False.
  - simpl. split; [done|]. split; [done|]. split.
    { intros Hx. unfold newb. simpl. by rewrite !decide_True. }
    split.
    { intros Hx. unfold newb. simpl. rewrite decide_False by done.
      rewrite length_fmap, length_seq. rewrite decide_False by done.
      unfold pool. by destruct (Inv_static _ _ _ _ I bucket) as (_ & _ & ->). }
    split; [done|]. split.
    { rewrite decide_True by done. simpl. apply elem_of_app. right. by left. }
    split.
    { intros q. destruct (decide (q = bucket)) as [->|]; done. }
    split; [|done].
    intros q k Hk. destruct (decide (q = bucket)) as [->|]; [|done].
    simpl. apply elem_of_app. by left.
Qed.

End Pieces.

(** ** Growth under the invariant *)

Lemma markClustersForReupload_elem (s0 : gset Z) ids x :
  x ∈ foldl (fun s id => {[id]} ∪ s) s0 ids <-> x ∈ s0 \/ x ∈ ids.
Proof.
  revert s0. induction ids as [|id ids IH]; intros s0; simpl.
  - split; [by left|]. intros [?|H]; [done|]. by apply elem_of_nil in H.
  - rewrite IH, elem_of_union, elem_of_singleton, elem_of_cons. tauto.
Qed.

Lemma mapM_owner_elem (ss : list Slot) (l : list nat) (aff : list Z) i s :
  mapM (fun slotIdx => clusterID <$> ss !! slotIdx) l = Some aff ->
  i ∈ l -> ss !! i = Some s -> clusterID s ∈ aff.
Proof.
  intros Hm Hi Hs. apply mapM_Some_1 in Hm.
  apply list_elem_of_lookup_1 in Hi as [p Hp].
  destruct (Forall2_lookup_l _ _ _ _ _ Hm Hp) as (y & Hy & Hf).
  rewrite Hs in Hf. simpl in Hf. injection Hf as <-.
  by eapply list_elem_of_lookup_2.
Qed.

Lemma growBatch_inv mc k b :
  inv mc ->
  heap mc !! k = Some b ->
  k ∈ batches (buckets mc (bucketSize b)) ->
  bucketSize b <> BucketXXL ->
  canGrow b = true ->
  exists aff mc' b',
    growBatch mc k = Some (aff, ok, mc') /\
    inv mc' /\
    heap mc' = <[k := b']> (heap mc) /\
    grownFrom b b' /\
    (forall i s, slots b !! i = Some s -> active s = true -> clusterID s ∈ aff) /\
    (forall q, batches (buckets mc' q) = batches (buckets mc q)) /\
    clusterSlots mc' = clusterSlots mc /\
    clustersNeedingReupload mc' = clustersNeedingReupload mc /\
    nextBatchID mc' = nextBatchID mc.
Proof.
  intros I Hb Hkin Hnx Hcg.
  destruct (Inv_heap _ _ _ _ I k b Hb) as (Hlt & Hid & Hcap & Hand & Hiff & Hxxl).
  assert (Hm : is_Some (mapM (fun slotIdx => clusterID <$> slots b !! slotIdx)
                          (activeSlots b))).
  { apply mapM_is_Some_2, Forall_forall. intros i Hi.
    apply Hiff in Hi as (s & Hs & _). simpl. rewrite Hs. by eexists. }
  destruct Hm as [aff Haff].
  unfold growBatch. rewrite Hb. simpl. rewrite Hcg. simpl. rewrite Haff. simpl.
  destruct (growBatch_loop _ _ _ _ _ _ _) as [newSlots pool'] eqn:Hloop.
  apply growBatch_loop_spec in Hloop
    as (Hlen & Hlow & Hnew & _ & Hperm & Hf1 & Hf2 & Hf3 & Hf4).
  rewrite length_app, length_replicate in Hlen.
  set (b' := mkBatch _ _ newSlots _ _ _ _).
  assert (Hold : forall i s, slots b !! i = Some s -> slots b' !! i = Some s).
  { intros i s Hs. simpl. rewrite Hlow by (by eapply lookup_lt_Some).
    by apply lookup_app_l_Some. }
  eexists aff, _, b'. split; [reflexivity|].
  split; [|split; [done|]; split; [|split; [|split; [|done]]]].
  - unfold inv. simpl.
    eapply (Inv_grow _ _ _ _ I
              (fun k' => if decide (k' = bucketSize b) then pool' else buckets mc k')
              k b b'); try done.
    + simpl. apply int_mul_in_int.
    + intros j Hj. simpl. rewrite Hlow by done. by apply lookup_app_l.
    + intros j s Hj Hs. simpl in Hs. eapply (Hnew j s); [|done].
      apply lookup_lt_Some in Hs. lia.
    + intros q. destruct (decide (q = bucketSize b)) as [->|]; [|done].
      by repeat split.
    + intros q. destruct (decide (q = bucketSize b)) as [->|];
        [|by eapply Inv_free_NoDup].
      rewrite Hperm. apply NoDup_app. split; [by eapply Inv_free_NoDup|].
      split; [|apply NoDup_fmap_2; [|apply NoDup_seq]].
      * intros r Hr Hr'. apply list_elem_of_fmap in Hr' as (j & -> & Hj).
        apply elem_of_seq in Hj.
        destruct (Inv_free _ _ _ _ I _ _ Hr) as (_ & b0 & s0 & Hb0 & Hs0 & _).
        simpl in *. assert (b0 = b) by congruence. subst b0.
        apply lookup_lt_Some in Hs0. lia.
      * intros x y Hxy. by injection Hxy.
    + intros q r Hr. destruct (decide (q = bucketSize b)) as [->|]; [|by left].
      rewrite Hperm in Hr. apply elem_of_app in Hr as [Hr|Hr]; [by left|].
      right. apply list_elem_of_fmap in Hr as (j & -> & Hj).
      apply elem_of_seq in Hj. simpl. split; [done|]. split; [done|]. lia.
  - unfold grownFrom. simpl. split; [done|]. split; [lia|]. done.
  - intros i s Hs Ha. eapply mapM_owner_elem; [done| |done].
    apply Hiff. eauto.
  - intros q. simpl. destruct (decide (q = bucketSize b)) as [->|]; done.
Qed.

Lemma canGrow_grown_has_room b b' :
  canGrow b = true -> batchOk b -> grownFrom b b' ->
  (length (activeSlots b') < length (slots b'))%nat.
Proof.
  intros Hcg (_ & Hnd & Hiff & _) (_ & Hlen & Hact & _).
  apply canGrow_true_inv in Hcg as (_ & Hne & _).
  rewrite Hlen, Hact.
  assert (Hsub : activeSlots b ⊆+ seq 0 (length (slots b))).
  { apply NoDup_submseteq; [done|]. intros i Hi.
    apply Hiff in Hi as (s & Hs & _). apply elem_of_seq.
    apply lookup_lt_Some in Hs. lia. }
  apply submseteq_length in Hsub. rewrite length_seq in Hsub. lia.
Qed.

(** The loop over the batches of a pool of a fixed class: the first one
    that can grow is grown, and the owners of its active slots are
    marked. *)
Lemma EnsureSlot_growLoop_spec bucket : forall bs mc,
  inv mc ->
  bucket <> BucketXXL ->
  (forall k, k ∈ bs -> k ∈ batches (buckets mc bucket)) ->
  exists res mc',
    EnsureSlot_growLoop mc bs = Some (res, mc') /\
    inv mc' /\
    (res = None -> mc' = mc) /\
    (forall k, res = Some k ->
       k ∈ bs /\
       exists b b',
         heap mc !! k = Some b /\ canGrow b = true /\
         heap mc' = <[k := b']> (heap mc) /\
         grownFrom b b' /\
         (forall i s, slots b !! i = Some s -> active s = true ->
                      clusterID s ∈ clustersNeedingReupload mc')) /\
    (forall q, batches (buckets mc' q) = batches (buckets mc q)) /\
    clusterSlots mc' = clusterSlots mc /\
    clustersNeedingReupload mc ⊆ clustersNeedingReupload mc' /\
    nextBatchID mc' = nextBatchID mc.
Proof.
  induction bs as [|k bs IH]; intros mc I Hnx Hin; simpl.
  - exists None, mc. split; [done|]. split; [done|]. split; [done|].
    split; [by intros k [=]|]. split; [done|]. split; [done|]. split; [|done].
    by intros x.
  - destruct (Inv_batches _ _ _ _ I bucket k) as (b & Hb & Hbs); [apply Hin; by left|].
    rewrite Hb. simpl. destruct (canGrow b) eqn:Hcg.
    + destruct (growBatch_inv mc k b I Hb) as
        (aff & mc' & b' & Hrun & I' & Hheap & Hgrown & Haff & Hbat & Hcs & Hre & Hnext);
        [rewrite Hbs; apply Hin; by left | congruence | done |].
      rewrite Hrun. simpl.
      exists (Some k), (markClustersForReupload mc' aff).
      split; [done|]. split; [exact I'|]. split; [done|]. split.
      * intros k' [= <-]. split; [by left|]. exists b, b'.
        split; [done|]. split; [done|]. split; [done|]. split; [done|].
        intros i s Hs Ha. simpl. apply markClustersForReupload_elem.
        right. by eapply Haff.
      * split; [done|]. split; [done|]. split; [|done].
        intros x Hx. simpl. apply markClustersForReupload_elem. left.
        by rewrite Hre.
    + destruct (IH mc I Hnx) as (res & mc' & Hrun & Hrest);
        [by intros k' Hk'; apply Hin; right|].
      exists res, mc'. split; [done|].
      destruct Hrest as (I' & Hnone & Hsome & Hrest). split; [done|].
      split; [done|]. split; [|done].
      intros k' Hk'. destruct (Hsome k' Hk') as [Hk'in Hx]. split; [by right|done].
Qed.

(** ** Releasing and claiming slots under the invariant *)

Lemma deleteAt_Permutation {A} (l : list A) p x :
  l !! p = Some x -> l ≡ₚ x :: deleteAt p l.
Proof.
  intros Hp. unfold deleteAt. rewrite <- (take_drop_middle l p x Hp) at 1.
  by rewrite <- Permutation_middle.
Qed.

Lemma NoDup_remove_spec (l l' : list nat) x :
  NoDup l -> l ≡ₚ x :: l' ->
  NoDup l' /\ forall j, j ∈ l' <-> j ∈ l /\ j <> x.
Proof.
  intros Hnd Hperm. rewrite Hperm in Hnd. apply NoDup_cons in Hnd as [Hx Hnd].
  split; [done|]. intros j. rewrite Hperm, elem_of_cons.
  split; [|tauto]. intros Hj. split; [by right|]. by intros ->.
Qed.

Lemma swapRemove_spec (l : list nat) x :
  NoDup l -> x ∈ l ->
  NoDup (swapRemove l x) /\ forall j, j ∈ swapRemove l x <-> j ∈ l /\ j <> x.
Proof.
  intros Hnd Hx. unfold swapRemove.
  destruct (list_find (fun idx => idx = x) l) as [[p x']|] eqn:Hfind.
  2:{ apply list_find_None in Hfind. rewrite Forall_forall in Hfind.
      by destruct (Hfind x Hx). }
  apply list_find_Some in Hfind as (Hp & -> & _).
  destruct (last l) as [y|] eqn:Hlast.
  2:{ apply last_None in Hlast. subst. by apply elem_of_nil in Hx. }
  apply last_Some in Hlast as [l' ->].
  rewrite length_app. simpl.
  replace (length l' + 1 - 1)%nat with (length l') by lia.
  apply NoDup_app in Hnd as (Hnd' & Hdisj & _).
  assert (Hy : y ∉ l').
  { intros Hy. apply (Hdisj y Hy). by left. }
  destruct (decide (p < length l')%nat) as [Hlt|Hge].
  - rewrite insert_app_l by done.
    rewrite take_app_length' by (by rewrite length_insert).
    rewrite lookup_app_l in Hp by done.
    assert (Hxy : x <> y).
    { intros ->. apply Hy. by eapply list_elem_of_lookup_2. }
    rewrite insert_take_drop by done.
    pose proof (deleteAt_Permutation l' p x Hp) as Hperm. unfold deleteAt in Hperm.
    destruct (NoDup_remove_spec l' _ x Hnd' Hperm) as [Hnd2 Hmem].
    split.
    + rewrite <- Permutation_middle. apply NoDup_cons. split; [|done].
      intros Hc. apply Hmem in Hc as [Hc _]. done.
    + intros j. rewrite <- Permutation_middle, elem_of_cons, Hmem, elem_of_app,
        list_elem_of_singleton.
      clear -Hxy. intuition congruence.
  - assert (p = length l').
    { apply lookup_lt_Some in Hp. rewrite length_app in Hp. simpl in Hp. lia. }
    subst p.
    assert (x = y).
    { rewrite lookup_app_r in Hp by lia.
      replace (length l' - length l')%nat with 0%nat in Hp by lia.
      simpl in Hp. by injection Hp. }
    subst y. rewrite list_insert_id by done.
    rewrite take_app_length.
    split; [done|]. intros j. rewrite elem_of_app, list_elem_of_singleton.
    split; [|intros [[?| ->] ?]; done].
    intros Hj. split; [by left|]. by intros ->.
Qed.

Lemma RemoveCluster_spec mc cid a :
  inv mc ->
  clusterSlots mc !! cid = Some a ->
  exists b mc',
    RemoveCluster mc cid = Some (ok, mc') /\
    inv mc' /\
    heap mc !! alloc_batch a = Some b /\
    heap mc' = <[alloc_batch a := freeSlot b (alloc_slotIndex a)]> (heap mc) /\
    growthCycles (freeSlot b (alloc_slotIndex a)) = growthCycles b /\
    bucketSize (freeSlot b (alloc_slotIndex a)) = bucketSize b /\
    clusterSlots mc' = delete cid (clusterSlots mc) /\
    clustersNeedingReupload mc' = clustersNeedingReupload mc /\
    (forall q, batches (buckets mc' q) = batches (buckets mc q)) /\
    nextBatchID mc' = nextBatchID mc.
Proof.
  intros I Hcid.
  destruct (Inv_rec _ _ _ _ I cid a Hcid) as (b & s & Hb & Hs & Ha & Hc).
  destruct (Inv_heap _ _ _ _ I _ b Hb) as (Hlt & Hid & Hcap & Hand & Hiff & Hxxl).
  unfold RemoveCluster. rewrite Hcid, Hb. simpl.
  assert (Hfs : freeSlot b (alloc_slotIndex a)
    = mkBatch (batch_id b) (totalVertexCapacity b)
        (<[alloc_slotIndex a := mkSlot false 0 0 (vertexOffset s)]> (slots b))
        (swapRemove (activeSlots b) (alloc_slotIndex a))
        (bucketSize b) (growthCycles b) (initialCapacity b)).
  { unfold freeSlot. by rewrite Hs. }
  exists b. eexists. split; [reflexivity|].
  assert (Hin : alloc_slotIndex a ∈ activeSlots b) by (apply Hiff; eauto).
  destruct (swapRemove_spec _ _ Hand Hin) as [Hnd' Hmem'].
  set (ref := mkSlotRef (alloc_batch a) (alloc_slotIndex a)).
  pose proof (addFreeSlot_Permutation (buckets mc (bucketSize b)) ref) as Hperm.
  pose proof (addFreeSlot_fields (buckets mc (bucketSize b)) ref)
    as (F1 & F2 & F3 & F4).
  assert (Hbs : bucketSize (freeSlot b (alloc_slotIndex a)) = bucketSize b)
    by (by rewrite Hfs).
  split; [|split; [done|]; split; [done|]; split; [by rewrite Hfs|]; split; [done|];
           split; [done|]; split; [done|]; split; [|done]].
  - unfold inv. simpl.
    eapply (Inv_release _ _ _ _ I _ cid a b s); try done; try (by rewrite Hfs).
    + intros q. destruct (decide (q = _)) as [->|]; [|done]. by split.
    + intros q. destruct (decide (q = _)) as [->|]; [|by eapply Inv_free_NoDup].
      rewrite Hperm. apply NoDup_cons. split; [|by eapply Inv_free_NoDup].
      intros Hr. destruct (Inv_free _ _ _ _ I _ _ Hr) as (_ & b0 & s0 & Hb0 & Hs0 & Ha0).
      simpl in *. congruence.
    + intros q r Hr. destruct (decide (q = _)) as [->|]; [|by left].
      rewrite Hperm in Hr. apply elem_of_cons in Hr as [->|Hr].
      * by right.
      * by left.
  - intros q. simpl. destruct (decide (q = _)) as [->|]; done.
Qed.

Lemma RemoveCluster_missing mc cid :
  clusterSlots mc !! cid = None ->
  RemoveCluster mc cid = Some (failed ErrClusterNotFound, mc).
Proof. intros H. unfold RemoveCluster. by rewrite H. Qed.

(** [allocateSlotInBatch] followed by the record of the location. *)
Lemma allocate_record_spec mc k pk cid vc b :
  inv mc ->
  clusterSlots mc !! cid = None ->
  heap mc !! k = Some b ->
  k ∈ batches (buckets mc pk) ->
  (length (activeSlots b) < length (slots b))%nat ->
  exists i s mc1 mc',
    allocateSlotInBatch mc k pk cid vc = Some (Some i, mc1) /\
    EnsureSlot_record mc1 cid k i vc = Some (ok, mc') /\
    inv mc' /\
    slots b !! i = Some s /\ active s = false /\
    heap mc' = <[k := claimed b i s cid vc]> (heap mc) /\
    clusterSlots mc' = <[cid := mkSlotAllocation k i vc]> (clusterSlots mc) /\
    clustersNeedingReupload mc' = clustersNeedingReupload mc /\
    (forall q, batches (buckets mc' q) = batches (buckets mc q)) /\
    nextBatchID mc' = nextBatchID mc.
Proof.
  intros I Hfresh Hb Hkin Hroom.
  destruct (Inv_heap _ _ _ _ I k b Hb) as (Hlt & Hid & Hok).
  destruct (batchOk_first_inactive b Hok Hroom) as (i & s & Hfind & Hs & Ha).
  assert (Hpk : bucketSize b = pk) by (by eapply Inv_batch_pool).
  assert (Hi : (i < length (slots b))%nat) by (by eapply lookup_lt_Some).
  unfold allocateSlotInBatch. rewrite Hb. simpl. rewrite Hfind.
  eexists i, s, _, _. split; [reflexivity|].
  unfold EnsureSlot_record. simpl. rewrite lookup_insert_eq. simpl.
  rewrite list_lookup_insert_eq by done. simpl.
  split; [reflexivity|]. simpl.
  split; [|split; [done|]; split; [done|]; split; [done|]; split; [done|];
           split; [done|]; split; [|done]].
  - unfold inv. simpl.
    eapply (Inv_claim _ _ _ _ I _ k b i s cid vc vc); try done.
    + by rewrite Hpk.
    + intros q. destruct (decide (q = pk)) as [->|]; done.
    + intros q. destruct (decide (q = pk)) as [->|]; [|by eapply Inv_free_NoDup].
      simpl. apply NoDup_filter. by eapply Inv_free_NoDup.
    + intros q r Hr. destruct (decide (q = pk)) as [->|]; [|done].
      simpl in Hr. by apply list_elem_of_filter in Hr as [_ Hr].
    + rewrite Hpk, decide_True by done. simpl.
      intros Hr. apply list_elem_of_filter in Hr as [Hr _]. by apply Hr.
  - intros q. simpl. destruct (decide (q = pk)) as [->|]; done.
Qed.

(** ** [EnsureSlot] under the invariant *)

Lemma noGrowth_refl h : noGrowth h h.
Proof. intros k b Hb. eauto. Qed.

Lemma noGrowth_trans h1 h2 h3 :
  noGrowth h1 h2 -> noGrowth h2 h3 -> noGrowth h1 h3.
Proof.
  intros H12 H23 k b Hb. destruct (H12 k b Hb) as (b2 & Hb2 & Hg2).
  destruct (H23 k b2 Hb2) as (b3 & Hb3 & Hg3). exists b3. split; [done|congruence].
Qed.

Lemma noGrowth_insert_fresh h k b : h !! k = None -> noGrowth h (<[k := b]> h).
Proof.
  intros Hk k0 b0 Hb0. exists b0. split; [|done].
  rewrite lookup_insert_ne; [done|]. congruence.
Qed.

Lemma noGrowth_insert_same h k b b' :
  h !! k = Some b -> growthCycles b' = growthCycles b ->
  noGrowth h (<[k := b']> h).
Proof.
  intros Hk Hg k0 b0 Hb0. destruct (decide (k0 = k)) as [->|Hne].
  - exists b'. rewrite lookup_insert_eq. split; [done|]. congruence.
  - exists b0. by rewrite lookup_insert_ne.
Qed.

Lemma growthMarked_noGrowth mc mc' bucket :
  noGrowth (heap mc) (heap mc') -> growthMarked mc mc' bucket.
Proof.
  intros Hng. split.
  - intros k b Hb. destruct (Hng k b Hb) as (b' & Hb' & _). eauto.
  - intros k b b' Hb Hb' Hne. destruct (Hng k b Hb) as (b2 & Hb2 & Hg).
    congruence.
Qed.

Lemma growthMarked_then_quiet mc mc1 mc2 bucket :
  growthMarked mc mc1 bucket ->
  noGrowth (heap mc1) (heap mc2) ->
  clustersNeedingReupload mc1 ⊆ clustersNeedingReupload mc2 ->
  growthMarked mc mc2 bucket.
Proof.
  intros [Hkept Hmark] Hng Hsub. split.
  - intros k b Hb. destruct (Hkept k b Hb) as [b1 Hb1].
    destruct (Hng k b1 Hb1) as (b2 & Hb2 & _). eauto.
  - intros k b b2 Hb Hb2 Hne. destruct (Hkept k b Hb) as [b1 Hb1].
    destruct (Hng k b1 Hb1) as (b2' & Hb2' & Hg).
    assert (b2' = b2) by congruence. subst b2'.
    destruct (Hmark k b b1 Hb Hb1) as (H1 & H2 & H3); [congruence|].
    split; [done|]. split; [done|]. intros i s Hs Ha. apply Hsub. eauto.
Qed.

Lemma slotsPerBatchForBucket_pos bucket : (0 < slotsPerBatchForBucket bucket)%nat.
Proof. destruct bucket; simpl; unfold slotsPerBatchS, slotsPerBatchM,
  slotsPerBatchL, slotsPerBatchXL, slotsPerBatchXXL; lia. Qed.

Lemma EnsureSlot_pickBatch_spec mc bucket vc :
  inv mc -> in_int vc ->
  exists batch mc' bb,
    EnsureSlot_pickBatch mc bucket vc = Some (batch, mc') /\
    inv mc' /\
    batch ∈ batches (buckets mc' bucket) /\
    heap mc' !! batch = Some bb /\
    (length (activeSlots bb) < length (slots bb))%nat /\
    clusterSlots mc' = clusterSlots mc /\
    clustersNeedingReupload mc ⊆ clustersNeedingReupload mc' /\
    growthMarked mc mc' bucket.
Proof.
  intros I Hvc. unfold EnsureSlot_pickBatch, findBatchWithCapacity.
  destruct (findBatchWithCapacity_loop_spec (heap mc) (batches (buckets mc bucket)))
    as (found & Hfind & Hsome & Hnone).
  { intros k Hk. destruct (Inv_batches _ _ _ _ I bucket k Hk) as (b & Hb & _). eauto. }
  rewrite Hfind. simpl. destruct found as [k|].
  - destruct (Hsome k eq_refl) as (Hk & bb & Hbb & Hroom).
    exists k, mc, bb. split; [done|]. split; [done|]. split; [done|].
    split; [done|]. split; [done|]. split; [done|]. split; [done|].
    apply growthMarked_noGrowth, noGrowth_refl.
  - assert (Hcreate : forall mc1, inv mc1 ->
      clusterSlots mc1 = clusterSlots mc ->
      clustersNeedingReupload mc1 = clustersNeedingReupload mc ->
      heap mc1 = heap mc ->
      exists batch mc' bb,
        createBatch mc1 bucket vc = (batch, mc') /\ inv mc' /\
        batch ∈ batches (buckets mc' bucket) /\ heap mc' !! batch = Some bb /\
        (length (activeSlots bb) < length (slots bb))%nat /\
        clusterSlots mc' = clusterSlots mc /\
        clustersNeedingReupload mc ⊆ clustersNeedingReupload mc' /\
        growthMarked mc mc' bucket).
    { intros mc1 I1 Hcs Hre Hheap.
      destruct (createBatch_spec mc1 I1 bucket vc Hvc) as
        (newb & H1 & I' & Hfresh & Hh' & Hbs & Hact & Hx & Hnx & _ & Hin & _ & _ & Hcs' & Hre' & _).
      destruct (createBatch mc1 bucket vc) as [batch mc'] eqn:Hc. simpl in *.
      subst batch. exists (nextBatchID mc1), mc', newb.
      split; [done|]. split; [done|]. split; [done|].
      split; [by rewrite Hh', lookup_insert_eq|]. split.
      { rewrite Hact. simpl. destruct (decide (bucket = BucketXXL)) as [Hb|Hb].
        - destruct (Hx Hb) as [_ ->]. lia.
        - rewrite (Hnx Hb). apply slotsPerBatchForBucket_pos. }
      split; [congruence|]. split; [by rewrite Hre', Hre|].
      apply growthMarked_noGrowth. rewrite Hh', <- Hheap.
      by apply noGrowth_insert_fresh. }
    change GrowthEnableDynamic with true. cbv iota. simpl.
    destruct (decide (bucket = BucketXXL)) as [Hx|Hx].
    + rewrite bool_decide_eq_false_2 by (by intros ?). simpl.
      destruct (Hcreate mc I eq_refl eq_refl eq_refl) as (batch & mc' & bb & Hc & Hrest).
      rewrite Hc. exists batch, mc', bb. split; [done|]. done.
    + rewrite bool_decide_eq_true_2 by done.
      destruct (EnsureSlot_growLoop_spec bucket (batches (buckets mc bucket)) mc I Hx)
        as (res & mc1 & Hrun & I1 & Hres_none & Hres_some & Hbat & Hcs & Hre & Hnext);
        [done|].
      rewrite Hrun. simpl. destruct res as [k|].
      * destruct (Hres_some k eq_refl) as (Hk & b & b' & Hb & Hcg & Hh & Hgrown & Hmark).
        exists k, mc1, b'. split; [done|]. split; [done|].
        split; [by rewrite Hbat|]. split; [by rewrite Hh, lookup_insert_eq|].
        split.
        { eapply canGrow_grown_has_room; [done| |done].
          by destruct (Inv_heap _ _ _ _ I k b Hb) as (_ & _ & ?). }
        split; [done|]. split; [done|]. split.
        { intros k0 b0 Hb0. rewrite Hh. destruct (decide (k0 = k)) as [->|Hne].
          - rewrite lookup_insert_eq. eauto.
          - rewrite lookup_insert_ne by done. eauto. }
        intros k0 b0 b1 Hb0 Hb1 Hne. rewrite Hh in Hb1.
        destruct (decide (k0 = k)) as [->|Hnek].
        -- assert (b0 = b) by congruence. subst b0.
           split; [by eapply (Inv_batch_pool _ _ _ _ I)|]. split; [done|]. done.
        -- rewrite lookup_insert_ne in Hb1 by done. congruence.
      * rewrite (Hres_none eq_refl).
        destruct (Hcreate mc I eq_refl eq_refl eq_refl) as (batch & mc' & bb & Hc & Hrest).
        rewrite Hc. exists batch, mc', bb. split; [done|]. done.
Qed.

Lemma EnsureSlot_fitXXL_spec mc bucket vc batch bb :
  inv mc -> in_int vc ->
  batch ∈ batches (buckets mc bucket) ->
  heap mc !! batch = Some bb ->
  (length (activeSlots bb) < length (slots bb))%nat ->
  exists batch' mc' bb',
    EnsureSlot_fitXXL mc bucket vc batch = Some (batch', mc') /\
    inv mc' /\
    batch' ∈ batches (buckets mc' bucket) /\
    heap mc' !! batch' = Some bb' /\
    (length (activeSlots bb') < length (slots bb'))%nat /\
    (bucket = BucketXXL -> vc <= totalVertexCapacity bb') /\
    clusterSlots mc' = clusterSlots mc /\
    clustersNeedingReupload mc' = clustersNeedingReupload mc /\
    noGrowth (heap mc) (heap mc').
Proof.
  intros I Hvc Hin Hbb Hroom. unfold EnsureSlot_fitXXL.
  destruct (decide (bucket = BucketXXL)) as [Hx|Hx].
  - rewrite Hbb. simpl.
    destruct (totalVertexCapacity bb <? vc) eqn:Hcmp.
    + destruct (createBatch_spec mc I bucket vc Hvc) as
        (newb & H1 & I' & Hfresh & Hh' & Hbs & Hact & Hxx & _ & _ & Hin' & _ & _ & Hcs' & Hre' & _).
      destruct (createBatch mc bucket vc) as [batch' mc'] eqn:Hc. simpl in *.
      subst batch'. exists (nextBatchID mc), mc', newb.
      split; [done|]. split; [done|]. split; [done|].
      split; [by rewrite Hh', lookup_insert_eq|].
      destruct (Hxx Hx) as [Hcap Hlen].
      split; [rewrite Hact, Hlen; simpl; lia|].
      split; [intros _; lia|]. split; [done|]. split; [done|].
      rewrite Hh'. by apply noGrowth_insert_fresh.
    + apply Z.ltb_ge in Hcmp. exists batch, mc, bb.
      split; [done|]. split; [done|]. split; [done|]. split; [done|].
      split; [done|]. split; [done|]. split; [done|]. split; [done|].
      apply noGrowth_refl.
  - exists batch, mc, bb.
    split; [done|]. split; [done|]. split; [done|]. split; [done|].
    split; [done|]. split; [done|]. split; [done|]. split; [done|].
    apply noGrowth_refl.
Qed.

Lemma int_sub_0_r z : in_int z -> int_sub z 0 = z.
Proof. intros H. unfold int_sub. rewrite Z.sub_0_r. by apply wrap_in_int. Qed.

Lemma EnsureSlot_allocate_spec mc cid vc bucket :
  inv mc ->
  clusterSlots mc !! cid = None ->
  in_int vc ->
  exists mc',
    EnsureSlot_allocate mc cid vc bucket = Some (ok, mc') /\
    inv mc' /\
    (exists a b s,
       clusterSlots mc' = <[cid := a]> (clusterSlots mc) /\
       heap mc' !! alloc_batch a = Some b /\
       bucketSize b = bucket /\
       slots b !! alloc_slotIndex a = Some s /\
       vertexCount s = vc /\
       (bucket = BucketXXL ->
        vc <= int_sub (totalVertexCapacity b) (vertexOffset s))) /\
    clustersNeedingReupload mc ⊆ clustersNeedingReupload mc' /\
    growthMarked mc mc' bucket.
Proof.
  intros I Hfresh Hvc. unfold EnsureSlot_allocate. cbv zeta.
  destruct (EnsureSlot_freeLoop_spec (heap mc) bucket vc
              (freeSlots (buckets mc bucket)) (buckets mc bucket) eq_refl)
    as (res & pool' & Hrun & Hsame & [dropped Hd] & Hfit & Hnone).
  { intros r Hr. destruct (Inv_free _ _ _ _ I bucket r Hr) as (_ & b & s & ? & ? & _).
    eauto. }
  rewrite Hrun. simpl.
  pose proof (Inv_free_NoDup _ _ _ _ I bucket) as Hnd. rewrite Hd in Hnd.
  apply NoDup_app in Hnd as (_ & _ & Hnd). apply NoDup_app in Hnd as (_ & Hdisj & Hnd').
  assert (Hsub : forall r, r ∈ freeSlots pool' -> r ∈ freeSlots (buckets mc bucket)).
  { intros r Hr. rewrite Hd. apply elem_of_app. right. apply elem_of_app. by right. }
  assert (Hsame' : forall q, sameButFree (buckets mc q)
            (if decide (q = bucket) then pool' else buckets mc q)).
  { intros q. destruct (decide (q = bucket)) as [->|]; done. }
  assert (Hnd'' : forall q, NoDup (freeSlots
            (if decide (q = bucket) then pool' else buckets mc q))).
  { intros q. destruct (decide (q = bucket)) as [->|]; [done|by eapply Inv_free_NoDup]. }
  assert (Hsub' : forall q r,
            r ∈ freeSlots (if decide (q = bucket) then pool' else buckets mc q) ->
            r ∈ freeSlots (buckets mc q)).
  { intros q r. destruct (decide (q = bucket)) as [->|]; [apply Hsub|done]. }
  destruct res as [free|].
  - assert (Hfree : free ∈ freeSlots (buckets mc bucket)).
    { rewrite Hd. apply elem_of_app. right. apply elem_of_app. left. by left. }
    destruct (Inv_free _ _ _ _ I bucket free Hfree) as (Hrb & b & s & Hb & Hs & Ha).
    assert (Hbs : bucketSize b = bucket) by (by eapply (Inv_batch_pool _ _ _ _ I)).
    assert (Hi : (ref_slotIndex free < length (slots b))%nat)
      by (by eapply lookup_lt_Some).
    unfold EnsureSlot_takeFree. simpl. rewrite Hb. simpl. rewrite Hs. simpl.
    unfold EnsureSlot_record. simpl. rewrite lookup_insert_eq. simpl.
    rewrite list_lookup_insert_eq by done. simpl.
    eexists. split; [reflexivity|]. simpl.
    split; [|split; [|split; [done|]]].
    + unfold inv. simpl.
      eapply (Inv_claim _ _ _ _ I _ (ref_batch free) b (ref_slotIndex free) s cid vc vc);
        try done.
      * by rewrite Hbs.
      * rewrite Hbs, decide_True by done.
        intros Hc. apply (Hdisj free); [by left|]. by destruct free.
    + eexists _, _, _. split; [reflexivity|]. simpl.
      rewrite lookup_insert_eq. split; [reflexivity|]. simpl.
      split; [done|]. rewrite list_lookup_insert_eq by done.
      split; [reflexivity|]. simpl. split; [done|].
      intros Hx. destruct (Hfit free eq_refl Hx) as (b0 & s0 & Hb0 & Hs0 & Hle).
      assert (b0 = b) by congruence. subst b0.
      assert (s0 = s) by congruence. by subst s0.
    + apply growthMarked_noGrowth. simpl. by eapply noGrowth_insert_same.
  - set (mc1 := put_bucket mc bucket pool').
    assert (I1 : inv mc1).
    { unfold inv, mc1. simpl. by eapply Inv_free_shrink. }
    destruct (EnsureSlot_pickBatch_spec mc1 bucket vc I1 Hvc)
      as (batch & mc3 & bb & Hpick & I3 & Hin3 & Hbb & Hroom & Hcs3 & Hre3 & Hgm3).
    rewrite Hpick. simpl.
    destruct (EnsureSlot_fitXXL_spec mc3 bucket vc batch bb I3 Hvc Hin3 Hbb Hroom)
      as (batch' & mc4 & bb' & Hfitx & I4 & Hin4 & Hbb' & Hroom' & Hcap & Hcs4 & Hre4 & Hng4).
    rewrite Hfitx. simpl.
    assert (Hfresh4 : clusterSlots mc4 !! cid = None) by (by rewrite Hcs4, Hcs3).
    destruct (allocate_record_spec mc4 batch' bucket cid vc bb' I4 Hfresh4 Hbb' Hin4 Hroom')
      as (i & s & mcA & mc' & Halloc & Hrec & I' & Hs & Ha & Hh' & Hcs' & Hre' & Hbat' & Hnext').
    rewrite Halloc. simpl. rewrite Hrec.
    exists mc'. split; [done|]. split; [done|].
    assert (Hi : (i < length (slots bb'))%nat) by (by eapply lookup_lt_Some).
    split; [|split].
    + eexists _, _, _. split; [by rewrite Hcs', Hcs4, Hcs3|]. simpl.
      rewrite Hh', lookup_insert_eq. split; [reflexivity|]. simpl.
      split; [by eapply (Inv_batch_pool _ _ _ _ I4)|].
      rewrite list_lookup_insert_eq by done. split; [reflexivity|]. simpl.
      split; [done|]. intros Hx.
      destruct (Inv_heap _ _ _ _ I4 batch' bb' Hbb') as (_ & _ & Hcapi & _ & _ & Hoff).
      rewrite (Hoff (eq_trans (Inv_batch_pool _ _ _ _ I4 _ _ _ Hin4 Hbb') Hx) i s Hs).
      rewrite int_sub_0_r by done. by apply Hcap.
    + rewrite Hre', Hre4. exact Hre3.
    + eapply (growthMarked_then_quiet mc mc3 mc' bucket).
      * exact Hgm3.
      * eapply noGrowth_trans; [exact Hng4|]. rewrite Hh'.
        by eapply noGrowth_insert_same.
      * by rewrite Hre', Hre4.
Qed.

(** A payload whose vertex count passes the capacity check of the slot
    the cluster has is written in place: the record stays as it is. *)
Lemma EnsureSlot_in_place mc cid vertices a b s :
  length vertices <> 0%nat ->
  Z.rem (Z.of_nat (length vertices)) 6 = 0 ->
  clusterSlots mc !! cid = Some a ->
  heap mc !! alloc_batch a = Some b ->
  slots b !! alloc_slotIndex a = Some s ->
  (bucketSize b = BucketXXL ->
   Z.quot (Z.of_nat (length vertices)) 6
   <= int_sub (totalVertexCapacity b) (vertexOffset s)) ->
  (bucketSize b <> BucketXXL ->
   Z.quot (Z.of_nat (length vertices)) 6
   <= vertexCapacityPerSlot (buckets mc (bucketSize b))) ->
  EnsureSlot mc cid vertices
  = Some (ok, put_batch mc (alloc_batch a)
                (set_slots b
                   (<[alloc_slotIndex a :=
                        mkSlot (active s) (clusterID s)
                          (Z.quot (Z.of_nat (length vertices)) 6)
                          (vertexOffset s)]> (slots b)))).
Proof.
  intros Hlen Hrem Ha Hb Hs Hx Hnx.
  unfold EnsureSlot.
  destruct (Z.of_nat (length vertices) =? 0) eqn:E0; [lia|].
  rewrite Hrem. simpl. rewrite Ha, Hb. simpl.
  destruct (decide (bucketSize b = BucketXXL)) as [Hbx|Hbx].
  - rewrite Hs. simpl.
    destruct (_ <=? _) eqn:Hcmp; [|apply Z.leb_gt in Hcmp; specialize (Hx Hbx); lia].
    unfold updateSlotInPlace. rewrite Hb. simpl. by rewrite Hs.
  - destruct (_ <=? _) eqn:Hcmp; [|apply Z.leb_gt in Hcmp; specialize (Hnx Hbx); lia].
    unfold updateSlotInPlace. rewrite Hb. simpl. by rewrite Hs.
Qed.

(** A payload that fails the check has the cluster removed and placed
    anew. *)
Lemma EnsureSlot_realloc mc cid vertices a b s :
  length vertices <> 0%nat ->
  Z.rem (Z.of_nat (length vertices)) 6 = 0 ->
  clusterSlots mc !! cid = Some a ->
  heap mc !! alloc_batch a = Some b ->
  slots b !! alloc_slotIndex a = Some s ->
  (bucketSize b = BucketXXL ->
   int_sub (totalVertexCapacity b) (vertexOffset s)
   < Z.quot (Z.of_nat (length vertices)) 6) ->
  (bucketSize b <> BucketXXL ->
   vertexCapacityPerSlot (buckets mc (bucketSize b))
   < Z.quot (Z.of_nat (length vertices)) 6) ->
  EnsureSlot mc cid vertices
  = (r ← RemoveCluster mc cid;
     match r with
     | (failed _, mc') => Some (failed ErrRemoveForReallocation, mc')
     | (ok, mc') =>
         EnsureSlot_allocate mc' cid (Z.quot (Z.of_nat (length vertices)) 6)
           (selectBucket (Z.quot (Z.of_nat (length vertices)) 6))
     end).
Proof.
  intros Hlen Hrem Ha Hb Hs Hx Hnx.
  unfold EnsureSlot.
  destruct (Z.of_nat (length vertices) =? 0) eqn:E0; [lia|].
  rewrite Hrem. simpl. rewrite Ha, Hb. simpl.
  destruct (decide (bucketSize b = BucketXXL)) as [Hbx|Hbx].
  - rewrite Hs. simpl.
    destruct (_ <=? _) eqn:Hcmp; [apply Z.leb_le in Hcmp; specialize (Hx Hbx); lia|].
    done.
  - destruct (_ <=? _) eqn:Hcmp; [apply Z.leb_le in Hcmp; specialize (Hnx Hbx); lia|].
    done.
Qed.

(** [EnsureSlot] on a payload that passes the two checks. *)
Lemma EnsureSlot_spec mc cid vertices :
  inv mc -> validSlice vertices ->
  length vertices <> 0%nat ->
  Z.rem (Z.of_nat (length vertices)) 6 = 0 ->
  exists mc',
    EnsureSlot mc cid vertices = Some (ok, mc') /\
    inv mc' /\
    fits mc' cid (Z.quot (Z.of_nat (length vertices)) 6) /\
    clustersNeedingReupload mc ⊆ clustersNeedingReupload mc' /\
    (forall k b b',
       heap mc !! k = Some b -> heap mc' !! k = Some b' ->
       growthCycles b' <> growthCycles b ->
       forall i s, slots b !! i = Some s -> active s = true ->
                   clusterID s ∈ clustersNeedingReupload mc').
Proof.
  intros I Hvalid Hlen Hrem.
  set (vc := Z.quot (Z.of_nat (length vertices)) 6).
  assert (Hvc : in_int vc).
  { unfold validSlice in Hvalid. unfold in_int, int_min, int_max in *.
    assert (0 <= vc <= Z.of_nat (length vertices)).
    { unfold vc. split; [apply Z.quot_pos; lia|].
      apply Z.quot_le_upper_bound; lia. }
    lia. }
  assert (Hfits_alloc : forall mc' bucket,
    inv mc' -> bucket = selectBucket vc ->
    (exists a b s,
       clusterSlots mc' !! cid = Some a /\
       heap mc' !! alloc_batch a = Some b /\
       bucketSize b = bucket /\
       slots b !! alloc_slotIndex a = Some s /\
       vertexCount s = vc /\
       (bucket = BucketXXL ->
        vc <= int_sub (totalVertexCapacity b) (vertexOffset s))) ->
    fits mc' cid vc).
  { intros mc' bucket I' Hbucket (a & b & s & Ha & Hb & Hbs & Hs & Hcount & Hx).
    exists a, b, s. split; [done|]. split; [done|]. split; [done|]. split; [done|].
    split; [intros Hbx; apply Hx; congruence|].
    intros Hnx. destruct (Inv_static _ _ _ _ I' (bucketSize b)) as (_ & -> & _).
    rewrite Hbs, Hbucket. apply selectBucket_fits. congruence. }
  destruct (clusterSlots mc !! cid) as [a|] eqn:Hcid.
  2:{ destruct (EnsureSlot_allocate_spec mc cid vc (selectBucket vc) I Hcid Hvc)
        as (mc' & Hrun & I' & Hloc & Hre & [Hkept Hgm]).
      exists mc'. split.
      { unfold EnsureSlot.
        destruct (Z.of_nat (length vertices) =? 0) eqn:E0; [lia|].
        rewrite Hrem. simpl. by rewrite Hcid. }
      split; [done|]. split.
      { apply (Hfits_alloc mc' (selectBucket vc)); [done|done|].
        destruct Hloc as (a & b & s & Ha & Hrest). exists a, b, s.
        split; [|done]. by rewrite Ha, lookup_insert_eq. }
      split; [done|].
      intros k b b' Hb Hb' Hne. by destruct (Hgm k b b' Hb Hb' Hne) as (_ & _ & ?). }
  destruct (Inv_rec _ _ _ _ I cid a Hcid) as (eb & s & Heb & Hs & Hact & Hown).
  (* the payload fits the slot the cluster has *)
  assert (Hinplace :
    (bucketSize eb = BucketXXL ->
     vc <= int_sub (totalVertexCapacity eb) (vertexOffset s)) ->
    (bucketSize eb <> BucketXXL ->
     vc <= vertexCapacityPerSlot (buckets mc (bucketSize eb))) ->
    exists mc', EnsureSlot mc cid vertices = Some (ok, mc') /\ inv mc' /\
      fits mc' cid vc /\
      clustersNeedingReupload mc ⊆ clustersNeedingReupload mc' /\
      (forall k b b', heap mc !! k = Some b -> heap mc' !! k = Some b' ->
         growthCycles b' <> growthCycles b ->
         forall i s, slots b !! i = Some s -> active s = true ->
                     clusterID s ∈ clustersNeedingReupload mc')).
  { intros Hx Hnx.
    pose proof (EnsureSlot_in_place mc cid vertices a eb s Hlen Hrem Hcid Heb Hs Hx Hnx)
      as Hrun.
    eexists. split; [exact Hrun|].
    assert (Hi : (alloc_slotIndex a < length (slots eb))%nat)
      by (by eapply lookup_lt_Some).
    split; [|split; [|split; [done|]]].
    - unfold inv. simpl. by eapply Inv_inplace.
    - eexists a, _, _. simpl. split; [done|]. rewrite lookup_insert_eq.
      split; [reflexivity|]. simpl. rewrite list_lookup_insert_eq by done.
      split; [reflexivity|]. simpl. done.
    - intros k b b' Hb Hb' Hne. simpl in Hb'.
      destruct (decide (k = alloc_batch a)) as [->|Hk].
      + rewrite lookup_insert_eq in Hb'. injection Hb' as <-. simpl in Hne.
        congruence.
      + rewrite lookup_insert_ne in Hb' by done. congruence. }
  (* the payload does not fit: the cluster is removed and placed anew *)
  assert (Hrealloc :
    (bucketSize eb = BucketXXL \/
     vertexCapacityPerSlot (buckets mc (bucketSize eb)) < vc) ->
    exists mc0 mc',
      RemoveCluster mc cid = Some (ok, mc0) /\
      EnsureSlot_allocate mc0 cid vc (selectBucket vc) = Some (ok, mc') /\
      inv mc' /\ fits mc' cid vc /\
      clustersNeedingReupload mc ⊆ clustersNeedingReupload mc' /\
      (forall k b b', heap mc !! k = Some b -> heap mc' !! k = Some b' ->
         growthCycles b' <> growthCycles b ->
         forall i s, slots b !! i = Some s -> active s = true ->
                     clusterID s ∈ clustersNeedingReupload mc')).
  { intros Hwhy.
    destruct (RemoveCluster_spec mc cid a I Hcid)
      as (b0 & mc0 & Hrm & I0 & Hb0 & Hh0 & Hg0 & Hbs0 & Hcs0 & Hre0 & Hbat0 & Hnext0).
    assert (b0 = eb) by congruence. subst b0.
    assert (Hfresh : clusterSlots mc0 !! cid = None)
      by (by rewrite Hcs0, lookup_delete_eq).
    destruct (EnsureSlot_allocate_spec mc0 cid vc (selectBucket vc) I0 Hfresh Hvc)
      as (mc' & Hrun & I' & Hloc & Hre & [Hkept Hgm]).
    exists mc0, mc'. split; [done|]. split; [done|]. split; [done|]. split.
    { apply (Hfits_alloc mc' (selectBucket vc)); [done|done|].
      destruct Hloc as (a' & b' & s' & Ha' & Hrest). exists a', b', s'.
      split; [|done]. by rewrite Ha', lookup_insert_eq. }
    split; [by rewrite <- Hre0|].
    intros k b b1 Hb Hb1 Hne.
    destruct (decide (k = alloc_batch a)) as [->|Hk].
    - exfalso. assert (b = eb) by congruence. subst b.
      assert (Hk0 : heap mc0 !! alloc_batch a
                    = Some (freeSlot eb (alloc_slotIndex a)))
        by (by rewrite Hh0, lookup_insert_eq).
      destruct (Hgm _ _ _ Hk0 Hb1) as (Hsel & Hnx & _); [congruence|].
      rewrite Hbs0 in Hsel. destruct Hwhy as [Hx | Hlt]; [congruence|].
      destruct (Inv_static _ _ _ _ I (bucketSize eb)) as (_ & Hcap & _).
      rewrite Hcap, Hsel in Hlt.
      pose proof (selectBucket_fits vc Hnx). lia.
    - assert (Hk0 : heap mc0 !! k = Some b)
        by (by rewrite Hh0, lookup_insert_ne).
      by destruct (Hgm _ _ _ Hk0 Hb1 Hne) as (_ & _ & ?). }
  destruct (decide (bucketSize eb = BucketXXL)) as [Hbx|Hbx].
  - destruct (vc <=? int_sub (totalVertexCapacity eb) (vertexOffset s)) eqn:Hcmp.
    + apply Z.leb_le in Hcmp. apply Hinplace; [done|]. intros Hc. done.
    + apply Z.leb_gt in Hcmp.
      destruct (Hrealloc (or_introl Hbx)) as (mc0 & mc' & Hrm & Hrun & Hrest).
      exists mc'. split; [|done].
      rewrite (EnsureSlot_realloc mc cid vertices a eb s) by (done || intros; done).
      rewrite Hrm. simpl. exact Hrun.
  - destruct (vc <=? vertexCapacityPerSlot (buckets mc (bucketSize eb))) eqn:Hcmp.
    + apply Z.leb_le in Hcmp. apply Hinplace; [intros Hc; done|done].
    + apply Z.leb_gt in Hcmp.
      destruct (Hrealloc (or_intror Hcmp)) as (mc0 & mc' & Hrm & Hrun & Hrest).
      exists mc'. split; [|done].
      rewrite (EnsureSlot_realloc mc cid vertices a eb s) by (done || intros; done).
      rewrite Hrm. simpl. exact Hrun.
Qed.

(** ** Compaction under the invariant *)

Lemma settled_refl mc : settled mc mc.
Proof. split; [|done]. intros k b Hb. eauto. Qed.

Lemma settled_same_heap mc mc' :
  heap mc' = heap mc ->
  clustersNeedingReupload mc' = clustersNeedingReupload mc ->
  settled mc mc'.
Proof. intros Hh Hr. split; [|done]. intros k b Hb. rewrite Hh. eauto. Qed.

Lemma settled_trans mc1 mc2 mc3 :
  settled mc1 mc2 -> settled mc2 mc3 -> settled mc1 mc3.
Proof.
  intros [H12 R12] [H23 R23]. split; [|congruence].
  intros k b Hb. destruct (H12 k b Hb) as (b2 & Hb2 & Hs2).
  destruct (H23 k b2 Hb2) as (b3 & Hb3 & Hs3). exists b3. split; [done|congruence].
Qed.

Lemma deleteBatch_inv mc k st mc' :
  inv mc -> deleteBatch mc k = Some (st, mc') ->
  inv mc' /\ settled mc mc'.
Proof.
  intros I H. unfold deleteBatch in H.
  apply bind_Some in H as (b & Hb & H).
  destruct (0 <? length (activeSlots b))%nat eqn:Hlen.
  { apply bind_Some in H as (? & _ & H). inversion H; subst.
    split; [done|apply settled_refl]. }
  apply Nat.ltb_ge in Hlen.
  assert (Hact : activeSlots b = []) by (destruct (activeSlots b); simpl in *; [done|lia]).
  inversion H; subst; clear H. split; [|by apply settled_same_heap].
  unfold inv. simpl.
  set (pool := buckets mc (bucketSize b)).
  assert (Hnew : exists newBatches,
    match list_find (fun k0 => k0 = k) (batches pool) with
    | Some (i, _) => deleteAt i (batches pool)
    | None => batches pool
    end = newBatches /\ NoDup newBatches /\
    forall k0, k0 ∈ newBatches <-> k0 ∈ batches pool /\ k0 <> k).
  { eexists. split; [reflexivity|].
    pose proof (Inv_batches_NoDup _ _ _ _ I (bucketSize b)) as Hnd. fold pool in Hnd.
    destruct (list_find _ _) as [[i x]|] eqn:Hfind.
    - apply list_find_Some in Hfind as (Hi & -> & _).
      by apply (NoDup_remove_spec _ _ k Hnd), deleteAt_Permutation.
    - apply list_find_None in Hfind. rewrite Forall_forall in Hfind.
      split; [done|]. intros k0. split; [|tauto].
      intros Hk0. split; [done|]. by apply Hfind. }
  destruct Hnew as (newBatches & -> & Hnd & Hmem).
  eapply (Inv_delete _ _ _ _ I _ k b Hb Hact).
  - intros q. destruct (decide (q = bucketSize b)) as [->|]; done.
  - intros q. destruct (decide (q = bucketSize b)) as [->|];
      [done | by eapply Inv_batches_NoDup].
  - intros q k0 Hk0. destruct (decide (q = bucketSize b)) as [->|Hq].
    + simpl in Hk0. apply Hmem in Hk0 as [? ?]. done.
    + done.
  - intros q k0 Hk0 Hne. destruct (decide (q = bucketSize b)) as [->|Hq]; [|done].
    simpl. by apply Hmem.
  - intros q. destruct (decide (q = bucketSize b)) as [->|];
      [|by eapply Inv_free_NoDup].
    simpl. apply NoDup_filter. by eapply Inv_free_NoDup.
  - intros q r Hr. destruct (decide (q = bucketSize b)) as [->|Hq]; [|done].
    simpl in Hr. apply list_elem_of_filter in Hr as [Hne Hr]. done.
Qed.

Lemma copySlotData_find_spec ss cid : forall l i r,
  copySlotData_find ss cid i l = Some r ->
  match r with
  | Some p => exists idx s, (i <= p)%nat /\ l !! (p - i)%nat = Some idx /\
                            ss !! idx = Some s /\ clusterID s = cid
  | None => forall idx s, idx ∈ l -> ss !! idx = Some s -> clusterID s <> cid
  end.
Proof.
  induction l as [|idx l IH]; intros i r H; simpl in H.
  - injection H as <-. intros idx s Hidx. by apply elem_of_nil in Hidx.
  - apply bind_Some in H as (s & Hs & H).
    destruct (decide (clusterID s = cid)) as [Hc|Hc].
    + injection H as <-. exists idx, s. split; [lia|].
      replace (i - i)%nat with 0%nat by lia. done.
    + apply IH in H. destruct r as [p|].
      * destruct H as (idx' & s' & Hle & Hl & Hs' & Hc').
        exists idx', s'. split; [lia|]. split; [|done].
        replace (p - i)%nat with (S (p - S i)) by lia. done.
      * intros idx' s' Hidx' Hs'. apply elem_of_cons in Hidx' as [->|Hidx'].
        -- congruence.
        -- by eapply H.
Qed.

Lemma allocateSlotInBatch_Some mc k pk cid vc r mc1 :
  allocateSlotInBatch mc k pk cid vc = Some (r, mc1) ->
  exists b, heap mc !! k = Some b /\
    match r with
    | None => mc1 = mc
    | Some i => exists s,
        slots b !! i = Some s /\ active s = false /\
        heap mc1 = <[k := claimed b i s cid vc]> (heap mc) /\
        buckets mc1
        = (fun q => if decide (q = pk)
                    then removeFromFreeList (buckets mc pk) k i
                    else buckets mc q) /\
        clusterSlots mc1 = clusterSlots mc /\
        clustersNeedingReupload mc1 = clustersNeedingReupload mc /\
        nextBatchID mc1 = nextBatchID mc
    end.
Proof.
  unfold allocateSlotInBatch. intros H.
  apply bind_Some in H as (b & Hb & H). exists b. split; [done|].
  destruct (list_find _ _) as [[i s]|] eqn:Hfind.
  - injection H as <- <-. apply list_find_Some in Hfind as (Hs & Ha & _).
    exists s. simpl. repeat split; try done.
  - by injection H as <- <-.
Qed.

(** Moving one active slot of [source] into [target]. *)
Lemma copySlotData_inv mc source slotIdx target st mc' sb s tb :
  inv mc ->
  source <> target ->
  heap mc !! source = Some sb ->
  slots sb !! slotIdx = Some s -> active s = true ->
  heap mc !! target = Some tb ->
  target ∈ batches (buckets mc (bucketSize tb)) ->
  copySlotData mc source slotIdx target = Some (st, mc') ->
  inv mc' /\ settled mc mc' /\
  (forall q, batches (buckets mc' q) = batches (buckets mc q)) /\
  (st = ok ->
   exists sb', heap mc' !! source = Some sb' /\
     forall j, j ∈ activeSlots sb' <-> j ∈ activeSlots sb /\ j <> slotIdx).
Proof.
  intros I Hne Hsb Hs Ha Htb Htin H. unfold copySlotData in H.
  rewrite Htb, Hsb in H. simpl in H. rewrite Hs in H. simpl in H.
  apply bind_Some in H as ([r mc1] & Halloc & H).
  apply allocateSlotInBatch_Some in Halloc as (tb0 & Htb0 & Halloc).
  assert (tb0 = tb) by congruence. subst tb0.
  destruct r as [ti|].
  2:{ subst mc1. injection H as <- <-.
      split; [done|]. split; [apply settled_refl|]. split; [done|]. done. }
  destruct Halloc as (ts & Hts & Htsa & Hh1 & Hbk1 & Hcs1 & Hre1 & Hnext1).
  rewrite Hh1, lookup_insert_ne in H by done. rewrite Hsb in H. simpl in H.
  rewrite Hs in H. simpl in H.
  destruct (Inv_owner _ _ _ _ I source sb slotIdx s Hsb Hs Ha) as (Hsin & a & Hcid & Hab & Hai).
  rewrite Hcs1, Hcid in H.
  apply bind_Some in H as (old & Hfind & H).
  destruct (Inv_heap _ _ _ _ I source sb Hsb) as (_ & _ & _ & Hand & Hiff & _).
  assert (Hidx_in : slotIdx ∈ activeSlots sb) by (apply Hiff; eauto).
  apply copySlotData_find_spec in Hfind.
  destruct old as [p|].
  2:{ exfalso. by eapply (Hfind slotIdx s). }
  destruct Hfind as (idx & s' & _ & Hp & Hs' & Hc').
  rewrite Nat.sub_0_r in Hp.
  assert (idx = slotIdx).
  { assert (Hin' : idx ∈ activeSlots sb) by (by eapply list_elem_of_lookup_2).
    apply Hiff in Hin' as (s2 & Hs2 & Ha2).
    assert (s2 = s') by congruence. subst s2.
    destruct (Inv_owner _ _ _ _ I source sb idx s' Hsb Hs' Ha2) as (_ & a2 & Hcid2 & _ & Hai2).
    rewrite Hc' in Hcid2. congruence. }
  subst idx.
  destruct (NoDup_remove_spec _ _ slotIdx Hand (deleteAt_Permutation _ _ _ Hp))
    as [Hnd' Hmem'].
  injection H as <- <-. simpl.
  set (cid := clusterID s) in *.
  set (bkf := fun k' : BucketSize =>
         if decide (k' = bucketSize sb)
         then addFreeSlot (buckets mc1 (bucketSize sb)) (mkSlotRef source slotIdx)
         else buckets mc1 k').
  assert (Hbkf : forall q,
    sameButFree (buckets mc q) (bkf q) /\
    NoDup (freeSlots (bkf q)) /\
    (forall r, r ∈ freeSlots (bkf q) ->
       r ∈ freeSlots (buckets mc q) \/
       (q = bucketSize sb /\ r = mkSlotRef source slotIdx)) /\
    (q = bucketSize tb -> mkSlotRef target ti ∉ freeSlots (bkf q))).
  { intros q. unfold bkf. rewrite Hbk1.
    assert (Hsrc : mkSlotRef source slotIdx ∉ freeSlots (buckets mc (bucketSize sb))).
    { intros Hr. destruct (Inv_free _ _ _ _ I _ _ Hr) as (_ & b0 & s0 & Hb0 & Hs0 & Ha0).
      simpl in *. congruence. }
    set (ref := mkSlotRef source slotIdx).
    destruct (decide (q = bucketSize sb)) as [->|Hq].
    - set (inner := if decide (bucketSize sb = bucketSize tb)
                    then removeFromFreeList (buckets mc (bucketSize tb)) target ti
                    else buckets mc (bucketSize sb)).
      pose proof (addFreeSlot_Permutation inner ref) as Hperm.
      pose proof (addFreeSlot_fields inner ref) as (F1 & F2 & F3 & F4).
      assert (Hinner : sameButFree (buckets mc (bucketSize sb)) inner /\
                NoDup (freeSlots inner) /\
                (forall r, r ∈ freeSlots inner ->
                           r ∈ freeSlots (buckets mc (bucketSize sb))) /\
                (bucketSize sb = bucketSize tb ->
                 mkSlotRef target ti ∉ freeSlots inner)).
      { unfold inner. destruct (decide (bucketSize sb = bucketSize tb)) as [Heq|Hneq].
        - rewrite <- Heq. split; [done|]. simpl. split.
          + apply NoDup_filter. by eapply Inv_free_NoDup.
          + split.
            * intros r Hr. by apply list_elem_of_filter in Hr as [_ ?].
            * intros _ Hr. apply list_elem_of_filter in Hr as [Hr _]. by apply Hr.
        - split; [done|]. split; [by eapply Inv_free_NoDup|]. split; [done|done]. }
      destruct Hinner as (Hsame & Hndi & Hsubi & Hnoti).
      split.
      { destruct Hsame as (S1 & S2 & S3 & S4). repeat split; congruence. }
      split.
      { rewrite Hperm. apply NoDup_cons. split; [|done].
        intros Hc. by apply Hsubi in Hc. }
      split.
      { intros r Hr. rewrite Hperm in Hr. apply elem_of_cons in Hr as [->|Hr].
        - by right.
        - left. by apply Hsubi. }
      intros Heq Hc. rewrite Hperm in Hc. apply elem_of_cons in Hc as [Hc|Hc].
      + injection Hc as Hc _. by apply Hne.
      + by apply (Hnoti Heq).
    - destruct (decide (q = bucketSize tb)) as [->|Hq'].
      + split; [done|]. simpl. split.
        * apply NoDup_filter. by eapply Inv_free_NoDup.
        * split.
          -- intros r Hr. left. by apply list_elem_of_filter in Hr as [_ ?].
          -- intros _ Hr. apply list_elem_of_filter in Hr as [Hr _]. by apply Hr.
      + split; [done|]. split; [by eapply Inv_free_NoDup|]. split; [by left|done]. }
  set (sb2 := mkBatch (batch_id sb) (totalVertexCapacity sb)
                (<[slotIdx := mkSlot false 0 0 (vertexOffset s)]> (slots sb))
                (deleteAt p (activeSlots sb)) (bucketSize sb) (growthCycles sb)
                (initialCapacity sb)).
  assert (IX : Inv (<[source := sb2]> (heap mc)) bkf (delete cid (clusterSlots mc))
                 (nextBatchID mc)).
  { replace source with (alloc_batch a) at 1 by done.
    eapply (Inv_release _ _ _ _ I bkf cid a sb s sb2); try done.
    - by rewrite Hab.
    - by rewrite Hai.
    - by rewrite Hai.
    - by rewrite Hai.
    - intros q. apply Hbkf.
    - intros q. apply Hbkf.
    - intros q r Hr. rewrite Hab, Hai. by apply Hbkf. }
  split; [|split; [|split]].
  - unfold inv. simpl. rewrite ?Hh1, ?Hcs1, ?Hnext1.
    rewrite insert_insert_ne by done.
    rewrite <- (insert_delete_eq (clusterSlots mc)).
    eapply (Inv_claim _ _ _ _ IX bkf target tb ti ts cid (vertexCount s)
              (vertexCount s)); try done.
    + by rewrite lookup_insert_ne.
    + destruct (Hbkf (bucketSize tb)) as ((_ & _ & _ & ->) & _). done.
    + by rewrite lookup_delete_eq.
    + intros q. apply Hbkf.
    + by apply Hbkf.
  - split; [|done]. intros k b Hb. simpl. rewrite ?Hh1.
    destruct (decide (k = source)) as [->|Hks].
    + rewrite lookup_insert_eq. exists sb2. split; [done|]. simpl. congruence.
    + rewrite lookup_insert_ne by done.
      destruct (decide (k = target)) as [->|Hkt].
      * rewrite lookup_insert_eq. eexists. split; [done|]. simpl. congruence.
      * rewrite lookup_insert_ne by done. eauto.
  - intros q. change (batches (bkf q) = batches (buckets mc q)).
    by destruct (Hbkf q) as ((_ & _ & _ & ->) & _).
  - intros _. exists sb2. simpl. rewrite lookup_insert_eq. split; [done|]. done.
Qed.

Lemma CompactBatch_targets_spec h source : forall bs targets,
  CompactBatch_targets h source bs = Some targets ->
  forall t, t ∈ targets -> t <> source /\ t ∈ bs.
Proof.
  induction bs as [|k bs IH]; intros targets H t Ht; simpl in H.
  - injection H as <-. by apply elem_of_nil in Ht.
  - apply bind_Some in H as (b & Hb & H).
    apply bind_Some in H as (rest & Hrest & H).
    destruct (decide (k = source)) as [->|Hk].
    + injection H as <-. destruct (IH rest Hrest t Ht). split; [done|by right].
    + destruct (_ <? _)%nat.
      * injection H as <-. apply elem_of_cons in Ht as [->|Ht].
        -- split; [done|by left].
        -- destruct (IH rest Hrest t Ht). split; [done|by right].
      * injection H as <-. destruct (IH rest Hrest t Ht). split; [done|by right].
Qed.

Lemma findBatchWithCapacity_loop_elem h : forall bs k,
  findBatchWithCapacity_loop h bs = Some (Some k) -> k ∈ bs.
Proof.
  induction bs as [|k0 bs IH]; intros k H; simpl in H; [done|].
  apply bind_Some in H as (b & Hb & H).
  destruct (_ <? _)%nat.
  - injection H as <-. by left.
  - right. by apply IH.
Qed.

Lemma CompactBatch_loop_inv source targets : forall slotsToMove mc moved r,
  inv mc ->
  goodTargets mc source targets ->
  NoDup slotsToMove ->
  (forall sb idx, heap mc !! source = Some sb -> idx ∈ slotsToMove ->
                  idx ∈ activeSlots sb) ->
  CompactBatch_loop mc source targets slotsToMove moved = Some r ->
  inv r.2 /\ settled mc r.2.
Proof.
  induction slotsToMove as [|slotIdx rest IH]; intros mc moved r I Hgood Hnd Hact H;
    simpl in H.
  - injection H as <-. split; [done|apply settled_refl].
  - apply bind_Some in H as (sb & Hsb & H).
    apply bind_Some in H as (s0 & Hs0 & H).
    apply bind_Some in H as (found & Hfound & H).
    destruct found as [t|].
    2:{ injection H as <-. split; [done|apply settled_refl]. }
    apply findBatchWithCapacity_loop_elem in Hfound.
    destruct (Hgood t Hfound) as (Hts & tb & Htb & Htin).
    apply bind_Some in H as ([st mc1] & Hcopy & H).
    destruct (Inv_heap _ _ _ _ I source sb Hsb) as (_ & _ & _ & _ & Hiff & _).
    assert (Hin : slotIdx ∈ activeSlots sb) by (apply (Hact sb); [done|by left]).
    apply Hiff in Hin as (s & Hs & Ha).
    destruct (copySlotData_inv mc source slotIdx t st mc1 sb s tb I
                (not_eq_sym Hts) Hsb Hs Ha Htb Htin Hcopy)
      as (I1 & Hset1 & Hbat1 & Hok).
    destruct st as [|e].
    + apply NoDup_cons in Hnd as [Hnotin Hnd].
      destruct (Hok eq_refl) as (sb' & Hsb' & Hmem).
      apply IH in H; try done.
      * destruct H as [I' Hset']. split; [done|]. by eapply settled_trans.
      * intros t' Ht'. destruct (Hgood t' Ht') as (Hne' & tb' & Htb' & Htin').
        split; [done|]. destruct Hset1 as [Hkeep _].
        destruct (Hkeep t' tb' Htb') as (tb2 & Htb2 & Hbs2).
        exists tb2. split; [done|]. rewrite Hbat1, Hbs2. done.
      * intros sb2 idx Hsb2 Hidx. assert (sb2 = sb') by congruence. subst sb2.
        apply Hmem. split.
        -- apply (Hact sb); [done|by right].
        -- intros ->. done.
    + injection H as <-. simpl. done.
Qed.

Lemma CompactBatch_inv mc source r :
  inv mc -> CompactBatch mc source = Some r ->
  inv r.2 /\ settled mc r.2.
Proof.
  intros I H. unfold CompactBatch in H.
  change (negb DefragEnableCompaction) with false in H. cbv iota in H.
  apply bind_Some in H as (sb & Hsb & H).
  apply bind_Some in H as (targets & Htargets & H).
  destruct targets as [|t0 targets'].
  { injection H as <-. split; [done|apply settled_refl]. }
  apply bind_Some in H as ([[moved st] mc1] & Hloop & H).
  assert (Hgood : goodTargets mc source (t0 :: targets')).
  { intros t Ht.
    destruct (CompactBatch_targets_spec _ _ _ _ Htargets t Ht) as [Hne Hin].
    split; [done|].
    destruct (Inv_batches _ _ _ _ I _ _ Hin) as (tb & Htb & Hbs).
    exists tb. split; [done|]. by rewrite Hbs. }
  destruct (Inv_heap _ _ _ _ I source sb Hsb) as (_ & _ & _ & Hnd & _).
  apply CompactBatch_loop_inv in Hloop; try done.
  2:{ intros sb' idx Hsb' Hidx. congruence. }
  simpl in Hloop. destruct st as [|e].
  - apply bind_Some in H as (sb' & Hsb' & H). injection H as <-. done.
  - injection H as <-. done.
Qed.

Lemma inv_stats mc st : inv (set_stats mc st) <-> inv mc.
Proof. done. Qed.

Lemma settled_stats_r mc mc' st : settled mc mc' -> settled mc (set_stats mc' st).
Proof. done. Qed.

Section TryCompactionInv.

Variable sortSlice : (nat -> nat -> bool) -> list nat -> list nat.

Lemma TryCompaction_loop_inv : forall candidates mc compacted mc',
  inv mc ->
  TryCompaction_loop mc candidates compacted = Some mc' ->
  inv mc' /\ settled mc mc'.
Proof.
  induction candidates as [|batch rest IH]; intros mc compacted mc' I H; simpl in H.
  - injection H as <-. split; [done|apply settled_refl].
  - destruct compacted as [|compacted]; simpl in H.
    2:{ injection H as <-. split; [done|apply settled_refl]. }
    apply bind_Some in H as (b & Hb & H).
    destruct (length (activeSlots b) =? 0)%nat.
    + apply bind_Some in H as ([st mc1] & Hdel & H).
      destruct (deleteBatch_inv _ _ _ _ I Hdel) as [I1 Hset1].
      destruct st as [|e].
      * apply IH in H; [|done]. destruct H as [I' Hset'].
        split; [done|]. eapply settled_trans; [exact Hset1|]. exact Hset'.
      * apply IH in H; [|done]. destruct H as [I' Hset'].
        split; [done|]. by eapply settled_trans.
    + apply bind_Some in H as ([[[deletable relocated] st] mc1] & Hcomp & H).
      destruct (CompactBatch_inv _ _ _ I Hcomp) as [I1 Hset1]. simpl in I1, Hset1.
      destruct st as [|e].
      2:{ apply IH in H; [|done]. destruct H as [I' Hset'].
          split; [done|]. by eapply settled_trans. }
      set (mc2 := if (0 <? relocated)%nat
                  then addSlotsRelocated (incCompactionEvents mc1) relocated
                  else mc1) in *.
      assert (I2 : inv mc2) by (unfold mc2; by destruct (0 <? relocated)%nat).
      assert (Hset2 : settled mc mc2)
        by (unfold mc2; by destruct (0 <? relocated)%nat).
      destruct deletable.
      * apply bind_Some in H as ([st2 mc3] & Hdel & H).
        destruct (deleteBatch_inv _ _ _ _ I2 Hdel) as [I3 Hset3].
        destruct st2 as [|e].
        -- apply IH in H; [|done]. destruct H as [I' Hset'].
           split; [done|].
           eapply settled_trans; [exact Hset2|].
           eapply settled_trans; [exact Hset3|]. exact Hset'.
        -- apply IH in H; [|done]. destruct H as [I' Hset'].
           split; [done|].
           eapply settled_trans; [exact Hset2|].
           eapply settled_trans; [exact Hset3|]. exact Hset'.
      * apply IH in H; [|done]. destruct H as [I' Hset'].
        split; [done|]. by eapply settled_trans.
Qed.

Lemma TryCompaction_inv mc st mc' :
  inv mc -> TryCompaction sortSlice mc = Some (st, mc') ->
  inv mc' /\ settled mc mc'.
Proof.
  intros I H. unfold TryCompaction in H.
  change (negb DefragEnableCompaction) with false in H. cbv iota in H.
  apply bind_Some in H as (candidates & _ & H).
  destruct candidates as [|c cs].
  { injection H as <- <-. split; [done|apply settled_refl]. }
  apply bind_Some in H as (mc1 & Hloop & H). injection H as <- <-.
  by eapply TryCompaction_loop_inv.
Qed.

End TryCompactionInv.

(** ** Reachable controllers *)

Lemma EnsureSlot_cases mc cid vertices :
  inv mc -> validSlice vertices ->
  (exists e, EnsureSlot mc cid vertices = Some (failed e, mc) /\
             InvalidPayload (failed e)) \/
  (exists mc',
     EnsureSlot mc cid vertices = Some (ok, mc') /\
     inv mc' /\
     fits mc' cid (Z.quot (Z.of_nat (length vertices)) 6) /\
     clustersNeedingReupload mc ⊆ clustersNeedingReupload mc' /\
     (forall k b b',
        heap mc !! k = Some b -> heap mc' !! k = Some b' ->
        growthCycles b' <> growthCycles b ->
        forall i s, slots b !! i = Some s -> active s = true ->
                    clusterID s ∈ clustersNeedingReupload mc')).
Proof.
  intros I Hvalid.
  destruct (decide (length vertices = 0%nat)) as [H0|H0].
  { left. eexists. split; [by apply EnsureSlot_empty | by left]. }
  destruct (decide (Z.rem (Z.of_nat (length vertices)) 6 = 0)) as [H6|H6].
  2:{ left. eexists. split; [by apply EnsureSlot_bad_stride | by right]. }
  right. by apply EnsureSlot_spec.
Qed.

Lemma EnsureSlot_inv mc cid vertices st mc' :
  inv mc -> validSlice vertices ->
  EnsureSlot mc cid vertices = Some (st, mc') -> inv mc'.
Proof.
  intros I Hvalid Hrun.
  destruct (EnsureSlot_cases mc cid vertices I Hvalid)
    as [(e & Hrun' & _) | (mc2 & Hrun' & I' & _)]; congruence.
Qed.

Lemma RemoveCluster_inv mc cid st mc' :
  inv mc -> RemoveCluster mc cid = Some (st, mc') ->
  inv mc' /\ clustersNeedingReupload mc' = clustersNeedingReupload mc.
Proof.
  intros I Hrun. destruct (clusterSlots mc !! cid) as [a|] eqn:Hcid.
  - destruct (RemoveCluster_spec mc cid a I Hcid)
      as (b & mc2 & Hrun' & I' & _ & _ & _ & _ & _ & Hre & _).
    assert (mc2 = mc') by congruence. by subst.
  - rewrite (RemoveCluster_missing mc cid Hcid) in Hrun. by injection Hrun as <- <-.
Qed.

Lemma GetAndClear_inv mc :
  inv mc -> inv (GetAndClearClustersNeedingReupload mc).2.
Proof.
  intros I. unfold GetAndClearClustersNeedingReupload.
  by destruct (decide _).
Qed.

Lemma doCall_inv mc c st mc' :
  inv mc -> validCall c -> doCall mc c = Some (st, mc') -> inv mc'.
Proof.
  intros I Hvalid Hrun. destruct c as [cid v|cid]; simpl in *.
  - by eapply EnsureSlot_inv.
  - by eapply RemoveCluster_inv.
Qed.

Lemma doCall_total mc c :
  inv mc -> validCall c -> is_Some (doCall mc c).
Proof.
  intros I Hvalid. destruct c as [cid v|cid]; simpl in *.
  - destruct (EnsureSlot_cases mc cid v I Hvalid)
      as [(e & -> & _) | (mc2 & -> & _)]; by eexists.
  - destruct (clusterSlots mc !! cid) as [a|] eqn:Hcid.
    + destruct (RemoveCluster_spec mc cid a I Hcid) as (b & mc2 & -> & _).
      by eexists.
    + rewrite (RemoveCluster_missing mc cid Hcid). by eexists.
Qed.

Lemma run_inv : forall calls mc,
  inv mc -> Forall validCall calls ->
  exists mc', run mc calls = Some mc' /\ inv mc'.
Proof.
  induction calls as [|c calls IH]; intros mc I Hvalid; simpl.
  - eauto.
  - apply Forall_cons in Hvalid as [Hc Hvalid].
    destruct (doCall_total mc c I Hc) as [[st mc1] Hrun]. rewrite Hrun.
    apply IH; [|done]. by eapply doCall_inv.
Qed.

Section Reachable.

Variable sortSlice : (nat -> nat -> bool) -> list nat -> list nat.

Lemma reachable_inv mc : reachable sortSlice mc -> inv mc.
Proof.
  induction 1 as [|mc cid v st mc' _ IH Hvalid Hrun|mc cid st mc' _ IH Hrun
                  |mc _ IH|mc st mc' _ IH Hrun].
  - apply inv_NewMemoryController.
  - by eapply EnsureSlot_inv.
  - by eapply RemoveCluster_inv.
  - by apply GetAndClear_inv.
  - by eapply TryCompaction_inv.
Qed.

Lemma run_reachable : forall calls mc mc',
  reachable sortSlice mc -> Forall validCall calls ->
  run mc calls = Some mc' -> reachable sortSlice mc'.
Proof.
  induction calls as [|c calls IH]; intros mc mc' Hr Hvalid Hrun; simpl in Hrun.
  - by injection Hrun as <-.
  - apply Forall_cons in Hvalid as [Hc Hvalid].
    destruct (doCall mc c) as [[st mc1]|] eqn:Hcall; [|done].
    apply (IH mc1); [|done|done].
    destruct c as [cid v|cid]; simpl in *.
    + by eapply reachable_EnsureSlot.
    + by eapply reachable_RemoveCluster.
Qed.

Lemma undrained_reachable mc mc' :
  reachable sortSlice mc -> undrained sortSlice mc mc' ->
  reachable sortSlice mc'.
Proof.
  intros Hr. induction 1 as [|mc mc1 cid v st mc2 _ IH Hvalid Hrun
                             |mc mc1 cid st mc2 _ IH Hrun
                             |mc mc1 st mc2 _ IH Hrun].
  - done.
  - apply (reachable_EnsureSlot _ mc1 cid v st mc2); [by apply IH | done | done].
  - apply (reachable_RemoveCluster _ mc1 cid st mc2); [by apply IH | done].
  - apply (reachable_TryCompaction _ mc1 st mc2); [by apply IH | done].
Qed.

Lemma undrained_keeps_marks mc mc' :
  reachable sortSlice mc -> undrained sortSlice mc mc' ->
  clustersNeedingReupload mc ⊆ clustersNeedingReupload mc'.
Proof.
  intros Hr. induction 1 as [|mc mc1 cid v st mc2 Hu IH Hvalid Hrun
                             |mc mc1 cid st mc2 Hu IH Hrun
                             |mc mc1 st mc2 Hu IH Hrun].
  - done.
  - specialize (IH Hr).
    pose proof (reachable_inv _ (undrained_reachable _ _ Hr Hu)) as I1.
    destruct (EnsureSlot_cases mc1 cid v I1 Hvalid)
      as [(e & Hrun' & _) | (mc3 & Hrun' & _ & _ & Hsub & _)].
    + assert (mc2 = mc1) by congruence. by subst.
    + assert (mc3 = mc2) by congruence. subst. set_solver.
  - specialize (IH Hr).
    pose proof (reachable_inv _ (undrained_reachable _ _ Hr Hu)) as I1.
    destruct (RemoveCluster_inv _ _ _ _ I1 Hrun) as [_ Heq]. by rewrite Heq.
  - specialize (IH Hr).
    pose proof (reachable_inv _ (undrained_reachable _ _ Hr Hu)) as I1.
    destruct (TryCompaction_inv sortSlice _ _ _ I1 Hrun) as [_ [_ Heq]].
    by rewrite Heq.
Qed.

End Reachable.

(** ** Active slots and location records *)

Lemma activePairs_length h bs :
  length (activePairs h bs) = sum_list (activeCount h <$> bs).
Proof.
  induction bs as [|k bs IH]; [done|].
  unfold activePairs in *. rewrite bind_cons, length_app, IH. simpl. f_equal.
  unfold activeCount. destruct (h !! k); [by rewrite length_fmap|done].
Qed.

Lemma activePairs_elem h bs k i :
  (k, i) ∈ activePairs h bs <->
  k ∈ bs /\ exists b, h !! k = Some b /\ i ∈ activeSlots b.
Proof.
  unfold activePairs. rewrite list_elem_of_bind. split.
  - intros (k0 & Hin & Hk0). destruct (h !! k0) as [b|] eqn:Hb.
    + apply list_elem_of_fmap in Hin as (i0 & [= -> ->] & Hi0). eauto.
    + by apply elem_of_nil in Hin.
  - intros (Hk & b & Hb & Hi). exists k. split; [|done]. rewrite Hb.
    apply list_elem_of_fmap. eauto.
Qed.

Lemma activePairs_NoDup h bs :
  NoDup bs -> (forall k b, h !! k = Some b -> NoDup (activeSlots b)) ->
  NoDup (activePairs h bs).
Proof.
  intros Hnd Hact. induction Hnd as [|k bs Hk Hnd IH]; [constructor|].
  unfold activePairs in *. rewrite bind_cons. apply NoDup_app. split; [|split; [|done]].
  - destruct (h !! k) as [b|] eqn:Hb; [|constructor].
    apply NoDup_fmap_2; [|by eapply Hact]. intros x y Hxy. by injection Hxy.
  - intros [k0 i0] Hin Hin'. apply (activePairs_elem h bs) in Hin' as [Hk0 _].
    destruct (h !! k) as [b|]; [|by apply elem_of_nil in Hin].
    apply list_elem_of_fmap in Hin as (i1 & [= -> ->] & _). done.
Qed.

(** Under the invariant the active slots of a pool and the records that
    point into it are as many. *)
Lemma inv_active_records mc p :
  inv mc -> activeTotal mc p = liveEntries mc p.
Proof.
  intros I. unfold activeTotal, liveEntries.
  rewrite <- activePairs_length, <- length_map_to_list.
  set (M := map_to_list (filter _ (clusterSlots mc))).
  rewrite <- (length_fmap (fun kv : Z * SlotAllocation =>
                             (alloc_batch kv.2, alloc_slotIndex kv.2)) M).
  apply Permutation_length, NoDup_Permutation.
  - apply activePairs_NoDup; [by eapply Inv_batches_NoDup|].
    intros k b Hb. by destruct (Inv_heap _ _ _ _ I k b Hb) as (_ & _ & _ & ? & _).
  - apply NoDup_fmap_2_strong; [|apply NoDup_map_to_list].
    intros [c1 a1] [c2 a2] H1 H2 Heq. simpl in Heq. injection Heq as Hk Hi.
    apply elem_of_map_to_list, map_lookup_filter_Some in H1 as [H1 _].
    apply elem_of_map_to_list, map_lookup_filter_Some in H2 as [H2 _].
    destruct (Inv_rec _ _ _ _ I c1 a1 H1) as (b1 & s1 & Hb1 & Hs1 & _ & Hc1).
    destruct (Inv_rec _ _ _ _ I c2 a2 H2) as (b2 & s2 & Hb2 & Hs2 & _ & Hc2).
    rewrite Hk in Hb1. rewrite Hi in Hs1.
    assert (b1 = b2) by congruence. subst b2.
    assert (s1 = s2) by congruence. subst s2.
    assert (c1 = c2) by congruence.
    assert (a1 = a2) by congruence. congruence.
  - intros [k i]. rewrite activePairs_elem, list_elem_of_fmap. split.
    + intros (Hk & b & Hb & Hi).
      destruct (Inv_heap _ _ _ _ I k b Hb) as (_ & _ & _ & _ & Hiff & _).
      apply Hiff in Hi as (s & Hs & Ha).
      destruct (Inv_owner _ _ _ _ I k b i s Hb Hs Ha) as (_ & a & Hcid & Hak & Hai).
      exists (clusterID s, a). simpl. split; [by rewrite Hak, Hai|].
      apply elem_of_map_to_list, map_lookup_filter_Some. split; [done|].
      unfold pointsInto. simpl. by rewrite Hak.
    + intros ([c a] & [= -> ->] & Hin). simpl.
      apply elem_of_map_to_list, map_lookup_filter_Some in Hin as [Hc Hp].
      unfold pointsInto in Hp. simpl in Hp. split; [done|].
      destruct (Inv_rec _ _ _ _ I c a Hc) as (b & s & Hb & Hs & Ha & _).
      exists b. split; [done|].
      destruct (Inv_heap _ _ _ _ I _ b Hb) as (_ & _ & _ & _ & Hiff & _).
      apply Hiff. eauto.
Qed.

Lemma Forall_validCall_take calls n :
  Forall validCall calls -> Forall validCall (take n calls).
Proof. apply Forall_take. Qed.

(** C4. After any number of calls of [EnsureSlot] and [RemoveCluster]
    on a new controller, with payloads that fit a slice, the controller
    is there and, in every pool, the active-slot counts of its batches
    add up to the number of location records that point into the pool. *)
Theorem C4_active_slots_match_records (calls : list call) (n : nat) :
  Forall validCall calls ->
  exists mc,
    run NewMemoryController (take n calls) = Some mc /\
    forall p, activeTotal mc p = liveEntries mc p.
Proof.
  intros Hvalid.
  destruct (run_inv (take n calls) NewMemoryController
              inv_NewMemoryController (Forall_validCall_take _ n Hvalid))
    as (mc & Hrun & I).
  exists mc. split; [done|]. intros p. by apply inv_active_records.
Qed.

Lemma validSlice_replicate n x :
  Z.of_nat n <= int_max -> validSlice (replicate n x).
Proof. intros H. unfold validSlice. by rewrite length_replicate. Qed.

Lemma twoOversized_valid : Forall validCall twoOversized.
Proof.
  unfold twoOversized, payload70000.
  repeat (apply Forall_cons; split);
    try (apply validSlice_replicate; unfold int_max; lia); done.
Qed.

Lemma C4_active_slots_match_records_witness :
  exists mc,
    run NewMemoryController (take 2 twoOversized) = Some mc /\
    forall p, activeTotal mc p = liveEntries mc p.
Proof.
  apply (C4_active_slots_match_records twoOversized 2).
  exact twoOversized_valid.
Defined.

(** ** Active slots and the free list *)



Lemma oneCluster_valid : Forall validCall oneCluster.
Proof.
  repeat (apply Forall_cons; split);
    try (apply validSlice_replicate; unfold int_max; lia); done.
Qed.





(** ** Growth and the re-upload set *)

Lemma GetAndClear_elem mc x :
  x ∈ clustersNeedingReupload mc ->
  x ∈ (GetAndClearClustersNeedingReupload mc).1.
Proof.
  intros Hx. unfold GetAndClearClustersNeedingReupload.
  destruct (decide _) as [Hsize|Hsize]; simpl.
  - apply size_empty_inv in Hsize. by apply Hsize in Hx.
  - by apply elem_of_elements.
Qed.

(** C5. When [EnsureSlot] on a reachable controller changes the
    growth-cycle count of a batch, the owner of every slot that was
    active in the batch is in what the next
    [GetAndClearClustersNeedingReupload] returns, whatever calls other
    than a drain come in between. *)
Theorem C5_grown_batch_owners_marked
  (sortSlice : (nat -> nat -> bool) -> list nat -> list nat)
  (mc mc1 mc2 : MemoryController) (cid : ClusterID)
  (vertices : list float32) (st : status) (k : nat) (b b1 : Batch)
  (i : nat) (s : Slot) :
  reachable sortSlice mc -> validSlice vertices ->
  EnsureSlot mc cid vertices = Some (st, mc1) ->
  heap mc !! k = Some b -> heap mc1 !! k = Some b1 ->
  growthCycles b1 <> growthCycles b ->
  undrained sortSlice mc1 mc2 ->
  slots b !! i = Some s -> active s = true ->
  clusterID s ∈ (GetAndClearClustersNeedingReupload mc2).1.
Proof.
  intros Hr Hvalid Hrun Hb Hb1 Hgrown Hund Hs Ha.
  pose proof (reachable_inv _ _ Hr) as I.
  apply GetAndClear_elem.
  assert (Hr1 : reachable sortSlice mc1) by (by eapply reachable_EnsureSlot).
  apply (undrained_keeps_marks sortSlice mc1 mc2 Hr1 Hund).
  destruct (EnsureSlot_cases mc cid vertices I Hvalid)
    as [(e & Hrun' & _) | (mc' & Hrun' & _ & _ & _ & Hmark)].
  - assert (mc1 = mc) by congruence. subst mc1. congruence.
  - assert (mc' = mc1) by congruence. subst mc'. by eapply Hmark.
Qed.

Lemma filledBatch_valid : Forall validCall filledBatch.
Proof.
  unfold filledBatch. apply Forall_fmap, Forall_forall. intros n _. simpl.
  apply validSlice_replicate. unfold int_max. lia.
Qed.

Lemma C5_grown_batch_owners_marked_witness :
  exists mc mc1 b s,
    run NewMemoryController filledBatch = Some mc /\
    EnsureSlot mc 256 payload1 = Some (ok, mc1) /\
    heap mc !! 0%nat = Some b /\ slots b !! 0%nat = Some s /\
    active s = true /\
    clusterID s ∈ (GetAndClearClustersNeedingReupload mc1).1.
Proof.
  assert (H : (fun mc =>
      ((fun b => (growthCycles b, (fun s => active s) <$> slots b !! 0%nat))
         <$> heap mc !! 0%nat,
       (fun r => (r.1, growthCycles <$> heap r.2 !! 0%nat))
         <$> EnsureSlot mc 256 payload1))
    <$> run NewMemoryController filledBatch
    = Some (Some (0, Some true), Some (ok, Some 1)))
    by (vm_compute; reflexivity).
  destruct (run NewMemoryController filledBatch) as [mc|] eqn:Hrun;
    [|discriminate H].
  simpl in H. injection H as Hb Hens.
  destruct (heap mc !! 0%nat) as [b|] eqn:Hhb; [|discriminate Hb].
  simpl in Hb. injection Hb as Hg Hs.
  destruct (slots b !! 0%nat) as [s|] eqn:Hhs; [|discriminate Hs].
  simpl in Hs. injection Hs as Ha.
  destruct (EnsureSlot mc 256 payload1) as [[st mc1]|] eqn:Hcall;
    [|discriminate Hens].
  simpl in Hens. injection Hens as -> Hb1.
  destruct (heap mc1 !! 0%nat) as [b1|] eqn:Hhb1; [|discriminate Hb1].
  simpl in Hb1. injection Hb1 as Hg1.
  exists mc, mc1, b, s. split; [done|]. split; [done|]. split; [done|].
  split; [done|]. split; [done|].
  apply (C5_grown_batch_owners_marked insertionSort mc mc1 mc1 256 payload1 ok
           0%nat b b1 0%nat s).
  - eapply run_reachable; [apply reachable_new|apply filledBatch_valid|done].
  - apply validSlice_replicate. unfold int_max. lia.
  - done.
  - done.
  - done.
  - rewrite Hg, Hg1. done.
  - apply undrained_refl.
  - done.
  - done.
Defined.

(** ** Calling [EnsureSlot] twice *)

Lemma put_batch_same mc k b :
  heap mc !! k = Some b -> put_batch mc k b = mc.
Proof.
  intros Hb. unfold put_batch, set_heap. rewrite insert_id by done.
  by destruct mc.
Qed.

Lemma set_slots_same b i s :
  slots b !! i = Some s ->
  set_slots b
    (<[i := mkSlot (active s) (clusterID s) (vertexCount s) (vertexOffset s)]>
       (slots b)) = b.
Proof.
  intros Hs. unfold set_slots.
  replace (mkSlot (active s) (clusterID s) (vertexCount s) (vertexOffset s))
    with s by (by destruct s).
  rewrite list_insert_id by done. by destruct b.
Qed.

(** C7. On a reachable controller a second [EnsureSlot] with the payload
    of the first answers as the first did and leaves the controller as
    the first left it: the cluster's record, with its vertex count, slot
    index and batch, and the slot it names are the same. *)
Theorem C7_EnsureSlot_twice
  (sortSlice : (nat -> nat -> bool) -> list nat -> list nat)
  (mc mc1 : MemoryController) (cid : ClusterID) (vertices : list float32)
  (st : status) :
  reachable sortSlice mc -> validSlice vertices ->
  EnsureSlot mc cid vertices = Some (st, mc1) ->
  EnsureSlot mc1 cid vertices = Some (st, mc1) /\
  (st = ok ->
   exists a b s,
     clusterSlots mc1 !! cid = Some a /\
     heap mc1 !! alloc_batch a = Some b /\
     slots b !! alloc_slotIndex a = Some s /\
     active s = true /\ clusterID s = cid /\
     vertexCount s = Z.quot (Z.of_nat (length vertices)) 6).
Proof.
  intros Hr Hvalid Hrun. pose proof (reachable_inv _ _ Hr) as I.
  destruct (decide (length vertices = 0%nat)) as [H0|H0].
  { rewrite (EnsureSlot_empty mc cid vertices H0) in Hrun.
    injection Hrun as <- <-. split; [by apply EnsureSlot_empty|done]. }
  destruct (decide (Z.rem (Z.of_nat (length vertices)) 6 = 0)) as [H6|H6].
  2:{ rewrite (EnsureSlot_bad_stride mc cid vertices H0 H6) in Hrun.
      injection Hrun as <- <-. split; [by apply EnsureSlot_bad_stride|done]. }
  destruct (EnsureSlot_spec mc cid vertices I Hvalid H0 H6)
    as (mc' & Hrun' & I' & Hfits & _).
  assert (st = ok /\ mc' = mc1) as [-> ->] by (split; congruence).
  destruct Hfits as (a & b & s & Ha & Hb & Hs & Hvc & Hx & Hnx).
  split.
  - rewrite (EnsureSlot_in_place mc1 cid vertices a b s H0 H6 Ha Hb Hs Hx Hnx).
    rewrite <- Hvc, set_slots_same by done. by rewrite put_batch_same.
  - intros _. exists a, b, s.
    destruct (Inv_rec _ _ _ _ I' cid a Ha) as (b' & s' & Hb' & Hs' & Hact & Hown).
    assert (b' = b) by congruence. subst b'.
    assert (s' = s) by congruence. subst s'. done.
Qed.

Lemma C7_EnsureSlot_twice_witness :
  exists mc1,
    EnsureSlot NewMemoryController 1 payload1 = Some (ok, mc1) /\
    EnsureSlot mc1 1 payload1 = Some (ok, mc1) /\
    (ok = ok ->
     exists a b s,
       clusterSlots mc1 !! 1 = Some a /\
       heap mc1 !! alloc_batch a = Some b /\
       slots b !! alloc_slotIndex a = Some s /\
       active s = true /\ clusterID s = 1 /\
       vertexCount s = Z.quot (Z.of_nat (length payload1)) 6).
Proof.
  assert (H : fst <$> EnsureSlot NewMemoryController 1 payload1 = Some ok)
    by (vm_compute; reflexivity).
  destruct (EnsureSlot NewMemoryController 1 payload1) as [[st mc1]|] eqn:Hrun;
    [|discriminate H].
  simpl in H. injection H as ->.
  exists mc1. split; [done|].
  apply (C7_EnsureSlot_twice insertionSort NewMemoryController mc1 1 payload1 ok).
  - apply reachable_new.
  - apply validSlice_replicate. unfold int_max. lia.
  - done.
Defined.

(** ** Runs from a new controller *)

Lemma run_new calls :
  Forall validCall calls ->
  exists mc, run NewMemoryController calls = Some mc /\
             reachable insertionSort mc /\ inv mc.
Proof.
  intros Hvalid.
  destruct (run_inv calls NewMemoryController inv_NewMemoryController Hvalid)
    as (mc & Hrun & I).
  exists mc. split; [done|]. split; [|done].
  eapply run_reachable; [apply reachable_new|done|done].
Qed.

Lemma comeAndGo_valid : Forall validCall comeAndGo.
Proof.
  repeat (apply Forall_cons; split);
    try (apply validSlice_replicate; unfold int_max; lia); done.
Qed.

Lemma twoSmall_valid : Forall validCall twoSmall.
Proof.
  repeat (apply Forall_cons; split);
    try (apply validSlice_replicate; unfold int_max; lia); done.
Qed.

Lemma payload1_valid : validSlice payload1.
Proof. apply validSlice_replicate. unfold int_max. lia. Qed.

Lemma sparseSecondBatch_valid : Forall validCall sparseSecondBatch.
Proof.
  unfold sparseSecondBatch. apply Forall_app. split.
  - apply Forall_fmap, Forall_forall. intros n _.
    change (validSlice payloadXL). unfold payloadXL.
    apply validSlice_replicate. unfold int_max. lia.
  - by repeat constructor.
Qed.

(** * Further properties of the controller *)

(** ** The order of the free list *)

Lemma ref_le_or_lt r1 r2 : ref_le r1 r2 \/ ref_lt r2 r1.
Proof. unfold ref_le, ref_lt. lia. Qed.

Lemma ref_lt_not_le r1 r2 : ref_lt r1 r2 -> ~ ref_le r2 r1.
Proof. unfold ref_le, ref_lt. lia. Qed.

Lemma ref_lt_le r1 r2 : ref_lt r1 r2 -> ref_le r1 r2.
Proof. unfold ref_le, ref_lt. lia. Qed.

Lemma ref_le_trans r1 r2 r3 : ref_le r1 r2 -> ref_le r2 r3 -> ref_le r1 r3.
Proof. unfold ref_le. lia. Qed.

(** A list splits at its first entry above [ref], if there is one. *)
Lemma split_first_above ref (l : list SlotRef) :
  Forall (fun e => ref_le e ref) l \/
  exists pre e post,
    l = pre ++ e :: post /\ Forall (fun e => ref_le e ref) pre /\ ref_lt ref e.
Proof.
  induction l as [|x l IH]; [by left|].
  destruct (ref_le_or_lt x ref) as [Hle|Hlt].
  - destruct IH as [Hall|(pre & e & post & -> & Hpre & He)].
    + left. by constructor.
    + right. exists (x :: pre), e, post. split; [done|]. split; [|done].
      by constructor.
  - right. exists [], x, l. by repeat split.
Qed.

(** The scan stops at the first entry above [ref]. *)
Lemma addFreeSlot_scan_break ref e post : forall pre i insertIdx,
  Forall (fun e => ref_le e ref) pre -> ref_lt ref e ->
  addFreeSlot_scan ref i insertIdx (pre ++ e :: post) = (i + length pre)%nat.
Proof.
  induction pre as [|x pre IH]; intros i insertIdx Hpre He; simpl.
  - destruct (Nat.ltb_spec (ref_batch ref) (ref_batch e)); [lia|].
    destruct (Nat.ltb_spec (ref_batch e) (ref_batch ref)).
    { unfold ref_lt in He. lia. }
    destruct (Nat.ltb_spec (ref_slotIndex ref) (ref_slotIndex e)); [lia|].
    unfold ref_lt in He. lia.
  - apply Forall_cons in Hpre as [Hx Hpre].
    destruct (Nat.ltb_spec (ref_batch ref) (ref_batch x)).
    { unfold ref_le in Hx. lia. }
    destruct (Nat.ltb_spec (ref_batch x) (ref_batch ref)).
    { rewrite IH by done. lia. }
    destruct (Nat.ltb_spec (ref_slotIndex ref) (ref_slotIndex x)).
    { unfold ref_le in Hx. lia. }
    rewrite IH by done. lia.
Qed.

(** With no entry above [ref] and all of the batch of [ref], the scan
    ends behind the last entry. *)
Lemma addFreeSlot_scan_same_batch ref : forall l i insertIdx,
  Forall (fun e => ref_le e ref) l ->
  Forall (fun e => ref_batch e = ref_batch ref) l ->
  addFreeSlot_scan ref i insertIdx l
  = match l with [] => insertIdx | _ => (i + length l)%nat end.
Proof.
  induction l as [|x l IH]; intros i insertIdx Hle Hsame; [done|]. simpl.
  apply Forall_cons in Hle as [Hx Hle]. apply Forall_cons in Hsame as [Hbx Hsame].
  destruct (Nat.ltb_spec (ref_batch ref) (ref_batch x)); [lia|].
  destruct (Nat.ltb_spec (ref_batch x) (ref_batch ref)); [lia|].
  destruct (Nat.ltb_spec (ref_slotIndex ref) (ref_slotIndex x)).
  { unfold ref_le in Hx. lia. }
  rewrite IH by done. destruct l; simpl; lia.
Qed.

(** With no entry above [ref] in a sorted list, the scan ends behind the
    last entry if the batch of [ref] occurs, and where it started if
    not. *)
Lemma addFreeSlot_scan_all_le ref : forall l i insertIdx,
  freeListSorted l ->
  Forall (fun e => ref_le e ref) l ->
  (Exists (fun e => ref_batch e = ref_batch ref) l /\
   addFreeSlot_scan ref i insertIdx l = (i + length l)%nat) \/
  (Forall (fun e => (ref_batch e < ref_batch ref)%nat) l /\
   addFreeSlot_scan ref i insertIdx l = insertIdx).
Proof.
  induction l as [|x l IH]; intros i insertIdx Hsorted Hle; [by right|].
  apply StronglySorted_inv in Hsorted as [Hsorted Hx].
  pose proof Hle as Hle0. apply Forall_cons in Hle as [Hxle Hle]. simpl.
  destruct (Nat.ltb_spec (ref_batch ref) (ref_batch x)).
  { unfold ref_le in Hxle. lia. }
  destruct (Nat.ltb_spec (ref_batch x) (ref_batch ref)).
  - destruct (IH (S i) insertIdx Hsorted Hle) as [[Hex Heq]|[Hall Heq]].
    + left. split; [by apply Exists_cons_tl|]. rewrite Heq. lia.
    + right. split; [by constructor|done].
  - destruct (Nat.ltb_spec (ref_slotIndex ref) (ref_slotIndex x)).
    { unfold ref_le in Hxle. lia. }
    left. split; [apply Exists_cons_hd; lia|].
    rewrite addFreeSlot_scan_same_batch; [destruct l; simpl; lia|done|].
    apply Forall_forall. intros e He.
    rewrite Forall_forall in Hx. rewrite Forall_forall in Hle.
    specialize (Hx e He). specialize (Hle e He). unfold ref_le in *. lia.
Qed.

Lemma freeListSorted_app l1 l2 :
  freeListSorted l1 -> freeListSorted l2 ->
  (forall x y, x ∈ l1 -> y ∈ l2 -> ref_le x y) ->
  freeListSorted (l1 ++ l2).
Proof.
  unfold freeListSorted. induction l1 as [|x l1 IH]; intros H1 H2 H12; [done|].
  apply StronglySorted_inv in H1 as [H1 Hx]. simpl. constructor.
  - apply IH; [done|done|]. intros a b Ha Hb. apply H12; [by right|done].
  - apply Forall_app. split; [done|]. apply Forall_forall. intros y Hy.
    apply H12; [by left|done].
Qed.

(** X1. [addFreeSlot] keeps a sorted free list sorted exactly when the
    list is empty or holds an entry whose batch id is at least that of
    the new entry; it puts the new entry in front of a list whose batch
    ids are all smaller. *)
Theorem X1_addFreeSlot_sorted_iff (bp : BucketPool) (ref : SlotRef) :
  freeListSorted (freeSlots bp) ->
  (freeListSorted (freeSlots (addFreeSlot bp ref)) <->
   freeSlots bp = [] \/
   exists e, e ∈ freeSlots bp /\ (ref_batch ref <= ref_batch e)%nat).
Proof.
  intros Hsorted. unfold addFreeSlot.
  change (negb FreeListEnableSorted) with false. cbv iota zeta.
  set (l := freeSlots bp) in *.
  destruct (split_first_above ref l) as [Hall|(pre & e & post & Hl & Hpre & He)].
  - destruct (addFreeSlot_scan_all_le ref l 0 0 Hsorted Hall)
      as [[Hex ->]|[Hlow ->]].
    + rewrite Nat.leb_refl. simpl. split.
      * intros _. right. apply Exists_exists in Hex as (e & He & Hb).
        exists e. split; [done|lia].
      * intros _. apply freeListSorted_app; [done|repeat constructor|].
        intros x y Hx Hy. apply list_elem_of_singleton in Hy as ->.
        rewrite Forall_forall in Hall. by apply Hall.
    + destruct l as [|x l'] eqn:El; simpl.
      * split; [by left|]. intros _. repeat constructor.
      * split.
        -- intros Hs. exfalso. apply StronglySorted_inv in Hs as [_ Hs].
           apply Forall_cons in Hs as [Hs _].
           apply Forall_cons in Hlow as [Hlow _]. unfold ref_le in Hs. lia.
        -- intros [?|(e & He & Hb)]; [done|]. exfalso.
           rewrite Forall_forall in Hlow. specialize (Hlow e He). lia.
  - rewrite Hl, (addFreeSlot_scan_break ref e post pre 0 0 Hpre He).
    rewrite length_app. simpl.
    destruct (Nat.leb_spec (length pre + S (length post)) (length pre)); [lia|].
    simpl. rewrite take_app_length, drop_app_length. split.
    + intros _. right. exists e. split.
      * apply elem_of_app. right. by left.
      * unfold ref_lt in He. lia.
    + intros _. rewrite Hl in Hsorted.
      assert (Hpre_s : freeListSorted pre).
      { clear -Hsorted. unfold freeListSorted in *.
        induction pre as [|x pre IH]; [constructor|].
        simpl in Hsorted. apply StronglySorted_inv in Hsorted as [Hs Hx].
        constructor; [by apply IH|]. apply Forall_app in Hx as [Hx _]. done. }
      assert (Hpost_s : freeListSorted (e :: post)).
      { clear -Hsorted. unfold freeListSorted in *.
        induction pre as [|x pre IH]; [done|].
        simpl in Hsorted. apply StronglySorted_inv in Hsorted as [Hs _].
        by apply IH. }
      apply freeListSorted_app; [done| |].
      * constructor; [done|]. apply Forall_cons. split; [by apply ref_lt_le|].
        apply StronglySorted_inv in Hpost_s as [_ Hp].
        eapply Forall_impl; [exact Hp|]. intros y Hy. simpl in Hy.
        eapply ref_le_trans; [by apply ref_lt_le|done].
      * intros x y Hx Hy. rewrite Forall_forall in Hpre.
        apply elem_of_cons in Hy as [->|Hy]; [by apply Hpre|].
        eapply ref_le_trans; [by apply Hpre|].
        apply elem_of_cons in Hy as [->|Hy]; [by apply ref_lt_le|].
        apply StronglySorted_inv in Hpost_s as [_ Hp].
        rewrite Forall_forall in Hp.
        eapply ref_le_trans; [by apply ref_lt_le|by apply Hp].
Qed.

Lemma X1_addFreeSlot_sorted_iff_witness :
  let bp := mkBucketPool BucketS 1024 256 [0%nat; 1%nat]
              [mkSlotRef 0 3; mkSlotRef 1 2] in
  freeListSorted (freeSlots (addFreeSlot bp (mkSlotRef 1 0))) <->
  freeSlots bp = [] \/
  exists e, e ∈ freeSlots bp /\ (ref_batch (mkSlotRef 1 0) <= ref_batch e)%nat.
Proof.
  intros bp. apply (X1_addFreeSlot_sorted_iff bp (mkSlotRef 1 0)).
  unfold freeListSorted, bp. simpl.
  constructor; [repeat constructor|].
  constructor; [|constructor]. left. simpl. lia.
Defined.

Lemma freeListSorted_filter (P : SlotRef -> Prop) `{!forall r, Decision (P r)}
  (l : list SlotRef) :
  freeListSorted l -> freeListSorted (filter P l).
Proof.
  unfold freeListSorted. induction l as [|x l IH]; intros Hs; [done|].
  apply StronglySorted_inv in Hs as [Hs Hx].
  rewrite filter_cons. destruct (decide (P x)); [|by apply IH].
  constructor; [by apply IH|].
  apply Forall_forall. intros y Hy. apply list_elem_of_filter in Hy as [_ Hy].
  rewrite Forall_forall in Hx. by apply Hx.
Qed.

(** X2. Taking entries out of a sorted free list leaves it sorted:
    [findFreeSlot] pops the head, [removeFromFreeList] drops the entries
    of one (batch, slot) pair and nothing else, and a successful
    [deleteBatch] drops the entries of the batch and nothing else. *)
Theorem X2_free_list_removals_keep_order (mc : MemoryController)
  (p : BucketSize) (k i : nat) (b : Batch) :
  let bp := buckets mc p in
  freeListSorted (freeSlots bp) ->
  heap mc !! k = Some b -> bucketSize b = p -> activeSlots b = [] ->
  freeListSorted (freeSlots (findFreeSlot bp).2) /\
  freeListSorted (freeSlots (removeFromFreeList bp k i)) /\
  (forall r, r ∈ freeSlots (removeFromFreeList bp k i) <->
             r ∈ freeSlots bp /\ r <> mkSlotRef k i) /\
  exists mc',
    deleteBatch mc k = Some (ok, mc') /\
    freeListSorted (freeSlots (buckets mc' p)) /\
    (forall r, r ∈ freeSlots (buckets mc' p) <->
               r ∈ freeSlots bp /\ ref_batch r <> k).
Proof.
  intros bp Hsorted Hb Hp Hempty. split; [|split; [|split]].
  - unfold findFreeSlot. destruct (freeSlots bp) as [|r rest] eqn:E.
    + simpl. rewrite E. constructor.
    + simpl. by apply StronglySorted_inv in Hsorted as [? _].
  - simpl. by apply freeListSorted_filter.
  - intros r. simpl. rewrite list_elem_of_filter.
    split; intros [H1 H2]; split; try done.
    + intros ->. by apply H1.
    + intros [? ?]. apply H2. by destruct r; simpl in *; subst.
  - unfold deleteBatch. rewrite Hb. simpl. rewrite Hempty. simpl.
    eexists. split; [reflexivity|]. simpl. rewrite Hp.
    rewrite decide_True by done. simpl. split.
    + by apply freeListSorted_filter.
    + intros r. rewrite list_elem_of_filter. tauto.
Qed.

Lemma X2_free_list_removals_keep_order_witness :
  let b := mkBatch 0 4096 (replicate 4 (mkSlot false 0 0 0)) [] BucketS 0 4096 in
  let mc :=
    put_bucket (put_batch NewMemoryController 0 b) BucketS
      (mkBucketPool BucketS 1024 256 [0%nat] [mkSlotRef 0 1; mkSlotRef 0 3]) in
  let bp := buckets mc BucketS in
  freeListSorted (freeSlots (findFreeSlot bp).2) /\
  freeListSorted (freeSlots (removeFromFreeList bp 0 3)) /\
  (forall r, r ∈ freeSlots (removeFromFreeList bp 0 3) <->
             r ∈ freeSlots bp /\ r <> mkSlotRef 0 3) /\
  exists mc',
    deleteBatch mc 0 = Some (ok, mc') /\
    freeListSorted (freeSlots (buckets mc' BucketS)) /\
    (forall r, r ∈ freeSlots (buckets mc' BucketS) <->
               r ∈ freeSlots bp /\ ref_batch r <> 0%nat).
Proof.
  intros b mc bp.
  apply (X2_free_list_removals_keep_order mc BucketS 0 3 b); try reflexivity.
  unfold freeListSorted. simpl.
  constructor; [repeat constructor|].
  constructor; [|constructor]. right. simpl. lia.
Defined.

(** ** The classifier *)

(** X3. [selectBucket] picks the lowest class whose slot capacity holds
    the vertex count: the count fits the class it names unless that is
    the unbounded one, no lower fixed class would hold it, and the
    unbounded class is named exactly for counts above the largest fixed
    capacity. *)
Theorem X3_selectBucket_smallest_fit (vertexCount : Z) :
  (selectBucket vertexCount <> BucketXXL ->
   vertexCount <= vertexCapacityForBucket (selectBucket vertexCount)) /\
  (forall q, q <> BucketXXL -> vertexCount <= vertexCapacityForBucket q ->
             BucketSize_int (selectBucket vertexCount) <= BucketSize_int q) /\
  (selectBucket vertexCount = BucketXXL <-> vertexCapacityXL < vertexCount).
Proof.
  unfold selectBucket.
  destruct (Z.leb_spec vertexCount vertexCapacityS);
    [|destruct (Z.leb_spec vertexCount vertexCapacityM);
      [|destruct (Z.leb_spec vertexCount vertexCapacityL);
        [|destruct (Z.leb_spec vertexCount vertexCapacityXL)]]];
    (split; [|split]);
    try (intros q Hq; destruct q); simpl;
    unfold vertexCapacityS, vertexCapacityM, vertexCapacityL, vertexCapacityXL in *;
    try split; try done; try lia.
Qed.

(** ** Growth eligibility, the other way round *)

(** X4. [canGrow] answers true for every batch with fewer growth cycles
    than the maximum, at least one slot, a utilisation of at least the
    growth threshold and a doubled byte size within the ceiling.  The
    byte size is taken to be representable as an [int]. *)
Theorem X4_canGrow_if (b : Batch) :
  in_int (totalVertexCapacity b * 6 * 4 * 2) ->
  growthCycles b < GrowthMaxCycles ->
  (1 <= length (slots b))%nat ->
  (GrowthUtilThreshold <= utilization b)%Q ->
  totalVertexCapacity b * 6 * 4 * 2 <= GrowthMaxBatchBytes ->
  canGrow b = true.
Proof.
  intros Hrange Hcyc Hlen Hutil Hbytes. unfold canGrow.
  change (negb GrowthEnableDynamic) with false. cbv iota.
  destruct (Z.leb_spec GrowthMaxCycles (growthCycles b)); [lia|].
  destruct (Nat.eqb_spec (length (slots b)) 0); [lia|].
  apply Qltb_false in Hutil. cbv zeta. rewrite Hutil.
  apply Z.leb_le. unfold int_mul.
  assert (H2 : in_int (totalVertexCapacity b * 2))
    by (unfold in_int, int_min, int_max in *; lia).
  assert (H12 : in_int (totalVertexCapacity b * 2 * 6))
    by (unfold in_int, int_min, int_max in *; lia).
  assert (H48 : in_int (totalVertexCapacity b * 2 * 6 * 4))
    by (unfold in_int, int_min, int_max in *; lia).
  rewrite (wrap_in_int _ H2), (wrap_in_int _ H12), (wrap_in_int _ H48). lia.
Qed.

Lemma X4_canGrow_if_witness :
  canGrow (mkBatch 0 1024 [mkSlot true 7 10 0] [0%nat] BucketS 0 1024) = true.
Proof.
  apply X4_canGrow_if; simpl.
  - unfold in_int, int_min, int_max. lia.
  - unfold GrowthMaxCycles. lia.
  - lia.
  - unfold GrowthUtilThreshold, utilization. simpl. unfold Qle. simpl. lia.
  - unfold GrowthMaxBatchBytes. lia.
Defined.

(** ** [EnsureSlot] and [RemoveCluster] on a reachable controller *)

Lemma vertexCount_in_int (vertices : list float32) :
  validSlice vertices -> in_int (Z.quot (Z.of_nat (length vertices)) 6).
Proof.
  unfold validSlice, in_int, int_min, int_max. intros Hvalid.
  assert (0 <= Z.quot (Z.of_nat (length vertices)) 6 <= Z.of_nat (length vertices)).
  { split; [apply Z.quot_pos; lia|]. apply Z.quot_le_upper_bound; lia. }
  lia.
Qed.

Lemma EnsureSlot_fresh mc cid vertices :
  length vertices <> 0%nat ->
  Z.rem (Z.of_nat (length vertices)) 6 = 0 ->
  clusterSlots mc !! cid = None ->
  EnsureSlot mc cid vertices
  = EnsureSlot_allocate mc cid (Z.quot (Z.of_nat (length vertices)) 6)
      (selectBucket (Z.quot (Z.of_nat (length vertices)) 6)).
Proof.
  intros Hlen Hrem Hcid. unfold EnsureSlot.
  destruct (Z.of_nat (length vertices) =? 0) eqn:E0; [lia|].
  rewrite Hrem. simpl. by rewrite Hcid.
Qed.

(** X5. On a reachable controller [EnsureSlot] with a payload of one or
    more whole vertices never fails: it returns no error, and afterwards
    the cluster has a record that names an active slot of a listed
    batch, owned by the cluster, holding the vertex count of the payload,
    in a class whose capacity holds that count; a cluster that had no
    record is placed in the class [selectBucket] names. *)
Theorem X5_EnsureSlot_succeeds
  (sortSlice : (nat -> nat -> bool) -> list nat -> list nat)
  (mc : MemoryController) (cid : ClusterID) (vertices : list float32) :
  let vc := Z.quot (Z.of_nat (length vertices)) 6 in
  reachable sortSlice mc -> validSlice vertices ->
  length vertices <> 0%nat ->
  Z.rem (Z.of_nat (length vertices)) 6 = 0 ->
  exists mc' a b s,
    EnsureSlot mc cid vertices = Some (ok, mc') /\
    clusterSlots mc' !! cid = Some a /\
    heap mc' !! alloc_batch a = Some b /\
    alloc_batch a ∈ batches (buckets mc' (bucketSize b)) /\
    slots b !! alloc_slotIndex a = Some s /\
    active s = true /\ clusterID s = cid /\ vertexCount s = vc /\
    (bucketSize b <> BucketXXL -> vc <= vertexCapacityForBucket (bucketSize b)) /\
    (bucketSize b = BucketXXL -> vc <= totalVertexCapacity b) /\
    (clusterSlots mc !! cid = None -> bucketSize b = selectBucket vc).
Proof.
  intros vc Hr Hvalid Hlen Hrem. pose proof (reachable_inv _ _ Hr) as I.
  destruct (EnsureSlot_spec mc cid vertices I Hvalid Hlen Hrem)
    as (mc' & Hrun & I' & (a & b & s & Ha & Hb & Hs & Hvc & Hx & Hnx) & _).
  destruct (Inv_rec _ _ _ _ I' cid a Ha) as (b0 & s0 & Hb0 & Hs0 & Hact & Hown).
  assert (b0 = b) by congruence. subst b0.
  assert (s0 = s) by congruence. subst s0.
  destruct (Inv_owner _ _ _ _ I' _ _ _ _ Hb Hs Hact) as (Hin & _).
  destruct (Inv_heap _ _ _ _ I' _ _ Hb) as (_ & _ & Hcap & _ & _ & Hoff).
  exists mc', a, b, s. repeat (split; [done|]). split; [|split].
  - intros Hbx. specialize (Hnx Hbx).
    by destruct (Inv_static _ _ _ _ I' (bucketSize b)) as (_ & <- & _).
  - intros Hbx. specialize (Hx Hbx). rewrite (Hoff Hbx _ _ Hs) in Hx.
    by rewrite int_sub_0_r in Hx.
  - intros Hfresh.
    rewrite (EnsureSlot_fresh mc cid vertices Hlen Hrem Hfresh) in Hrun.
    destruct (EnsureSlot_allocate_spec mc cid vc (selectBucket vc) I Hfresh
                (vertexCount_in_int vertices Hvalid))
      as (mc2 & Hrun2 & _ & (a2 & b2 & s2 & Hcs2 & Hb2 & Hbs2 & _) & _).
    fold vc in Hrun. assert (mc2 = mc') by congruence. subst mc2.
    rewrite Hcs2, lookup_insert_eq in Ha. injection Ha as <-.
    congruence.
Qed.

Lemma X5_EnsureSlot_succeeds_witness :
  exists mc' a b s,
    EnsureSlot NewMemoryController 1 payload1 = Some (ok, mc') /\
    clusterSlots mc' !! 1 = Some a /\
    heap mc' !! alloc_batch a = Some b /\
    alloc_batch a ∈ batches (buckets mc' (bucketSize b)) /\
    slots b !! alloc_slotIndex a = Some s /\
    active s = true /\ clusterID s = 1 /\
    vertexCount s = Z.quot (Z.of_nat (length payload1)) 6 /\
    (bucketSize b <> BucketXXL ->
     Z.quot (Z.of_nat (length payload1)) 6
     <= vertexCapacityForBucket (bucketSize b)) /\
    (bucketSize b = BucketXXL ->
     Z.quot (Z.of_nat (length payload1)) 6 <= totalVertexCapacity b) /\
    (clusterSlots NewMemoryController !! 1 = None ->
     bucketSize b = selectBucket (Z.quot (Z.of_nat (length payload1)) 6)).
Proof.
  apply (X5_EnsureSlot_succeeds insertionSort NewMemoryController 1 payload1).
  - apply reachable_new.
  - apply validSlice_replicate. unfold int_max. lia.
  - done.
  - reflexivity.
Defined.

(** X6. A cluster whose payload fits the slot it has stays where it is,
    also when [selectBucket] names a lower class for the payload:
    [EnsureSlot] rewrites the vertex count of that slot and nothing
    else.  Pools, free lists, statistics, the re-upload set and the
    records stay as they were, the count the record carries included. *)
Theorem X6_EnsureSlot_in_place
  (sortSlice : (nat -> nat -> bool) -> list nat -> list nat)
  (mc : MemoryController) (cid : ClusterID) (vertices : list float32)
  (a : SlotAllocation) (b : Batch) :
  let vc := Z.quot (Z.of_nat (length vertices)) 6 in
  reachable sortSlice mc ->
  length vertices <> 0%nat ->
  Z.rem (Z.of_nat (length vertices)) 6 = 0 ->
  clusterSlots mc !! cid = Some a ->
  heap mc !! alloc_batch a = Some b ->
  (bucketSize b <> BucketXXL -> vc <= vertexCapacityForBucket (bucketSize b)) ->
  (bucketSize b = BucketXXL -> vc <= totalVertexCapacity b) ->
  exists mc' s,
    EnsureSlot mc cid vertices = Some (ok, mc') /\
    slots b !! alloc_slotIndex a = Some s /\
    heap mc'
    = <[alloc_batch a :=
          set_slots b
            (<[alloc_slotIndex a := mkSlot true cid vc (vertexOffset s)]>
               (slots b))]> (heap mc) /\
    clusterSlots mc' = clusterSlots mc /\
    buckets mc' = buckets mc /\
    stats mc' = stats mc /\
    clustersNeedingReupload mc' = clustersNeedingReupload mc /\
    nextBatchID mc' = nextBatchID mc.
Proof.
  intros vc Hr Hlen Hrem Ha Hb Hnx Hx. pose proof (reachable_inv _ _ Hr) as I.
  destruct (Inv_rec _ _ _ _ I cid a Ha) as (b0 & s & Hb0 & Hs & Hact & Hown).
  assert (b0 = b) by congruence. subst b0.
  destruct (Inv_heap _ _ _ _ I _ _ Hb) as (_ & _ & Hcap & _ & _ & Hoff).
  eexists _, s. split.
  { apply (EnsureSlot_in_place mc cid vertices a b s); try done.
    - intros Hbx. rewrite (Hoff Hbx _ _ Hs), int_sub_0_r by done. by apply Hx.
    - intros Hbx. destruct (Inv_static _ _ _ _ I (bucketSize b)) as (_ & -> & _).
      by apply Hnx. }
  split; [done|]. simpl. by rewrite Hact, Hown.
Qed.

Lemma X6_EnsureSlot_in_place_witness :
  exists mc a b mc' s,
    run NewMemoryController oneCluster = Some mc /\
    clusterSlots mc !! 1 = Some a /\
    heap mc !! alloc_batch a = Some b /\
    EnsureSlot mc 1 payload1 = Some (ok, mc') /\
    slots b !! alloc_slotIndex a = Some s /\
    heap mc'
    = <[alloc_batch a :=
          set_slots b
            (<[alloc_slotIndex a :=
                 mkSlot true 1 (Z.quot (Z.of_nat (length payload1)) 6)
                   (vertexOffset s)]> (slots b))]> (heap mc) /\
    clusterSlots mc' = clusterSlots mc /\
    buckets mc' = buckets mc /\
    stats mc' = stats mc /\
    clustersNeedingReupload mc' = clustersNeedingReupload mc /\
    nextBatchID mc' = nextBatchID mc.
Proof.
  destruct (run_inv oneCluster NewMemoryController inv_NewMemoryController
              oneCluster_valid) as (mc & Hrun & I).
  assert (Hr : reachable insertionSort mc).
  { eapply run_reachable; [apply reachable_new|apply oneCluster_valid|done]. }
  assert (H : (fun m => (fun a => (alloc_batch a, alloc_slotIndex a))
                          <$> clusterSlots m !! 1)
                <$> run NewMemoryController oneCluster
              = Some (Some (0%nat, 0%nat))) by (vm_compute; reflexivity).
  rewrite Hrun in H. simpl in H. injection H as H.
  destruct (clusterSlots mc !! 1) as [a|] eqn:Ha; [|discriminate H].
  simpl in H. injection H as Hk Hi.
  destruct (Inv_rec _ _ _ _ I 1 a Ha) as (b & s0 & Hb & Hs0 & Hact & Hown).
  assert (Hclass : (fun m => (fun b => bucketSize b) <$> heap m !! 0%nat)
                     <$> run NewMemoryController oneCluster
                   = Some (Some BucketS)) by (vm_compute; reflexivity).
  rewrite Hrun in Hclass. simpl in Hclass. injection Hclass as Hclass.
  rewrite <- Hk, Hb in Hclass. simpl in Hclass. injection Hclass as Hclass.
  exists mc, a, b.
  destruct (X6_EnsureSlot_in_place insertionSort mc 1 payload1 a b)
    as (mc' & s & H); try done.
  - rewrite Hclass. intros _. vm_compute. discriminate.
  - rewrite Hclass. done.
  - exists mc', s. done.
Defined.

Lemma swapRemove_length (l : list nat) x :
  NoDup l -> x ∈ l -> S (length (swapRemove l x)) = length l.
Proof.
  intros Hnd Hx. destruct (swapRemove_spec l x Hnd Hx) as [Hnd' Hmem].
  assert (Hperm : l ≡ₚ x :: swapRemove l x).
  { apply NoDup_Permutation; [done| |].
    - apply NoDup_cons. split; [|done]. intros Hc. apply Hmem in Hc as [_ ?]. done.
    - intros j. rewrite elem_of_cons, Hmem.
      destruct (decide (j = x)) as [->|]; [tauto|]. tauto. }
  by apply Permutation_length in Hperm.
Qed.

(** X7. On a reachable controller [RemoveCluster] fails, and changes
    nothing, exactly for a cluster without a record.  For a cluster with
    a record it deletes the record, clears the slot the record names and
    marks it inactive, keeping its offset, takes it off the active list
    of its batch, and puts it on the free list of the pool of the batch;
    no batch is deleted and no other batch is touched. *)
Theorem X7_RemoveCluster_frees_slot
  (sortSlice : (nat -> nat -> bool) -> list nat -> list nat)
  (mc : MemoryController) (cid : ClusterID) :
  reachable sortSlice mc ->
  match clusterSlots mc !! cid with
  | None => RemoveCluster mc cid = Some (failed ErrClusterNotFound, mc)
  | Some a =>
      exists mc' b s b',
        RemoveCluster mc cid = Some (ok, mc') /\
        clusterSlots mc' = delete cid (clusterSlots mc) /\
        heap mc !! alloc_batch a = Some b /\
        slots b !! alloc_slotIndex a = Some s /\
        heap mc' = <[alloc_batch a := b']> (heap mc) /\
        slots b'
        = <[alloc_slotIndex a := mkSlot false 0 0 (vertexOffset s)]> (slots b) /\
        (forall j, j ∈ activeSlots b' <->
                   j ∈ activeSlots b /\ j <> alloc_slotIndex a) /\
        S (length (activeSlots b')) = length (activeSlots b) /\
        slotFree mc' (bucketSize b) (alloc_batch a) (alloc_slotIndex a) /\
        (forall q, batches (buckets mc' q) = batches (buckets mc q)) /\
        clustersNeedingReupload mc' = clustersNeedingReupload mc
  end.
Proof.
  intros Hr. pose proof (reachable_inv _ _ Hr) as I.
  destruct (clusterSlots mc !! cid) as [a|] eqn:Ha;
    [|by apply RemoveCluster_missing].
  destruct (RemoveCluster_spec mc cid a I Ha)
    as (b & mc' & Hrun & _ & Hb & Hh & _ & _ & Hcs & Hre & Hbat & _).
  destruct (Inv_rec _ _ _ _ I cid a Ha) as (b0 & s & Hb0 & Hs & Hact & Hown).
  assert (b0 = b) by congruence. subst b0.
  destruct (Inv_heap _ _ _ _ I _ _ Hb) as (_ & _ & _ & Hnd & Hiff & _).
  assert (Hin : alloc_slotIndex a ∈ activeSlots b) by (apply Hiff; eauto).
  exists mc', b, s, (freeSlot b (alloc_slotIndex a)).
  repeat (split; [done|]).
  assert (Hfs : freeSlot b (alloc_slotIndex a)
                = mkBatch (batch_id b) (totalVertexCapacity b)
                    (<[alloc_slotIndex a := mkSlot false 0 0 (vertexOffset s)]>
                       (slots b))
                    (swapRemove (activeSlots b) (alloc_slotIndex a))
                    (bucketSize b) (growthCycles b) (initialCapacity b)).
  { unfold freeSlot. by rewrite Hs. }
  rewrite Hfs. simpl. split; [done|].
  split; [by apply swapRemove_spec|]. split; [by apply swapRemove_length|].
  split; [|done].
  unfold RemoveCluster in Hrun. rewrite Ha in Hrun. simpl in Hrun.
  rewrite Hb in Hrun. simpl in Hrun. injection Hrun as <-.
  unfold slotFree. simpl. rewrite decide_True by done.
  rewrite addFreeSlot_Permutation. by left.
Qed.

Lemma X7_RemoveCluster_frees_slot_witness :
  exists mc a mc' b s b',
    run NewMemoryController twoSmall = Some mc /\
    clusterSlots mc !! 1 = Some a /\
    RemoveCluster mc 1 = Some (ok, mc') /\
    clusterSlots mc' = delete 1 (clusterSlots mc) /\
    heap mc !! alloc_batch a = Some b /\
    slots b !! alloc_slotIndex a = Some s /\
    heap mc' = <[alloc_batch a := b']> (heap mc) /\
    slots b'
    = <[alloc_slotIndex a := mkSlot false 0 0 (vertexOffset s)]> (slots b) /\
    (forall j, j ∈ activeSlots b' <->
               j ∈ activeSlots b /\ j <> alloc_slotIndex a) /\
    S (length (activeSlots b')) = length (activeSlots b) /\
    slotFree mc' (bucketSize b) (alloc_batch a) (alloc_slotIndex a) /\
    (forall q, batches (buckets mc' q) = batches (buckets mc q)) /\
    clustersNeedingReupload mc' = clustersNeedingReupload mc.
Proof.
  destruct (run_new twoSmall twoSmall_valid) as (mc & Hrun & Hr & I).
  assert (H : (fun m => bool_decide (is_Some (clusterSlots m !! 1)))
                <$> run NewMemoryController twoSmall = Some true)
    by (vm_compute; reflexivity).
  rewrite Hrun in H. simpl in H. injection H as H.
  apply bool_decide_eq_true in H as [a Ha].
  pose proof (X7_RemoveCluster_frees_slot insertionSort mc 1 Hr) as H.
  rewrite Ha in H. destruct H as (mc' & b & s & b' & H).
  exists mc, a, mc', b, s, b'.
  split; [exact Hrun|]. split; [exact Ha|]. exact H.
Defined.

(** ** The integrity check *)

Lemma batchExists_true h id : forall bs k b,
  (forall k', k' ∈ bs -> is_Some (h !! k')) ->
  k ∈ bs -> h !! k = Some b -> batch_id b = id ->
  ValidateClusterIntegrity_batchExists h id bs = Some true.
Proof.
  induction bs as [|k0 bs IH]; intros k b Hall Hk Hb Hid.
  - by apply elem_of_nil in Hk.
  - simpl. destruct (Hall k0) as [b0 Hb0]; [by left|]. rewrite Hb0. simpl.
    destruct (decide (batch_id b0 = id)); [done|].
    apply elem_of_cons in Hk as [->|Hk]; [congruence|].
    apply (IH k b); [|done|done|done]. intros k' Hk'. apply Hall. by right.
Qed.

Lemma batchExists_Some_true h id : forall bs,
  ValidateClusterIntegrity_batchExists h id bs = Some true ->
  exists k b, k ∈ bs /\ h !! k = Some b /\ batch_id b = id.
Proof.
  induction bs as [|k0 bs IH]; intros H; simpl in H; [done|].
  destruct (h !! k0) as [b0|] eqn:Hb0; [|done]. simpl in H.
  destruct (decide (batch_id b0 = id)).
  - exists k0, b0. split; [by left|done].
  - destruct (IH H) as (k & b & Hk & Hb & Hid). exists k, b.
    split; [by right|done].
Qed.

Lemma mapM_all_nil {A B} (f : A -> option (list B)) (l : list A) :
  (forall x, x ∈ l -> f x = Some []) -> mjoin <$> mapM f l = Some [].
Proof.
  induction l as [|x l IH]; intros H; [done|].
  simpl. rewrite (H x) by (by left). simpl.
  assert (IH' : mjoin <$> mapM f l = Some []).
  { apply IH. intros y Hy. apply H. by right. }
  destruct (mapM f l) as [r|]; [|done]. simpl in *. by injection IH' as ->.
Qed.

Lemma mapM_join_nil {A B} (f : A -> option (list B)) (l : list A) :
  mjoin <$> mapM f l = Some [] -> forall x, x ∈ l -> f x = Some [].
Proof.
  induction l as [|x l IH]; intros H y Hy; [by apply elem_of_nil in Hy|].
  simpl in H. destruct (f x) as [e|] eqn:Hx; [|done]. simpl in H.
  destruct (mapM f l) as [r|] eqn:Hl; [|done]. simpl in H.
  injection H as H. apply app_eq_nil in H as [-> Hr].
  apply elem_of_cons in Hy as [->|Hy]; [done|].
  apply IH; [|done]. simpl. by rewrite Hr.
Qed.

Lemma ValidateClusterIntegrity_nil mc :
  ValidateClusterIntegrity mc = Some None <->
  ValidateClusterIntegrity_errors mc = Some [].
Proof.
  unfold ValidateClusterIntegrity.
  destruct (ValidateClusterIntegrity_errors mc) as [[|e errs]|]; simpl;
    split; intros H; try done.
Qed.

(** X8. On a reachable controller [ValidateClusterIntegrity] finds
    nothing to report: it returns [nil], after any calls of
    [EnsureSlot], [RemoveCluster], [GetAndClearClustersNeedingReupload]
    and [TryCompaction]. *)
Theorem X8_ValidateClusterIntegrity_passes
  (sortSlice : (nat -> nat -> bool) -> list nat -> list nat)
  (mc : MemoryController) :
  reachable sortSlice mc -> ValidateClusterIntegrity mc = Some None.
Proof.
  intros Hr. pose proof (reachable_inv _ _ Hr) as I.
  apply ValidateClusterIntegrity_nil. unfold ValidateClusterIntegrity_errors.
  apply mapM_all_nil. intros [cid a] Hin. simpl.
  apply elem_of_map_to_list in Hin.
  destruct (Inv_rec _ _ _ _ I cid a Hin) as (b & s & Hb & Hs & Hact & Hown).
  destruct (Inv_owner _ _ _ _ I _ _ _ _ Hb Hs Hact) as (Hlisted & _).
  destruct (Inv_heap _ _ _ _ I _ _ Hb) as (_ & Hid & _).
  unfold ValidateClusterIntegrity_cluster. rewrite Hb. simpl.
  rewrite (batchExists_true (heap mc) (batch_id b) _ (alloc_batch a) b); try done.
  2:{ intros k' Hk'. destruct (Inv_batches _ _ _ _ I _ _ Hk') as (b' & -> & _).
      by eexists. }
  simpl. apply lookup_lt_Some in Hs as Hlt.
  destruct (Nat.leb_spec (length (slots b)) (alloc_slotIndex a)); [lia|].
  rewrite Hs. simpl. rewrite Hact. simpl. by rewrite decide_True.
Qed.

Lemma X8_ValidateClusterIntegrity_passes_witness :
  exists mc,
    run NewMemoryController twoSmall = Some mc /\
    size (clusterSlots mc) = 2%nat /\
    ValidateClusterIntegrity mc = Some None.
Proof.
  destruct (run_new twoSmall twoSmall_valid) as (mc & Hrun & Hr & I).
  assert (H : (fun m => size (clusterSlots m))
                <$> run NewMemoryController twoSmall = Some 2%nat)
    by (vm_compute; reflexivity).
  rewrite Hrun in H. simpl in H. injection H as H.
  exists mc. split; [exact Hrun|]. split; [exact H|].
  exact (X8_ValidateClusterIntegrity_passes insertionSort mc Hr).
Defined.

(** X9. [ValidateClusterIntegrity] does not pass a controller it should
    not: when it returns [nil], every record names a batch whose id the
    pool of its class lists, and a slot of that batch that is in range,
    active and owned by the cluster of the record. *)
Theorem X9_ValidateClusterIntegrity_sound (mc : MemoryController)
  (cid : ClusterID) (a : SlotAllocation) :
  ValidateClusterIntegrity mc = Some None ->
  clusterSlots mc !! cid = Some a ->
  exists b s,
    heap mc !! alloc_batch a = Some b /\
    (exists k b', k ∈ batches (buckets mc (bucketSize b)) /\
                  heap mc !! k = Some b' /\ batch_id b' = batch_id b) /\
    slots b !! alloc_slotIndex a = Some s /\
    active s = true /\ clusterID s = cid.
Proof.
  intros Hnil Ha. apply ValidateClusterIntegrity_nil in Hnil.
  unfold ValidateClusterIntegrity_errors in Hnil.
  pose proof (mapM_join_nil _ _ Hnil (cid, a)) as H.
  simpl in H. specialize (H ltac:(by apply elem_of_map_to_list)).
  unfold ValidateClusterIntegrity_cluster in H.
  destruct (heap mc !! alloc_batch a) as [b|] eqn:Hb; [|done]. simpl in H.
  destruct (ValidateClusterIntegrity_batchExists _ _ _) as [[|]|] eqn:Hex;
    [|done|done].
  simpl in H.
  destruct (Nat.leb_spec (length (slots b)) (alloc_slotIndex a)); [done|].
  destruct (slots b !! alloc_slotIndex a) as [s|] eqn:Hs; [|done]. simpl in H.
  destruct (active s) eqn:Hact; [|done]. simpl in H.
  destruct (decide (clusterID s = cid)); [|done].
  exists b, s. split; [done|]. split; [by apply batchExists_Some_true|done].
Qed.

Lemma X9_ValidateClusterIntegrity_sound_witness :
  let b := mkBatch 0 1024 [mkSlot true 7 10 0] [0%nat] BucketXXL 0 1024 in
  let mc :=
    mkMemoryController {[0%nat := b]}
      (fun p => if decide (p = BucketXXL)
                then mkBucketPool BucketXXL 0 1 [0%nat] []
                else newBucketPool p)
      {[7 := mkSlotAllocation 0 0 10]} (mkStats 0 0 0 0) ∅ 1 in
  exists b s,
    heap mc !! alloc_batch (mkSlotAllocation 0 0 10) = Some b /\
    (exists k b', k ∈ batches (buckets mc (bucketSize b)) /\
                  heap mc !! k = Some b' /\ batch_id b' = batch_id b) /\
    slots b !! alloc_slotIndex (mkSlotAllocation 0 0 10) = Some s /\
    active s = true /\ clusterID s = 7.
Proof.
  intros b mc.
  apply (X9_ValidateClusterIntegrity_sound mc 7 (mkSlotAllocation 0 0 10)).
  - vm_compute. reflexivity.
  - vm_compute. reflexivity.
Defined.

(** ** Statistics *)

Lemma wrap_add_l a b : wrap (wrap a + b) = wrap (a + b).
Proof.
  unfold wrap. f_equal.
  replace ((a + 2 ^ 63) mod 2 ^ 64 - 2 ^ 63 + b + 2 ^ 63)
    with ((a + 2 ^ 63) mod 2 ^ 64 + b) by lia.
  rewrite Zplus_mod_idemp_l. f_equal. lia.
Qed.

Lemma wrap_add_r a b : wrap (a + wrap b) = wrap (a + b).
Proof. by rewrite Z.add_comm, wrap_add_l, Z.add_comm. Qed.

Lemma int_add_wrap a b : int_add (wrap a) b = wrap (a + b).
Proof. unfold int_add. apply wrap_add_l. Qed.

Lemma wrap_of_nat (n : nat) : Z.of_nat n <= int_max -> wrap (Z.of_nat n) = Z.of_nat n.
Proof.
  intros H. apply wrap_in_int. unfold in_int, int_min, int_max in *. lia.
Qed.

Lemma calculateStats_slots_spec ss : forall idxs v c,
  (forall i, i ∈ idxs -> is_Some (ss !! i)) ->
  exists v',
    calculateStats_slots ss idxs v (wrap c)
    = Some (v', wrap (c + Z.of_nat (length idxs))).
Proof.
  induction idxs as [|i idxs IH]; intros v c Hall; simpl.
  - exists v. by rewrite Z.add_0_r.
  - destruct (Hall i) as [s Hs]; [by left|]. rewrite Hs. simpl.
    rewrite int_add_wrap.
    destruct (IH (int_add v (vertexCount s)) (c + 1)) as (v' & ->).
    { intros j Hj. apply Hall. by right. }
    exists v'. do 3 f_equal. lia.
Qed.

Lemma calculateStats_batches_spec h : forall bs st cc ts acs,
  (forall k, k ∈ bs -> exists b, h !! k = Some b /\
     forall i, i ∈ activeSlots b -> is_Some (slots b !! i)) ->
  PerBucket.ClusterCount st = wrap cc ->
  PerBucket.TotalSlots st = wrap ts ->
  PerBucket.ActiveSlots st = wrap acs ->
  exists st',
    calculateStats_batches h bs st = Some st' /\
    PerBucket.ClusterCount st'
    = wrap (cc + Z.of_nat (sum_list (activeCount h <$> bs))) /\
    PerBucket.ActiveSlots st'
    = wrap (acs + Z.of_nat (sum_list (activeCount h <$> bs))) /\
    PerBucket.TotalSlots st'
    = wrap (ts + Z.of_nat (sum_list (slotCount h <$> bs))) /\
    PerBucket.BatchCount st' = PerBucket.BatchCount st /\
    PerBucket.FreeSlots st' = PerBucket.FreeSlots st.
Proof.
  induction bs as [|k bs IH]; intros st cc ts acs Hall Hcc Hts Hacs.
  - exists st. simpl. rewrite !Z.add_0_r. done.
  - cbn [calculateStats_batches].
    destruct (Hall k) as (b & Hb & Hidx); [by left|]. rewrite Hb. simpl.
    rewrite Hcc.
    destruct (calculateStats_slots_spec (slots b) (activeSlots b)
                (PerBucket.Vertices st) cc Hidx) as (v' & ->).
    simpl. rewrite Hts, Hacs, !int_add_wrap.
    match goal with
    | |- context [calculateStats_batches h bs ?st0] =>
        destruct (IH st0 (cc + Z.of_nat (length (activeSlots b)))
                    (ts + Z.of_nat (length (slots b)))
                    (acs + Z.of_nat (length (activeSlots b))))
          as (st' & -> & H1 & H2 & H3 & H4 & H5); try reflexivity
    end.
    { intros k' Hk'. apply Hall. by right. }
    exists st'. split; [done|]. simpl in *.
    assert (Ha : activeCount h k = length (activeSlots b))
      by (unfold activeCount; by rewrite Hb).
    assert (Hs : slotCount h k = length (slots b))
      by (unfold slotCount; by rewrite Hb).
    rewrite H1, H2, H3, H4, H5, Ha, Hs. unfold fmap.
    repeat split; f_equal; lia.
Qed.

Lemma calculateStats_spec mc p :
  inv mc ->
  exists st,
    calculateStats (heap mc) (buckets mc p) = Some st /\
    PerBucket.ClusterCount st = wrap (Z.of_nat (activeTotal mc p)) /\
    PerBucket.ActiveSlots st = wrap (Z.of_nat (activeTotal mc p)) /\
    PerBucket.TotalSlots st
    = wrap (Z.of_nat (sum_list (slotCount (heap mc) <$> batches (buckets mc p)))) /\
    PerBucket.BatchCount st = Z.of_nat (length (batches (buckets mc p))) /\
    PerBucket.FreeSlots st = Z.of_nat (length (freeSlots (buckets mc p))).
Proof.
  intros I. unfold calculateStats.
  match goal with
  | |- context [calculateStats_batches _ _ ?st0] =>
      destruct (calculateStats_batches_spec (heap mc) (batches (buckets mc p))
                  st0 0 0 0) as (st & Hrun & H); [|reflexivity..|]
  end.
  - intros k Hk. destruct (Inv_batches _ _ _ _ I _ _ Hk) as (b & Hb & _).
    exists b. split; [done|]. intros i Hi.
    destruct (Inv_heap _ _ _ _ I _ _ Hb) as (_ & _ & _ & _ & Hiff & _).
    apply Hiff in Hi as (s & -> & _). by eexists.
  - exists st. split; [exact Hrun|]. simpl in H. exact H.
Qed.

Lemma updateStats_pools_spec mc : forall sizes st ta tsl,
  inv mc -> NoDup sizes ->
  TotalActiveSlots st = wrap ta ->
  TotalSlots st = wrap tsl ->
  exists st',
    updateStats_pools mc sizes st = Some st' /\
    TotalClusters st' = TotalClusters st /\
    TotalActiveSlots st'
    = wrap (ta + Z.of_nat (sum_list (activeTotal mc <$> sizes))) /\
    TotalSlots st'
    = wrap (tsl + Z.of_nat (sum_list
              ((fun p => sum_list (slotCount (heap mc) <$> batches (buckets mc p)))
                 <$> sizes))) /\
    (forall p, p ∈ sizes ->
       calculateStats (heap mc) (buckets mc p) = Some (BucketSizeStats st' p)) /\
    (forall p, p ∉ sizes -> BucketSizeStats st' p = BucketSizeStats st p).
Proof.
  induction sizes as [|p sizes IH]; intros st ta tsl I Hnd Hta Htsl.
  - exists st. simpl. rewrite !Z.add_0_r. repeat split; try done.
    intros p Hp. by apply elem_of_nil in Hp.
  - cbn [updateStats_pools]. apply NoDup_cons in Hnd as [Hp Hnd].
    destruct (calculateStats_spec mc p I) as (bst & Hcalc & _ & Hact & Hslots & _).
    rewrite Hcalc. simpl. rewrite Hact, Hslots, Hta, Htsl, !int_add_wrap, !wrap_add_r.
    match goal with
    | |- context [updateStats_pools mc sizes ?st0] =>
        destruct (IH st0 (ta + Z.of_nat (activeTotal mc p))
                    (tsl + Z.of_nat (sum_list (slotCount (heap mc)
                                           <$> batches (buckets mc p))))
                    I Hnd)
          as (st' & -> & H1 & H2 & H3 & H4 & H5); try reflexivity
    end.
    exists st'. split; [done|]. simpl in *. unfold fmap in *.
    split; [done|]. split; [rewrite H2; f_equal; lia|].
    split; [rewrite H3; f_equal; lia|]. split.
    + intros q Hq. apply elem_of_cons in Hq as [->|Hq]; [|by apply H4].
      rewrite H5 by done. by rewrite decide_True.
    + intros q Hq. apply not_elem_of_cons in Hq as [Hq1 Hq2].
      rewrite H5 by done. by rewrite decide_False.
Qed.

Lemma NoDup_bucketSizes : NoDup bucketSizes.
Proof. unfold bucketSizes. repeat (apply NoDup_cons; split; [set_solver|]). constructor. Qed.

Lemma elem_of_bucketSizes p : p ∈ bucketSizes.
Proof. unfold bucketSizes. destruct p; set_solver. Qed.

(** The batches of all pools, pool after pool. *)
Lemma allBatches_elem mc k :
  k ∈ mjoin ((fun p => batches (buckets mc p)) <$> bucketSizes) <->
  exists p, k ∈ batches (buckets mc p).
Proof.
  rewrite list_elem_of_join. split.
  - intros (l & Hk & Hl). apply list_elem_of_fmap in Hl as (p & -> & _). eauto.
  - intros (p & Hk). exists (batches (buckets mc p)). split; [done|].
    apply list_elem_of_fmap. exists p. split; [done|apply elem_of_bucketSizes].
Qed.

Lemma NoDup_join_fmap {A B} (f : A -> list B) (l : list A) :
  NoDup l -> (forall x, NoDup (f x)) ->
  (forall x y z, z ∈ f x -> z ∈ f y -> x = y) ->
  NoDup (mjoin (f <$> l)).
Proof.
  intros Hnd Hf Hdisj. induction Hnd as [|x l Hx Hnd IH]; [constructor|].
  rewrite fmap_cons. simpl. apply NoDup_app. split; [done|]. split; [|done].
  intros z Hz Hz'. apply list_elem_of_join in Hz' as (l' & Hz' & Hl').
  apply list_elem_of_fmap in Hl' as (y & -> & Hy).
  assert (x = y) by (by eapply Hdisj). by subst.
Qed.

Lemma allBatches_NoDup mc :
  inv mc -> NoDup (mjoin ((fun p => batches (buckets mc p)) <$> bucketSizes)).
Proof.
  intros I. apply NoDup_join_fmap.
  - apply NoDup_bucketSizes.
  - intros p. by eapply Inv_batches_NoDup.
  - intros p q k Hp Hq.
    destruct (Inv_batches _ _ _ _ I _ _ Hp) as (b & Hb & <-).
    destruct (Inv_batches _ _ _ _ I _ _ Hq) as (b' & Hb' & <-). congruence.
Qed.

Lemma sum_list_join (f : nat -> nat) (ls : list (list nat)) :
  sum_list (f <$> mjoin ls) = sum_list ((fun l => sum_list (f <$> l)) <$> ls).
Proof.
  induction ls as [|l ls IH]; [done|].
  simpl. rewrite fmap_app, sum_list_with_app. unfold fmap in *. lia.
Qed.

(** Under the invariant the active slots of all pools are as many as the
    records. *)
Lemma inv_active_total mc :
  inv mc ->
  sum_list (activeTotal mc <$> bucketSizes) = size (clusterSlots mc).
Proof.
  intros I.
  assert (Hsum : sum_list (activeTotal mc <$> bucketSizes)
                 = length (activePairs (heap mc)
                     (mjoin ((fun p => batches (buckets mc p)) <$> bucketSizes)))).
  { rewrite activePairs_length, sum_list_join. by rewrite <- list_fmap_compose. }
  rewrite Hsum, <- length_map_to_list.
  rewrite <- (length_fmap (fun kv : Z * SlotAllocation =>
                             (alloc_batch kv.2, alloc_slotIndex kv.2))
                (map_to_list (clusterSlots mc))).
  apply Permutation_length, NoDup_Permutation.
  - apply activePairs_NoDup; [by apply allBatches_NoDup|].
    intros k b Hb. by destruct (Inv_heap _ _ _ _ I k b Hb) as (_ & _ & _ & ? & _).
  - apply NoDup_fmap_2_strong; [|apply NoDup_map_to_list].
    intros [c1 a1] [c2 a2] H1 H2 Heq. simpl in Heq. injection Heq as Hk Hi.
    apply elem_of_map_to_list in H1, H2.
    destruct (Inv_rec _ _ _ _ I c1 a1 H1) as (b1 & s1 & Hb1 & Hs1 & _ & Hc1).
    destruct (Inv_rec _ _ _ _ I c2 a2 H2) as (b2 & s2 & Hb2 & Hs2 & _ & Hc2).
    rewrite Hk in Hb1. rewrite Hi in Hs1.
    assert (b1 = b2) by congruence. subst b2.
    assert (s1 = s2) by congruence. subst s2.
    assert (c1 = c2) by congruence.
    assert (a1 = a2) by congruence. congruence.
  - intros [k i]. rewrite activePairs_elem, list_elem_of_fmap, allBatches_elem. split.
    + intros (Hk & b & Hb & Hi).
      destruct (Inv_heap _ _ _ _ I k b Hb) as (_ & _ & _ & _ & Hiff & _).
      apply Hiff in Hi as (s & Hs & Ha).
      destruct (Inv_owner _ _ _ _ I k b i s Hb Hs Ha) as (_ & a & Hcid & Hak & Hai).
      exists (clusterID s, a). simpl. split; [by rewrite Hak, Hai|].
      by apply elem_of_map_to_list.
    + intros ([c a] & [= -> ->] & Hin). simpl.
      apply elem_of_map_to_list in Hin.
      destruct (Inv_rec _ _ _ _ I c a Hin) as (b & s & Hb & Hs & Ha & _).
      destruct (Inv_owner _ _ _ _ I _ _ _ _ Hb Hs Ha) as (Hlisted & _).
      split; [eauto|]. exists b. split; [done|].
      destruct (Inv_heap _ _ _ _ I _ b Hb) as (_ & _ & _ & _ & Hiff & _).
      apply Hiff. eauto.
Qed.

Lemma sum_list_elem_le (f : BucketSize -> nat) p :
  (f p <= sum_list (f <$> bucketSizes))%nat.
Proof. destruct p; simpl; lia. Qed.

(** X10. On a reachable controller whose records number less than 2^63,
    [updateStats] runs to its end and the statistics are consistent: the
    active slots it adds up over all pools are as many as the clusters,
    and, for every class, the cluster count and the active-slot count of
    the class are both the number of records pointing into its pool. *)
Theorem X10_updateStats_active_is_clusters
  (sortSlice : (nat -> nat -> bool) -> list nat -> list nat)
  (mc : MemoryController) (old : BucketSize -> PerBucket.BucketSizeStats) :
  reachable sortSlice mc ->
  Z.of_nat (size (clusterSlots mc)) <= int_max ->
  exists st,
    updateStats mc old = Some st /\
    TotalClusters st = Z.of_nat (size (clusterSlots mc)) /\
    TotalActiveSlots st = TotalClusters st /\
    forall p,
      PerBucket.ClusterCount (BucketSizeStats st p)
      = Z.of_nat (liveEntries mc p) /\
      PerBucket.ActiveSlots (BucketSizeStats st p)
      = Z.of_nat (liveEntries mc p).
Proof.
  intros Hr Hsize. pose proof (reachable_inv _ _ Hr) as I.
  unfold updateStats.
  match goal with
  | |- context [updateStats_pools mc bucketSizes ?st0] =>
      destruct (updateStats_pools_spec mc bucketSizes st0 0 0 I NoDup_bucketSizes)
        as (st & -> & Htc & Hta & _ & Hper & _); try reflexivity
  end.
  eexists. split; [reflexivity|].
  cbn [TotalClusters TotalActiveSlots BucketSizeStats]. cbn [TotalClusters] in Htc.
  rewrite Htc, Hta, Z.add_0_l. split; [done|]. split.
  { rewrite inv_active_total by done. by apply wrap_of_nat. }
  intros p. specialize (Hper p (elem_of_bucketSizes p)).
  destruct (calculateStats_spec mc p I) as (bst & Hcalc & Hcc & Hact & _).
  assert (bst = BucketSizeStats st p) by congruence. subst bst.
  rewrite Hcc, Hact, <- inv_active_records by done.
  assert (Hle : (activeTotal mc p <= size (clusterSlots mc))%nat).
  { rewrite <- inv_active_total by done. apply sum_list_elem_le. }
  rewrite wrap_of_nat by lia. done.
Qed.

Lemma X10_updateStats_active_is_clusters_witness :
  exists mc st,
    run NewMemoryController twoOversized = Some mc /\
    updateStats mc (fun _ => PerBucket.mkBucketSizeStats 0 0 0 0 0 0 0 0)
    = Some st /\
    TotalClusters st = Z.of_nat (size (clusterSlots mc)) /\
    TotalActiveSlots st = TotalClusters st /\
    forall p,
      PerBucket.ClusterCount (BucketSizeStats st p)
      = Z.of_nat (liveEntries mc p) /\
      PerBucket.ActiveSlots (BucketSizeStats st p)
      = Z.of_nat (liveEntries mc p).
Proof.
  destruct (run_inv twoOversized NewMemoryController inv_NewMemoryController
              twoOversized_valid) as (mc & Hrun & I).
  assert (Hsz : (fun m => size (clusterSlots m))
                  <$> run NewMemoryController twoOversized = Some 1%nat)
    by (vm_compute; reflexivity).
  rewrite Hrun in Hsz. simpl in Hsz. injection Hsz as Hsz.
  destruct (X10_updateStats_active_is_clusters insertionSort mc
              (fun _ => PerBucket.mkBucketSizeStats 0 0 0 0 0 0 0 0))
    as (st & H).
  - eapply run_reachable; [apply reachable_new|apply twoOversized_valid|done].
  - rewrite Hsz. unfold int_max. lia.
  - exists mc, st. split; [exact Hrun|exact H].
Defined.

Lemma slotPairs_length h (bs : list nat) :
  length (bs ≫= fun k => (fun i => (k, i)) <$> seq 0 (slotCount h k))
  = sum_list (slotCount h <$> bs).
Proof.
  induction bs as [|k bs IH]; [done|].
  rewrite bind_cons, length_app, IH, length_fmap, length_seq. done.
Qed.

Lemma slotPairs_elem h (bs : list nat) k i :
  (k, i) ∈ (bs ≫= fun k => (fun i => (k, i)) <$> seq 0 (slotCount h k)) <->
  k ∈ bs /\ (i < slotCount h k)%nat.
Proof.
  rewrite list_elem_of_bind. split.
  - intros (k0 & Hin & Hk0). apply list_elem_of_fmap in Hin as (i0 & [= -> ->] & Hi0).
    apply elem_of_seq in Hi0. split; [done|lia].
  - intros [Hk Hi]. exists k. split; [|done]. apply list_elem_of_fmap.
    exists i. split; [done|]. apply elem_of_seq. lia.
Qed.

(** In a pool the entries of the free list and the active slots are
    different slots of the batches of the pool. *)
Lemma inv_free_active_le mc p :
  inv mc ->
  (length (freeSlots (buckets mc p)) + activeTotal mc p
   <= sum_list (slotCount (heap mc) <$> batches (buckets mc p)))%nat.
Proof.
  intros I. unfold activeTotal.
  rewrite <- activePairs_length, <- slotPairs_length.
  rewrite <- (length_fmap (fun r => (ref_batch r, ref_slotIndex r))
                (freeSlots (buckets mc p))), <- length_app.
  apply submseteq_length, NoDup_submseteq.
  - apply NoDup_app. split; [|split].
    + apply NoDup_fmap_2; [|by eapply Inv_free_NoDup].
      intros [k1 i1] [k2 i2] Heq. simpl in Heq. by injection Heq as -> ->.
    + intros [k i] Hfree Hact.
      apply list_elem_of_fmap in Hfree as (r & [= -> ->] & Hr).
      destruct (Inv_free _ _ _ _ I p r Hr) as (_ & b & s & Hb & Hs & Ha).
      apply activePairs_elem in Hact as (_ & b' & Hb' & Hi).
      assert (b' = b) by congruence. subst b'.
      destruct (Inv_heap _ _ _ _ I _ b Hb) as (_ & _ & _ & _ & Hiff & _).
      apply Hiff in Hi as (s' & Hs' & Ha'). congruence.
    + apply activePairs_NoDup; [by eapply Inv_batches_NoDup|].
      intros k b Hb. by destruct (Inv_heap _ _ _ _ I k b Hb) as (_ & _ & _ & ? & _).
  - intros [k i] Hin. apply slotPairs_elem.
    apply elem_of_app in Hin as [Hfree|Hact].
    + apply list_elem_of_fmap in Hfree as (r & [= -> ->] & Hr).
      destruct (Inv_free _ _ _ _ I p r Hr) as (Hk & b & s & Hb & Hs & Ha).
      split; [done|]. unfold slotCount. rewrite Hb. by eapply lookup_lt_Some.
    + apply activePairs_elem in Hact as (Hk & b & Hb & Hi).
      split; [done|]. unfold slotCount. rewrite Hb.
      by eapply (Inv_active_lt _ _ _ _ I).
Qed.

Lemma foldl_int_add_lengths (f : BucketSize -> nat) : forall sizes acc,
  foldl (fun a k => int_add a (Z.of_nat (f k))) (wrap acc) sizes
  = wrap (acc + Z.of_nat (sum_list (f <$> sizes))).
Proof.
  induction sizes as [|p sizes IH]; intros acc.
  - simpl. by rewrite Z.add_0_r.
  - cbn [foldl]. rewrite int_add_wrap, IH, fmap_cons. simpl. f_equal.
    unfold fmap. lia.
Qed.

Lemma sum_list_fmap_le (f g : BucketSize -> nat) (l : list BucketSize) :
  (forall p, f p <= g p)%nat -> (sum_list (f <$> l) <= sum_list (g <$> l))%nat.
Proof.
  intros H. induction l as [|p l IH]; [done|].
  simpl. unfold fmap in IH. specialize (H p). lia.
Qed.

Lemma sum_list_fmap_add (f g : BucketSize -> nat) (l : list BucketSize) :
  sum_list ((fun p => f p + g p)%nat <$> l)
  = (sum_list (f <$> l) + sum_list (g <$> l))%nat.
Proof.
  induction l as [|p l IH]; [done|].
  simpl. unfold fmap in IH. lia.
Qed.

(** X11. On a reachable controller whose listed batches hold less than
    2^63 slots, the statistics of [updateStats] count the slots of the
    listed batches without overflow, and the free-list entries and the
    active slots together are no more than the slots: no slot is counted
    as free and as in use. *)
Theorem X11_updateStats_free_and_active_le_total
  (sortSlice : (nat -> nat -> bool) -> list nat -> list nat)
  (mc : MemoryController) (old : BucketSize -> PerBucket.BucketSizeStats) :
  reachable sortSlice mc ->
  Z.of_nat (slotTotal mc) <= int_max ->
  exists st,
    updateStats mc old = Some st /\
    TotalSlots st = Z.of_nat (slotTotal mc) /\
    0 <= FreeSlots st /\ 0 <= TotalActiveSlots st /\
    FreeSlots st + TotalActiveSlots st <= TotalSlots st.
Proof.
  intros Hr Hsize. pose proof (reachable_inv _ _ Hr) as I.
  unfold updateStats.
  match goal with
  | |- context [updateStats_pools mc bucketSizes ?st0] =>
      destruct (updateStats_pools_spec mc bucketSizes st0 0 0 I NoDup_bucketSizes)
        as (st & -> & _ & Hta & Hts & _); try reflexivity
  end.
  eexists. split; [reflexivity|].
  cbn [TotalSlots TotalActiveSlots FreeSlots].
  assert (Hfold :
    foldl (fun acc k => int_add acc (Z.of_nat (length (freeSlots (buckets mc k)))))
      0 bucketSizes
    = wrap (0 + Z.of_nat (sum_list ((fun k => length (freeSlots (buckets mc k)))
                                      <$> bucketSizes)))).
  { exact (foldl_int_add_lengths (fun k => length (freeSlots (buckets mc k)))
             bucketSizes 0). }
  rewrite Hfold, Hta, Hts, !Z.add_0_l. fold (slotTotal mc).
  assert (Hle : (sum_list ((fun k => length (freeSlots (buckets mc k))) <$> bucketSizes)
                 + sum_list (activeTotal mc <$> bucketSizes) <= slotTotal mc)%nat).
  { rewrite <- sum_list_fmap_add. apply sum_list_fmap_le.
    intros p. by apply inv_free_active_le. }
  rewrite !wrap_of_nat by lia. lia.
Qed.

Lemma X11_updateStats_free_and_active_le_total_witness :
  exists mc st,
    run NewMemoryController twoOversized = Some mc /\
    updateStats mc (fun _ => PerBucket.mkBucketSizeStats 0 0 0 0 0 0 0 0)
    = Some st /\
    TotalSlots st = Z.of_nat (slotTotal mc) /\
    0 <= FreeSlots st /\ 0 <= TotalActiveSlots st /\
    FreeSlots st + TotalActiveSlots st <= TotalSlots st.
Proof.
  destruct (run_inv twoOversized NewMemoryController inv_NewMemoryController
              twoOversized_valid) as (mc & Hrun & I).
  assert (Hsz : slotTotal <$> run NewMemoryController twoOversized = Some 2%nat)
    by (vm_compute; reflexivity).
  rewrite Hrun in Hsz. simpl in Hsz. injection Hsz as Hsz.
  destruct (X11_updateStats_free_and_active_le_total insertionSort mc
              (fun _ => PerBucket.mkBucketSizeStats 0 0 0 0 0 0 0 0))
    as (st & H).
  - eapply run_reachable; [apply reachable_new|apply twoOversized_valid|done].
  - rewrite Hsz. unfold int_max. lia.
  - exists mc, st. split; [exact Hrun|exact H].
Defined.

(** ** The layout of a batch: how each change of a batch keeps it *)

Lemma geo_NewMemoryController : geo NewMemoryController.
Proof. intros k b Hb. simpl in Hb. by rewrite lookup_empty in Hb. Qed.

Lemma geo_put_batch mc k b :
  geo mc -> geoBatch b -> geo (put_batch mc k b).
Proof.
  intros G Hb k' b' Hb'. simpl in Hb'.
  destruct (decide (k' = k)) as [->|Hk].
  - rewrite lookup_insert_eq in Hb'. by injection Hb' as <-.
  - rewrite lookup_insert_ne in Hb' by done. by eapply G.
Qed.

Lemma geo_insert mc mc' k b :
  geo mc -> heap mc' = <[k := b]> (heap mc) -> geoBatch b -> geo mc'.
Proof.
  intros G Hh Hb k' b' Hb'. rewrite Hh in Hb'.
  destruct (decide (k' = k)) as [->|Hk].
  - rewrite lookup_insert_eq in Hb'. by injection Hb' as <-.
  - rewrite lookup_insert_ne in Hb' by done. by eapply G.
Qed.

Lemma geo_same_heap mc mc' : geo mc -> heap mc' = heap mc -> geo mc'.
Proof. intros G Hh k b Hb. rewrite Hh in Hb. by eapply G. Qed.

(** A slot is rewritten: the layout is kept when the new slot has the
    offset of the old one and a vertex count within the bounds. *)
Lemma geoBatch_set_slot b b' i s s' :
  geoBatch b ->
  slots b !! i = Some s ->
  slots b' = <[i := s']> (slots b) ->
  bucketSize b' = bucketSize b ->
  growthCycles b' = growthCycles b ->
  totalVertexCapacity b' = totalVertexCapacity b ->
  initialCapacity b' = initialCapacity b ->
  vertexOffset s' = vertexOffset s ->
  (if active s' then 1 <= vertexCount s'
   else vertexCount s' = 0 /\ clusterID s' = 0) ->
  (active s' = true -> bucketSize b <> BucketXXL ->
   vertexCount s' <= vertexCapacityForBucket (bucketSize b)) ->
  (active s' = true -> bucketSize b = BucketXXL ->
   vertexCount s' <= totalVertexCapacity b) ->
  geoBatch b'.
Proof.
  intros [Hz G] Hs Hss Hbs Hgc Htot Hinit Hoff Hz' Hcap Hcapx.
  assert (Hlook : forall j t, slots b' !! j = Some t ->
            (j = i /\ t = s') \/ (j <> i /\ slots b !! j = Some t)).
  { intros j t Ht. rewrite Hss in Ht.
    apply list_lookup_insert_Some in Ht as [(-> & -> & _)|[? ?]]; auto. }
  unfold geoBatch. rewrite Hbs, Hgc, Htot, Hinit, Hss, length_insert.
  rewrite <- Hss. split.
  - intros j t Ht. destruct (Hlook j t Ht) as [[-> ->]|[_ Ht']]; [done|].
    by eapply Hz.
  - destruct (decide (bucketSize b = BucketXXL)) as [Hx|Hx].
    + destruct G as (Hlen & Hg0 & Hi0 & Hle). repeat (split; [done|]).
      intros j t Ht Ha. destruct (Hlook j t Ht) as [[-> ->]|[_ Ht']]; [auto|].
      by eapply Hle.
    + cbv zeta in *. destruct G as (Hg & Hlen & Ht & Hi0 & Hsl).
      repeat (split; [done|]).
      intros j t Ht'. destruct (Hlook j t Ht') as [[-> ->]|[_ Ht'']].
      * destruct (Hsl i s Hs) as [Ho _]. split; [congruence|auto].
      * by eapply Hsl.
Qed.

Lemma geoBatch_claimed b i s cid vc :
  geoBatch b -> slots b !! i = Some s ->
  1 <= vc ->
  (bucketSize b <> BucketXXL -> vc <= vertexCapacityForBucket (bucketSize b)) ->
  (bucketSize b = BucketXXL -> vc <= totalVertexCapacity b) ->
  geoBatch (claimed b i s cid vc).
Proof.
  intros G Hs Hvc Hcap Hcapx.
  eapply (geoBatch_set_slot b _ i s (mkSlot true cid vc (vertexOffset s)));
    try done; simpl; auto.
Qed.

Lemma geoBatch_freeSlot b i : geoBatch b -> geoBatch (freeSlot b i).
Proof.
  intros G. unfold freeSlot. destruct (slots b !! i) as [s|] eqn:Hs; [|done].
  eapply (geoBatch_set_slot b _ i s (mkSlot false 0 0 (vertexOffset s)));
    try done; simpl; auto.
Qed.

Lemma geoBatch_inplace b i s vc :
  geoBatch b -> slots b !! i = Some s -> active s = true ->
  1 <= vc ->
  (bucketSize b <> BucketXXL -> vc <= vertexCapacityForBucket (bucketSize b)) ->
  (bucketSize b = BucketXXL -> vc <= totalVertexCapacity b) ->
  geoBatch (set_slots b
              (<[i := mkSlot (active s) (clusterID s) vc (vertexOffset s)]>
                 (slots b))).
Proof.
  intros G Hs Ha Hvc Hcap Hcapx.
  eapply (geoBatch_set_slot b _ i s
            (mkSlot (active s) (clusterID s) vc (vertexOffset s)));
    try done; simpl; rewrite ?Ha; auto.
Qed.

Lemma geoBatch_bounds b :
  geoBatch b -> bucketSize b <> BucketXXL ->
  1024 <= vertexCapacityForBucket (bucketSize b) <= 65536 /\
  (16 <= length (slots b) <= 1024)%nat /\
  (length (slots b) <= 4 * slotsPerBatchForBucket (bucketSize b))%nat.
Proof.
  intros [_ G] Hx. rewrite decide_False in G by done. cbv zeta in G.
  destruct G as (Hg & Hlen & _). unfold GrowthMaxCycles in Hg.
  assert (Hc : growthCycles b = 0 \/ growthCycles b = 1 \/ growthCycles b = 2) by lia.
  rewrite Hlen.
  destruct (bucketSize b); try done;
    destruct Hc as [Hc|[Hc|Hc]]; rewrite Hc; simpl;
    unfold vertexCapacityS, vertexCapacityM, vertexCapacityL, vertexCapacityXL,
      slotsPerBatchS, slotsPerBatchM, slotsPerBatchL, slotsPerBatchXL;
    vm_compute; repeat split; try discriminate; try lia.
Qed.

Lemma in_int_small z : -2 ^ 62 <= z <= 2 ^ 62 -> in_int z.
Proof. unfold in_int, int_min, int_max. lia. Qed.

Lemma int_mul_small a b :
  0 <= a <= 2 ^ 30 -> 0 <= b <= 2 ^ 30 -> int_mul a b = a * b.
Proof.
  intros Ha Hb. unfold int_mul. apply wrap_in_int, in_int_small. nia.
Qed.

Lemma int_add_small a b :
  0 <= a <= 2 ^ 60 -> 0 <= b <= 2 ^ 60 -> int_add a b = a + b.
Proof.
  intros Ha Hb. unfold int_add. apply wrap_in_int, in_int_small. lia.
Qed.

(** The offsets the loop of [growBatch] hands out. *)
Lemma growBatch_loop_offsets k perSlot n : forall i vo ss pool ss' pool',
  growBatch_loop k perSlot n i vo ss pool = (ss', pool') ->
  (i + n <= length ss)%nat ->
  0 <= perSlot <= 2 ^ 30 -> 0 <= vo ->
  vo + Z.of_nat n * perSlot <= 2 ^ 60 ->
  forall j s, (i <= j < i + n)%nat -> ss' !! j = Some s ->
              vertexOffset s = vo + Z.of_nat (j - i) * perSlot.
Proof.
  induction n as [|n IH]; intros i vo ss pool ss' pool' H Hlen Hp Hvo Hmax j s Hj Hs;
    [lia|].
  simpl in H.
  destruct (decide (j = i)) as [->|Hne].
  - apply growBatch_loop_spec in H as (_ & Hlow & _).
    rewrite Hlow in Hs by lia.
    rewrite list_lookup_insert_eq in Hs by lia. injection Hs as <-. simpl.
    replace (i - i)%nat with 0%nat by lia. lia.
  - rewrite (IH (S i) (int_add vo perSlot) _ _ ss' pool' H) with (j := j) (s := s);
      try done.
    + rewrite int_add_small by nia.
      replace (Z.of_nat (j - i)) with (Z.of_nat (j - S i) + 1) by lia. lia.
    + rewrite length_insert. lia.
    + rewrite int_add_small by nia. lia.
    + rewrite int_add_small by nia. lia.
    + lia.
Qed.

Lemma growBatch_geo mc k b affected mc' :
  inv mc -> geo mc ->
  heap mc !! k = Some b -> bucketSize b <> BucketXXL ->
  growBatch mc k = Some (affected, ok, mc') ->
  geo mc'.
Proof.
  intros I G Hb Hx Hrun.
  apply growBatch_ok in Hrun
    as (b0 & newSlots & pool' & Hb0 & Hcg & _ & Hloop & Hheap & _).
  assert (b0 = b) by congruence. subst b0.
  pose proof (G k b Hb) as Gb.
  destruct (geoBatch_bounds b Gb Hx) as (Hcapb & Hlenb & _).
  destruct (Inv_static _ _ _ _ I (bucketSize b)) as (_ & Hcap & _).
  rewrite Hcap in Hloop.
  set (cap := vertexCapacityForBucket (bucketSize b)) in *.
  replace (length (slots b) * 2 - length (slots b))%nat
    with (length (slots b)) in Hloop by lia.
  pose proof (growBatch_loop_spec _ _ _ _ _ _ _ _ _ Hloop)
    as (Hlen & Hlow & Hnew & _).
  rewrite length_app, length_replicate in Hlen.
  assert (Hvo : int_mul cap (Z.of_nat (length (slots b)))
                = cap * Z.of_nat (length (slots b))).
  { apply int_mul_small; lia. }
  rewrite Hvo in Hloop.
  pose proof (growBatch_loop_offsets _ _ _ _ _ _ _ _ _ Hloop) as Hoffs.
  rewrite length_app, length_replicate in Hoffs.
  specialize (Hoffs ltac:(lia) ltac:(lia) ltac:(nia) ltac:(nia)).
  apply canGrow_true_inv in Hcg as (Hcyc & _ & _).
  destruct Gb as [Hz Gb]. rewrite decide_False in Gb by done.
  cbv zeta in Gb. destruct Gb as (Hg & Hl & Ht & Hi0 & Hsl).
  eapply geo_insert; [exact G|exact Hheap|].
  split; simpl.
  - intros j s Hs. destruct (decide (j < length (slots b))%nat) as [Hj|Hj].
    + rewrite Hlow in Hs by done. rewrite lookup_app_l in Hs by done.
      by eapply Hz.
    + destruct (Hnew j s) as (-> & -> & ->); [|done|done].
      apply lookup_lt_Some in Hs. lia.
  - rewrite decide_False by done. cbv zeta. fold cap.
    assert (Hgc : int_add (growthCycles b) 1 = growthCycles b + 1).
    { apply int_add_small; unfold GrowthMaxCycles in *; lia. }
    rewrite Hgc. unfold GrowthMaxCycles in *.
    split; [lia|]. split; [|split; [|split; [done|]]].
    + rewrite Hlen, Hl. replace (Z.to_nat (growthCycles b + 1))
        with (S (Z.to_nat (growthCycles b))) by lia.
      rewrite Nat.pow_succ_r'. lia.
    + rewrite Hlen, Ht. fold cap. unfold int_mul. rewrite wrap_in_int.
      * lia.
      * apply in_int_small. nia.
    + intros j s Hs. destruct (decide (j < length (slots b))%nat) as [Hj|Hj].
      * rewrite Hlow in Hs by done. rewrite lookup_app_l in Hs by done.
        by eapply Hsl.
      * apply lookup_lt_Some in Hs as Hjlt. rewrite Hlen in Hjlt.
        destruct (Hnew j s) as (Ha & _ & _); [lia|done|].
        rewrite (Hoffs j s) by (done || lia). split; [|congruence].
        replace (Z.of_nat (j - length (slots b)))
          with (Z.of_nat j - Z.of_nat (length (slots b))) by lia. lia.
Qed.

Lemma createBatch_geo mc bucket vc :
  inv mc -> geo mc -> geo (createBatch mc bucket vc).2.
Proof.
  intros I G. unfold createBatch. cbv zeta. simpl.
  destruct (Inv_static _ _ _ _ I bucket) as (_ & Hcap & Hspb).
  intros k b Hb. simpl in Hb.
  destruct (decide (k = nextBatchID mc)) as [->|Hk].
  2:{ rewrite lookup_insert_ne in Hb by done. by eapply G. }
  rewrite lookup_insert_eq in Hb. injection Hb as <-.
  rewrite Hcap, Hspb. split; simpl.
  - intros i s Hs. destruct (decide (bucket = BucketXXL)).
    + apply list_lookup_singleton_Some in Hs as [_ <-]. done.
    + apply list_lookup_fmap_Some in Hs as (j & -> & _). done.
  - destruct (decide (bucket = BucketXXL)) as [Hx|Hx].
    + repeat split; try done. intros i s Hs.
      apply list_lookup_singleton_Some in Hs as [_ <-]. done.
    + cbv zeta. unfold GrowthMaxCycles. split; [lia|].
      rewrite length_fmap, length_seq. simpl.
      split; [lia|].
      assert (Hb : 0 <= vertexCapacityForBucket bucket <= 65536 /\
                   (slotsPerBatchForBucket bucket <= 256)%nat).
      { destruct bucket; vm_compute; repeat split; try discriminate; lia. }
      rewrite int_mul_small by lia.
      split; [lia|]. split; [lia|].
      intros i s Hs. apply list_lookup_fmap_Some in Hs as (j & -> & Hj).
      apply lookup_seq in Hj as [-> Hj]. simpl.
      rewrite int_mul_small by lia. done.
Qed.

(** ** What [EnsureSlot] leaves alone *)

Lemma keepsOthers_refl cid mc : keepsOthers cid mc mc.
Proof. split; [done|]. intros k b i s Hb Hs _ _. eauto. Qed.

Lemma keepsOthers_trans cid mc1 mc2 mc3 :
  keepsOthers cid mc1 mc2 -> keepsOthers cid mc2 mc3 -> keepsOthers cid mc1 mc3.
Proof.
  intros [Hc1 Hs1] [Hc2 Hs2]. split.
  - intros c Hc. by rewrite Hc2, Hc1.
  - intros k b i s Hb Hs Ha Hne.
    destruct (Hs1 k b i s Hb Hs Ha Hne) as (b2 & Hb2 & Hbs2 & Hs2').
    destruct (Hs2 k b2 i s Hb2 Hs2' Ha Hne) as (b3 & Hb3 & Hbs3 & Hs3).
    exists b3. split; [done|]. split; [congruence|done].
Qed.

(** One batch is replaced and the slots of the other clusters in it are
    as before. *)
Lemma keepsOthers_insert cid mc mc' k b b' :
  heap mc !! k = Some b ->
  heap mc' = <[k := b']> (heap mc) ->
  bucketSize b' = bucketSize b ->
  (forall c, c <> cid -> clusterSlots mc' !! c = clusterSlots mc !! c) ->
  (forall i s, slots b !! i = Some s -> active s = true -> clusterID s <> cid ->
               slots b' !! i = Some s) ->
  keepsOthers cid mc mc'.
Proof.
  intros Hb Hh Hbs Hcs Hslots. split; [done|].
  intros k0 b0 i s Hb0 Hs Ha Hne. rewrite Hh.
  destruct (decide (k0 = k)) as [->|Hk].
  - rewrite lookup_insert_eq. eexists. split; [done|].
    assert (b0 = b) by congruence. subst b0. split; [done|]. by apply Hslots.
  - rewrite lookup_insert_ne by done. eauto.
Qed.

Lemma keepsOthers_fresh cid mc mc' k b' :
  heap mc !! k = None ->
  heap mc' = <[k := b']> (heap mc) ->
  (forall c, c <> cid -> clusterSlots mc' !! c = clusterSlots mc !! c) ->
  keepsOthers cid mc mc'.
Proof.
  intros Hb Hh Hcs. split; [done|].
  intros k0 b0 i s Hb0 Hs Ha Hne. rewrite Hh.
  destruct (decide (k0 = k)) as [->|Hk]; [congruence|].
  rewrite lookup_insert_ne by done. eauto.
Qed.

Lemma keepsOthers_same cid mc mc' :
  heap mc' = heap mc -> clusterSlots mc' = clusterSlots mc ->
  keepsOthers cid mc mc'.
Proof.
  intros Hh Hcs. split; [by rewrite Hcs|].
  intros k b i s Hb Hs _ _. rewrite Hh. eauto.
Qed.

Lemma framed_refl cid mc : framed cid mc mc.
Proof. split; [done|apply keepsOthers_refl]. Qed.

Lemma framed_trans cid mc1 mc2 mc3 :
  framed cid mc1 mc2 -> framed cid mc2 mc3 -> framed cid mc1 mc3.
Proof.
  intros [G1 K1] [G2 K2]. split; [auto|by eapply keepsOthers_trans].
Qed.

Lemma RemoveCluster_frame mc cid a mc' :
  inv mc ->
  clusterSlots mc !! cid = Some a ->
  RemoveCluster mc cid = Some (ok, mc') ->
  framed cid mc mc'.
Proof.
  intros I Ha Hrun.
  destruct (RemoveCluster_spec mc cid a I Ha)
    as (b & mc2 & Hrun2 & _ & Hb & Hh & _ & Hbs & Hcs & _).
  assert (mc2 = mc') by congruence. subst mc2.
  destruct (Inv_rec _ _ _ _ I cid a Ha) as (b0 & s & Hb0 & Hs & Hact & Hown).
  assert (b0 = b) by congruence. subst b0.
  split.
  - intros G. eapply geo_insert; [exact G|exact Hh|].
    apply geoBatch_freeSlot. by eapply G.
  - eapply keepsOthers_insert; [exact Hb|exact Hh|exact Hbs| |].
    + intros c Hc. by rewrite Hcs, lookup_delete_ne.
    + intros i t Ht Hta Hne. unfold freeSlot. rewrite Hs. simpl.
      rewrite list_lookup_insert_ne; [done|]. intros <-. congruence.
Qed.

Lemma createBatch_frame mc bucket vc cid :
  inv mc -> framed cid mc (createBatch mc bucket vc).2.
Proof.
  intros I. split; [by apply createBatch_geo|].
  eapply (keepsOthers_fresh cid mc _ (nextBatchID mc)); [|reflexivity|done].
  destruct (heap mc !! nextBatchID mc) as [b|] eqn:Hb; [|done].
  destruct (Inv_heap _ _ _ _ I _ _ Hb) as (Hlt & _). lia.
Qed.

Lemma growBatch_frame mc k b affected mc' cid :
  inv mc ->
  heap mc !! k = Some b -> bucketSize b <> BucketXXL ->
  growBatch mc k = Some (affected, ok, mc') ->
  framed cid mc mc'.
Proof.
  intros I Hb Hx Hrun. split; [intros G; by eapply growBatch_geo|].
  apply growBatch_ok in Hrun
    as (b0 & newSlots & pool' & Hb0 & _ & _ & Hloop & Hheap & _ & _ & Hcs & _).
  assert (b0 = b) by congruence. subst b0.
  apply growBatch_loop_spec in Hloop as (_ & Hlow & _).
  eapply keepsOthers_insert; [exact Hb|exact Hheap|done|by rewrite Hcs|].
  intros i s Hs _ _. simpl. apply lookup_lt_Some in Hs as Hlt.
  rewrite Hlow by done. by rewrite lookup_app_l.
Qed.

Lemma EnsureSlot_growLoop_frame bucket cid : forall bs mc res mc',
  inv mc -> bucket <> BucketXXL ->
  (forall k, k ∈ bs -> k ∈ batches (buckets mc bucket)) ->
  EnsureSlot_growLoop mc bs = Some (res, mc') ->
  framed cid mc mc'.
Proof.
  induction bs as [|k bs IH]; intros mc res mc' I Hx Hin Hrun; simpl in Hrun.
  - injection Hrun as <- <-. apply framed_refl.
  - destruct (heap mc !! k) as [b|] eqn:Hb; [|done]. simpl in Hrun.
    assert (Hbs : bucketSize b = bucket).
    { eapply (Inv_batch_pool _ _ _ _ I); [|done]. apply Hin. by left. }
    assert (Hin' : forall k', k' ∈ bs -> k' ∈ batches (buckets mc bucket)).
    { intros k' Hk'. apply Hin. by right. }
    destruct (canGrow b) eqn:Hcg; [|by eapply IH].
    destruct (growBatch mc k) as [[[aff st] mc1]|] eqn:Hgrow; [|done].
    simpl in Hrun. destruct st as [|e].
    + injection Hrun as <- <-.
      destruct (growBatch_frame mc k b aff mc1 cid I Hb) as [G1 K1];
        [congruence|done|].
      split; [done|]. destruct K1 as [Kc Ks]. split; done.
    + apply growBatch_failed in Hgrow as [-> _]. by eapply IH.
Qed.

Lemma EnsureSlot_pickBatch_frame mc bucket vc cid batch mc' :
  inv mc -> in_int vc ->
  EnsureSlot_pickBatch mc bucket vc = Some (batch, mc') ->
  framed cid mc mc'.
Proof.
  intros I Hvc Hrun. unfold EnsureSlot_pickBatch in Hrun.
  destruct (findBatchWithCapacity _ _) as [[k|]|]; simpl in Hrun; [| |done].
  { injection Hrun as <- <-. apply framed_refl. }
  change GrowthEnableDynamic with true in Hrun. cbv iota in Hrun. simpl in Hrun.
  destruct (decide (bucket = BucketXXL)) as [Hx|Hx].
  - rewrite bool_decide_eq_false_2 in Hrun by (by intros ?). simpl in Hrun.
    injection Hrun as <- <-. exact (createBatch_frame mc bucket vc cid I).
  - rewrite bool_decide_eq_true_2 in Hrun by done.
    destruct (EnsureSlot_growLoop_spec bucket (batches (buckets mc bucket)) mc I Hx)
      as (res & mc1 & Hloop & I1 & _); [done|].
    rewrite Hloop in Hrun. simpl in Hrun.
    pose proof (EnsureSlot_growLoop_frame bucket cid _ _ _ _ I Hx
                  ltac:(done) Hloop) as F1.
    destruct res as [k|].
    + by injection Hrun as <- <-.
    + injection Hrun as <- <-.
      eapply framed_trans; [exact F1|]. exact (createBatch_frame mc1 bucket vc cid I1).
Qed.

Lemma EnsureSlot_fitXXL_frame mc bucket vc cid batch batch' mc' :
  inv mc ->
  EnsureSlot_fitXXL mc bucket vc batch = Some (batch', mc') ->
  framed cid mc mc'.
Proof.
  intros I Hrun. unfold EnsureSlot_fitXXL in Hrun.
  destruct (decide (bucket = BucketXXL)) as [Hx|Hx].
  2:{ injection Hrun as <- <-. apply framed_refl. }
  destruct (heap mc !! batch) as [b|]; [|done]. simpl in Hrun.
  destruct (totalVertexCapacity b <? vc).
  - injection Hrun as <- <-. exact (createBatch_frame mc bucket vc cid I).
  - injection Hrun as <- <-. apply framed_refl.
Qed.

Lemma claimed_keeps b i s cid vc j t :
  slots b !! i = Some s -> active s = false ->
  slots b !! j = Some t -> active t = true ->
  slots (claimed b i s cid vc) !! j = Some t.
Proof.
  intros Hs Ha Ht Hta. simpl. rewrite list_lookup_insert_ne; [done|].
  intros <-. congruence.
Qed.

Lemma EnsureSlot_allocate_frame mc cid vc bucket st mc' :
  inv mc ->
  clusterSlots mc !! cid = None ->
  in_int vc -> 1 <= vc ->
  (bucket <> BucketXXL -> vc <= vertexCapacityForBucket bucket) ->
  EnsureSlot_allocate mc cid vc bucket = Some (st, mc') ->
  framed cid mc mc'.
Proof.
  intros I Hfresh Hvc H1 Hcapb Hrun. unfold EnsureSlot_allocate in Hrun.
  cbv zeta in Hrun.
  destruct (EnsureSlot_freeLoop_spec (heap mc) bucket vc
              (freeSlots (buckets mc bucket)) (buckets mc bucket) eq_refl)
    as (res & pool' & Hloop & Hsame & [dropped Hd] & Hfit & Hnone).
  { intros r Hr. destruct (Inv_free _ _ _ _ I bucket r Hr) as (_ & b & s & ? & ? & _).
    eauto. }
  rewrite Hloop in Hrun. simpl in Hrun.
  pose proof (Inv_free_NoDup _ _ _ _ I bucket) as Hnd. rewrite Hd in Hnd.
  apply NoDup_app in Hnd as (_ & _ & Hnd). apply NoDup_app in Hnd as (_ & Hdisj & Hnd').
  assert (Hsub : forall r, r ∈ freeSlots pool' -> r ∈ freeSlots (buckets mc bucket)).
  { intros r Hr. rewrite Hd. apply elem_of_app. right. apply elem_of_app. by right. }
  destruct res as [free|].
  - assert (Hfree : free ∈ freeSlots (buckets mc bucket)).
    { rewrite Hd. apply elem_of_app. right. apply elem_of_app. left. by left. }
    destruct (Inv_free _ _ _ _ I bucket free Hfree) as (Hrb & b & s & Hb & Hs & Ha).
    assert (Hbs : bucketSize b = bucket) by (by eapply (Inv_batch_pool _ _ _ _ I)).
    assert (Hi : (ref_slotIndex free < length (slots b))%nat)
      by (by eapply lookup_lt_Some).
    unfold EnsureSlot_takeFree in Hrun. simpl in Hrun. rewrite Hb in Hrun.
    simpl in Hrun. rewrite Hs in Hrun. simpl in Hrun.
    unfold EnsureSlot_record in Hrun. simpl in Hrun.
    rewrite lookup_insert_eq in Hrun. simpl in Hrun.
    rewrite list_lookup_insert_eq in Hrun by done. simpl in Hrun.
    injection Hrun as <- <-.
    split.
    + intros G.
      eapply (geo_insert mc _ (ref_batch free)); [exact G|reflexivity|].
      apply (geoBatch_claimed b (ref_slotIndex free) s cid vc);
        [by eapply G|done|done|by rewrite Hbs|].
      intros Hx. rewrite Hbs in Hx.
      destruct (Hfit free eq_refl Hx) as (b0 & s0 & Hb0 & Hs0 & Hle).
      assert (b0 = b) by congruence. subst b0.
      assert (s0 = s) by congruence. subst s0.
      destruct (Inv_heap _ _ _ _ I _ _ Hb) as (_ & _ & Hci & _ & _ & Hoff).
      rewrite (Hoff ltac:(congruence) _ _ Hs), int_sub_0_r in Hle; done.
    + eapply (keepsOthers_insert cid mc _ (ref_batch free) b);
        [exact Hb|reflexivity|done| |].
      * intros c Hc. simpl. by rewrite lookup_insert_ne.
      * intros j t Ht Hta _. by apply (claimed_keeps b _ s cid vc j t).
  - set (mc1 := put_bucket mc bucket pool') in *.
    assert (I1 : inv mc1).
    { unfold inv, mc1. simpl. eapply Inv_free_shrink; [exact I| | |].
      - intros q. destruct (decide (q = bucket)) as [->|]; done.
      - intros q. destruct (decide (q = bucket)) as [->|];
          [done|by eapply Inv_free_NoDup].
      - intros q r. destruct (decide (q = bucket)) as [->|]; [apply Hsub|done]. }
    assert (F1 : framed cid mc mc1).
    { split; [intros G; by eapply geo_same_heap|by apply keepsOthers_same]. }
    destruct (EnsureSlot_pickBatch_spec mc1 bucket vc I1 Hvc)
      as (batch & mc3 & bb & Hpick & I3 & Hin3 & Hbb & Hroom & Hcs3 & _).
    rewrite Hpick in Hrun. simpl in Hrun.
    pose proof (EnsureSlot_pickBatch_frame mc1 bucket vc cid batch mc3 I1 Hvc Hpick)
      as F3.
    destruct (EnsureSlot_fitXXL_spec mc3 bucket vc batch bb I3 Hvc Hin3 Hbb Hroom)
      as (batch' & mc4 & bb' & Hfitx & I4 & Hin4 & Hbb' & Hroom' & Hcap & Hcs4 & _).
    rewrite Hfitx in Hrun. simpl in Hrun.
    pose proof (EnsureSlot_fitXXL_frame mc3 bucket vc cid batch batch' mc4 I3 Hfitx)
      as F4.
    assert (Hfresh4 : clusterSlots mc4 !! cid = None) by (by rewrite Hcs4, Hcs3).
    destruct (allocate_record_spec mc4 batch' bucket cid vc bb' I4 Hfresh4 Hbb' Hin4 Hroom')
      as (i & s & mcA & mc2 & Halloc & Hrec & _ & Hs & Ha & Hh' & Hcs' & _).
    rewrite Halloc in Hrun. simpl in Hrun. rewrite Hrec in Hrun.
    injection Hrun as <- <-.
    assert (Hbs : bucketSize bb' = bucket) by (by eapply (Inv_batch_pool _ _ _ _ I4)).
    eapply framed_trans; [exact F1|]. eapply framed_trans; [exact F3|].
    eapply framed_trans; [exact F4|]. split.
    + intros G4. eapply geo_insert; [exact G4|exact Hh'|].
      apply geoBatch_claimed; [by eapply G4|done|done|by rewrite Hbs|].
      intros Hx. apply Hcap. congruence.
    + eapply keepsOthers_insert; [exact Hbb'|exact Hh'|done| |].
      * intros c Hc. by rewrite Hcs', lookup_insert_ne.
      * intros j t Ht Hta _. by apply (claimed_keeps bb' _ s cid vc j t).
Qed.

Lemma vertexCount_pos (vertices : list float32) :
  length vertices <> 0%nat ->
  Z.rem (Z.of_nat (length vertices)) 6 = 0 ->
  1 <= Z.quot (Z.of_nat (length vertices)) 6.
Proof.
  intros Hlen Hrem.
  pose proof (Z.quot_rem' (Z.of_nat (length vertices)) 6) as H.
  rewrite Hrem in H.
  assert (0 <= Z.quot (Z.of_nat (length vertices)) 6) by (apply Z.quot_pos; lia).
  lia.
Qed.

(** [EnsureSlot] keeps the layout of the batches, and leaves the other
    clusters their records and their slots. *)
Lemma EnsureSlot_frame mc cid vertices st mc' :
  inv mc -> validSlice vertices ->
  EnsureSlot mc cid vertices = Some (st, mc') ->
  framed cid mc mc'.
Proof.
  intros I Hvalid Hrun.
  destruct (decide (length vertices = 0%nat)) as [H0|H0].
  { rewrite (EnsureSlot_empty mc cid vertices H0) in Hrun.
    injection Hrun as <- <-. apply framed_refl. }
  destruct (decide (Z.rem (Z.of_nat (length vertices)) 6 = 0)) as [H6|H6].
  2:{ rewrite (EnsureSlot_bad_stride mc cid vertices H0 H6) in Hrun.
      injection Hrun as <- <-. apply framed_refl. }
  set (vc := Z.quot (Z.of_nat (length vertices)) 6) in *.
  pose proof (vertexCount_in_int vertices Hvalid) as Hvc.
  pose proof (vertexCount_pos vertices H0 H6) as Hpos. fold vc in Hvc, Hpos.
  pose proof (selectBucket_fits vc) as Hsel.
  destruct (clusterSlots mc !! cid) as [a|] eqn:Hcid.
  2:{ rewrite (EnsureSlot_fresh mc cid vertices H0 H6 Hcid) in Hrun.
      by eapply EnsureSlot_allocate_frame. }
  destruct (Inv_rec _ _ _ _ I cid a Hcid) as (eb & s & Heb & Hs & Hact & Hown).
  destruct (Inv_heap _ _ _ _ I _ _ Heb) as (_ & _ & Hci & _ & _ & Hoff).
  destruct (Inv_static _ _ _ _ I (bucketSize eb)) as (_ & Hcap & _).
  assert (Hinplace :
    (bucketSize eb = BucketXXL -> vc <= totalVertexCapacity eb) ->
    (bucketSize eb <> BucketXXL -> vc <= vertexCapacityForBucket (bucketSize eb)) ->
    framed cid mc mc').
  { intros Hx Hnx.
    rewrite (EnsureSlot_in_place mc cid vertices a eb s) in Hrun; try done.
    2:{ intros Hbx. rewrite (Hoff Hbx _ _ Hs), int_sub_0_r by done. by apply Hx. }
    2:{ intros Hbx. rewrite Hcap. by apply Hnx. }
    injection Hrun as <- <-. split.
    - intros G. apply geo_put_batch; [done|].
      apply geoBatch_inplace; try done. by eapply G.
    - eapply (keepsOthers_insert cid mc _ (alloc_batch a) eb);
        [exact Heb|reflexivity|done|done|].
      intros j t Ht Hta Hne. simpl. rewrite list_lookup_insert_ne; [done|].
      intros <-. congruence. }
  assert (Hrealloc :
    (bucketSize eb = BucketXXL ->
     int_sub (totalVertexCapacity eb) (vertexOffset s) < vc) ->
    (bucketSize eb <> BucketXXL ->
     vertexCapacityPerSlot (buckets mc (bucketSize eb)) < vc) ->
    framed cid mc mc').
  { intros Hx Hnx.
    rewrite (EnsureSlot_realloc mc cid vertices a eb s) in Hrun by done.
    destruct (RemoveCluster_spec mc cid a I Hcid)
      as (b0 & mc0 & Hrm & I0 & _ & _ & _ & _ & Hcs0 & _).
    rewrite Hrm in Hrun. simpl in Hrun.
    pose proof (RemoveCluster_frame mc cid a mc0 I Hcid Hrm) as F0.
    assert (Hfresh : clusterSlots mc0 !! cid = None)
      by (by rewrite Hcs0, lookup_delete_eq).
    eapply framed_trans; [exact F0|].
    exact (EnsureSlot_allocate_frame mc0 cid vc (selectBucket vc) st mc'
             I0 Hfresh Hvc Hpos Hsel Hrun). }
  destruct (decide (bucketSize eb = BucketXXL)) as [Hbx|Hbx].
  - destruct (Z.le_gt_cases vc (int_sub (totalVertexCapacity eb) (vertexOffset s)))
      as [Hle|Hgt].
    + apply Hinplace; [|done]. intros _.
      by rewrite (Hoff Hbx _ _ Hs), int_sub_0_r in Hle.
    + apply Hrealloc; [done|]. intros ?. done.
  - destruct (Z.le_gt_cases vc (vertexCapacityPerSlot (buckets mc (bucketSize eb))))
      as [Hle|Hgt].
    + apply Hinplace; [done|]. intros _. by rewrite Hcap in Hle.
    + apply Hrealloc; [|done]. intros ?. done.
Qed.

(** ** Compaction, step by step *)

Lemma relocated_refl mc : relocated mc mc.
Proof. split; [apply settled_refl|done]. Qed.

Lemma relocated_trans mc1 mc2 mc3 :
  relocated mc1 mc2 -> relocated mc2 mc3 -> relocated mc1 mc3.
Proof.
  intros (S1 & B1 & D1 & T1 & N1) (S2 & B2 & D2 & T2 & N2).
  split; [by eapply settled_trans|]. split; [intros q; by rewrite B2|].
  split; [intros c; by rewrite D2|]. split; congruence.
Qed.

Lemma copySlotData_find_total ss cid : forall l i,
  (forall idx, idx ∈ l -> is_Some (ss !! idx)) ->
  is_Some (copySlotData_find ss cid i l).
Proof.
  induction l as [|idx l IH]; intros i Hall; simpl; [by eexists|].
  destruct (Hall idx) as [s Hs]; [by left|]. rewrite Hs. simpl.
  destruct (decide (clusterID s = cid)); [by eexists|].
  apply IH. intros idx' Hidx'. apply Hall. by right.
Qed.

Lemma deleteAt_length {A} (l : list A) p x :
  l !! p = Some x -> S (length (deleteAt p l)) = length l.
Proof.
  intros Hp. apply deleteAt_Permutation in Hp. apply Permutation_length in Hp.
  simpl in Hp. lia.
Qed.

(** The data of a cluster after one batch has been replaced. *)
Lemma clusterData_unchanged mc mc' c :
  clusterSlots mc' !! c = clusterSlots mc !! c ->
  (forall a b s,
     clusterSlots mc !! c = Some a -> heap mc !! alloc_batch a = Some b ->
     slots b !! alloc_slotIndex a = Some s ->
     exists b', heap mc' !! alloc_batch a = Some b' /\
                bucketSize b' = bucketSize b /\
                slots b' !! alloc_slotIndex a = Some s) ->
  inv mc ->
  clusterData mc' c = clusterData mc c.
Proof.
  intros Hcs Hslot I. unfold clusterData. rewrite Hcs.
  destruct (clusterSlots mc !! c) as [a|] eqn:Ha; [|done]. simpl.
  destruct (Inv_rec _ _ _ _ I c a Ha) as (b & s & Hb & Hs & _).
  destruct (Hslot a b s eq_refl Hb Hs) as (b' & Hb' & Hbs & Hs').
  rewrite Hb, Hb'. simpl. rewrite Hs, Hs'. simpl. by rewrite Hbs.
Qed.

(** Moving one active slot of [source] into [target], a batch of the
    same pool with a slot to spare. *)
Lemma copySlotData_spec mc source slotIdx target sb s tb :
  inv mc -> geo mc ->
  source <> target ->
  heap mc !! source = Some sb ->
  slots sb !! slotIdx = Some s -> active s = true ->
  heap mc !! target = Some tb ->
  target ∈ batches (buckets mc (bucketSize tb)) ->
  bucketSize tb = bucketSize sb ->
  bucketSize sb <> BucketXXL ->
  (length (activeSlots tb) < length (slots tb))%nat ->
  exists mc' sb',
    copySlotData mc source slotIdx target = Some (ok, mc') /\
    inv mc' /\ geo mc' /\ relocated mc mc' /\
    heap mc' !! source = Some sb' /\
    (forall j, j ∈ activeSlots sb' <-> j ∈ activeSlots sb /\ j <> slotIdx) /\
    S (length (activeSlots sb')) = length (activeSlots sb).
Proof.
  intros I G Hne Hsb Hs Ha Htb Htin Hclass Hx Hroom.
  destruct (Inv_heap _ _ _ _ I target tb Htb) as (_ & _ & Hokt).
  destruct (batchOk_first_inactive tb Hokt Hroom) as (ti & ts & Hfind & Hts & Htsa).
  destruct (Inv_owner _ _ _ _ I source sb slotIdx s Hsb Hs Ha)
    as (Hsin & a & Hcid & Hab & Hai).
  destruct (Inv_heap _ _ _ _ I source sb Hsb) as (_ & _ & _ & Hand & Hiff & _).
  assert (Hidx_in : slotIdx ∈ activeSlots sb) by (apply Hiff; eauto).
  destruct (copySlotData_find_total (slots sb) (clusterID s) (activeSlots sb) 0)
    as [old Hold].
  { intros idx Hidx. apply Hiff in Hidx as (s0 & -> & _). by eexists. }
  assert (Hrun : exists mc', copySlotData mc source slotIdx target = Some (ok, mc') /\
    (exists p, activeSlots sb !! p = Some slotIdx /\
       heap mc' = <[source :=
                      mkBatch (batch_id sb) (totalVertexCapacity sb)
                        (<[slotIdx := mkSlot false 0 0 (vertexOffset s)]> (slots sb))
                        (deleteAt p (activeSlots sb)) (bucketSize sb)
                        (growthCycles sb) (initialCapacity sb)]>
                    (<[target := claimed tb ti ts (clusterID s) (vertexCount s)]>
                       (heap mc))) /\
    clusterSlots mc'
    = <[clusterID s := mkSlotAllocation target ti (vertexCount s)]>
        (clusterSlots mc) /\
    stats mc' = stats mc /\ nextBatchID mc' = nextBatchID mc).
  { unfold copySlotData. rewrite Htb, Hsb. simpl. rewrite Hs. simpl.
    unfold allocateSlotInBatch. rewrite Htb. simpl. rewrite Hfind. simpl.
    rewrite lookup_insert_ne by done. rewrite Hsb. simpl. rewrite Hs. simpl.
    rewrite Hcid. rewrite Hold. simpl.
    pose proof (copySlotData_find_spec _ _ _ _ _ Hold) as Hspec.
    destruct old as [p|].
    2:{ exfalso. by eapply (Hspec slotIdx s). }
    destruct Hspec as (idx & s' & _ & Hp & Hs' & Hc').
    rewrite Nat.sub_0_r in Hp.
    assert (idx = slotIdx).
    { assert (Hin' : idx ∈ activeSlots sb) by (by eapply list_elem_of_lookup_2).
      apply Hiff in Hin' as (s2 & Hs2 & Ha2).
      assert (s2 = s') by congruence. subst s2.
      destruct (Inv_owner _ _ _ _ I source sb idx s' Hsb Hs' Ha2)
        as (_ & a2 & Hcid2 & _ & Hai2).
      rewrite Hc' in Hcid2. congruence. }
    subst idx. eexists. split; [reflexivity|]. simpl.
    split; [|done]. exists p. split; [done|]. done. }
  destruct Hrun as (mc' & Hrun & (p & Hp & Hh') & Hcs' & Hst' & Hnext').
  destruct (copySlotData_inv mc source slotIdx target ok mc' sb s tb I Hne Hsb Hs Ha
              Htb Htin Hrun) as (I' & Hset & Hbat & Hok).
  destruct (Hok eq_refl) as (sb' & Hsb' & Hmem).
  exists mc', sb'. split; [done|]. split; [done|].
  pose proof (G source sb Hsb) as Gs. pose proof (G target tb Htb) as Gt.
  assert (Hvc : 1 <= vertexCount s /\
                vertexCount s <= vertexCapacityForBucket (bucketSize sb)).
  { destruct Gs as [Hz Gs]. rewrite decide_False in Gs by done. cbv zeta in Gs.
    destruct Gs as (_ & _ & _ & _ & Hsl).
    specialize (Hz slotIdx s Hs). rewrite Ha in Hz.
    destruct (Hsl slotIdx s Hs) as [_ Hle]. auto. }
  split.
  { intros k b Hb. rewrite Hh' in Hb.
    destruct (decide (k = source)) as [->|Hks].
    - rewrite lookup_insert_eq in Hb. injection Hb as <-.
      eapply (geoBatch_set_slot sb _ slotIdx s (mkSlot false 0 0 (vertexOffset s)));
        try done; simpl; auto.
    - rewrite lookup_insert_ne in Hb by done.
      destruct (decide (k = target)) as [->|Hkt].
      + rewrite lookup_insert_eq in Hb. injection Hb as <-.
        apply geoBatch_claimed; try done; [lia|rewrite Hclass; lia|].
        intros Hc. congruence.
      + rewrite lookup_insert_ne in Hb by done. by eapply G. }
  split.
  { split; [done|]. split; [done|]. split; [|done].
    intros c. destruct (decide (c = clusterID s)) as [->|Hc].
    - unfold clusterData. rewrite Hcs', lookup_insert_eq, Hcid. simpl.
      rewrite Hh', lookup_insert_ne, lookup_insert_eq by done. simpl.
      apply lookup_lt_Some in Hts as Hlt.
      rewrite list_lookup_insert_eq by done. simpl.
      rewrite Hab, Hsb. simpl. rewrite Hai, Hs. simpl. by rewrite Hclass.
    - apply clusterData_unchanged; [by rewrite Hcs', lookup_insert_ne| |done].
      intros a0 b0 s0 Ha0 Hb0 Hs0. rewrite Hh'.
      destruct (Inv_rec _ _ _ _ I c a0 Ha0) as (b1 & s1 & Hb1 & Hs1 & Hact1 & Hown1).
      assert (b1 = b0) by congruence. subst b1.
      assert (s1 = s0) by congruence. subst s1.
      destruct (decide (alloc_batch a0 = source)) as [Hks|Hks].
      + rewrite Hks, lookup_insert_eq. eexists. split; [done|]. simpl.
        rewrite Hks in Hb0. assert (b0 = sb) by congruence. subst b0.
        split; [done|]. rewrite list_lookup_insert_ne; [done|].
        intros Heq. rewrite <- Heq in Hs0. congruence.
      + rewrite lookup_insert_ne by done.
        destruct (decide (alloc_batch a0 = target)) as [Hkt|Hkt].
        * rewrite Hkt, lookup_insert_eq. eexists. split; [done|]. simpl.
          rewrite Hkt in Hb0. assert (b0 = tb) by congruence. subst b0.
          split; [done|]. rewrite list_lookup_insert_ne; [done|].
          intros Heq. rewrite <- Heq in Hs0. congruence.
        * rewrite lookup_insert_ne by done. eauto. }
  split; [done|]. split; [done|].
  rewrite Hh', lookup_insert_eq in Hsb'. injection Hsb' as <-. simpl.
  by eapply deleteAt_length.
Qed.

Lemma CompactBatch_targets_total h source : forall bs,
  (forall k, k ∈ bs -> is_Some (h !! k)) ->
  exists targets,
    CompactBatch_targets h source bs = Some targets /\
    forall t, t ∈ targets <->
      t ∈ bs /\ t <> source /\
      exists b, h !! t = Some b /\
                (length (activeSlots b) < length (slots b))%nat.
Proof.
  induction bs as [|k bs IH]; intros Hall.
  - exists []. split; [done|]. intros t. split.
    + intros Ht. by apply elem_of_nil in Ht.
    + intros [Ht _]. by apply elem_of_nil in Ht.
  - destruct (Hall k) as [b Hb]; [by left|].
    destruct IH as (rest & Hrest & Hmem).
    { intros k' Hk'. apply Hall. by right. }
    simpl. rewrite Hb. simpl. rewrite Hrest. simpl.
    destruct (decide (k = source)) as [->|Hk].
    + exists rest. split; [done|]. intros t. rewrite Hmem, elem_of_cons.
      split; [tauto|]. intros ([->|?] & ? & ?); [done|tauto].
    + destruct (Nat.ltb_spec (length (activeSlots b)) (length (slots b))).
      * exists (k :: rest). split; [done|]. intros t.
        rewrite !elem_of_cons, Hmem. split.
        -- intros [->|?]; [|tauto]. split; [by left|]. split; [done|]. eauto.
        -- intros ([->|?] & ? & ?); [by left|tauto].
      * exists rest. split; [done|]. intros t. rewrite Hmem, elem_of_cons.
        split; [tauto|]. intros ([->|?] & ? & b' & Hb' & Hlt); [|eauto 10].
        assert (b' = b) by congruence. subst. lia.
Qed.

Lemma settled_class mc mc' k b b' :
  settled mc mc' -> heap mc !! k = Some b -> heap mc' !! k = Some b' ->
  bucketSize b' = bucketSize b.
Proof.
  intros [Hkeep _] Hb Hb'. destruct (Hkeep k b Hb) as (b2 & Hb2 & Hbs). congruence.
Qed.

(** The loop of [CompactBatch] over the slots to move. *)
Lemma CompactBatch_loop_spec source p targets : forall slotsToMove mc moved sb,
  inv mc -> geo mc ->
  heap mc !! source = Some sb -> bucketSize sb = p -> p <> BucketXXL ->
  (forall t, t ∈ targets -> t <> source /\ t ∈ batches (buckets mc p)) ->
  NoDup slotsToMove ->
  (forall idx, idx ∈ slotsToMove -> idx ∈ activeSlots sb) ->
  exists moved' mc' sb',
    CompactBatch_loop mc source targets slotsToMove moved
    = Some (moved', ok, mc') /\
    inv mc' /\ geo mc' /\ relocated mc mc' /\
    heap mc' !! source = Some sb' /\
    (moved <= moved')%nat /\
    (length (activeSlots sb') + (moved' - moved) = length (activeSlots sb))%nat /\
    (moved' = moved -> mc' = mc) /\
    (slotsToMove <> [] ->
     (exists t tb, t ∈ targets /\ heap mc !! t = Some tb /\
                   (length (activeSlots tb) < length (slots tb))%nat) ->
     (moved < moved')%nat).
Proof.
  induction slotsToMove as [|slotIdx rest IH];
    intros mc moved sb I G Hsb Hp Hx Htargets Hnd Hact.
  - exists moved, mc, sb. simpl. split; [done|]. split; [done|]. split; [done|].
    split; [apply relocated_refl|]. split; [done|]. split; [lia|].
    split; [lia|]. split; [done|]. intros ?. done.
  - simpl. rewrite Hsb. simpl.
    destruct (Inv_heap _ _ _ _ I source sb Hsb) as (_ & _ & _ & _ & Hiff & _).
    assert (Hin : slotIdx ∈ activeSlots sb) by (apply Hact; by left).
    apply Hiff in Hin as (s & Hs & Ha). rewrite Hs. simpl.
    destruct (findBatchWithCapacity_loop_spec (heap mc) targets)
      as (found & Hfind & Hsome & Hnone).
    { intros t Ht. destruct (Htargets t Ht) as [_ Hin].
      destruct (Inv_batches _ _ _ _ I _ _ Hin) as (b & -> & _). by eexists. }
    rewrite Hfind. simpl. destruct found as [t|].
    2:{ exists moved, mc, sb. split; [done|]. split; [done|]. split; [done|].
        split; [apply relocated_refl|]. split; [done|]. split; [lia|].
        split; [lia|]. split; [done|].
        intros _ (t & tb & Ht & Htb & Hroom).
        specialize (Hnone eq_refl t tb Ht Htb). lia. }
    destruct (Hsome t eq_refl) as (Ht & tb & Htb & Hroom).
    destruct (Htargets t Ht) as [Hts Htin].
    assert (Hclass : bucketSize tb = p) by (by eapply (Inv_batch_pool _ _ _ _ I)).
    destruct (copySlotData_spec mc source slotIdx t sb s tb I G (not_eq_sym Hts)
                Hsb Hs Ha Htb) as (mc1 & sb1 & Hcopy & I1 & G1 & R1 & Hsb1 & Hmem1 & Hlen1);
      [by rewrite Hclass|congruence|congruence|done|].
    rewrite Hcopy. simpl.
    apply NoDup_cons in Hnd as [Hnotin Hnd].
    destruct R1 as (S1 & B1 & D1 & T1 & N1).
    destruct (IH mc1 (S moved) sb1 I1 G1 Hsb1)
      as (moved' & mc' & sb' & Hloop & I' & G' & R' & Hsb' & Hle & Hlen & _ & _);
      try done.
    + rewrite <- Hp. by eapply settled_class.
    + intros t' Ht'. destruct (Htargets t' Ht'). split; [done|]. by rewrite B1.
    + intros idx Hidx. apply Hmem1. split; [apply Hact; by right|].
      intros ->. done.
    + exists moved', mc', sb'. split; [done|]. split; [done|]. split; [done|].
      split; [by eapply relocated_trans|]. split; [done|]. split; [lia|].
      split; [lia|]. split; [lia|]. intros _ _. lia.
Qed.

Lemma CompactBatch_spec mc source sb :
  inv mc -> geo mc ->
  heap mc !! source = Some sb ->
  bucketSize sb <> BucketXXL ->
  activeSlots sb <> [] ->
  exists deletable moved mc' sb',
    CompactBatch mc source = Some (deletable, moved, ok, mc') /\
    inv mc' /\ geo mc' /\ relocated mc mc' /\
    heap mc' !! source = Some sb' /\
    (deletable = true <-> activeSlots sb' = []) /\
    (moved = 0%nat -> mc' = mc /\ deletable = false).
Proof.
  intros I G Hsb Hx Hne. unfold CompactBatch.
  change (negb DefragEnableCompaction) with false. cbv iota.
  rewrite Hsb. simpl.
  destruct (CompactBatch_targets_total (heap mc) source
              (batches (buckets mc (bucketSize sb))))
    as (targets & Htargets & Hmem).
  { intros k Hk. destruct (Inv_batches _ _ _ _ I _ _ Hk) as (b & -> & _).
    by eexists. }
  rewrite Htargets. simpl.
  destruct targets as [|t0 targets'] eqn:Et.
  { exists false, 0%nat, mc, sb. split; [done|]. split; [done|]. split; [done|].
    split; [apply relocated_refl|]. split; [done|]. split; [|done].
    split; [done|]. intros Hc. done. }
  rewrite <- Et in *.
  destruct (Inv_heap _ _ _ _ I source sb Hsb) as (_ & _ & _ & Hnd & _).
  destruct (CompactBatch_loop_spec source (bucketSize sb) targets (activeSlots sb)
              mc 0 sb I G Hsb eq_refl Hx)
    as (moved & mc' & sb' & Hloop & I' & G' & R' & Hsb' & _ & Hlen & _ & Hfirst);
    [|done|done|].
  { intros t Ht. apply Hmem in Ht as (Hin & Hts & _). done. }
  rewrite Hloop. simpl. rewrite Hsb'. simpl.
  assert (Hpos : (0 < moved)%nat).
  { apply Hfirst; [done|].
    assert (Ht0 : t0 ∈ targets) by (rewrite Et; by left).
    apply Hmem in Ht0 as (_ & _ & tb & Htb & Hroom). exists t0, tb.
    split; [rewrite Et; by left|done]. }
  eexists _, moved, mc', sb'.
  rewrite Et in Hloop |- *. split; [reflexivity|].
  split; [done|]. split; [done|]. split; [done|]. split; [done|]. split.
  - rewrite bool_decide_eq_true. split.
    + intros H0. by destruct (activeSlots sb').
    + intros ->. done.
  - intros ->. lia.
Qed.

Lemma deleteBatch_spec mc k b :
  inv mc -> heap mc !! k = Some b ->
  k ∈ batches (buckets mc (bucketSize b)) ->
  activeSlots b = [] ->
  exists mc',
    deleteBatch mc k = Some (ok, mc') /\
    inv mc' /\
    heap mc' = heap mc /\ clusterSlots mc' = clusterSlots mc /\
    stats mc' = stats mc /\ nextBatchID mc' = nextBatchID mc /\
    clustersNeedingReupload mc' = clustersNeedingReupload mc /\
    (forall q, q <> bucketSize b ->
               batches (buckets mc' q) = batches (buckets mc q)) /\
    (forall j, j ∈ batches (buckets mc' (bucketSize b)) <->
               j ∈ batches (buckets mc (bucketSize b)) /\ j <> k) /\
    S (length (batches (buckets mc' (bucketSize b))))
    = length (batches (buckets mc (bucketSize b))).
Proof.
  intros I Hb Hin Hempty.
  assert (Hrun : exists mc', deleteBatch mc k = Some (ok, mc')).
  { unfold deleteBatch. rewrite Hb. simpl. rewrite Hempty. simpl. by eexists. }
  destruct Hrun as (mc' & Hrun). exists mc'. split; [done|].
  destruct (deleteBatch_inv _ _ _ _ I Hrun) as [I' _]. split; [done|].
  unfold deleteBatch in Hrun. rewrite Hb in Hrun. simpl in Hrun.
  rewrite Hempty in Hrun. simpl in Hrun. injection Hrun as <-. simpl.
  repeat (split; [done|]).
  split; [intros q Hq; by rewrite decide_False|].
  rewrite decide_True by done. simpl.
  pose proof (Inv_batches_NoDup _ _ _ _ I (bucketSize b)) as Hnd.
  destruct (list_find _ _) as [[i x]|] eqn:Hfind.
  - apply list_find_Some in Hfind as (Hi & -> & _).
    pose proof (deleteAt_Permutation _ _ _ Hi) as Hperm.
    destruct (NoDup_remove_spec _ _ k Hnd Hperm) as [_ Hmem].
    split; [done|]. by eapply deleteAt_length.
  - apply list_find_None in Hfind. rewrite Forall_forall in Hfind.
    by destruct (Hfind k Hin).
Qed.

(** ** [TryCompaction] on a controller in order *)

Lemma clusterData_ext mc mc' c :
  heap mc' = heap mc -> clusterSlots mc' = clusterSlots mc ->
  clusterData mc' c = clusterData mc c.
Proof. intros Hh Hcs. unfold clusterData. by rewrite Hh, Hcs. Qed.

(** A batch of the unbounded class that holds a cluster is not sparse. *)
Lemma sparse_not_XXL b :
  geoBatch b -> isCandidate b = true -> activeSlots b <> [] ->
  NoDup (activeSlots b) ->
  (forall i, i ∈ activeSlots b -> (i < length (slots b))%nat) ->
  bucketSize b <> BucketXXL.
Proof.
  intros [_ G] Hc Hne Hnd Hlt Hx. rewrite decide_True in G by done.
  destruct G as (Hlen & _).
  unfold isCandidate in Hc. apply andb_true_iff in Hc as [_ Hc].
  apply Qltb_true in Hc. unfold utilization, DefragThreshold in Hc.
  rewrite Hlen in Hc. unfold Qlt in Hc. simpl in Hc.
  destruct (activeSlots b) as [|i l]; [done|]. simpl in Hc. lia.
Qed.

Section TryCompactionSpec.

Variable sortSlice : (nat -> nat -> bool) -> list nat -> list nat.

(** Once the budget of a call is used up the loop is over. *)
Lemma TryCompaction_loop_done mc candidates compacted :
  TryCompaction_loop mc candidates (S compacted) = Some mc.
Proof. by destruct candidates. Qed.

Lemma compactedOnce_refl mc : compactedOnce mc mc.
Proof.
  split; [apply settled_refl|]. split; [done|]. split; [done|]. split; [done|].
  by left.
Qed.

Lemma TryCompaction_loop_spec : forall candidates mc,
  inv mc -> geo mc ->
  (forall c, c ∈ candidates -> exists p, c ∈ batches (buckets mc p)) ->
  (forall c, c ∈ candidates -> sparseAt (heap mc) c = true) ->
  exists mc',
    TryCompaction_loop mc candidates 0 = Some mc' /\
    inv mc' /\ geo mc' /\ compactedOnce mc mc' /\
    (forall c rest b, candidates = c :: rest -> heap mc !! c = Some b ->
       activeSlots b = [] ->
       S (length (batches (buckets mc' (bucketSize b))))
       = length (batches (buckets mc (bucketSize b)))).
Proof.
  induction candidates as [|c rest IH]; intros mc I G Hlisted Hsparse.
  - exists mc. split; [done|]. split; [done|]. split; [done|].
    split; [apply compactedOnce_refl|]. intros c rest b Hc. done.
  - destruct (Hlisted c) as (p & Hin); [by left|].
    destruct (Inv_batches _ _ _ _ I _ _ Hin) as (b & Hb & Hbs).
    assert (Hrest_l : forall c', c' ∈ rest -> exists p', c' ∈ batches (buckets mc p')).
    { intros c' Hc'. apply Hlisted. by right. }
    assert (Hrest_s : forall c', c' ∈ rest -> sparseAt (heap mc) c' = true).
    { intros c' Hc'. apply Hsparse. by right. }
    cbn [TryCompaction_loop]. change (DefragMaxPerFrame <=? 0)%nat with false.
    cbv iota. rewrite Hb. simpl.
    destruct (Nat.eqb_spec (length (activeSlots b)) 0) as [Hlen|Hlen].
    + assert (Hempty : activeSlots b = []) by (by destruct (activeSlots b)).
      destruct (deleteBatch_spec mc c b I Hb) as
        (mc1 & Hdel & I1 & Hh1 & Hcs1 & Hst1 & Hn1 & Hre1 & Hoth & Hmem & Hlen1);
        [by rewrite Hbs|done|].
      rewrite Hdel. simpl. rewrite TryCompaction_loop_done.
      eexists. split; [reflexivity|]. split; [exact I1|].
      split; [by eapply geo_same_heap|]. split.
      * split; [by apply settled_same_heap|].
        split; [intros c0; by apply clusterData_ext|].
        split; [done|]. split; [simpl; by rewrite Hst1|].
        right. exists (bucketSize b), c. rewrite Hbs. rewrite Hbs in Hmem, Hlen1, Hoth.
        split; [done|]. split; [done|]. split; [done|]. split; [done|].
        split; [|simpl; by rewrite Hst1].
        simpl. unfold activeCount. rewrite Hh1, Hb. by rewrite Hempty.
      * intros c0 rest0 b0 [= <- <-] Hb0 _.
        assert (b0 = b) by congruence. subst b0. exact Hlen1.
    + assert (Hne : activeSlots b <> []).
      { intros Hc. rewrite Hc in Hlen. done. }
      destruct (Inv_heap _ _ _ _ I _ _ Hb) as (_ & _ & _ & Hnd & Hiff & _).
      assert (Hx : bucketSize b <> BucketXXL).
      { apply sparse_not_XXL; [by eapply G| |done|done|].
        - specialize (Hsparse c ltac:(by left)). unfold sparseAt in Hsparse.
          by rewrite Hb in Hsparse.
        - intros i Hi. by eapply (Inv_active_lt _ _ _ _ I). }
      destruct (CompactBatch_spec mc c b I G Hb Hx Hne)
        as (deletable & moved & mc1 & sb' & Hrun & I1 & G1 & R1 & Hsb' & Hdel & Hzero).
      rewrite Hrun. simpl.
      destruct moved as [|m].
      * destruct (Hzero eq_refl) as [-> ->]. simpl.
        destruct (IH mc I G Hrest_l Hrest_s) as (mc' & Hloop & I' & G' & C' & _).
        exists mc'. split; [done|]. split; [done|]. split; [done|].
        split; [done|]. intros c0 rest0 b0 [= <- <-] Hb0 Hempty0.
        assert (b0 = b) by congruence. subst b0. done.
      * simpl. destruct R1 as (S1 & B1 & D1 & T1 & N1).
        set (mc2 := addSlotsRelocated (incCompactionEvents mc1) (S m)).
        assert (I2 : inv mc2) by done.
        assert (G2 : geo mc2) by done.
        destruct deletable.
        -- assert (Hempty : activeSlots sb' = []) by (by apply Hdel).
           assert (Hcls : bucketSize sb' = bucketSize b)
             by (by eapply settled_class).
           destruct (deleteBatch_spec mc2 c sb' I2 Hsb') as
             (mc3 & Hdel3 & I3 & Hh3 & Hcs3 & Hst3 & Hn3 & Hre3 & Hoth & Hmem & Hlen3);
             [simpl; by rewrite B1, Hcls, Hbs|done|].
           rewrite Hdel3. simpl. rewrite TryCompaction_loop_done.
           eexists. split; [reflexivity|]. split; [exact I3|].
           split; [by eapply geo_same_heap|]. split.
           ++ split.
              { eapply settled_trans; [exact S1|]. apply settled_same_heap; done. }
              split.
              { intros c0. rewrite <- D1. by apply clusterData_ext. }
              split; [simpl; by rewrite Hn3|].
              split; [simpl; rewrite Hst3; simpl; by rewrite T1|].
              right. exists (bucketSize b), c. rewrite Hcls in Hoth, Hmem, Hlen3.
              simpl in Hoth, Hmem, Hlen3. rewrite Hbs in *.
              split; [done|].
              split; [intros j; simpl; by rewrite Hmem, B1|].
              split; [simpl; by rewrite Hlen3, B1|].
              split; [intros q Hq; simpl; by rewrite Hoth, B1|].
              split; [|simpl; rewrite Hst3; simpl; by rewrite T1].
              simpl. unfold activeCount. rewrite Hh3. simpl. rewrite Hsb'.
              by rewrite Hempty.
           ++ intros c0 rest0 b0 [= <- <-] Hb0 Hempty0.
              assert (b0 = b) by congruence. subst b0. done.
        -- rewrite TryCompaction_loop_done. exists mc2.
           split; [done|]. split; [done|]. split; [done|]. split.
           ++ split; [done|]. split; [done|]. split; [done|].
              split; [simpl; by rewrite T1|]. left. split; [done|].
              simpl. by rewrite T1.
           ++ intros c0 rest0 b0 [= <- <-] Hb0 Hempty0.
              assert (b0 = b) by congruence. subst b0. done.
Qed.

Hypothesis sortSlice_ok : sortContract sortSlice.

(** The candidates of a scan, as the sort hands them on. *)
Lemma scan_candidates mc :
  inv mc ->
  exists candidates,
    ScanForCompaction sortSlice (heap mc) (fun k => Some (buckets mc k))
    = Some candidates /\
    (forall c, c ∈ candidates <->
       (exists p, c ∈ batches (buckets mc p)) /\ sparseAt (heap mc) c = true) /\
    StronglySorted
      (fun k1 k2 => (utilizationOf (heap mc) k1 <= utilizationOf (heap mc) k2)%Q)
      candidates.
Proof.
  intros I. unfold ScanForCompaction.
  change (negb DefragEnableCompaction) with false. cbv iota.
  rewrite ScanForCompaction_buckets_spec.
  2:{ intros k Hk. apply (allBatches_elem mc) in Hk as (p & Hk).
      destruct (Inv_batches _ _ _ _ I _ _ Hk) as (b & -> & _). by eexists. }
  rewrite app_nil_l. cbn [mbind option_bind].
  set (scanned := mjoin ((fun size => batches (buckets mc size)) <$> bucketSizes)).
  set (cands := filter (fun k => sparseAt (heap mc) k = true) scanned).
  destruct (sortSlice_ok (lessUtilization (heap mc)) cands) as [Hperm Hsorted].
  assert (Hc : forall k, k ∈ cands ->
             exists b, heap mc !! k = Some b /\ length (slots b) <> 0%nat /\
                       (utilization b < DefragThreshold)%Q).
  { intros k Hk. apply list_elem_of_filter in Hk as [Hk _].
    by apply sparseAt_true. }
  eexists. split; [reflexivity|]. split.
  - intros c. rewrite Hperm. unfold cands. rewrite list_elem_of_filter.
    unfold scanned. rewrite (allBatches_elem mc). tauto.
  - eapply StronglySorted_weaken; [|apply Hsorted].
    + intros x y Hx Hy Hless. rewrite Hperm in Hx, Hy.
      destruct (Hc x Hx) as (bx & Hbx & _), (Hc y Hy) as (by' & Hby & _).
      unfold lessUtilization in Hless. unfold utilizationOf.
      rewrite Hbx, Hby in *. by apply Qltb_false.
    + intros x y Hx Hy. unfold lessUtilization.
      destruct (Hc x Hx) as (bx & -> & _), (Hc y Hy) as (by' & -> & _).
      rewrite Qltb_true, Qltb_false. apply Qlt_le_weak.
    + intros x y z Hx Hy Hz. unfold lessUtilization.
      destruct (Hc x Hx) as (bx & -> & _), (Hc y Hy) as (by' & -> & _),
        (Hc z Hz) as (bz & -> & _).
      rewrite !Qltb_false. intros H1 H2. by eapply Qle_trans.
Qed.

Lemma utilization_zero b :
  length (slots b) <> 0%nat -> (utilization b <= 0)%Q -> activeSlots b = [].
Proof.
  unfold utilization, Qle. simpl. intros Hs Hle.
  destruct (activeSlots b) as [|i l]; [done|]. simpl in Hle. lia.
Qed.

Lemma batchTotal_same mc mc' :
  (forall q, batches (buckets mc' q) = batches (buckets mc q)) ->
  batchTotal mc' = batchTotal mc.
Proof. intros H. unfold batchTotal. simpl. by rewrite !H. Qed.

Lemma batchTotal_one_less mc mc' p :
  S (length (batches (buckets mc' p))) = length (batches (buckets mc p)) ->
  (forall q, q <> p -> batches (buckets mc' q) = batches (buckets mc q)) ->
  S (batchTotal mc') = batchTotal mc.
Proof.
  intros Hp Hq. unfold batchTotal. simpl.
  destruct p;
    repeat match goal with
           | |- context [batches (buckets mc' ?q)] =>
               first [ rewrite (Hq q) by discriminate ]
           end; lia.
Qed.

Lemma compactedOnce_batchTotal mc mc' :
  compactedOnce mc mc' ->
  (batchTotal mc' = batchTotal mc /\
   BatchDeletions (stats mc') = BatchDeletions (stats mc)) \/
  (S (batchTotal mc') = batchTotal mc /\
   BatchDeletions (stats mc') = int_add (BatchDeletions (stats mc)) 1).
Proof.
  intros (_ & _ & _ & _ & [[Hsame Hst]|(p & k & _ & _ & Hlen & Hoth & _ & Hst)]).
  - left. split; [by apply batchTotal_same|done].
  - right. split; [by eapply batchTotal_one_less|done].
Qed.

(** [TryCompaction] on a controller in order. *)
Lemma TryCompaction_spec mc :
  inv mc -> geo mc ->
  exists mc',
    TryCompaction sortSlice mc = Some (ok, mc') /\
    inv mc' /\ geo mc' /\ compactedOnce mc mc' /\
    ((forall p k, k ∈ batches (buckets mc p) -> sparseAt (heap mc) k = false) ->
     mc' = mc) /\
    ((exists p k b, k ∈ batches (buckets mc p) /\ heap mc !! k = Some b /\
                    length (slots b) <> 0%nat /\ activeSlots b = []) ->
     S (batchTotal mc') = batchTotal mc).
Proof.
  intros I G. unfold TryCompaction.
  change (negb DefragEnableCompaction) with false. cbv iota.
  destruct (scan_candidates mc I) as (candidates & Hscan & Hmem & Hsorted).
  rewrite Hscan. simpl.
  destruct candidates as [|c rest] eqn:Ec.
  { exists mc. split; [done|]. split; [done|]. split; [done|].
    split; [apply compactedOnce_refl|]. split; [done|].
    intros (p & k & b & Hk & Hb & Hlen & Hempty). exfalso.
    assert (Hin : k ∈ @nil nat); [|by apply elem_of_nil in Hin].
    apply Hmem. split; [eauto|]. apply sparseAt_true. exists b.
    split; [done|]. split; [done|].
    unfold utilization, DefragThreshold, Qlt. rewrite Hempty. simpl. lia. }
  rewrite <- Ec in *.
  destruct (TryCompaction_loop_spec candidates mc I G)
    as (mc' & Hloop & I' & G' & C' & Hfirst).
  { intros c0 Hc0. by apply Hmem in Hc0 as [? _]. }
  { intros c0 Hc0. by apply Hmem in Hc0 as [_ ?]. }
  rewrite Ec in Hloop |- *. rewrite Hloop. simpl.
  exists mc'. split; [done|]. split; [done|]. split; [done|]. split; [done|].
  split.
  - intros Hnone. exfalso.
    assert (Hc : c ∈ candidates) by (rewrite Ec; by left).
    apply Hmem in Hc as [[p Hp] Hs]. by rewrite (Hnone p c Hp) in Hs.
  - intros (p & k & b & Hk & Hb & Hlen & Hempty).
    assert (Hkc : k ∈ candidates).
    { apply Hmem. split; [eauto|]. apply sparseAt_true. exists b.
      split; [done|]. split; [done|].
      unfold utilization, DefragThreshold, Qlt. rewrite Hempty. simpl. lia. }
    assert (Hc : c ∈ candidates) by (rewrite Ec; by left).
    apply Hmem in Hc as [[pc Hpc] Hsc].
    apply sparseAt_true in Hsc as (bc & Hbc & Hlenc & _).
    assert (Hle : (utilizationOf (heap mc) c <= utilizationOf (heap mc) k)%Q).
    { rewrite Ec in Hsorted, Hkc. apply StronglySorted_inv in Hsorted as [_ Hall].
      apply elem_of_cons in Hkc as [->|Hkc]; [apply Qle_refl|].
      rewrite Forall_forall in Hall. by apply Hall. }
    unfold utilizationOf in Hle. rewrite Hbc, Hb in Hle.
    assert (Hk0 : (utilization b <= 0)%Q).
    { unfold utilization, Qle. rewrite Hempty. simpl. lia. }
    assert (Hemptyc : activeSlots bc = []).
    { apply utilization_zero; [done|]. by eapply Qle_trans. }
    specialize (Hfirst c rest bc Ec Hbc Hemptyc).
    destruct (compactedOnce_batchTotal mc mc' C') as [[Hsame _]|[Hless _]];
      [|done].
    exfalso. destruct C' as (_ & _ & _ & _ & [[Hb' _]|(p' & k' & _ & _ & Hl' & Ho' & _)]).
    + rewrite Hb' in Hfirst. lia.
    + apply (batchTotal_one_less mc mc' p') in Hl'; [|done]. lia.
Qed.

End TryCompactionSpec.

(** ** The layout of the batches of a reachable controller *)

Section ReachableLayout.

Variable sortSlice : (nat -> nat -> bool) -> list nat -> list nat.
Hypothesis sortSlice_ok : sortContract sortSlice.

Lemma reachable_geo mc : reachable sortSlice mc -> geo mc.
Proof.
  induction 1 as [|mc cid v st mc' Hr IH Hvalid Hrun|mc cid st mc' Hr IH Hrun
                  |mc Hr IH|mc st mc' Hr IH Hrun];
    try pose proof (reachable_inv sortSlice mc Hr) as I.
  - apply geo_NewMemoryController.
  - by apply (EnsureSlot_frame mc cid v st mc' I Hvalid Hrun).
  - destruct (RemoveCluster_status _ _ _ _ Hrun) as [(_ & -> & _)|(-> & [a Ha])];
      [done|].
    by apply (RemoveCluster_frame mc cid a mc' I Ha Hrun).
  - eapply geo_same_heap; [exact IH|].
    unfold GetAndClearClustersNeedingReupload. by destruct (decide _).
  - destruct (TryCompaction_spec sortSlice sortSlice_ok mc I IH)
      as (mc2 & Hrun2 & _ & G2 & _).
    rewrite Hrun in Hrun2. by injection Hrun2 as _ ->.
Qed.

End ReachableLayout.

Lemma clusterData_record mc c :
  inv mc -> is_Some (clusterData mc c) <-> is_Some (clusterSlots mc !! c).
Proof.
  intros I. unfold clusterData. split.
  - intros [x Hx]. destruct (clusterSlots mc !! c); [eauto|done].
  - intros [a Ha]. rewrite Ha. simpl.
    destruct (Inv_rec _ _ _ _ I c a Ha) as (b & s & Hb & Hs & _).
    rewrite Hb. simpl. rewrite Hs. simpl. eauto.
Qed.

Lemma geoBatch_length b : geoBatch b -> length (slots b) <> 0%nat.
Proof.
  intros G. destruct (decide (bucketSize b = BucketXXL)) as [Hx|Hx].
  - destruct G as [_ G]. rewrite decide_True in G by done.
    destruct G as (-> & _). done.
  - destruct (geoBatch_bounds b G Hx) as (_ & ? & _). lia.
Qed.

(** X12. [EnsureSlot] for one cluster leaves every other cluster where it
    is: the record of the other cluster is the one it had, and its slot,
    in the batch and at the index of the record, holds what it held, in a
    batch of the class it had. *)
Theorem X12_EnsureSlot_leaves_others
  (sortSlice : (nat -> nat -> bool) -> list nat -> list nat)
  (mc : MemoryController) (cid : ClusterID) (vertices : list float32)
  (st : status) (mc' : MemoryController)
  (c : ClusterID) (a : SlotAllocation) (b : Batch) (s : Slot) :
  reachable sortSlice mc -> validSlice vertices ->
  EnsureSlot mc cid vertices = Some (st, mc') ->
  c <> cid ->
  clusterSlots mc !! c = Some a ->
  heap mc !! alloc_batch a = Some b ->
  slots b !! alloc_slotIndex a = Some s ->
  clusterSlots mc' !! c = Some a /\
  exists b', heap mc' !! alloc_batch a = Some b' /\
             bucketSize b' = bucketSize b /\
             slots b' !! alloc_slotIndex a = Some s.
Proof.
  intros Hr Hvalid Hrun Hc Ha Hb Hs.
  pose proof (reachable_inv sortSlice mc Hr) as I.
  destruct (EnsureSlot_frame mc cid vertices st mc' I Hvalid Hrun)
    as [_ [Hrec Hslot]].
  split; [by rewrite Hrec|].
  destruct (Inv_rec _ _ _ _ I c a Ha) as (b0 & s0 & Hb0 & Hs0 & Hact & Hown).
  assert (b0 = b) by congruence. subst b0.
  assert (s0 = s) by congruence. subst s0.
  apply (Hslot _ _ _ _ Hb Hs Hact). congruence.
Qed.

Lemma X12_EnsureSlot_leaves_others_witness :
  exists mc a b s st mc',
    run NewMemoryController oneCluster = Some mc /\
    clusterSlots mc !! 1 = Some a /\
    heap mc !! alloc_batch a = Some b /\
    slots b !! alloc_slotIndex a = Some s /\
    EnsureSlot mc 2 payload1 = Some (st, mc') /\
    clusterSlots mc' !! 1 = Some a /\
    exists b', heap mc' !! alloc_batch a = Some b' /\
               bucketSize b' = bucketSize b /\
               slots b' !! alloc_slotIndex a = Some s.
Proof.
  destruct (run_new oneCluster oneCluster_valid) as (mc & Hrun & Hr & I).
  assert (H : (fun m => bool_decide (is_Some (clusterSlots m !! 1)))
                <$> run NewMemoryController oneCluster = Some true)
    by (vm_compute; reflexivity).
  rewrite Hrun in H. simpl in H. injection H as H.
  apply bool_decide_eq_true in H as [a Ha].
  destruct (Inv_rec _ _ _ _ I 1 a Ha) as (b & s & Hb & Hs & _).
  assert (Hrun2 : exists st mc', EnsureSlot mc 2 payload1 = Some (st, mc')).
  { destruct (EnsureSlot_cases mc 2 payload1 I payload1_valid)
      as [(e & He & _)|(mc' & He & _)]; eauto. }
  destruct Hrun2 as (st & mc' & Hrun2).
  exists mc, a, b, s, st, mc'.
  split; [exact Hrun|]. split; [exact Ha|]. split; [exact Hb|].
  split; [exact Hs|]. split; [exact Hrun2|].
  apply (X12_EnsureSlot_leaves_others insertionSort mc 2 payload1 st mc' 1 a b s
           Hr payload1_valid Hrun2 ltac:(lia) Ha Hb Hs).
Defined.

(** X13. The layout of the batches a reachable controller lists.  A batch
    of a fixed class has grown at most [GrowthMaxCycles] times, holds the
    slots of a new batch of its class doubled once per growth, has room
    for as many vertices as its slots times the per-slot capacity of the
    class, stays within [GrowthMaxBatchBytes] bytes, and its slot [i]
    starts at [i] times the per-slot capacity.  An XXL batch has one
    slot, at offset 0, and has never grown. *)
Theorem X13_batch_layout
  (sortSlice : (nat -> nat -> bool) -> list nat -> list nat)
  (mc : MemoryController) (p : BucketSize) (k : nat) (b : Batch) :
  sortContract sortSlice -> reachable sortSlice mc ->
  k ∈ batches (buckets mc p) -> heap mc !! k = Some b ->
  bucketSize b = p /\
  (p = BucketXXL ->
   length (slots b) = 1%nat /\ growthCycles b = 0 /\
   forall s, slots b !! 0%nat = Some s -> vertexOffset s = 0) /\
  (p <> BucketXXL ->
   0 <= growthCycles b <= GrowthMaxCycles /\
   length (slots b)
   = (slotsPerBatchForBucket p * 2 ^ Z.to_nat (growthCycles b))%nat /\
   totalVertexCapacity b
   = Z.of_nat (length (slots b)) * vertexCapacityForBucket p /\
   totalVertexCapacity b * 6 * 4 <= GrowthMaxBatchBytes /\
   forall i s, slots b !! i = Some s ->
               vertexOffset s = Z.of_nat i * vertexCapacityForBucket p).
Proof.
  intros Hsort Hr Hk Hb.
  pose proof (reachable_inv sortSlice mc Hr) as I.
  pose proof (reachable_geo sortSlice Hsort mc Hr k b Hb) as G.
  assert (Hp : bucketSize b = p) by (by eapply (Inv_batch_pool _ _ _ _ I)).
  split; [done|]. subst p. split.
  - intros Hx. destruct G as [_ G]. rewrite decide_True in G by done.
    destruct G as (Hlen & Hg & _). split; [done|]. split; [done|].
    intros s Hs.
    destruct (Inv_heap _ _ _ _ I _ _ Hb) as (_ & _ & _ & _ & _ & Hoff).
    by apply (Hoff Hx 0%nat).
  - intros Hx. destruct (geoBatch_bounds b G Hx) as (Hcap & _ & Hlen4).
    destruct G as [_ G]. rewrite decide_False in G by done. cbv zeta in G.
    destruct G as (Hg & Hlen & Htot & _ & Hslots).
    split; [done|]. split; [done|]. split; [done|]. split.
    + rewrite Htot. unfold GrowthMaxBatchBytes.
      destruct (bucketSize b); try done; simpl in Hlen4 |- *;
        unfold slotsPerBatchS, slotsPerBatchM, slotsPerBatchL, slotsPerBatchXL in Hlen4;
        unfold vertexCapacityS, vertexCapacityM, vertexCapacityL, vertexCapacityXL;
        lia.
    + intros i s Hs. by apply Hslots.
Qed.

Lemma X13_batch_layout_witness :
  exists mc b,
    run NewMemoryController oneCluster = Some mc /\
    heap mc !! 0%nat = Some b /\
    bucketSize b = BucketS /\
    (BucketS = BucketXXL ->
     length (slots b) = 1%nat /\ growthCycles b = 0 /\
     forall s, slots b !! 0%nat = Some s -> vertexOffset s = 0) /\
    (BucketS <> BucketXXL ->
     0 <= growthCycles b <= GrowthMaxCycles /\
     length (slots b)
     = (slotsPerBatchForBucket BucketS * 2 ^ Z.to_nat (growthCycles b))%nat /\
     totalVertexCapacity b
     = Z.of_nat (length (slots b)) * vertexCapacityForBucket BucketS /\
     totalVertexCapacity b * 6 * 4 <= GrowthMaxBatchBytes /\
     forall i s, slots b !! i = Some s ->
                 vertexOffset s = Z.of_nat i * vertexCapacityForBucket BucketS).
Proof.
  destruct (run_new oneCluster oneCluster_valid) as (mc & Hrun & Hr & I).
  assert (H : (fun m => batches (buckets m BucketS))
                <$> run NewMemoryController oneCluster = Some [0%nat])
    by (vm_compute; reflexivity).
  rewrite Hrun in H. simpl in H. injection H as H.
  assert (Hk : 0%nat ∈ batches (buckets mc BucketS)) by (rewrite H; by left).
  destruct (Inv_batches _ _ _ _ I BucketS 0%nat Hk) as (b & Hb & _).
  exists mc, b. split; [exact Hrun|]. split; [exact Hb|].
  exact (X13_batch_layout insertionSort mc BucketS 0%nat b
           insertionSort_sortContract Hr Hk Hb).
Defined.

(** X14. The vertices of a cluster lie within the buffer of its batch: in
    a reachable controller the slot of every record holds at least one
    vertex, starts at an offset that is not negative, and ends at or
    before the vertex capacity of the batch. *)
Theorem X14_cluster_range_in_buffer
  (sortSlice : (nat -> nat -> bool) -> list nat -> list nat)
  (mc : MemoryController) (c : ClusterID) (a : SlotAllocation)
  (b : Batch) (s : Slot) :
  sortContract sortSlice -> reachable sortSlice mc ->
  clusterSlots mc !! c = Some a ->
  heap mc !! alloc_batch a = Some b ->
  slots b !! alloc_slotIndex a = Some s ->
  0 <= vertexOffset s /\ 1 <= vertexCount s /\
  vertexOffset s + vertexCount s <= totalVertexCapacity b.
Proof.
  intros Hsort Hr Ha Hb Hs.
  pose proof (reachable_inv sortSlice mc Hr) as I.
  pose proof (reachable_geo sortSlice Hsort mc Hr _ b Hb) as G.
  destruct (Inv_rec _ _ _ _ I c a Ha) as (b0 & s0 & Hb0 & Hs0 & Hact & _).
  assert (b0 = b) by congruence. subst b0.
  assert (s0 = s) by congruence. subst s0.
  destruct G as [Hcnt G]. specialize (Hcnt _ _ Hs). rewrite Hact in Hcnt.
  destruct (decide (bucketSize b = BucketXXL)) as [Hx|Hx].
  - destruct G as (_ & _ & _ & Hfit).
    destruct (Inv_heap _ _ _ _ I _ _ Hb) as (_ & _ & _ & _ & _ & Hoff).
    rewrite (Hoff Hx _ _ Hs). specialize (Hfit _ _ Hs Hact). lia.
  - cbv zeta in G. destruct G as (_ & _ & Htot & _ & Hslots).
    destruct (Hslots _ _ Hs) as [Hoff Hle]. specialize (Hle Hact).
    apply lookup_lt_Some in Hs. rewrite Hoff, Htot.
    assert (0 <= vertexCapacityForBucket (bucketSize b))
      by (destruct (bucketSize b); done).
    nia.
Qed.

Lemma X14_cluster_range_in_buffer_witness :
  exists mc a b s,
    run NewMemoryController oneCluster = Some mc /\
    clusterSlots mc !! 1 = Some a /\
    heap mc !! alloc_batch a = Some b /\
    slots b !! alloc_slotIndex a = Some s /\
    0 <= vertexOffset s /\ 1 <= vertexCount s /\
    vertexOffset s + vertexCount s <= totalVertexCapacity b.
Proof.
  destruct (run_new oneCluster oneCluster_valid) as (mc & Hrun & Hr & I).
  assert (H : (fun m => bool_decide (is_Some (clusterSlots m !! 1)))
                <$> run NewMemoryController oneCluster = Some true)
    by (vm_compute; reflexivity).
  rewrite Hrun in H. simpl in H. injection H as H.
  apply bool_decide_eq_true in H as [a Ha].
  destruct (Inv_rec _ _ _ _ I 1 a Ha) as (b & s & Hb & Hs & _).
  exists mc, a, b, s.
  split; [exact Hrun|]. split; [exact Ha|]. split; [exact Hb|].
  split; [exact Hs|].
  exact (X14_cluster_range_in_buffer insertionSort mc 1 a b s
           insertionSort_sortContract Hr Ha Hb Hs).
Defined.

(** X15. Two clusters never share vertices of a buffer: in a reachable
    controller the slots of two different clusters recorded in one batch
    are different slots, and the vertex range of one ends before the
    range of the other starts. *)
Theorem X15_cluster_ranges_disjoint
  (sortSlice : (nat -> nat -> bool) -> list nat -> list nat)
  (mc : MemoryController) (c1 c2 : ClusterID) (a1 a2 : SlotAllocation)
  (b : Batch) (s1 s2 : Slot) :
  sortContract sortSlice -> reachable sortSlice mc ->
  c1 <> c2 ->
  clusterSlots mc !! c1 = Some a1 -> clusterSlots mc !! c2 = Some a2 ->
  alloc_batch a2 = alloc_batch a1 ->
  heap mc !! alloc_batch a1 = Some b ->
  slots b !! alloc_slotIndex a1 = Some s1 ->
  slots b !! alloc_slotIndex a2 = Some s2 ->
  alloc_slotIndex a1 <> alloc_slotIndex a2 /\
  (vertexOffset s1 + vertexCount s1 <= vertexOffset s2 \/
   vertexOffset s2 + vertexCount s2 <= vertexOffset s1).
Proof.
  intros Hsort Hr Hne Ha1 Ha2 Hsame Hb Hs1 Hs2.
  pose proof (reachable_inv sortSlice mc Hr) as I.
  pose proof (reachable_geo sortSlice Hsort mc Hr _ b Hb) as G.
  destruct (Inv_rec _ _ _ _ I c1 a1 Ha1) as (b1 & t1 & Hb1 & Ht1 & Hact1 & Hown1).
  destruct (Inv_rec _ _ _ _ I c2 a2 Ha2) as (b2 & t2 & Hb2 & Ht2 & Hact2 & Hown2).
  rewrite Hsame in Hb2.
  assert (b1 = b) by congruence. subst b1.
  assert (b2 = b) by congruence. subst b2.
  assert (t1 = s1) by congruence. subst t1.
  assert (t2 = s2) by congruence. subst t2.
  assert (Hidx : alloc_slotIndex a1 <> alloc_slotIndex a2).
  { intros Heq. rewrite Heq in Hs1. congruence. }
  split; [done|].
  apply lookup_lt_Some in Hs1 as Hlt1. apply lookup_lt_Some in Hs2 as Hlt2.
  destruct G as [_ G].
  destruct (decide (bucketSize b = BucketXXL)) as [Hx|Hx].
  { destruct G as (Hlen & _). lia. }
  cbv zeta in G. destruct G as (_ & _ & _ & _ & Hslots).
  destruct (Hslots _ _ Hs1) as [Hoff1 Hle1]. specialize (Hle1 Hact1).
  destruct (Hslots _ _ Hs2) as [Hoff2 Hle2]. specialize (Hle2 Hact2).
  rewrite Hoff1, Hoff2.
  assert (0 <= vertexCapacityForBucket (bucketSize b))
    by (destruct (bucketSize b); done).
  destruct (decide (alloc_slotIndex a1 < alloc_slotIndex a2)%nat); [left|right]; nia.
Qed.

Lemma X15_cluster_ranges_disjoint_witness :
  exists mc a1 a2 b s1 s2,
    run NewMemoryController twoSmall = Some mc /\
    clusterSlots mc !! 1 = Some a1 /\ clusterSlots mc !! 2 = Some a2 /\
    alloc_batch a2 = alloc_batch a1 /\
    heap mc !! alloc_batch a1 = Some b /\
    slots b !! alloc_slotIndex a1 = Some s1 /\
    slots b !! alloc_slotIndex a2 = Some s2 /\
    alloc_slotIndex a1 <> alloc_slotIndex a2 /\
    (vertexOffset s1 + vertexCount s1 <= vertexOffset s2 \/
     vertexOffset s2 + vertexCount s2 <= vertexOffset s1).
Proof.
  destruct (run_new twoSmall twoSmall_valid) as (mc & Hrun & Hr & I).
  assert (H : (fun m => (alloc_batch <$> clusterSlots m !! 1,
                         alloc_batch <$> clusterSlots m !! 2))
                <$> run NewMemoryController twoSmall
              = Some (Some 0%nat, Some 0%nat))
    by (vm_compute; reflexivity).
  rewrite Hrun in H. simpl in H. injection H as H1 H2.
  destruct (clusterSlots mc !! 1) as [a1|] eqn:Ha1; [|discriminate H1].
  destruct (clusterSlots mc !! 2) as [a2|] eqn:Ha2; [|discriminate H2].
  simpl in H1, H2. injection H1 as H1. injection H2 as H2.
  assert (Hsame : alloc_batch a2 = alloc_batch a1) by congruence.
  destruct (Inv_rec _ _ _ _ I 1 a1 Ha1) as (b & s1 & Hb & Hs1 & _).
  destruct (Inv_rec _ _ _ _ I 2 a2 Ha2) as (b2 & s2 & Hb2 & Hs2 & _).
  rewrite Hsame in Hb2.
  assert (b2 = b) by congruence. subst b2.
  exists mc, a1, a2, b, s1, s2.
  split; [exact Hrun|]. split; [exact Ha1|]. split; [exact Ha2|].
  split; [exact Hsame|]. split; [exact Hb|]. split; [exact Hs1|].
  split; [exact Hs2|].
  exact (X15_cluster_ranges_disjoint insertionSort mc 1 2 a1 a2 b s1 s2
           insertionSort_sortContract Hr ltac:(lia) Ha1 Ha2 Hsame Hb Hs1 Hs2).
Defined.

(** ** Compaction *)

(** X16. [TryCompaction] is safe for the clusters.  On a reachable
    controller, with a sort that keeps the contract of [sort.Slice], it
    returns [nil] and does not panic; the clusters that have a record are
    the same, each is stored in the class it was stored in with the
    vertex count it had; and the re-upload set, the next batch id and the
    count of growth events are as before. *)
Theorem X16_TryCompaction_keeps_clusters
  (sortSlice : (nat -> nat -> bool) -> list nat -> list nat)
  (mc : MemoryController) :
  sortContract sortSlice -> reachable sortSlice mc ->
  exists mc',
    TryCompaction sortSlice mc = Some (ok, mc') /\
    (forall c, is_Some (clusterSlots mc' !! c) <-> is_Some (clusterSlots mc !! c)) /\
    (forall c, clusterData mc' c = clusterData mc c) /\
    clustersNeedingReupload mc' = clustersNeedingReupload mc /\
    nextBatchID mc' = nextBatchID mc /\
    GrowthEvents (stats mc') = GrowthEvents (stats mc).
Proof.
  intros Hsort Hr.
  pose proof (reachable_inv sortSlice mc Hr) as I.
  pose proof (reachable_geo sortSlice Hsort mc Hr) as G.
  destruct (TryCompaction_spec sortSlice Hsort mc I G)
    as (mc' & Hrun & I' & _ & ([_ Hre] & Hdata & Hnext & Hgrow & _) & _).
  exists mc'. split; [done|]. split; [|done].
  intros c. by rewrite <- !clusterData_record, Hdata.
Qed.

Lemma X16_TryCompaction_keeps_clusters_witness :
  exists mc mc',
    run NewMemoryController sparseSecondBatch = Some mc /\
    alloc_batch <$> clusterSlots mc !! 64 = Some 1%nat /\
    alloc_batch <$> clusterSlots mc' !! 64 = Some 0%nat /\
    SlotsRelocated (stats mc') = 1 /\
    TryCompaction insertionSort mc = Some (ok, mc') /\
    (forall c, is_Some (clusterSlots mc' !! c) <-> is_Some (clusterSlots mc !! c)) /\
    (forall c, clusterData mc' c = clusterData mc c) /\
    clustersNeedingReupload mc' = clustersNeedingReupload mc /\
    nextBatchID mc' = nextBatchID mc /\
    GrowthEvents (stats mc') = GrowthEvents (stats mc).
Proof.
  destruct (run_new sparseSecondBatch sparseSecondBatch_valid)
    as (mc & Hrun & Hr & I).
  destruct (X16_TryCompaction_keeps_clusters insertionSort mc
              insertionSort_sortContract Hr) as (mc' & Htry & H).
  assert (Hc : (mc ← run NewMemoryController sparseSecondBatch;
                r ← TryCompaction insertionSort mc;
                Some (alloc_batch <$> clusterSlots mc !! 64,
                      alloc_batch <$> clusterSlots r.2 !! 64,
                      SlotsRelocated (stats r.2)))
               = Some (Some 1%nat, Some 0%nat, 1))
    by (vm_compute; reflexivity).
  rewrite Hrun in Hc. cbn [mbind option_bind] in Hc.
  rewrite Htry in Hc. cbn [mbind option_bind snd] in Hc.
  injection Hc as H1 H2 H3.
  exists mc, mc'. split; [exact Hrun|]. split; [exact H1|]. split; [exact H2|].
  split; [exact H3|]. split; [exact Htry|exact H].
Defined.

(** X17. One call of [TryCompaction] deletes at most one batch, and only
    a batch it has emptied.  On a reachable controller either every pool
    lists the batches it listed and the count of deletions is unchanged,
    or one batch is gone from the list of one pool, the other pools list
    what they listed, the batch that went holds no active slot, and the
    count of deletions is one higher. *)
Theorem X17_TryCompaction_deletes_at_most_one
  (sortSlice : (nat -> nat -> bool) -> list nat -> list nat)
  (mc : MemoryController) :
  sortContract sortSlice -> reachable sortSlice mc ->
  exists mc',
    TryCompaction sortSlice mc = Some (ok, mc') /\
    (((forall q, batches (buckets mc' q) = batches (buckets mc q)) /\
      BatchDeletions (stats mc') = BatchDeletions (stats mc))
     \/
     exists p k,
       k ∈ batches (buckets mc p) /\
       (forall j, j ∈ batches (buckets mc' p) <->
                  j ∈ batches (buckets mc p) /\ j <> k) /\
       S (length (batches (buckets mc' p))) = length (batches (buckets mc p)) /\
       (forall q, q <> p -> batches (buckets mc' q) = batches (buckets mc q)) /\
       activeCount (heap mc') k = 0%nat /\
       BatchDeletions (stats mc') = int_add (BatchDeletions (stats mc)) 1).
Proof.
  intros Hsort Hr.
  pose proof (reachable_inv sortSlice mc Hr) as I.
  pose proof (reachable_geo sortSlice Hsort mc Hr) as G.
  destruct (TryCompaction_spec sortSlice Hsort mc I G)
    as (mc' & Hrun & _ & _ & (_ & _ & _ & _ & Hcases) & _).
  exists mc'. split; done.
Qed.

Lemma X17_TryCompaction_deletes_at_most_one_witness :
  exists mc mc',
    run NewMemoryController sparseSecondBatch = Some mc /\
    batches (buckets mc BucketXL) = [0%nat; 1%nat] /\
    batches (buckets mc' BucketXL) = [0%nat] /\
    TryCompaction insertionSort mc = Some (ok, mc') /\
    (((forall q, batches (buckets mc' q) = batches (buckets mc q)) /\
      BatchDeletions (stats mc') = BatchDeletions (stats mc))
     \/
     exists p k,
       k ∈ batches (buckets mc p) /\
       (forall j, j ∈ batches (buckets mc' p) <->
                  j ∈ batches (buckets mc p) /\ j <> k) /\
       S (length (batches (buckets mc' p))) = length (batches (buckets mc p)) /\
       (forall q, q <> p -> batches (buckets mc' q) = batches (buckets mc q)) /\
       activeCount (heap mc') k = 0%nat /\
       BatchDeletions (stats mc') = int_add (BatchDeletions (stats mc)) 1).
Proof.
  destruct (run_new sparseSecondBatch sparseSecondBatch_valid)
    as (mc & Hrun & Hr & I).
  destruct (X17_TryCompaction_deletes_at_most_one insertionSort mc
              insertionSort_sortContract Hr) as (mc' & Htry & H).
  assert (Hc : (mc ← run NewMemoryController sparseSecondBatch;
                r ← TryCompaction insertionSort mc;
                Some (batches (buckets mc BucketXL),
                      batches (buckets r.2 BucketXL)))
               = Some ([0%nat; 1%nat], [0%nat]))
    by (vm_compute; reflexivity).
  rewrite Hrun in Hc. cbn [mbind option_bind] in Hc.
  rewrite Htry in Hc. cbn [mbind option_bind snd] in Hc.
  injection Hc as H1 H2.
  exists mc, mc'. split; [exact Hrun|]. split; [exact H1|]. split; [exact H2|].
  split; [exact Htry|exact H].
Defined.

(** X18. [TryCompaction] leaves a controller without sparse batches as it
    is: when no listed batch has slots and a utilisation below
    [DefragThreshold], the call returns [nil] and the controller is
    unchanged. *)
Theorem X18_TryCompaction_nothing_sparse
  (sortSlice : (nat -> nat -> bool) -> list nat -> list nat)
  (mc : MemoryController) :
  sortContract sortSlice -> reachable sortSlice mc ->
  (forall p k, k ∈ batches (buckets mc p) -> sparseAt (heap mc) k = false) ->
  TryCompaction sortSlice mc = Some (ok, mc).
Proof.
  intros Hsort Hr Hnone.
  pose proof (reachable_inv sortSlice mc Hr) as I.
  pose proof (reachable_geo sortSlice Hsort mc Hr) as G.
  destruct (TryCompaction_spec sortSlice Hsort mc I G)
    as (mc' & Hrun & _ & _ & _ & Hsame & _).
  by rewrite <- (Hsame Hnone) at 2.
Qed.

Lemma X18_TryCompaction_nothing_sparse_witness :
  exists mc,
    run NewMemoryController (take 2 twoOversized) = Some mc /\
    TryCompaction insertionSort mc = Some (ok, mc).
Proof.
  destruct (run_new (take 2 twoOversized) ltac:(apply Forall_take, twoOversized_valid))
    as (mc & Hrun & Hr & I).
  assert (H : (fun m =>
                 forallb (fun p => forallb (fun k => negb (sparseAt (heap m) k))
                                     (batches (buckets m p))) bucketSizes)
                <$> run NewMemoryController (take 2 twoOversized) = Some true)
    by (vm_compute; reflexivity).
  rewrite Hrun in H. unfold fmap, option_fmap, option_map in H.
  injection H as H.
  exists mc. split; [exact Hrun|].
  apply (X18_TryCompaction_nothing_sparse insertionSort mc
           insertionSort_sortContract Hr).
  intros p k Hk. repeat (apply andb_prop in H as [?H H]).
  assert (Hp : forallb (fun k => negb (sparseAt (heap mc) k))
                 (batches (buckets mc p)) = true)
    by (destruct p; assumption).
  rewrite forallb_forall in Hp.
  apply list_elem_of_In in Hk. apply Hp in Hk. by apply negb_true_iff in Hk.
Defined.

(** X19. [TryCompaction] reclaims an empty batch: when a reachable
    controller lists a batch without active slots, one call takes one
    batch off the lists of the pools and counts one deletion. *)
Theorem X19_TryCompaction_reclaims_empty_batch
  (sortSlice : (nat -> nat -> bool) -> list nat -> list nat)
  (mc : MemoryController) (p : BucketSize) (k : nat) (b : Batch) :
  sortContract sortSlice -> reachable sortSlice mc ->
  k ∈ batches (buckets mc p) -> heap mc !! k = Some b ->
  activeSlots b = [] ->
  exists mc',
    TryCompaction sortSlice mc = Some (ok, mc') /\
    S (batchTotal mc') = batchTotal mc /\
    BatchDeletions (stats mc') = int_add (BatchDeletions (stats mc)) 1.
Proof.
  intros Hsort Hr Hk Hb Hempty.
  pose proof (reachable_inv sortSlice mc Hr) as I.
  pose proof (reachable_geo sortSlice Hsort mc Hr) as G.
  destruct (TryCompaction_spec sortSlice Hsort mc I G)
    as (mc' & Hrun & _ & _ & C & _ & Hless).
  exists mc'. split; [done|].
  assert (Hl : S (batchTotal mc') = batchTotal mc).
  { apply Hless. exists p, k, b. split; [done|]. split; [done|].
    split; [|done]. apply geoBatch_length. by eapply G. }
  split; [done|].
  destruct (compactedOnce_batchTotal mc mc' C) as [[Hsame _]|[_ Hdel]]; [lia|done].
Qed.

Lemma X19_TryCompaction_reclaims_empty_batch_witness :
  exists mc mc',
    run NewMemoryController comeAndGo = Some mc /\
    TryCompaction insertionSort mc = Some (ok, mc') /\
    S (batchTotal mc') = batchTotal mc /\
    BatchDeletions (stats mc') = int_add (BatchDeletions (stats mc)) 1.
Proof.
  destruct (run_new comeAndGo comeAndGo_valid) as (mc & Hrun & Hr & I).
  assert (H : (fun m => (batches (buckets m BucketS),
                         activeSlots <$> heap m !! 0%nat))
                <$> run NewMemoryController comeAndGo
              = Some ([0%nat], Some []))
    by (vm_compute; reflexivity).
  rewrite Hrun in H. simpl in H. injection H as H1 H2.
  assert (Hk : 0%nat ∈ batches (buckets mc BucketS)) by (rewrite H1; by left).
  destruct (heap mc !! 0%nat) as [b|] eqn:Hb; [|discriminate H2].
  simpl in H2. injection H2 as H2.
  destruct (X19_TryCompaction_reclaims_empty_batch insertionSort mc BucketS 0%nat b
              insertionSort_sortContract Hr Hk Hb H2) as (mc' & H).
  exists mc, mc'. split; [exact Hrun|exact H].
Defined.

(** ** Draw *)

Lemma int32_small z : 0 <= z < 2 ^ 31 -> int32 z = z.
Proof. intros H. unfold int32. rewrite Z.mod_small; lia. Qed.

Lemma Draw_slots_spec ss : forall idxs,
  (forall i, i ∈ idxs -> is_Some (ss !! i)) ->
  exists firsts counts,
    Draw_slots ss idxs = Some (firsts, counts) /\
    length firsts = length idxs /\ length counts = length idxs /\
    forall j i, idxs !! j = Some i ->
      exists s, ss !! i = Some s /\
                firsts !! j = Some (int32 (vertexOffset s)) /\
                counts !! j = Some (int32 (vertexCount s)).
Proof.
  induction idxs as [|i idxs IH]; intros Hin; simpl.
  - exists [], []. split; [done|]. split; [done|]. split; [done|].
    intros j i Hj. by rewrite lookup_nil in Hj.
  - destruct (Hin i ltac:(by left)) as [s Hs]. rewrite Hs. simpl.
    destruct IH as (firsts & counts & -> & Hlf & Hlc & Hall).
    { intros i' Hi'. apply Hin. by right. }
    simpl. eexists _, _. split; [done|]. simpl.
    split; [by rewrite Hlf|]. split; [by rewrite Hlc|].
    intros [|j] i' Hj; simpl in Hj.
    + injection Hj as <-. eauto.
    + by apply Hall.
Qed.

Lemma Draw_batches_app h : forall bs1 bs2 n,
  Draw_batches h (bs1 ++ bs2) n
  = '(calls1, n1) ← Draw_batches h bs1 n;
    '(calls2, n2) ← Draw_batches h bs2 n1;
    Some (calls1 ++ calls2, n2).
Proof.
  induction bs1 as [|k bs1 IH]; intros bs2 n; simpl.
  - by destruct (Draw_batches h bs2 n) as [[??]|].
  - destruct (h !! k) as [b|]; [|done]. simpl.
    destruct (length (activeSlots b) =? 0)%nat; [apply IH|].
    destruct (Draw_slots _ _) as [[firsts counts]|]; [|done]. simpl.
    rewrite IH.
    destruct (Draw_batches h bs1 _) as [[calls1 n1]|]; [|done]. simpl.
    by destruct (Draw_batches h bs2 n1) as [[??]|].
Qed.

Lemma Draw_pools_join mc : forall sizes n,
  Draw_pools mc sizes n
  = Draw_batches (heap mc)
      (mjoin ((fun p => batches (buckets mc p)) <$> sizes)) n.
Proof.
  induction sizes as [|p sizes IH]; intros n; [done|].
  change (mjoin ((fun p => batches (buckets mc p)) <$> p :: sizes))
    with (batches (buckets mc p)
          ++ mjoin ((fun p => batches (buckets mc p)) <$> sizes)).
  rewrite Draw_batches_app. simpl.
  destruct (Draw_batches _ _ n) as [[calls1 n1]|]; [|done]. simpl.
  by rewrite IH.
Qed.

(** The calls made for a list of batches that are in order. *)
Lemma Draw_batches_spec h : forall bs a,
  (forall k, k ∈ bs ->
     exists b, h !! k = Some b /\
               forall i, i ∈ activeSlots b -> is_Some (slots b !! i)) ->
  exists calls,
    Draw_batches h bs (wrap a)
    = Some (calls, wrap (a + Z.of_nat (length calls))) /\
    draw_batch <$> calls = filter (fun k => activeCount h k <> 0%nat) bs /\
    sum_list ((fun call => length (draw_firsts call)) <$> calls)
    = sum_list (activeCount h <$> bs) /\
    forall call, call ∈ calls ->
      exists b,
        h !! draw_batch call = Some b /\
        activeSlots b <> [] /\
        Draw_slots (slots b) (activeSlots b)
        = Some (draw_firsts call, draw_counts call) /\
        draw_n call = int32 (Z.of_nat (length (draw_firsts call))).
Proof.
  induction bs as [|k bs IH]; intros a Hin; simpl.
  - exists []. rewrite Z.add_0_r. split; [done|]. split; [done|].
    split; [done|]. intros call Hc. by apply elem_of_nil in Hc.
  - destruct (Hin k ltac:(by left)) as (b & Hb & Hrange). rewrite Hb. simpl.
    assert (Hin' : forall k', k' ∈ bs ->
              exists b, h !! k' = Some b /\
                        forall i, i ∈ activeSlots b -> is_Some (slots b !! i)).
    { intros k' Hk'. apply Hin. by right. }
    assert (Hcount : activeCount h k = length (activeSlots b))
      by (unfold activeCount; by rewrite Hb).
    destruct (length (activeSlots b) =? 0)%nat eqn:E.
    + apply Nat.eqb_eq in E.
      destruct (IH a Hin') as (calls & Hrun & Hks & Hsum & Hcalls).
      exists calls. split; [done|].
      rewrite filter_cons_False by (rewrite Hcount; lia).
      split; [done|]. split; [|done].
      rewrite Hsum, Hcount, E. done.
    + apply Nat.eqb_neq in E.
      destruct (Draw_slots_spec (slots b) (activeSlots b) Hrange)
        as (firsts & counts & Hslots & Hlf & Hlc & _).
      rewrite Hslots. simpl.
      unfold int_add. rewrite wrap_add_l.
      destruct (IH (a + 1) Hin') as (calls & Hrun & Hks & Hsum & Hcalls).
      rewrite Hrun. simpl. eexists. split.
      { do 3 f_equal. simpl length. lia. }
      rewrite filter_cons_True by (rewrite Hcount; lia).
      split; [by rewrite fmap_cons, Hks|].
      split.
      { rewrite !fmap_cons. simpl. rewrite Hsum, Hlf, Hcount. done. }
      intros call Hc. apply elem_of_cons in Hc as [->|Hc]; [|by apply Hcalls].
      simpl. exists b. split; [done|]. split; [|done].
      intros Hnil. by rewrite Hnil in E.
Qed.

Lemma NoDup_bounded_length (l : list nat) (n : nat) :
  NoDup l -> (forall i, i ∈ l -> (i < n)%nat) -> (length l <= n)%nat.
Proof.
  intros Hnd Hlt. rewrite <- (length_seq n 0).
  apply submseteq_length, NoDup_submseteq; [done|].
  intros i Hi. apply elem_of_seq. specialize (Hlt i Hi). lia.
Qed.

(** In a batch whose layout is in order the slots are few, and the
    ranges of the active ones fit an [int32] but for the counts of the
    XXL class. *)
Lemma geoBatch_int32 b i s :
  geoBatch b ->
  (bucketSize b = BucketXXL -> vertexOffset s = 0) ->
  slots b !! i = Some s -> active s = true ->
  (length (slots b) <= 1024)%nat /\
  0 <= vertexOffset s < 2 ^ 31 /\
  1 <= vertexCount s /\
  (bucketSize b <> BucketXXL -> vertexCount s < 2 ^ 31).
Proof.
  intros G Hoff Hs Ha. pose proof G as [Hcnt G'].
  specialize (Hcnt _ _ Hs). rewrite Ha in Hcnt.
  destruct (decide (bucketSize b = BucketXXL)) as [Hx|Hx].
  - destruct G' as (Hlen & _). rewrite Hlen, (Hoff Hx).
    split; [lia|]. split; [lia|]. split; [done|]. done.
  - destruct (geoBatch_bounds b G Hx) as (Hcap & Hlen & _).
    cbv zeta in G'. destruct G' as (_ & _ & _ & _ & Hslots).
    destruct (Hslots _ _ Hs) as [Ho Hle]. specialize (Hle Ha).
    apply lookup_lt_Some in Hs.
    split; [lia|]. split; [rewrite Ho; nia|]. split; [done|]. intros _. lia.
Qed.

(** What [Draw] does on a controller in order. *)
Lemma Draw_spec mc :
  inv mc -> geo mc ->
  exists calls,
    Draw mc = Some (ok, calls, wrap (Z.of_nat (length calls))) /\
    NoDup (draw_batch <$> calls) /\
    (forall k, k ∈ draw_batch <$> calls <->
               (exists p, k ∈ batches (buckets mc p)) /\
               activeCount (heap mc) k <> 0%nat) /\
    sum_list ((fun call => length (draw_firsts call)) <$> calls)
    = size (clusterSlots mc) /\
    forall call, call ∈ calls ->
      exists b,
        heap mc !! draw_batch call = Some b /\
        activeSlots b <> [] /\
        length (draw_firsts call) = length (activeSlots b) /\
        length (draw_counts call) = length (activeSlots b) /\
        draw_n call = Z.of_nat (length (draw_firsts call)) /\
        forall j i, activeSlots b !! j = Some i ->
          exists s, slots b !! i = Some s /\ active s = true /\
                    draw_firsts call !! j = Some (vertexOffset s) /\
                    draw_counts call !! j = Some (int32 (vertexCount s)).
Proof.
  intros I G. unfold Draw. change [BucketS; BucketM; BucketL; BucketXL; BucketXXL]
    with bucketSizes.
  rewrite Draw_pools_join.
  destruct (Draw_batches_spec (heap mc)
              (mjoin ((fun p => batches (buckets mc p)) <$> bucketSizes)) 0)
    as (calls & Hrun & Hks & Hsum & Hcalls).
  { intros k Hk. apply allBatches_elem in Hk as [p Hk].
    destruct (Inv_batches _ _ _ _ I p k Hk) as (b & Hb & _).
    exists b. split; [done|]. intros i Hi.
    destruct (Inv_heap _ _ _ _ I k b Hb) as (_ & _ & _ & _ & Hiff & _).
    apply Hiff in Hi as (s & Hs & _). eauto. }
  change (wrap 0) with 0 in Hrun. rewrite Hrun. simpl.
  exists calls. split; [done|]. split.
  { rewrite Hks. apply NoDup_filter. by apply allBatches_NoDup. }
  split.
  { intros k. rewrite Hks, list_elem_of_filter, allBatches_elem. tauto. }
  split.
  { rewrite Hsum, sum_list_join, <- list_fmap_compose.
    by rewrite <- inv_active_total. }
  intros call Hc. destruct (Hcalls call Hc) as (b & Hb & Hne & Hslots & Hn).
  exists b. split; [done|]. split; [done|].
  destruct (Inv_heap _ _ _ _ I _ b Hb) as (_ & _ & _ & Hnd & Hiff & Hoff).
  destruct (Draw_slots_spec (slots b) (activeSlots b))
    as (firsts & counts & Hslots' & Hlf & Hlc & Hall).
  { intros i Hi. apply Hiff in Hi as (s & Hs & _). eauto. }
  rewrite Hslots' in Hslots. injection Hslots as Hf Hcs.
  rewrite <- Hf, <- Hcs in *. clear Hf Hcs.
  split; [done|]. split; [done|].
  assert (Hfirst : exists i s, slots b !! i = Some s /\ active s = true).
  { destruct (activeSlots b) as [|i rest] eqn:E; [done|].
    destruct (proj1 (Hiff i) ltac:(by left)) as (s & Hs & Ha). eauto. }
  destruct Hfirst as (i0 & s0 & Hs0 & Ha0).
  destruct (geoBatch_int32 b i0 s0 (G _ _ Hb)
              (fun Hx => Hoff Hx _ _ Hs0) Hs0 Ha0) as (Hlen & _).
  split.
  { rewrite Hn. apply int32_small. rewrite Hlf.
    pose proof (NoDup_bounded_length (activeSlots b) (length (slots b)) Hnd) as Hle.
    assert (length (activeSlots b) <= length (slots b))%nat.
    { apply Hle. intros i Hi. apply Hiff in Hi as (s & Hs & _).
      by eapply lookup_lt_Some. }
    lia. }
  intros j i Hj. destruct (Hall j i Hj) as (s & Hs & Hfj & Hcj).
  assert (Ha : active s = true).
  { destruct (proj1 (Hiff i)) as (s' & Hs' & Ha').
    - by eapply list_elem_of_lookup_2.
    - congruence. }
  exists s. split; [done|]. split; [done|]. split; [|done].
  destruct (geoBatch_int32 b i s (G _ _ Hb) (fun Hx => Hoff Hx _ _ Hs) Hs Ha)
    as (_ & Ho & _).
  by rewrite <- (int32_small (vertexOffset s)).
Qed.

(** X20. [Draw] makes one call of [gl.MultiDrawArrays] for every listed
    batch that holds a cluster, and none for the others.  On a reachable
    controller it returns [nil] and does not panic; no batch is drawn
    twice; no call is made without ranges, and the number of ranges
    passed with a call is the length of its arrays; the ranges of all
    calls are as many as the clusters with a record; and the count kept
    as [DrawCallsPerFrame] is the number of calls. *)
Theorem X20_Draw_one_call_per_batch
  (sortSlice : (nat -> nat -> bool) -> list nat -> list nat)
  (mc : MemoryController) :
  sortContract sortSlice -> reachable sortSlice mc ->
  exists calls,
    Draw mc = Some (ok, calls, wrap (Z.of_nat (length calls))) /\
    NoDup (draw_batch <$> calls) /\
    (forall k, k ∈ draw_batch <$> calls <->
               (exists p, k ∈ batches (buckets mc p)) /\
               activeCount (heap mc) k <> 0%nat) /\
    (forall call, call ∈ calls ->
       draw_firsts call <> [] /\
       length (draw_counts call) = length (draw_firsts call) /\
       draw_n call = Z.of_nat (length (draw_firsts call))) /\
    sum_list ((fun call => length (draw_firsts call)) <$> calls)
    = size (clusterSlots mc).
Proof.
  intros Hsort Hr.
  pose proof (reachable_inv sortSlice mc Hr) as I.
  pose proof (reachable_geo sortSlice Hsort mc Hr) as G.
  destruct (Draw_spec mc I G) as (calls & Hrun & Hnd & Hks & Hsum & Hcalls).
  exists calls. split; [done|]. split; [done|]. split; [done|].
  split; [|done].
  intros call Hc. destruct (Hcalls call Hc) as (b & _ & Hne & Hlf & Hlc & Hn & _).
  split; [|split; [congruence|done]].
  intros Hnil. rewrite Hnil in Hlf. destruct (activeSlots b); done.
Qed.

Lemma X20_Draw_one_call_per_batch_witness :
  exists mc calls,
    run NewMemoryController twoSmall = Some mc /\
    Draw mc = Some (ok, calls, wrap (Z.of_nat (length calls))) /\
    NoDup (draw_batch <$> calls) /\
    (forall k, k ∈ draw_batch <$> calls <->
               (exists p, k ∈ batches (buckets mc p)) /\
               activeCount (heap mc) k <> 0%nat) /\
    (forall call, call ∈ calls ->
       draw_firsts call <> [] /\
       length (draw_counts call) = length (draw_firsts call) /\
       draw_n call = Z.of_nat (length (draw_firsts call))) /\
    sum_list ((fun call => length (draw_firsts call)) <$> calls)
    = size (clusterSlots mc).
Proof.
  destruct (run_new twoSmall twoSmall_valid) as (mc & Hrun & Hr & I).
  destruct (X20_Draw_one_call_per_batch insertionSort mc
              insertionSort_sortContract Hr) as (calls & H).
  exists mc, calls. split; [exact Hrun|exact H].
Defined.

(** X21. [Draw] draws the clusters that have a record, and nothing else.
    On a reachable controller the range of every recorded cluster, from
    the offset of its slot over the vertex count of its slot, is passed
    with the call for its batch, the count as the [int32] it converts
    to, which is the count itself outside the XXL class and below 2^31
    vertices; and every range passed with a call is the range of the
    slot of a recorded cluster of that batch. *)
Theorem X21_Draw_draws_the_clusters
  (sortSlice : (nat -> nat -> bool) -> list nat -> list nat)
  (mc : MemoryController) :
  sortContract sortSlice -> reachable sortSlice mc ->
  exists calls n,
    Draw mc = Some (ok, calls, n) /\
    (forall c a b s,
       clusterSlots mc !! c = Some a ->
       heap mc !! alloc_batch a = Some b ->
       slots b !! alloc_slotIndex a = Some s ->
       drawn calls (alloc_batch a) (vertexOffset s) (int32 (vertexCount s)) /\
       (bucketSize b <> BucketXXL \/ vertexCount s < 2 ^ 31 ->
        int32 (vertexCount s) = vertexCount s)) /\
    (forall k first count,
       drawn calls k first count ->
       exists c a b s,
         clusterSlots mc !! c = Some a /\ alloc_batch a = k /\
         heap mc !! k = Some b /\
         slots b !! alloc_slotIndex a = Some s /\
         first = vertexOffset s /\ count = int32 (vertexCount s)).
Proof.
  intros Hsort Hr.
  pose proof (reachable_inv sortSlice mc Hr) as I.
  pose proof (reachable_geo sortSlice Hsort mc Hr) as G.
  destruct (Draw_spec mc I G) as (calls & Hrun & Hnd & Hks & Hsum & Hcalls).
  exists calls, (wrap (Z.of_nat (length calls))). split; [done|]. split.
  - intros c a b s Ha Hb Hs.
    destruct (Inv_rec _ _ _ _ I c a Ha) as (b0 & s0 & Hb0 & Hs0 & Hact & Hown).
    assert (b0 = b) by congruence. subst b0.
    assert (s0 = s) by congruence. subst s0.
    destruct (Inv_heap _ _ _ _ I _ b Hb) as (_ & _ & _ & _ & Hiff & Hoff).
    destruct (geoBatch_int32 b _ s (G _ _ Hb) (fun Hx => Hoff Hx _ _ Hs) Hs Hact)
      as (_ & _ & Hpos & Hsmall).
    split.
    2:{ intros H. apply int32_small. split; [lia|].
        destruct (decide (bucketSize b = BucketXXL)) as [Hx|Hx]; [|by apply Hsmall].
        destruct H as [H|H]; done. }
    assert (Hi : alloc_slotIndex a ∈ activeSlots b) by (apply Hiff; eauto).
    assert (Hk : alloc_batch a ∈ draw_batch <$> calls).
    { apply Hks. split.
      - destruct (Inv_owner _ _ _ _ I _ _ _ _ Hb Hs Hact) as [Hlisted _]. eauto.
      - unfold activeCount. rewrite Hb. destruct (activeSlots b); [|done].
        by apply elem_of_nil in Hi. }
    apply list_elem_of_fmap in Hk as (call & Hk & Hc).
    destruct (Hcalls call Hc) as (b' & Hb' & _ & _ & _ & _ & Hall).
    rewrite <- Hk in Hb'. assert (b' = b) by congruence. subst b'.
    apply list_elem_of_lookup in Hi as [j Hj].
    destruct (Hall j _ Hj) as (s' & Hs' & _ & Hfj & Hcj).
    assert (s' = s) by congruence. subst s'.
    exists call, j. done.
  - intros k first count (call & j & Hc & Hk & Hfj & Hcj).
    destruct (Hcalls call Hc) as (b & Hb & _ & Hlf & _ & _ & Hall).
    rewrite Hk in Hb.
    apply lookup_lt_Some in Hfj as Hlt. rewrite Hlf in Hlt.
    apply lookup_lt_is_Some in Hlt as [i Hi].
    destruct (Hall j i Hi) as (s & Hs & Ha & Hfj' & Hcj').
    destruct (Inv_owner _ _ _ _ I _ _ _ _ Hb Hs Ha) as (_ & a & Hrec & Hab & Hai).
    exists (clusterID s), a, b, s. rewrite Hai.
    split; [done|]. split; [done|]. split; [done|]. split; [done|].
    split; congruence.
Qed.

Lemma X21_Draw_draws_the_clusters_witness :
  exists mc calls n,
    run NewMemoryController twoSmall = Some mc /\
    Draw mc = Some (ok, calls, n) /\
    (forall c a b s,
       clusterSlots mc !! c = Some a ->
       heap mc !! alloc_batch a = Some b ->
       slots b !! alloc_slotIndex a = Some s ->
       drawn calls (alloc_batch a) (vertexOffset s) (int32 (vertexCount s)) /\
       (bucketSize b <> BucketXXL \/ vertexCount s < 2 ^ 31 ->
        int32 (vertexCount s) = vertexCount s)) /\
    (forall k first count,
       drawn calls k first count ->
       exists c a b s,
         clusterSlots mc !! c = Some a /\ alloc_batch a = k /\
         heap mc !! k = Some b /\
         slots b !! alloc_slotIndex a = Some s /\
         first = vertexOffset s /\ count = int32 (vertexCount s)).
Proof.
  destruct (run_new twoSmall twoSmall_valid) as (mc & Hrun & Hr & I).
  destruct (X21_Draw_draws_the_clusters insertionSort mc
              insertionSort_sortContract Hr) as (calls & n & H).
  exists mc, calls, n. split; [exact Hrun|exact H].
Defined.
